(** * Jellyfish: packed concurrent hash counters

    A shallow embedding of [jellyfish/packed_concurrent_hash_counters.hpp]:
    the generation [arys_t], its iterator, the per-thread handle
    [thread_hash_counter] and the root [concurrent_hash_counter], followed
    by the properties of the specification that were checked against it.

    Machine integers.  They are [Z] with the wrap-around written out
    ([u32], [u64], [uV]); [unsigned int] is 32 bits and [unsigned long],
    [uint64_t], [size_t] are 64 bits (LP64).

    Memory.  Pointers to generations are addresses into a heap of live
    objects; [new] takes the next address, [delete] removes the object
    and logs the address, and the use of a deleted or null pointer is a
    [Fault].

    Threads.  The functions of the handle are the code of one thread run
    on its own.  The resize mutex is free unless the state says that
    another thread holds it; the barrier lets the thread through only
    when it was sized for one worker; the compare-and-swap loop of
    [arys_t::add] takes what other threads store in the counter as an
    explicit list.  Loops that the code does not bound run on [fuel]. *)

From Stdlib Require Import ZArith Lia List Bool.
From stdpp Require Import base option list gmap.

Open Scope Z_scope.

(** ** Machine arithmetic *)

Definition u32 (x : Z) : Z := x mod 2 ^ 32.
Definition u64 (x : Z) : Z := x mod 2 ^ 64.

(** A value of the template parameter [Val], an unsigned integer of
    [sizeof_Val] bytes. *)
Definition Val_bits (sizeof_Val : Z) : Z := 8 * sizeof_Val.
Definition Val_modulus (sizeof_Val : Z) : Z := 2 ^ Val_bits sizeof_Val.
Definition uV (sizeof_Val : Z) (x : Z) : Z := x mod Val_modulus sizeof_Val.
Definition ALL_ONES (sizeof_Val : Z) : Z := Val_modulus sizeof_Val - 1.

(** [~c] stored back into a [Val]. *)
Definition Val_not (sizeof_Val : Z) (c : Z) : Z := uV sizeof_Val (Z.lnot c).

(** ** Results of partial operations *)

Inductive result (A : Type) : Type :=
| Done (a : A)          (* the call returned *)
| OutOfFuel             (* the model ran out of steps *)
| Blocked               (* waiting for another thread: mutex or barrier *)
| Exit                  (* perror + exit(1) after a failed allocation *)
| BadSize               (* throw new bad_size_exception *)
| Fault.                (* access to a freed or null generation *)
Arguments Done {A} a.
Arguments OutOfFuel {A}.
Arguments Blocked {A}.
Arguments Exit {A}.
Arguments BadSize {A}.
Arguments Fault {A}.

Definition rbind {A B} (r : result A) (f : A -> result B) : result B :=
  match r with
  | Done a => f a
  | OutOfFuel => OutOfFuel
  | Blocked => Blocked
  | Exit => Exit
  | BadSize => BadSize
  | Fault => Fault
  end.

#[global] Instance result_ret : MRet result := fun A a => Done a.
#[global] Instance result_bind : MBind result := fun A B f r => rbind r f.

(** ** Little-endian bytes *)

(** [n] bytes of [x], least significant first. *)
Fixpoint le_bytes (n : nat) (x : Z) : list Z :=
  match n with
  | O => []
  | S n' => (x mod 256) :: le_bytes n' (x / 256)
  end.

Fixpoint le_value (bs : list Z) : Z :=
  match bs with
  | [] => 0
  | b :: bs' => b + 256 * le_value bs'
  end.

(** The first [count] cells of [width] bytes each found in [bs]. *)
Fixpoint le_cells (width : nat) (count : nat) (bs : list Z) : list Z :=
  match count with
  | O => []
  | S c => le_value (take width bs) :: le_cells width c (drop width bs)
  end.

(** ** The packed key array *)

Module small_packed_array.

(** Modelled from the spec: [jellyfish/small_packed_array.hpp] is not
    part of the sources at hand.  Section 4.1 describes a dense array of
    [N] cells of [K] bits, a presence bit and [K-1] payload bits each,
    packed into aligned machine words, with the operations [set], [get],
    [get_data_len] and [write].  A cell is [None] when its presence bit
    is clear and [Some p] when it is set with payload [p]. *)
Record t := mk {
  item_len : Z;
  size : Z;
  cells : list (option Z)
}.

(** Modelled from the spec: the [K-1] payload bits kept of a key. *)
Definition payload (K : Z) (k : Z) : Z := k mod 2 ^ (K - 1).

(** Modelled from the spec: a new array has every presence bit clear. *)
Definition new (K N : Z) : t :=
  mk K N (replicate (Z.to_nat N) None).

(** Modelled from the spec: [get(i, *k_out)] is true and fills the key
    when the cell is occupied, false when it is empty. *)
Definition get (a : t) (i : Z) : option Z :=
  if (0 <=? i) && (i <? size a)
  then mjoin (cells a !! Z.to_nat i)
  else None.

(** Modelled from the spec: [set(i, k)] installs [k] in an empty cell
    and answers true, answers true when the cell already holds [k], and
    answers false, changing nothing, when it holds another key.  An
    index past the end has no cell; the model answers false. *)
Definition set (a : t) (i : Z) (k : Z) : bool * t :=
  let p := payload (item_len a) k in
  if (0 <=? i) && (i <? size a) then
    match mjoin (cells a !! Z.to_nat i) with
    | None => (true, mk (item_len a) (size a) (<[Z.to_nat i := Some p]> (cells a)))
    | Some p' => (p' =? p, a)
    end
  else (false, a).

(** Modelled from the spec: the [K] bits of a cell, the presence bit
    and then the payload. *)
Definition cell_bits (K : Z) (c : option Z) : Z :=
  match c with
  | None => 0
  | Some p => (1 + 2 * p) mod 2 ^ K
  end.

Definition cell_of_bits (w : Z) : option Z :=
  if Z.odd w then Some (w / 2) else None.

(** Modelled from the spec: the packed layout, the cells side by side
    with cell 0 in the low bits. *)
Fixpoint pack (K : Z) (cs : list (option Z)) : Z :=
  match cs with
  | [] => 0
  | c :: cs' => cell_bits K c + 2 ^ K * pack K cs'
  end.

Fixpoint unpack (K : Z) (n : nat) (x : Z) : list (option Z) :=
  match n with
  | O => []
  | S n' => cell_of_bits (x mod 2 ^ K) :: unpack K n' (x / 2 ^ K)
  end.

(** Modelled from the spec: the footprint in bytes, whole 64-bit
    words covering [N] cells of [K] bits. *)
Definition data_len (K N : Z) : Z := 8 * ((K * N + 63) / 64).

Definition get_data_len (a : t) : Z := data_len (item_len a) (size a).

(** Modelled from the spec: [write] emits the raw bit-packed buffer. *)
Definition write (a : t) : list Z :=
  le_bytes (Z.to_nat (get_data_len a)) (pack (item_len a) (cells a)).

(** Modelled from the spec: the array placed over an existing buffer
    [map] reads its cells from the first [data_len] bytes. *)
Definition of_map (map : list Z) (K N : Z) : t :=
  mk K N (unpack K (Z.to_nat N)
            (le_value (take (Z.to_nat (data_len K N)) map))).

(** The cells a [K]-bit layout can hold: [N] of them, each payload of
    [K-1] bits. *)
Definition wf (a : t) : Prop :=
  1 <= item_len a
  ∧ size a = Z.of_nat (length (cells a))
  ∧ Forall (λ c, ∀ p, c = Some p -> 0 <= p < 2 ^ (item_len a - 1)) (cells a).

End small_packed_array.

(** ** The generation: [arys_t] *)

Module arys_t.

(** [next] is an address in the heap of generations, [None] for NULL. *)
Record t := mk {
  keys : small_packed_array.t;
  vals : list Z;
  size : Z;
  mod_mask : Z;
  nb_elt : Z;
  count : Z;
  next : option nat;
  allocated : bool;
  copy_chunck : Z
}.

Definition set_keys (g : t) (x : small_packed_array.t) : t :=
  mk x (vals g) (size g) (mod_mask g) (nb_elt g) (count g) (next g)
     (allocated g) (copy_chunck g).
Definition set_vals (g : t) (x : list Z) : t :=
  mk (keys g) x (size g) (mod_mask g) (nb_elt g) (count g) (next g)
     (allocated g) (copy_chunck g).
Definition set_count (g : t) (x : Z) : t :=
  mk (keys g) (vals g) (size g) (mod_mask g) (nb_elt g) x (next g)
     (allocated g) (copy_chunck g).
Definition set_next (g : t) (x : option nat) : t :=
  mk (keys g) (vals g) (size g) (mod_mask g) (nb_elt g) (count g) x
     (allocated g) (copy_chunck g).
Definition set_copy_chunck (g : t) (x : Z) : t :=
  mk (keys g) (vals g) (size g) (mod_mask g) (nb_elt g) (count g) (next g)
     (allocated g) x.

(** [size = 1; while(_size > size) { size <<= 1; }] on a 64-bit
    [unsigned long]; [None] when the steps run out. *)
Fixpoint round_up (fuel : nat) (_size size : Z) : option Z :=
  match fuel with
  | O => None
  | S fuel' =>
      if _size >? size then round_up fuel' _size (u64 (Z.shiftl size 1))
      else Some size
  end.

(** After 64 shifts [size] is 0 and stays 0: a loop that has not
    left by then never does (see [round_up_steps_enough]). *)
Definition round_up_steps : nat := 65.

Section Generation.

(** [sizeof(Val)] and the template parameter [alloc]: given a number
    of bytes, the memory seen through a [Val *], or [None] for NULL. *)
Variable sizeof_Val : Z.
Variable alloc : Z -> option (list Z).

(** The owned-memory constructor, lines 112-128, without the link to
    [prev], which needs the heap (see [thread_hash_counter.new_arys]). *)
Definition new (_item_len _size : Z) : result t :=
  match round_up round_up_steps _size 1 with
  | None => OutOfFuel
  | Some size =>
      let keys := small_packed_array.new _item_len size in
      match alloc (u64 (sizeof_Val * size)) with
      | None => Exit
      | Some vals =>
          Done (mk keys vals size (u64 (size - 1)) 0 0 None true 0)
      end
  end.

(** The memory after the key buffer, seen through a [Val *]. *)
Definition vals_of_map (map : list Z) (data_len : Z) : list Z :=
  let rest := drop (Z.to_nat data_len) map in
  le_cells (Z.to_nat sizeof_Val)
           (length rest / Z.to_nat sizeof_Val)%nat rest.

(** The constructor over a mapped buffer, lines 130-139. *)
Definition of_map (_item_len _size : Z) (map : list Z) : result t :=
  match round_up round_up_steps _size 1 with
  | None => OutOfFuel
  | Some size =>
      if negb (_size =? size) then BadSize
      else
        let keys := small_packed_array.of_map map _item_len _size in
        let vals := vals_of_map map (small_packed_array.get_data_len keys) in
        Done (mk keys vals size (u64 (size - 1)) 0 0 None false 0)
  end.

(** [out.write((char * )vals, sizeof(Val) * size)] after the keys. *)
Definition vals_bytes (vs : list Z) : list Z :=
  flat_map (le_bytes (Z.to_nat sizeof_Val)) vs.

Definition write (g : t) : list Z :=
  small_packed_array.write (keys g)
    ++ take (Z.to_nat (u64 (sizeof_Val * size g))) (vals_bytes (vals g)).

(** The compare-and-swap loop of [add], lines 162-175.  [cval] is the
    content of the counter as last read; [intf] lists, for each
    compare-and-swap in turn, the content another thread has stored in
    the counter just before it (no entry: the counter is as last read
    and the swap succeeds).  The result is the content of the counter
    when [add] returns. *)
Fixpoint add_loop (intf : list Z) (cval val : Z) : Z :=
  let ncval := Val_not sizeof_Val cval in
  if ncval =? 0 then cval
  else
    let nval := if ncval <? val then 0 else uV sizeof_Val (cval + val) in
    match intf with
    | [] => nval
    | seen :: intf' =>
        if seen =? cval then nval else add_loop intf' seen val
    end.

(** [add], lines 153-176.  An index outside [vals] is a fault. *)
Definition add (intf : list Z) (g : t) (idx key val : Z) : result (bool * t) :=
  let '(ok, keys') := small_packed_array.set (keys g) idx key in
  if negb ok then Done (false, g)
  else
    match vals g !! Z.to_nat idx with
    | None => Fault
    | Some cval =>
        Done (true, set_vals (set_keys g keys')
                      (<[Z.to_nat idx := add_loop intf cval val]> (vals g)))
    end.

Definition inc (intf : list Z) (g : t) (idx key : Z) : result (bool * t) :=
  add intf g idx key 1.

(** [get], lines 183-192. *)
Definition get (g : t) (idx : Z) : result (option (Z * Z)) :=
  match small_packed_array.get (keys g) idx with
  | None => Done None
  | Some key =>
      match vals g !! Z.to_nat idx with
      | None => Fault
      | Some val => Done (Some (key, val))
      end
  end.

End Generation.

Definition rewind_chunck (g : t) : t := set_copy_chunck g 0.

(** [get_chunck], lines 202-213: the cursor is fetched and incremented
    whether or not a chunk is left. *)
Definition get_chunck (g : t) : t * option (Z * Z) :=
  let i := copy_chunck g in
  let g' := set_copy_chunck g (u32 (i + 1)) in
  if i >=? 128 then (g', None)
  else
    let size_chunck := Z.shiftr (size g) 7 in
    let start := u64 (i * size_chunck) in
    let end_ := u64 (start + size_chunck) in
    (g', Some (start, if end_ >? size g then size g else end_)).

Definition ref_inc (g : t) : Z * t :=
  let c := u32 (count g + 1) in (c, set_count g c).

Definition ref_dec (g : t) : Z * t :=
  let c := u32 (count g - 1) in (c, set_count g c).

End arys_t.

(** ** The iterator: [arys_iterator] *)

Module arys_iterator.

Record t := mk { pos : Z; key : Z; val : Z }.

Definition new : t := mk 0 0 0.
Definition rewind (it : t) : t := mk 0 (key it) (val it).

(** [next], lines 64-70, on the generation [ary] the iterator points
    to; [fuel] bounds the turns of the [while]. *)
Fixpoint next_loop (fuel : nat) (ary : arys_t.t) (it : t) : result (bool * t) :=
  if pos it <? arys_t.size ary then
    match fuel with
    | O => OutOfFuel
    | S fuel' =>
        r ← arys_t.get ary (pos it);
        match r with
        | Some (k, v) => Done (true, mk (u64 (pos it + 1)) k v)
        | None => next_loop fuel' ary (mk (u64 (pos it + 1)) (key it) (val it))
        end
    end
  else Done (false, it).

Definition next (ary : arys_t.t) (it : t) : result (bool * t) :=
  next_loop (Z.to_nat (arys_t.size ary - pos it)) ary it.

(** The pairs produced by calling [next] until it answers false. *)
Fixpoint drain (fuel : nat) (ary : arys_t.t) (it : t) : result (list (Z * Z)) :=
  match fuel with
  | O => OutOfFuel
  | S fuel' =>
      r ← next ary it;
      match r with
      | (true, it') => rest ← drain fuel' ary it'; Done ((key it', val it') :: rest)
      | (false, _) => Done []
      end
  end.

Definition iterate (ary : arys_t.t) : result (list (Z * Z)) :=
  drain (S (Z.to_nat (arys_t.size ary))) ary new.

End arys_iterator.

(** ** The heap of generations *)

Module heap.

(** [objs] holds the live generations; [brk] is the address the next
    [new arys_t] gets, so addresses grow in creation order; [freed]
    logs the addresses given to [delete], first deleted first. *)
Record t := mk {
  objs : gmap nat arys_t.t;
  brk : nat;
  freed : list nat
}.

Definition empty : t := mk ∅ O [].

Definition lookup (m : t) (a : nat) : result arys_t.t :=
  match objs m !! a with
  | Some g => Done g
  | None => Fault
  end.

Definition store (m : t) (a : nat) (g : arys_t.t) : t :=
  mk (<[a := g]> (objs m)) (brk m) (freed m).

Definition alloc (m : t) (g : arys_t.t) : nat * t :=
  (brk m, mk (<[brk m := g]> (objs m)) (S (brk m)) (freed m)).

Definition delete (m : t) (a : nat) : t :=
  mk (base.delete a (objs m)) (brk m) (freed m ++ [a]).

End heap.

(** The fields of the root, [concurrent_hash_counter], lines 276-283.
    [resize_lock] is true while another thread holds the mutex;
    [resize_barrier] is the number of threads the barrier waits for. *)
Record table_root := mk_root {
  root_key_len : Z;
  root_key_val_arys : nat;
  root_max_reprobe : Z;
  root_resize_lock : bool;
  root_resize_barrier : Z
}.

Record state := mk_state {
  mem : heap.t;
  root : table_root
}.

Definition set_mem (s : state) (m : heap.t) : state := mk_state m (root s).
Definition set_head (s : state) (a : nat) : state :=
  mk_state (mem s)
    (mk_root (root_key_len (root s)) a (root_max_reprobe (root s))
             (root_resize_lock (root s)) (root_resize_barrier (root s))).

(** ** The per-thread handle: [thread_hash_counter] *)

Module thread_hash_counter.

(** [key_val_arys_ptr], [resize_lock], [resize_barrier] and [stats]
    point into the root, which the functions below take in [state]. *)
Record t := mk {
  key_len : Z;
  key_val_arys : nat;
  max_reprobe : Z;
  emax_reprobe : Z
}.

Definition set_key_val_arys (h : t) (a : nat) : t :=
  mk (key_len h) a (max_reprobe h) (emax_reprobe h).

(** *** MurmurHash64A, lines 396-437 *)

Definition murmur_m : Z := 0xc6a4a7935bd1e995.
Definition murmur_r : Z := 47.

Definition murmur_block (h k : Z) : Z :=
  let k := u64 (k * murmur_m) in
  let k := Z.lxor k (Z.shiftr k murmur_r) in
  let k := u64 (k * murmur_m) in
  let h := Z.lxor h k in
  u64 (h * murmur_m).

(** The [switch(len & 7)] with its fall-through: byte [n-1] first. *)
Fixpoint murmur_tail (n : nat) (data2 : list Z) (h : Z) : Z :=
  match n with
  | O => h
  | S n' =>
      murmur_tail n' data2
        (Z.lxor h (u64 (Z.shiftl (default 0 (data2 !! n')) (8 * Z.of_nat n'))))
  end.

Definition MurmurHash64A (key : list Z) (len : Z) (seed : Z) : Z :=
  let h := Z.lxor seed (u64 (len * murmur_m)) in
  let nblocks := Z.to_nat (len / 8) in
  let h := fold_left murmur_block (le_cells 8 nblocks key) h in
  let data2 := drop (8 * nblocks) key in
  let ntail := Z.to_nat (Z.land len 7) in
  let h := match ntail with
           | O => h
           | _ => u64 (murmur_tail ntail data2 h * murmur_m)
           end in
  let h := Z.lxor h (Z.shiftr h murmur_r) in
  let h := u64 (h * murmur_m) in
  Z.lxor h (Z.shiftr h murmur_r).

(** The reprobe of line 483: [idx = (idx + reprobe) & carys->mod_mask],
    [idx] an [unsigned long] and [reprobe] an [unsigned int]. *)
Definition reprobe_idx (idx reprobe mod_mask : Z) : Z :=
  Z.land (u64 (idx + reprobe)) mod_mask.

(** The slot probed and the value of [reprobe] after [n] failed probes
    from the home index [idx0]: each failure runs [++reprobe] (line 472)
    and then the reprobe of line 483. *)
Fixpoint probes (mod_mask idx0 : Z) (n : nat) : Z * Z :=
  match n with
  | O => (idx0, 0)
  | S n' =>
      let '(idx, reprobe) := probes mod_mask idx0 n' in
      let reprobe := u32 (reprobe + 1) in
      (reprobe_idx idx reprobe mod_mask, reprobe)
  end.

Definition probe_slot (mod_mask idx0 : Z) (n : nat) : Z :=
  fst (probes mod_mask idx0 n).

Section Handle.

Variable sizeof_Key : Z.
Variable sizeof_Val : Z.
Variable alloc : Z -> option (list Z).

Definition hash_key (k : Z) : Z :=
  MurmurHash64A (le_bytes (Z.to_nat sizeof_Key) k) sizeof_Key 0x818c4070.

(** [new arys_t(_item_len, _size, prev)]: the constructor of lines
    112-128 run on a fresh object; with a [prev] the new generation
    counts the link, and [prev->next] is made to point to it. *)
Definition new_arys (m : heap.t) (_item_len _size : Z) (prev : option nat)
  : result (nat * heap.t) :=
  g ← arys_t.new sizeof_Val alloc _item_len _size;
  match prev with
  | None => Done (heap.alloc m g)
  | Some p =>
      pg ← heap.lookup m p;
      let '(this, m1) := heap.alloc m (snd (arys_t.ref_inc g)) in
      Done (this, heap.store m1 p (arys_t.set_next pg (Some this)))
  end.

(** [release], lines 243-249. *)
Fixpoint release (fuel : nat) (m : heap.t) (cary : option nat) : result heap.t :=
  match fuel with
  | O => OutOfFuel
  | S fuel' =>
      match cary with
      | None => Fault
      | Some a =>
          g ← heap.lookup m a;
          let '(c, g') := arys_t.ref_dec g in
          if c =? 0
          then release fuel' (heap.delete m a) (arys_t.next g')
          else Done (heap.store m a g')
      end
  end.

(** [resize], lines 488-511.  A held mutex makes the try-lock fail
    and the blocking lock wait. *)
Definition resize (s : state) (h : t) (carys : nat) (block : bool)
  : result (bool * state) :=
  if root_resize_lock (root s) then
    if block then Blocked else Done (false, s)
  else if negb (Nat.eqb (root_key_val_arys (root s)) carys) then Done (true, s)
  else
    cg ← heap.lookup (mem s) carys;
    '(narys, m1) ← new_arys (mem s) (key_len h)
                      (u64 (Z.shiftl (arys_t.size cg) 1)) (Some carys);
    ng ← heap.lookup m1 narys;
    let m2 := heap.store m1 narys (snd (arys_t.ref_inc ng)) in
    cg' ← heap.lookup m2 carys;
    let m3 := heap.store m2 carys (snd (arys_t.ref_dec cg')) in
    Done (true, set_head (set_mem s m3) narys).

(** [resize_barrier->wait()].  Modelled from the spec: the barrier
    class is not part of the sources at hand; every worker must
    reach it before any proceeds, so a single running thread goes
    on only when the barrier was sized for one worker. *)
Definition barrier_wait (s : state) : result unit :=
  if root_resize_barrier (root s) =? 1 then Done tt else Blocked.

(** [add], lines 439-486, and [copy_over], lines 513-529, which call
    each other.  [add_outer] is the [while(!done)] loop, [add_probe]
    the [while(1)] loop inside it, [copy_chuncks] the [while] over
    [get_chunck] and [copy_slots] the [for] over one chunk.
    [reprobe] and [emax] are the locals [reprobe] and [emax_reprobe]
    of [add]. *)
Fixpoint add_outer (fuel : nat) (s : state) (h : t) (k v hash : Z)
                   (reprobe emax : Z) {struct fuel} : result (state * t) :=
  match fuel with
  | O => OutOfFuel
  | S fuel' =>
      let carys := root_key_val_arys (root s) in
      if negb (Nat.eqb carys (key_val_arys h)) then
        let oarys := key_val_arys h in
        cg ← heap.lookup (mem s) carys;
        let s1 := set_mem s (heap.store (mem s) carys (snd (arys_t.ref_inc cg))) in
        let h1 := set_key_val_arys h carys in
        '(s2, h2) ← copy_over fuel' s1 h1 oarys;
        m3 ← release fuel' (mem s2) (Some oarys);
        add_outer fuel' (set_mem s2 m3) h2 k v hash 0 emax
      else
        cg ← heap.lookup (mem s) carys;
        let idx := Z.land hash (arys_t.mod_mask cg) in
        add_probe fuel' s h k v hash carys idx reprobe emax
  end

with add_probe (fuel : nat) (s : state) (h : t) (k v hash : Z) (carys : nat)
               (idx reprobe emax : Z) {struct fuel} : result (state * t) :=
  match fuel with
  | O => OutOfFuel
  | S fuel' =>
      cg ← heap.lookup (mem s) carys;
      '(ok, cg') ← arys_t.add sizeof_Val [] cg idx k v;
      if (ok : bool) then Done (set_mem s (heap.store (mem s) carys cg'), h)
      else
        let reprobe := u32 (reprobe + 1) in
        if reprobe >? emax then
          '(resized, s1) ← resize s h carys false;
          if (resized : bool) then add_outer fuel' s1 h k v hash reprobe emax
          else if emax >? max_reprobe h then
            '(_, s2) ← resize s1 h carys true;
            add_outer fuel' s2 h k v hash reprobe emax
          else
            let emax := u32 (4 * max_reprobe h) in
            cg1 ← heap.lookup (mem s1) carys;
            add_probe fuel' s1 h k v hash carys
              (reprobe_idx idx reprobe (arys_t.mod_mask cg1)) reprobe emax
        else
          add_probe fuel' s h k v hash carys
            (reprobe_idx idx reprobe (arys_t.mod_mask cg)) reprobe emax
  end

with copy_chuncks (fuel : nat) (s : state) (h : t) (carys : nat)
                  {struct fuel} : result (state * t) :=
  match fuel with
  | O => OutOfFuel
  | S fuel' =>
      cg ← heap.lookup (mem s) carys;
      let '(cg', chunck) := arys_t.get_chunck cg in
      let s1 := set_mem s (heap.store (mem s) carys cg') in
      match chunck with
      | None => Done (s1, h)
      | Some (start, end_) =>
          '(s2, h2) ← copy_slots fuel' s1 h carys start end_;
          copy_chuncks fuel' s2 h2 carys
      end
  end

with copy_slots (fuel : nat) (s : state) (h : t) (carys : nat) (i end_ : Z)
                {struct fuel} : result (state * t) :=
  match fuel with
  | O => OutOfFuel
  | S fuel' =>
      if i <? end_ then
        cg ← heap.lookup (mem s) carys;
        r ← arys_t.get cg i;
        match r with
        | Some (ckey, cval) =>
            '(s1, h1) ← add_outer fuel' s h ckey cval (hash_key ckey) 0 (max_reprobe h);
            copy_slots fuel' s1 h1 carys (u64 (i + 1)) end_
        | None => copy_slots fuel' s h carys (u64 (i + 1)) end_
        end
      else Done (s, h)
  end

with copy_over (fuel : nat) (s : state) (h : t) (carys : nat)
               {struct fuel} : result (state * t) :=
  match fuel with
  | O => OutOfFuel
  | S fuel' =>
      _ ← barrier_wait s;
      copy_chuncks fuel' s h carys
  end.

Definition add (fuel : nat) (s : state) (h : t) (k v : Z) : result (state * t) :=
  add_outer fuel s h k v (hash_key k) 0 (max_reprobe h).

Definition inc (fuel : nat) (s : state) (h : t) (k : Z) : result (state * t) :=
  add fuel s h k 1.

(** The constructor, lines 254-265, and the destructor, 267-269. *)
Definition new (s : state) : result (state * t) :=
  let a := root_key_val_arys (root s) in
  g ← heap.lookup (mem s) a;
  Done (set_mem s (heap.store (mem s) a (snd (arys_t.ref_inc g))),
        mk (root_key_len (root s)) a (root_max_reprobe (root s))
           (root_max_reprobe (root s))).

Definition destroy (fuel : nat) (s : state) (h : t) : result state :=
  m ← release fuel (mem s) (Some (key_val_arys h));
  Done (set_mem s m).

End Handle.

End thread_hash_counter.

(** ** The root: [concurrent_hash_counter] *)

Module concurrent_hash_counter.

Section Root.

Variable sizeof_Val : Z.
Variable alloc : Z -> option (list Z).

(** The constructor, lines 321-329. *)
Definition new (_key_len _size _max_reprobe nb_threads : Z) : result state :=
  '(a, m) ← thread_hash_counter.new_arys sizeof_Val alloc heap.empty
               _key_len _size None;
  g ← heap.lookup m a;
  Done (mk_state (heap.store m a (snd (arys_t.ref_inc g)))
                 (mk_root _key_len a _max_reprobe false nb_threads)).

(** The destructor, lines 331-335: [delete key_val_arys]. *)
Definition destroy (s : state) : result state :=
  _ ← heap.lookup (mem s) (root_key_val_arys (root s));
  Done (set_mem s (heap.delete (mem s) (root_key_val_arys (root s)))).

Definition new_hash_counter (s : state) : result (state * thread_hash_counter.t) :=
  thread_hash_counter.new s.

Definition size (s : state) : result Z :=
  g ← heap.lookup (mem s) (root_key_val_arys (root s));
  Done (arys_t.size g).

Definition get_arys (s : state) : nat := root_key_val_arys (root s).

Definition write_keys_vals (s : state) : result (list Z) :=
  g ← heap.lookup (mem s) (root_key_val_arys (root s));
  Done (arys_t.write sizeof_Val g).

End Root.

End concurrent_hash_counter.

(** ** Instances and observations used in the statements *)

(** Modelled from the spec: [mmap_alloc] is declared on line 86 and
    defined outside the sources at hand.  The counters of a new
    generation count from zero (scenario 1 of the spec: five keys
    inserted once, each value 1), as in an anonymous mapping, which is
    zero-filled. *)
Definition mmap_alloc (sizeof_Val : Z) (bytes : Z) : option (list Z) :=
  Some (replicate (Z.to_nat (bytes / sizeof_Val)) 0).

(** The pairs an iterator over the current generation produces. *)
Definition table_pairs (s : state) : result (list (Z * Z)) :=
  g ← heap.lookup (mem s) (root_key_val_arys (root s));
  arys_iterator.iterate g.

(** The [add] calls of [ops], in turn, through one handle. *)
Fixpoint add_all (sizeof_Key sizeof_Val : Z) (alloc : Z -> option (list Z))
    (fuel : nat) (s : state) (h : thread_hash_counter.t) (ops : list (Z * Z))
  : result (state * thread_hash_counter.t) :=
  match ops with
  | [] => Done (s, h)
  | (k, v) :: ops' =>
      '(s1, h1) ← thread_hash_counter.add sizeof_Key sizeof_Val alloc fuel s h k v;
      add_all sizeof_Key sizeof_Val alloc fuel s1 h1 ops'
  end.

(** A root of [_size] slots with one handle, followed by the [add]
    calls of [ops] through that handle, for [uint64_t] keys of
    [_key_len] bits. *)
Definition run_adds (sizeof_Val : Z) (fuel : nat)
    (_key_len _size _max_reprobe : Z) (ops : list (Z * Z))
  : result (state * thread_hash_counter.t) :=
  s0 ← concurrent_hash_counter.new sizeof_Val (mmap_alloc sizeof_Val)
         _key_len _size _max_reprobe 1;
  '(s, h) ← thread_hash_counter.new s0;
  add_all 8 sizeof_Val (mmap_alloc sizeof_Val) fuel s h ops.

(** The counter stored for [k] in the current generation, if any. *)
Definition stored_value (s : state) (k : Z) : result (option Z) :=
  ps ← table_pairs s;
  Done ((snd ∘ snd) <$> list_find (fun p => fst p = k) ps).

Definition is_pow2 (n : Z) : Prop := ∃ k, 0 <= k ∧ n = 2 ^ k.

(** A generation as the constructors and [add] leave it: a power of
    two of slots, as many cells and counters, every counter a [Val]. *)
Definition arys_wf (sizeof_Val : Z) (g : arys_t.t) : Prop :=
  1 <= sizeof_Val
  ∧ is_pow2 (arys_t.size g) ∧ arys_t.size g <= 2 ^ 63
  ∧ sizeof_Val * arys_t.size g < 2 ^ 64
  ∧ small_packed_array.wf (arys_t.keys g)
  ∧ small_packed_array.size (arys_t.keys g) = arys_t.size g
  ∧ Z.of_nat (length (arys_t.vals g)) = arys_t.size g
  ∧ Forall (λ v, 0 <= v < Val_modulus sizeof_Val) (arys_t.vals g).

(** The fields of a handle that [add] reads its limits from. *)
Definition same_limits (h h' : thread_hash_counter.t) : Prop :=
  thread_hash_counter.emax_reprobe h' = thread_hash_counter.emax_reprobe h
  ∧ thread_hash_counter.max_reprobe h' = thread_hash_counter.max_reprobe h
  ∧ thread_hash_counter.key_len h' = thread_hash_counter.key_len h.

(** ** The reprobe sequence *)

(** The claim for a table of [S] slots: from every home index the
    first [S] probes reach every slot. *)
Definition reprobe_covers (S : Z) : Prop :=
  ∀ idx0 t, 0 <= idx0 < S -> 0 <= t < S ->
    ∃ n : nat, Z.of_nat n < S ∧ thread_hash_counter.probe_slot (S - 1) idx0 n = t.

(** The [n]-th triangular number. *)
Definition tri (n : nat) : Z := Z.of_nat n * (Z.of_nat n + 1) / 2.

(** ** Reference counts *)

Definition b2z (P : Prop) `{Decision P} : Z := if decide P then 1 else 0.

(** The references on generation [a]: the link from its predecessor
    while that one is live ([lo] is the oldest live generation), the
    head reference of the root, the handle while it caches [a], one for
    each [copy_over] of [a] under way ([pending]), and the reference a
    [release] in progress has still to drop ([owed]). *)
Definition refs (lo head cached : nat) (pending : list nat) (owed : option nat)
    (a : nat) : Z :=
  b2z (lo < a)%nat + b2z (a = head) + b2z (a ∈ pending) + b2z (a = cached)
  + match owed with Some o => b2z (o = a) | None => 0 end.

(** The heap of a table with one handle: the live generations are
    [lo .. head], each linked to the next one created, [head] the last
    created; the older ones were deleted in the order of creation. *)
Definition refcount_inv (owed : option nat) (pending : list nat) (cached : nat)
    (s : state) : Prop :=
  ∃ lo : nat,
    (lo <= root_key_val_arys (root s))%nat
    ∧ heap.brk (mem s) = S (root_key_val_arys (root s))
    ∧ heap.freed (mem s) = seq 0 lo
    ∧ (∀ a, (a < lo ∨ heap.brk (mem s) <= a)%nat -> heap.objs (mem s) !! a = None)
    ∧ (∀ a, (lo <= a <= root_key_val_arys (root s))%nat ->
         ∃ g, heap.objs (mem s) !! a = Some g
              ∧ arys_t.next g =
                  (if decide (a = root_key_val_arys (root s)) then None else Some (S a))
              ∧ arys_t.count g = refs lo (root_key_val_arys (root s)) cached pending owed a
              ∧ (1 <= refs lo (root_key_val_arys (root s)) cached pending None a
                 ∨ owed = Some a))
    ∧ NoDup pending
    ∧ (∀ a, a ∈ pending -> (lo <= a < cached)%nat)
    ∧ (lo <= cached <= root_key_val_arys (root s))%nat
    ∧ (∀ a, owed = Some a -> (lo <= a <= root_key_val_arys (root s))%nat).

(** The handle caches the current generation. *)
Definition settled (s : state) (h : thread_hash_counter.t) : Prop :=
  thread_hash_counter.key_val_arys h = root_key_val_arys (root s).

(** The claim that every [next] leads to an older generation, or is
    null in the oldest one.  Addresses grow with the time of creation. *)
Definition next_is_older_or_null (m : heap.t) : Prop :=
  ∀ a g, heap.objs m !! a = Some g ->
    match arys_t.next g with
    | Some b => (b < a)%nat
    | None => ∀ a' g', heap.objs m !! a' = Some g' -> (a <= a')%nat
    end.

(** ** Sample inputs *)

(** A generation of four slots for 64-bit cells, key 5 counted three
    times in slot 0. *)
Definition sample_arys : arys_t.t :=
  arys_t.mk (small_packed_array.mk 64 4 [Some 5; None; None; None])
            [3; 0; 0; 0] 4 3 0 1 None true 0.

(** [sample_arys] as the only generation, and a handle on it. *)
Definition sample_state : state :=
  mk_state (snd (heap.alloc heap.empty sample_arys)) (mk_root 64 0 4 false 1).

Definition sample_handle : thread_hash_counter.t :=
  thread_hash_counter.mk 64 0 4 4.

Definition done_or {A} (d : A) (r : result A) : A :=
  match r with
  | Done a => a
  | _ => d
  end.

(** The state in which another thread holds the resize mutex. *)
Definition lock_held (s : state) : state :=
  mk_state (mem s)
    (mk_root (root_key_len (root s)) (root_key_val_arys (root s))
             (root_max_reprobe (root s)) true (root_resize_barrier (root s))).

(** Eight slots, [max_reprobe = 1], keys 1 to 7 inserted, and the
    mutex then taken by another thread.  Key 8 finds its home slot 6
    and slot 7 taken, fails the try-lock, raises its local limit to 4
    and settles in slot 1. *)
Definition contended_table : state * thread_hash_counter.t :=
  let '(s, h) := done_or (sample_state, sample_handle)
                   (run_adds 4 64 64 8 1
                      [(1, 1); (2, 1); (3, 1); (4, 1); (5, 1); (6, 1); (7, 1)]) in
  (lock_held s, h).

Definition contended_table_after : state * thread_hash_counter.t :=
  done_or contended_table
    (thread_hash_counter.add 8 4 (mmap_alloc 4) 64
       (fst contended_table) (snd contended_table) 8 1).

(** Scenario 2 of the spec before its fifth key: four slots, all
    taken. *)
Definition full_small_table : state * thread_hash_counter.t :=
  done_or (sample_state, sample_handle)
    (run_adds 4 400 64 4 4 [(1, 1); (2, 1); (3, 1); (4, 1)]).

(** The same after [resize], before the handle has noticed. *)
Definition resized_table : state :=
  snd (done_or (false, fst full_small_table)
         (thread_hash_counter.resize 4 (mmap_alloc 4)
            (fst full_small_table) (snd full_small_table) 0 false)).

(** Scenario 2 of the spec as a whole life: four slots, keys 1 to 9
    inserted once each, then the handle and the root destroyed. *)
Definition life_root : state :=
  done_or sample_state (concurrent_hash_counter.new 4 (mmap_alloc 4) 64 4 4 1).

Definition life_start : state * thread_hash_counter.t :=
  done_or (sample_state, sample_handle) (thread_hash_counter.new life_root).

Definition life_ops : list (Z * Z) :=
  [(1, 1); (2, 1); (3, 1); (4, 1); (5, 1); (6, 1); (7, 1); (8, 1); (9, 1)].

Definition life_filled : state * thread_hash_counter.t :=
  done_or life_start
    (add_all 8 4 (mmap_alloc 4) 400 (fst life_start) (snd life_start) life_ops).

Definition life_handle_gone : state :=
  done_or sample_state
    (thread_hash_counter.destroy 4 (fst life_filled) (snd life_filled)).

Definition life_end : state :=
  done_or sample_state (concurrent_hash_counter.destroy life_handle_gone).

(** ** Several handles *)

(** The references held on generation [a] by handles that hold the
    generations [held], an entry for each reference. *)
Fixpoint occ (a : nat) (held : list nat) : Z :=
  match held with
  | [] => 0
  | x :: held' => b2z (x = a) + occ a held'
  end.

(** The references on [a] that no handle holds: the link from its
    predecessor while that one is live, and the head reference of the
    root. *)
Definition links (lo head a : nat) : Z := b2z (lo < a)%nat + b2z (a = head).

Definition owes (owed : option nat) (a : nat) : Z :=
  match owed with Some o => b2z (o = a) | None => 0 end.

(** The heap of a table with any number of handles.  [held] lists the
    references the handles hold: the generation each handle caches and,
    for a handle in the middle of [add], the older generations it has
    still to release.  The live generations are [lo .. head], each
    linked to the next one created; the older ones were deleted in the
    order of creation.  Every count is within the 32 bits of [count]. *)
Definition shared_inv (owed : option nat) (held : list nat) (s : state) : Prop :=
  ∃ lo : nat,
    (lo <= root_key_val_arys (root s))%nat
    ∧ heap.brk (mem s) = S (root_key_val_arys (root s))
    ∧ heap.freed (mem s) = seq 0 lo
    ∧ (∀ a, (a < lo ∨ heap.brk (mem s) <= a)%nat -> heap.objs (mem s) !! a = None)
    ∧ (∀ a, (lo <= a <= root_key_val_arys (root s))%nat ->
         ∃ g, heap.objs (mem s) !! a = Some g
              ∧ arys_t.next g =
                  (if decide (a = root_key_val_arys (root s)) then None else Some (S a))
              ∧ arys_t.count g
                = links lo (root_key_val_arys (root s)) a + occ a held + owes owed a
              ∧ arys_t.count g < 2 ^ 32
              ∧ (1 <= links lo (root_key_val_arys (root s)) a + occ a held
                 ∨ owed = Some a))
    ∧ (∀ a, a ∈ held -> (lo <= a <= root_key_val_arys (root s))%nat)
    ∧ (∀ a, owed = Some a -> (lo <= a <= root_key_val_arys (root s))%nat).

(** The calls a program makes on a table between the construction and
    the destruction of the root: [new_hash_counter], [add] through the
    [i]-th handle made, and the destructor of the [i]-th handle. *)
Inductive call : Type :=
| make_handle
| add_through (i : nat) (k v : Z)
| drop_handle (i : nat).

(** The generations the live handles cache.  [hs] lists the handles
    made so far, in the order they were made, [None] for a handle that
    was destroyed. *)
Definition caches (hs : list (option thread_hash_counter.t)) : list nat :=
  omap (fmap thread_hash_counter.key_val_arys) hs.

(** One call, run to its end.  A call that names a handle never made,
    or destroyed, is no call of a program: it is passed over. *)
Definition run_call (sizeof_Key sizeof_Val : Z) (alloc : Z -> option (list Z))
    (fuel : nat) (st : state * list (option thread_hash_counter.t)) (c : call) : result (state * list (option thread_hash_counter.t)) :=
  let '(s, hs) := st in
  match c with
  | make_handle =>
      '(s', h) ← thread_hash_counter.new s;
      Done (s', hs ++ [Some h])
  | add_through i k v =>
      match hs !! i with
      | Some (Some h) =>
          '(s', h') ← thread_hash_counter.add sizeof_Key sizeof_Val alloc fuel s h k v;
          Done (s', <[i := Some h']> hs)
      | _ => Done (s, hs)
      end
  | drop_handle i =>
      match hs !! i with
      | Some (Some h) =>
          s' ← thread_hash_counter.destroy fuel s h;
          Done (s', <[i := None]> hs)
      | _ => Done (s, hs)
      end
  end.

(** The calls of [cs], one after the other. *)
Fixpoint run_calls (sizeof_Key sizeof_Val : Z) (alloc : Z -> option (list Z))
    (fuel : nat) (st : state * list (option thread_hash_counter.t)) (cs : list call)
  : result (state * list (option thread_hash_counter.t)) :=
  match cs with
  | [] => Done st
  | c :: cs' =>
      st' ← run_call sizeof_Key sizeof_Val alloc fuel st c;
      run_calls sizeof_Key sizeof_Val alloc fuel st' cs'
  end.

(** Scenario 2 of the spec with a second handle that makes no call:
    it stays on the first generation while the first handle inserts keys
    1 to 9 and moves on to the second. *)
Definition two_handles_adds : list call :=
  [make_handle; make_handle]
    ++ map (λ op : Z * Z, add_through 0 op.1 op.2) life_ops.

Definition two_handles_filled : state * list (option thread_hash_counter.t) :=
  done_or (life_root, [])
    (run_calls 8 4 (mmap_alloc 4) 400 (life_root, []) two_handles_adds).

Definition two_handles_gone : state * list (option thread_hash_counter.t) :=
  done_or (life_root, [])
    (run_calls 8 4 (mmap_alloc 4) 400 (life_root, [])
       (two_handles_adds ++ [drop_handle 0; drop_handle 1])).

Definition two_handles_end : state :=
  done_or sample_state (concurrent_hash_counter.destroy (fst two_handles_gone)).

(** ** Further observations *)

(** The pair a slot holds: its key and its counter, when the presence
    bit is set. *)
Definition slot_pair (g : arys_t.t) (i : nat) : option (Z * Z) :=
  k ← small_packed_array.get (arys_t.keys g) (Z.of_nat i);
  v ← arys_t.vals g !! i;
  Some (k, v).

(** The pairs of the occupied slots, by increasing index. *)
Definition occupied_pairs (g : arys_t.t) : list (Z * Z) :=
  omap (slot_pair g) (seq 0 (Z.to_nat (arys_t.size g))).

(** Every occupied cell has a counter behind it. *)
Definition counters_backed (g : arys_t.t) : Prop :=
  ∀ i k, small_packed_array.get (arys_t.keys g) i = Some k ->
         is_Some (arys_t.vals g !! Z.to_nat i).


(** The ranges [n] successive calls of [get_chunck] hand out. *)
Fixpoint chuncks (n : nat) (g : arys_t.t) : list (Z * Z) :=
  match n with
  | O => []
  | S n' =>
      let '(g', c) := arys_t.get_chunck g in
      match c with
      | Some r => r :: chuncks n' g'
      | None => chuncks n' g'
      end
  end.

(** A generation of 256 slots, none taken, its copy cursor left at 77. *)
Definition wide_arys : arys_t.t :=
  arys_t.mk (small_packed_array.new 8 256) (replicate 256 0)
            256 255 0 1 None true 77.

(** ** Memory safety *)

(** The call did not touch a freed or null generation, and its result,
    if it returned, satisfies [Q]. *)
Definition no_fault {A} (Q : A -> Prop) (r : result A) : Prop :=
  match r with
  | Fault => False
  | Done a => Q a
  | _ => True
  end.

(** An allocator that refuses more than [limit] bytes and otherwise
    returns the bytes asked for, seen as that many [Val]. *)
Definition alloc_ok (sizeof_Val limit : Z) (alloc : Z -> option (list Z)) : Prop :=
  ∀ n mem, 0 <= n -> alloc n = Some mem ->
    n <= limit
    ∧ Z.of_nat (length mem) = n / sizeof_Val
    ∧ Forall (λ v, 0 <= v < Val_modulus sizeof_Val) mem.

(** [mmap_alloc] failing above [limit] bytes. *)
Definition bounded_alloc (sizeof_Val limit : Z) (bytes : Z) : option (list Z) :=
  if bytes <=? limit then mmap_alloc sizeof_Val bytes else None.

(** Every live generation is well-formed and within the limit of the
    allocator. *)
Definition heap_ok (sizeof_Val limit : Z) (m : heap.t) : Prop :=
  ∀ a g, heap.objs m !! a = Some g ->
    arys_wf sizeof_Val g ∧ sizeof_Val * arys_t.size g <= limit.

(** The head generation has a slot with the key [k]. *)
Definition holds_key (s : state) (k : Z) : Prop :=
  ∃ g idx c,
    heap.lookup (mem s) (root_key_val_arys (root s)) = Done g
    ∧ arys_t.get g idx =
        Done (Some (small_packed_array.payload
                      (small_packed_array.item_len (arys_t.keys g)) k, c)).

(** ** Counting *)

(** The home slot of the key [p] in the generation [g]. *)
Definition home (sizeof_Key : Z) (g : arys_t.t) (p : Z) : Z :=
  Z.land (thread_hash_counter.hash_key sizeof_Key p) (arys_t.mod_mask g).

(** Slot [j] is where the reprobe sequence of [p] first leaves the
    slots taken by other keys. *)
Definition on_path (sizeof_Key : Z) (g : arys_t.t) (j p : Z) : Prop :=
  ∃ n : nat,
    j = thread_hash_counter.probe_slot (arys_t.mod_mask g) (home sizeof_Key g p) n
    ∧ ∀ m, (m < n)%nat ->
        ∃ q, small_packed_array.get (arys_t.keys g)
               (thread_hash_counter.probe_slot (arys_t.mod_mask g)
                  (home sizeof_Key g p) m) = Some q
             ∧ q ≠ p.

(** Every key sits where its reprobe sequence leads. *)
Definition path_inv (sizeof_Key : Z) (g : arys_t.t) : Prop :=
  ∀ j p, small_packed_array.get (arys_t.keys g) j = Some p -> on_path sizeof_Key g j p.

(** The counter of an empty slot is zero. *)
Definition zero_init (g : arys_t.t) : Prop :=
  ∀ j c, 0 <= j -> small_packed_array.get (arys_t.keys g) j = None ->
         arys_t.vals g !! Z.to_nat j = Some c -> c = 0.

(** A generation as a zero-filled allocation and [add] leave it. *)
Definition counting_gen (sizeof_Key sizeof_Val : Z) (g : arys_t.t) : Prop :=
  arys_wf sizeof_Val g
  ∧ arys_t.mod_mask g = arys_t.size g - 1
  ∧ path_inv sizeof_Key g
  ∧ zero_init g.

(** The counter an iteration of [g] shows first for the key [k]. *)
Definition value_of (g : arys_t.t) (k : Z) : option Z :=
  (snd ∘ snd) <$> list_find (λ p, fst p = k) (occupied_pairs g).

(** The sum of the values added for [k] in [ops], if it occurs. *)
Fixpoint tally (ops : list (Z * Z)) (k : Z) : option Z :=
  match ops with
  | [] => None
  | (k', v) :: ops' =>
      if decide (k' = k) then Some (v + default 0 (tally ops' k))
      else tally ops' k
  end.

(** The count of a key that had [before] once [more] is added. *)
Definition counted (before more : option Z) : option Z :=
  match more with
  | None => before
  | Some t => Some (default 0 before + t)
  end.

(** Key 1 added twice and key 2 once to the four-slot table of
    [life_start]. *)
Definition tally_ops : list (Z * Z) := [(1, 1); (2, 1); (1, 5)].

Definition tallied_table : state * thread_hash_counter.t :=
  done_or life_start
    (add_all 8 4 (mmap_alloc 4) 64 (fst life_start) (snd life_start) tally_ops).


(** ** Copying a generation over *)

(** The pairs of the occupied slots below [i]. *)
Definition pairs_upto (g : arys_t.t) (i : nat) : list (Z * Z) :=
  omap (slot_pair g) (seq 0 i).

(** The counter the slots below [i] hold for the key [k]. *)
Definition value_upto (g : arys_t.t) (i : nat) (k : Z) : option Z :=
  (snd ∘ snd) <$> list_find (λ p, fst p = k) (pairs_upto g i).

(** The same keys and counters, under other links and cursors. *)
Definition same_content (g g' : arys_t.t) : Prop :=
  arys_t.keys g' = arys_t.keys g ∧ arys_t.vals g' = arys_t.vals g
  ∧ arys_t.size g' = arys_t.size g ∧ arys_t.mod_mask g' = arys_t.mod_mask g.

(** An allocator that refuses more than [limit] bytes and otherwise
    returns zero-filled memory of the size asked for. *)
Definition calloc_like (sizeof_Val limit : Z) (alloc : Z -> option (list Z)) : Prop :=
  ∀ n mem, 0 <= n -> alloc n = Some mem ->
    n <= limit ∧ mem = replicate (Z.to_nat (n / sizeof_Val)) 0.


(** A table of 128 slots with [max_reprobe = 0]: key 4 counted seven
    times, then key 11, whose home slot is that of key 4, which makes
    the table resize. *)
Definition wide_root : state :=
  done_or sample_state (concurrent_hash_counter.new 4 (mmap_alloc 4) 64 128 0 1).

Definition wide_start : state * thread_hash_counter.t :=
  done_or (sample_state, sample_handle) (thread_hash_counter.new wide_root).






(** ** Counting through resizes *)

(** A generation fit for counting that a resize can copy: at least
    128 slots, within the limit of the allocator, cells of [K] bits and
    the copy cursor at its start. *)
Definition fit_gen (sizeof_Key sizeof_Val limit K : Z) (g : arys_t.t) : Prop :=
  counting_gen sizeof_Key sizeof_Val g
  ∧ 128 <= arys_t.size g
  ∧ sizeof_Val * arys_t.size g <= limit
  ∧ small_packed_array.item_len (arys_t.keys g) = K
  ∧ arys_t.copy_chunck g = 0.

(** The head is such a generation and shows the counts [F]. *)
Definition head_shows (sizeof_Key sizeof_Val limit K : Z) (s : state)
    (F : Z -> option Z) : Prop :=
  ∃ g, heap.lookup (mem s) (root_key_val_arys (root s)) = Done g
       ∧ fit_gen sizeof_Key sizeof_Val limit K g
       ∧ ∀ p, value_of g p = F p.

(** The generation at [a] is in [s'] what it was in [s], links and
    counts apart. *)
Definition kept (s s' : state) (a : nat) : Prop :=
  ∀ g, heap.lookup (mem s) a = Done g ->
    ∃ g', heap.lookup (mem s') a = Done g' ∧ same_content g g'
          ∧ arys_t.copy_chunck g' = arys_t.copy_chunck g.

(** A handle for keys of [K] bits, with a limit the 32-bit [reprobe]
    reaches, on a table whose mutex is free. *)
Definition handle_ok (K : Z) (s : state) (h : thread_hash_counter.t) : Prop :=
  thread_hash_counter.key_len h = K
  ∧ 0 <= thread_hash_counter.max_reprobe h < 2 ^ 32 - 1
  ∧ root_resize_lock (root s) = false.

(** The two states the outer loop of [add] is entered in: the handle
    on a head that shows the counts [B]; or the handle still on the
    generation that shows them, with a new, empty head after it. *)
Definition ready (sizeof_Key sizeof_Val limit K : Z) (s : state)
    (h : thread_hash_counter.t) (B : Z -> option Z) : Prop :=
  (settled s h ∧ head_shows sizeof_Key sizeof_Val limit K s B)
  ∨ (thread_hash_counter.key_val_arys h ≠ root_key_val_arys (root s)
     ∧ (∃ og, heap.lookup (mem s) (thread_hash_counter.key_val_arys h) = Done og
              ∧ fit_gen sizeof_Key sizeof_Val limit K og
              ∧ ∀ p, value_of og p = B p)
     ∧ head_shows sizeof_Key sizeof_Val limit K s (λ _, None)).

(** The counts [B] after [add(k, v)]. *)
Definition counted_in (sizeof_Val : Z) (B : Z -> option Z) (k v : Z) : Z -> option Z :=
  λ p, if decide (p = k)
       then Some (arys_t.add_loop sizeof_Val [] (default 0 (B k)) v)
       else B p.

(** Key 4 counted, key 11 making the 128-slot table resize, key 4
    counted again in the new head. *)
Definition wide_ops : list (Z * Z) := [(4, 7); (11, 1); (4, 1)].

Definition wide_run : state * thread_hash_counter.t :=
  done_or wide_start
    (add_all 8 4 (bounded_alloc 4 4096) 2000 (fst wide_start) (snd wide_start) wide_ops).

(** ** Slot indices *)

(** [add] and [copy_over] once more, with every slot access checked.
    [arys_t::add] hands [idx] to [keys->set] and to [vals + idx], and
    [arys_t::get] to [keys->get] and [vals[idx]], and none of them
    checks it (lines 153-192): an [idx] outside [0, size) is an access
    outside the arrays, here a [Fault].  All else is
    [thread_hash_counter.add], line by line. *)
Module checked.

Section Checked.

Variable sizeof_Key : Z.
Variable sizeof_Val : Z.
Variable alloc : Z -> option (list Z).

Definition in_arys (g : arys_t.t) (idx : Z) : bool :=
  (0 <=? idx) && (idx <? arys_t.size g).

Definition arys_add (g : arys_t.t) (idx key val : Z) : result (bool * arys_t.t) :=
  if in_arys g idx then arys_t.add sizeof_Val [] g idx key val else Fault.

Definition arys_get (g : arys_t.t) (idx : Z) : result (option (Z * Z)) :=
  if in_arys g idx then arys_t.get g idx else Fault.

Fixpoint add_outer (fuel : nat) (s : state) (h : thread_hash_counter.t)
                   (k v hash : Z) (reprobe emax : Z) {struct fuel}
  : result (state * thread_hash_counter.t) :=
  match fuel with
  | O => OutOfFuel
  | S fuel' =>
      let carys := root_key_val_arys (root s) in
      if negb (Nat.eqb carys (thread_hash_counter.key_val_arys h)) then
        let oarys := thread_hash_counter.key_val_arys h in
        cg ← heap.lookup (mem s) carys;
        let s1 := set_mem s (heap.store (mem s) carys (snd (arys_t.ref_inc cg))) in
        let h1 := thread_hash_counter.set_key_val_arys h carys in
        '(s2, h2) ← copy_over fuel' s1 h1 oarys;
        m3 ← thread_hash_counter.release fuel' (mem s2) (Some oarys);
        add_outer fuel' (set_mem s2 m3) h2 k v hash 0 emax
      else
        cg ← heap.lookup (mem s) carys;
        let idx := Z.land hash (arys_t.mod_mask cg) in
        add_probe fuel' s h k v hash carys idx reprobe emax
  end

with add_probe (fuel : nat) (s : state) (h : thread_hash_counter.t)
               (k v hash : Z) (carys : nat) (idx reprobe emax : Z) {struct fuel}
  : result (state * thread_hash_counter.t) :=
  match fuel with
  | O => OutOfFuel
  | S fuel' =>
      cg ← heap.lookup (mem s) carys;
      '(ok, cg') ← arys_add cg idx k v;
      if (ok : bool) then Done (set_mem s (heap.store (mem s) carys cg'), h)
      else
        let reprobe := u32 (reprobe + 1) in
        if reprobe >? emax then
          '(resized, s1) ← thread_hash_counter.resize sizeof_Val alloc s h carys false;
          if (resized : bool) then add_outer fuel' s1 h k v hash reprobe emax
          else if emax >? thread_hash_counter.max_reprobe h then
            '(_, s2) ← thread_hash_counter.resize sizeof_Val alloc s1 h carys true;
            add_outer fuel' s2 h k v hash reprobe emax
          else
            let emax := u32 (4 * thread_hash_counter.max_reprobe h) in
            cg1 ← heap.lookup (mem s1) carys;
            add_probe fuel' s1 h k v hash carys
              (thread_hash_counter.reprobe_idx idx reprobe (arys_t.mod_mask cg1))
              reprobe emax
        else
          add_probe fuel' s h k v hash carys
            (thread_hash_counter.reprobe_idx idx reprobe (arys_t.mod_mask cg))
            reprobe emax
  end

with copy_chuncks (fuel : nat) (s : state) (h : thread_hash_counter.t)
                  (carys : nat) {struct fuel}
  : result (state * thread_hash_counter.t) :=
  match fuel with
  | O => OutOfFuel
  | S fuel' =>
      cg ← heap.lookup (mem s) carys;
      let '(cg', chunck) := arys_t.get_chunck cg in
      let s1 := set_mem s (heap.store (mem s) carys cg') in
      match chunck with
      | None => Done (s1, h)
      | Some (start, end_) =>
          '(s2, h2) ← copy_slots fuel' s1 h carys start end_;
          copy_chuncks fuel' s2 h2 carys
      end
  end

with copy_slots (fuel : nat) (s : state) (h : thread_hash_counter.t)
                (carys : nat) (i end_ : Z) {struct fuel}
  : result (state * thread_hash_counter.t) :=
  match fuel with
  | O => OutOfFuel
  | S fuel' =>
      if i <? end_ then
        cg ← heap.lookup (mem s) carys;
        r ← arys_get cg i;
        match r with
        | Some (ckey, cval) =>
            '(s1, h1) ← add_outer fuel' s h ckey cval
                           (thread_hash_counter.hash_key sizeof_Key ckey) 0
                           (thread_hash_counter.max_reprobe h);
            copy_slots fuel' s1 h1 carys (u64 (i + 1)) end_
        | None => copy_slots fuel' s h carys (u64 (i + 1)) end_
        end
      else Done (s, h)
  end

with copy_over (fuel : nat) (s : state) (h : thread_hash_counter.t)
               (carys : nat) {struct fuel}
  : result (state * thread_hash_counter.t) :=
  match fuel with
  | O => OutOfFuel
  | S fuel' =>
      _ ← thread_hash_counter.barrier_wait s;
      copy_chuncks fuel' s h carys
  end.

Definition add (fuel : nat) (s : state) (h : thread_hash_counter.t) (k v : Z)
  : result (state * thread_hash_counter.t) :=
  add_outer fuel s h k v (thread_hash_counter.hash_key sizeof_Key k) 0
    (thread_hash_counter.max_reprobe h).

(** The [add] calls of [ops], in turn, through one handle. *)
Fixpoint add_all (fuel : nat) (s : state) (h : thread_hash_counter.t)
    (ops : list (Z * Z)) : result (state * thread_hash_counter.t) :=
  match ops with
  | [] => Done (s, h)
  | (k, v) :: ops' =>
      '(s1, h1) ← add fuel s h k v;
      add_all fuel s1 h1 ops'
  end.

End Checked.

End checked.

#[global] Arguments checked.add_outer : simpl never.
#[global] Arguments checked.add_probe : simpl never.
#[global] Arguments checked.copy_chuncks : simpl never.
#[global] Arguments checked.copy_slots : simpl never.
#[global] Arguments checked.copy_over : simpl never.

(** The generation at address [a] has [F a] slots and the mask of
    that size. *)
Definition sized (F : nat -> Z) (m : heap.t) : Prop :=
  ∀ a g, heap.objs m !! a = Some g ->
    arys_t.size g = F a ∧ arys_t.mod_mask g = F a - 1.

(** * Properties *)

(** ** Machine arithmetic *)

Lemma Val_modulus_pos sz : 0 <= sz -> 0 < Val_modulus sz.
Proof. intros. unfold Val_modulus, Val_bits. apply Z.pow_pos_nonneg; lia. Qed.

Lemma Val_not_eq sz c :
  0 <= sz -> 0 <= c < Val_modulus sz -> Val_not sz c = ALL_ONES sz - c.
Proof.
  intros Hsz Hc. unfold Val_not, uV, ALL_ONES.
  symmetry. apply (Z.mod_unique _ _ (-1)); [left|unfold Z.lnot]; lia.
Qed.

(** Without interference the loop of [add] runs its body once. *)
Lemma add_loop_nil sz c v :
  0 <= sz -> 0 <= c < Val_modulus sz -> 0 <= v < Val_modulus sz ->
  arys_t.add_loop sz [] c v =
    if c =? ALL_ONES sz then c
    else if ALL_ONES sz - c <? v then 0 else c + v.
Proof.
  intros Hsz Hc Hv. cbn. rewrite Val_not_eq by done.
  unfold ALL_ONES in *.
  destruct (Z.eqb_spec (Val_modulus sz - 1 - c) 0),
           (Z.eqb_spec c (Val_modulus sz - 1)); try lia.
  destruct (Z.ltb_spec (Val_modulus sz - 1 - c) v); [done|].
  unfold uV. apply Z.mod_small. lia.
Qed.

(** ** Serialisation *)

Lemma length_le_bytes n x : length (le_bytes n x) = n.
Proof. revert x. induction n as [|n IH]; intros x; cbn; [done|]. by rewrite IH. Qed.

Lemma le_value_le_bytes n : ∀ x, le_value (le_bytes n x) = x mod 256 ^ Z.of_nat n.
Proof.
  induction n as [|n IH]; intros x.
  - cbn. by rewrite Z.mod_1_r.
  - cbn [le_bytes le_value]. rewrite IH.
    rewrite Nat2Z.inj_succ, Z.pow_succ_r by lia.
    rewrite Z.rem_mul_r; [done | lia |]. apply Z.pow_pos_nonneg; lia.
Qed.

Lemma le_cells_vals_bytes w (vs : list Z) rest :
  Forall (λ v, 0 <= v < 256 ^ Z.of_nat w) vs ->
  le_cells w (length vs) (flat_map (le_bytes w) vs ++ rest) = vs.
Proof.
  induction 1 as [|v vs Hv _ IH]; [done|].
  cbn [flat_map length le_cells]. rewrite <- app_assoc.
  rewrite take_app_length' by (by rewrite length_le_bytes).
  rewrite drop_app_length' by (by rewrite length_le_bytes).
  rewrite le_value_le_bytes, Z.mod_small by done. by rewrite IH.
Qed.

Lemma length_vals_bytes w (vs : list Z) :
  length (flat_map (le_bytes w) vs) = (w * length vs)%nat.
Proof.
  induction vs as [|v vs IH]; cbn; [lia|].
  rewrite length_app, length_le_bytes, IH. lia.
Qed.

(** ** The packed key array meets its contract *)

Module small_packed_array_facts.
Import small_packed_array.

Lemma set_size a i k : size (snd (set a i k)) = size a.
Proof.
  unfold set. destruct (_ && _); [|done].
  destruct (mjoin _); done.
Qed.

Lemma set_item_len a i k : item_len (snd (set a i k)) = item_len a.
Proof.
  unfold set. destruct (_ && _); [|done].
  destruct (mjoin _); done.
Qed.

(** [set] answers false exactly on a cell that holds another payload. *)
Lemma set_false_iff a i k :
  0 <= i < size a ->
  fst (set a i k) = false <->
  ∃ p', get a i = Some p' ∧ p' ≠ payload (item_len a) k.
Proof.
  intros Hi. unfold set, get.
  replace ((0 <=? i) && (i <? size a)) with true
    by (symmetry; apply andb_true_iff; lia).
  destruct (mjoin (cells a !! Z.to_nat i)) as [p'|]; cbn.
  - rewrite Z.eqb_neq. split; [eauto|]. by intros (? & [= <-] & ?).
  - split; [done|]. by intros (? & ? & ?).
Qed.

Lemma set_false_unchanged a i k : fst (set a i k) = false -> snd (set a i k) = a.
Proof.
  unfold set. destruct (_ && _); [|done].
  destruct (mjoin _); [done|]. cbn. done.
Qed.

Lemma payload_small K k : 0 <= k < 2 ^ (K - 1) -> payload K k = k.
Proof. intros. unfold payload. by apply Z.mod_small. Qed.

Lemma cell_bits_range K c :
  1 <= K -> 0 <= cell_bits K c < 2 ^ K.
Proof.
  intros HK. assert (0 < 2 ^ K) by (apply Z.pow_pos_nonneg; lia).
  destruct c as [p|]; cbn; [|lia]. by apply Z.mod_pos_bound.
Qed.

Lemma cell_of_bits_cell_bits K c :
  1 <= K -> (∀ p, c = Some p -> 0 <= p < 2 ^ (K - 1)) ->
  cell_of_bits (cell_bits K c) = c.
Proof.
  intros HK Hc. destruct c as [p|]; [|done]. cbn.
  specialize (Hc p eq_refl).
  assert (2 ^ K = 2 * 2 ^ (K - 1)) as HKe.
  { rewrite <- Z.pow_succ_r by lia. f_equal. lia. }
  rewrite Z.mod_small by lia. unfold cell_of_bits.
  rewrite Z.odd_add_mul_2. cbn [Z.odd]. f_equal.
  rewrite (Z.mul_comm 2 p), Z.div_add by lia. done.
Qed.

Lemma pack_range K cs :
  1 <= K -> 0 <= pack K cs < 2 ^ (K * Z.of_nat (length cs)).
Proof.
  intros HK. induction cs as [|c cs IH].
  - cbn. rewrite Z.mul_0_r. cbn. lia.
  - cbn [pack length]. rewrite Nat2Z.inj_succ, Z.mul_succ_r.
    rewrite Z.add_comm, Z.pow_add_r by lia.
    pose proof (cell_bits_range K c HK). nia.
Qed.

Lemma unpack_pack K cs :
  1 <= K ->
  Forall (λ c, ∀ p, c = Some p -> 0 <= p < 2 ^ (K - 1)) cs ->
  unpack K (length cs) (pack K cs) = cs.
Proof.
  intros HK. induction 1 as [|c cs Hc _ IH]; [done|].
  cbn [pack length unpack].
  pose proof (cell_bits_range K c HK).
  assert (0 < 2 ^ K) by (apply Z.pow_pos_nonneg; lia).
  rewrite (Z.mul_comm (2 ^ K)), Z.mod_add, Z.div_add by lia.
  rewrite Z.mod_small, Z.div_small, Z.add_0_l by lia.
  rewrite cell_of_bits_cell_bits by done. by rewrite IH.
Qed.

Lemma data_len_covers K N : 0 <= K * N -> K * N <= 8 * data_len K N.
Proof.
  intros. unfold data_len.
  pose proof (Z.mul_div_le (K * N + 63) 64 ltac:(lia)).
  pose proof (Z.mod_pos_bound (K * N + 63) 64 ltac:(lia)).
  pose proof (Z.div_mod (K * N + 63) 64 ltac:(lia)). lia.
Qed.

Lemma length_write a : length (write a) = Z.to_nat (get_data_len a).
Proof. apply length_le_bytes. Qed.

(** The array placed over what [write] emitted is the array written. *)
Lemma of_map_write a rest :
  wf a -> of_map (write a ++ rest) (item_len a) (size a) = a.
Proof.
  intros (HK & Hsize & Hcells). unfold of_map.
  change (data_len (item_len a) (size a)) with (get_data_len a).
  rewrite take_app_length' by (by rewrite length_write).
  unfold write. rewrite le_value_le_bytes.
  assert (0 <= get_data_len a) as Hlen.
  { pose proof (data_len_covers (item_len a) (size a)). unfold get_data_len. 
    unfold data_len. apply Z.mul_nonneg_nonneg; [lia|]. apply Z.div_pos; lia. }
  rewrite Z2Nat.id by done.
  pose proof (pack_range (item_len a) (cells a) HK) as Hpack.
  rewrite Z.mod_small.
  - replace (Z.to_nat (size a)) with (length (cells a)) by lia.
    rewrite unpack_pack by done. by destruct a.
  - split; [lia|]. eapply Z.lt_le_trans; [apply Hpack|].
    change 256 with (2 ^ 8). rewrite <- Z.pow_mul_r by lia.
    apply Z.pow_le_mono_r; [lia|]. rewrite <- Hsize.
    apply data_len_covers. lia.
Qed.

End small_packed_array_facts.

(** ** [arys_t::add] *)

Lemma arys_add_false sz intf g idx key val g' :
  arys_t.add sz intf g idx key val = Done (false, g') ->
  fst (small_packed_array.set (arys_t.keys g) idx key) = false ∧ g' = g.
Proof.
  unfold arys_t.add.
  destruct (small_packed_array.set _ _ _) as [[] keys']; cbn.
  - destruct (arys_t.vals g !! Z.to_nat idx); intros [=].
  - by intros [= <-].
Qed.

Lemma arys_add_set_false sz intf g idx key val :
  fst (small_packed_array.set (arys_t.keys g) idx key) = false ->
  arys_t.add sz intf g idx key val = Done (false, g).
Proof.
  unfold arys_t.add.
  destruct (small_packed_array.set _ _ _) as [[] keys']; cbn; [done|].
  done.
Qed.

(** C7: [arys_t::add(i, k, v)] returns false exactly when [set(i, k)]
    answers false, which it does exactly when slot [i] holds another key
    [k' <> k]; the generation it leaves is then the one it found, so no
    counter and no key has changed.  This holds whatever other threads
    store in the counter meanwhile ([intf]). *)
Theorem C7_add_false_iff_other_key sz intf g idx key val :
  0 <= idx < small_packed_array.size (arys_t.keys g) ->
  0 <= key < 2 ^ (small_packed_array.item_len (arys_t.keys g) - 1) ->
  ((∃ g', arys_t.add sz intf g idx key val = Done (false, g')) <->
   fst (small_packed_array.set (arys_t.keys g) idx key) = false)
  ∧ (fst (small_packed_array.set (arys_t.keys g) idx key) = false <->
     ∃ k', small_packed_array.get (arys_t.keys g) idx = Some k' ∧ k' ≠ key)
  ∧ (∀ g', arys_t.add sz intf g idx key val = Done (false, g') ->
           g' = g ∧ arys_t.vals g' = arys_t.vals g
           ∧ arys_t.keys g' = arys_t.keys g).
Proof.
  intros Hidx Hkey. split; [|split].
  - split.
    + intros [g' Hadd]. by apply arys_add_false in Hadd as [? _].
    + intros Hset. exists g. by apply arys_add_set_false.
  - rewrite small_packed_array_facts.set_false_iff by done.
    by rewrite small_packed_array_facts.payload_small.
  - intros g' Hadd. apply arys_add_false in Hadd as [_ ->]. done.
Qed.

Lemma C7_add_false_iff_other_key_witness :
  ∃ g', arys_t.add 4 [] sample_arys 0 7 1 = Done (false, g').
Proof.
  destruct (C7_add_false_iff_other_key 4 [] sample_arys 0 7 1) as [[_ H] _].
  - cbn. lia.
  - cbn. lia.
  - apply H. reflexivity.
Defined.

Lemma arys_add_true sz intf g idx key val keys' c :
  small_packed_array.set (arys_t.keys g) idx key = (true, keys') ->
  arys_t.vals g !! Z.to_nat idx = Some c ->
  arys_t.add sz intf g idx key val =
    Done (true, arys_t.set_vals (arys_t.set_keys g keys')
                  (<[Z.to_nat idx := arys_t.add_loop sz intf c val]> (arys_t.vals g))).
Proof. intros Hset Hc. unfold arys_t.add. by rewrite Hset, Hc. Qed.

(** C2: where the claim has the counter saturate, the code stores zero.
    With no other thread at the counter, a counter [c] below all-ones
    and a value [v] with [~c < v], [add] returns true and leaves 0 in
    the counter ([nval = 0x0] on line 167), so the counter decreases. *)
Theorem C2_add_overflow_stores_zero sz g idx key v c keys' :
  0 <= sz ->
  small_packed_array.set (arys_t.keys g) idx key = (true, keys') ->
  arys_t.vals g !! Z.to_nat idx = Some c ->
  0 <= c < ALL_ONES sz ->
  ALL_ONES sz - c < v < Val_modulus sz ->
  ∃ g' c', arys_t.add sz [] g idx key v = Done (true, g')
           ∧ arys_t.vals g' !! Z.to_nat idx = Some c'
           ∧ c' = 0 ∧ c' ≠ ALL_ONES sz ∧ (0 < c -> c' < c).
Proof.
  intros Hsz Hset Hc Hrange Hv.
  eexists _, 0. split; [by apply arys_add_true|].
  split; [|unfold ALL_ONES in *; lia].
  change (arys_t.vals (arys_t.set_vals ?a ?b)) with b.
  rewrite list_lookup_insert_eq by (by eapply lookup_lt_Some).
  rewrite add_loop_nil by (unfold ALL_ONES in *; lia).
  destruct (Z.eqb_spec c (ALL_ONES sz)); [lia|].
  destruct (Z.ltb_spec (ALL_ONES sz - c) v); [done|lia].
Qed.

(** A [uint32_t] counter one short of all-ones, and 2 added to it. *)
Lemma C2_add_overflow_stores_zero_witness :
  ∃ g' c', arys_t.add 4 []
             (arys_t.set_vals sample_arys [4294967294; 0; 0; 0]) 0 5 2
           = Done (true, g')
           ∧ arys_t.vals g' !! Z.to_nat 0 = Some c'
           ∧ c' = 0 ∧ c' ≠ ALL_ONES 4 ∧ (0 < 4294967294 -> c' < 4294967294).
Proof.
  eapply (C2_add_overflow_stores_zero 4
            (arys_t.set_vals sample_arys [4294967294; 0; 0; 0]) 0 5 2 4294967294).
  - lia.
  - reflexivity.
  - reflexivity.
  - cbv. split; [discriminate|reflexivity].
  - cbv. split; reflexivity.
Defined.

(** As long as the sum fits, a run of [add] on one counter, with no
    other thread at it, leaves the sum. *)
Lemma add_sequence_without_overflow sz (vs : list Z) : ∀ c,
  0 <= sz -> 0 <= c ->
  Forall (λ v, 0 <= v) vs ->
  c + foldr Z.add 0 vs <= ALL_ONES sz ->
  foldl (arys_t.add_loop sz []) c vs = c + foldr Z.add 0 vs.
Proof.
  induction vs as [|v vs IH]; intros c Hsz Hc Hvs Hsum; cbn [foldl foldr] in *.
  - lia.
  - apply Forall_cons in Hvs as [Hv Hvs].
    assert (0 <= foldr Z.add 0 vs) as Hrest.
    { clear -Hvs. induction Hvs; cbn; lia. }
    rewrite add_loop_nil by (unfold ALL_ONES in *; lia).
    destruct (Z.eqb_spec c (ALL_ONES sz)) as [->|].
    + rewrite IH by (try done; lia). lia.
    + destruct (Z.ltb_spec (ALL_ONES sz - c) v); [lia|].
      rewrite IH by (try done; lia). lia.
Qed.

(** C1: the final counter is not [min(ALL_ONES, sum)] and depends on the
    order of the calls.  Scenario 4 of the spec, an 8-bit [Val] with
    [add(1, 200)] then [add(1, 100)], ends with 0 stored for key 1, not
    255; adding 5 first or last gives 0 or 5.  The same happens to a
    [uint32_t] counter. *)
Theorem C1_add_sequence_wraps_to_zero :
  (∃ s h, run_adds 1 64 64 8 4 [(1, 200); (1, 100)] = Done (s, h)
          ∧ stored_value s 1 = Done (Some 0)
          ∧ Z.min (ALL_ONES 1) (200 + 100) = 255)
  ∧ (∃ s h, run_adds 1 64 64 8 4 [(1, 200); (1, 100); (1, 5)] = Done (s, h)
            ∧ stored_value s 1 = Done (Some 5))
  ∧ (∃ s h, run_adds 1 64 64 8 4 [(1, 5); (1, 200); (1, 100)] = Done (s, h)
            ∧ stored_value s 1 = Done (Some 0))
  ∧ (∃ s h, run_adds 4 64 64 8 4 [(1, 4294967294); (1, 2)] = Done (s, h)
            ∧ stored_value s 1 = Done (Some 0)
            ∧ Z.min (ALL_ONES 4) (4294967294 + 2) = 4294967295).
Proof.
  repeat split; eexists _, _; (split; [vm_compute; reflexivity|]);
    repeat split; vm_compute; reflexivity.
Qed.

(** ** The heap *)

Lemma bind_Done {A B} (r : result A) (f : A -> result B) b :
  r ≫= f = Done b -> ∃ a, r = Done a ∧ f a = Done b.
Proof. destruct r; cbn; try discriminate. eauto. Qed.

Lemma heap_lookup_Done m a g : heap.lookup m a = Done g <-> heap.objs m !! a = Some g.
Proof.
  unfold heap.lookup. destruct (heap.objs m !! a); split; intros [=]; by subst.
Qed.

Lemma heap_lookup_store m a g : heap.lookup (heap.store m a g) a = Done g.
Proof. unfold heap.lookup, heap.store. cbn. by rewrite lookup_insert_eq. Qed.

Lemma heap_lookup_store_ne m a b g :
  a ≠ b -> heap.lookup (heap.store m a g) b = heap.lookup m b.
Proof. intros. unfold heap.lookup, heap.store. cbn. by rewrite lookup_insert_ne. Qed.

Lemma heap_store_store m a g1 g2 :
  heap.store (heap.store m a g1) a g2 = heap.store m a g2.
Proof. unfold heap.store. cbn. by rewrite insert_insert_eq. Qed.

(** ** Copy-chunking *)

Lemma shiftr7_small n : 0 <= n < 128 -> Z.shiftr n 7 = 0.
Proof. intros. rewrite Z.shiftr_div_pow2 by lia. apply Z.div_small. lia. Qed.

Lemma get_chunck_small g :
  0 <= arys_t.size g < 128 ->
  arys_t.get_chunck g =
    (arys_t.set_copy_chunck g (u32 (arys_t.copy_chunck g + 1)),
     if arys_t.copy_chunck g >=? 128 then None else Some (0, 0)).
Proof.
  intros Hsize. unfold arys_t.get_chunck.
  destruct (arys_t.copy_chunck g >=? 128); [done|].
  rewrite shiftr7_small by done. rewrite Z.mul_0_r.
  change (u64 0) with 0. change (u64 (0 + 0)) with 0.
  destruct (Z.gtb_spec 0 (arys_t.size g)); [lia|done].
Qed.

#[global] Arguments thread_hash_counter.add_outer : simpl never.
#[global] Arguments thread_hash_counter.add_probe : simpl never.
#[global] Arguments thread_hash_counter.copy_chuncks : simpl never.
#[global] Arguments thread_hash_counter.copy_slots : simpl never.
#[global] Arguments thread_hash_counter.copy_over : simpl never.
#[global] Arguments thread_hash_counter.release : simpl never.

(** The equations of [add] and [copy_over], one turn of each loop. *)
Section HandleEquations.

Variables sizeof_Key sizeof_Val : Z.
Variable alloc : Z -> option (list Z).

#[local] Abbreviation add_outer := (thread_hash_counter.add_outer sizeof_Key sizeof_Val alloc).
#[local] Abbreviation add_probe := (thread_hash_counter.add_probe sizeof_Key sizeof_Val alloc).
#[local] Abbreviation copy_chuncks := (thread_hash_counter.copy_chuncks sizeof_Key sizeof_Val alloc).
#[local] Abbreviation copy_slots := (thread_hash_counter.copy_slots sizeof_Key sizeof_Val alloc).
#[local] Abbreviation copy_over := (thread_hash_counter.copy_over sizeof_Key sizeof_Val alloc).
#[local] Abbreviation release := thread_hash_counter.release.
#[local] Abbreviation resize := (thread_hash_counter.resize sizeof_Val alloc).

Lemma add_outer_eq fuel s h k v hash reprobe emax :
  add_outer (S fuel) s h k v hash reprobe emax =
    let carys := root_key_val_arys (root s) in
    if negb (Nat.eqb carys (thread_hash_counter.key_val_arys h)) then
      let oarys := thread_hash_counter.key_val_arys h in
      cg ← heap.lookup (mem s) carys;
      let s1 := set_mem s (heap.store (mem s) carys (snd (arys_t.ref_inc cg))) in
      let h1 := thread_hash_counter.set_key_val_arys h carys in
      '(s2, h2) ← copy_over fuel s1 h1 oarys;
      m3 ← release fuel (mem s2) (Some oarys);
      add_outer fuel (set_mem s2 m3) h2 k v hash 0 emax
    else
      cg ← heap.lookup (mem s) carys;
      add_probe fuel s h k v hash carys (Z.land hash (arys_t.mod_mask cg))
                reprobe emax.
Proof. reflexivity. Qed.

Lemma add_probe_eq fuel s h k v hash carys idx reprobe emax :
  add_probe (S fuel) s h k v hash carys idx reprobe emax =
    cg ← heap.lookup (mem s) carys;
    '(ok, cg') ← arys_t.add sizeof_Val [] cg idx k v;
    if (ok : bool) then Done (set_mem s (heap.store (mem s) carys cg'), h)
    else
      let reprobe := u32 (reprobe + 1) in
      if reprobe >? emax then
        '(resized, s1) ← resize s h carys false;
        if (resized : bool) then add_outer fuel s1 h k v hash reprobe emax
        else if emax >? thread_hash_counter.max_reprobe h then
          '(_, s2) ← resize s1 h carys true;
          add_outer fuel s2 h k v hash reprobe emax
        else
          let emax := u32 (4 * thread_hash_counter.max_reprobe h) in
          cg1 ← heap.lookup (mem s1) carys;
          add_probe fuel s1 h k v hash carys
            (thread_hash_counter.reprobe_idx idx reprobe (arys_t.mod_mask cg1))
            reprobe emax
      else
        add_probe fuel s h k v hash carys
          (thread_hash_counter.reprobe_idx idx reprobe (arys_t.mod_mask cg))
          reprobe emax.
Proof. reflexivity. Qed.

Lemma copy_chuncks_eq fuel s h carys :
  copy_chuncks (S fuel) s h carys =
    cg ← heap.lookup (mem s) carys;
    let '(cg', chunck) := arys_t.get_chunck cg in
    let s1 := set_mem s (heap.store (mem s) carys cg') in
    match chunck with
    | None => Done (s1, h)
    | Some (start, end_) =>
        '(s2, h2) ← copy_slots fuel s1 h carys start end_;
        copy_chuncks fuel s2 h2 carys
    end.
Proof. reflexivity. Qed.

Lemma copy_slots_eq fuel s h carys i end_ :
  copy_slots (S fuel) s h carys i end_ =
    if i <? end_ then
      cg ← heap.lookup (mem s) carys;
      r ← arys_t.get cg i;
      match r with
      | Some (ckey, cval) =>
          '(s1, h1) ← add_outer fuel s h ckey cval
                         (thread_hash_counter.hash_key sizeof_Key ckey) 0
                         (thread_hash_counter.max_reprobe h);
          copy_slots fuel s1 h1 carys (u64 (i + 1)) end_
      | None => copy_slots fuel s h carys (u64 (i + 1)) end_
      end
    else Done (s, h).
Proof. reflexivity. Qed.

Lemma copy_over_eq fuel s h carys :
  copy_over (S fuel) s h carys =
    _ ← thread_hash_counter.barrier_wait s;
    copy_chuncks fuel s h carys.
Proof. reflexivity. Qed.

Lemma copy_chuncks_small (n : nat) : ∀ fuel s h carys cg,
  heap.lookup (mem s) carys = Done cg ->
  0 <= arys_t.size cg < 128 ->
  0 <= arys_t.copy_chunck cg ->
  128 - arys_t.copy_chunck cg <= Z.of_nat n ->
  (n + 2 <= fuel)%nat ->
  copy_chuncks fuel s h carys =
    Done (set_mem s (heap.store (mem s) carys
            (arys_t.set_copy_chunck cg
               (u32 (Z.max (arys_t.copy_chunck cg) 128 + 1)))), h).
Proof.
  induction n as [|n IH]; intros fuel s h carys cg Hcg Hsize Hc0 Hn Hfuel;
    (destruct fuel as [|fuel]; [lia|]); rewrite copy_chuncks_eq, Hcg; cbn;
    rewrite get_chunck_small by done.
  - destruct (Z.geb_spec (arys_t.copy_chunck cg) 128); [|lia].
    by rewrite Z.max_l by lia.
  - destruct (Z.geb_spec (arys_t.copy_chunck cg) 128).
    + by rewrite Z.max_l by lia.
    + destruct fuel as [|fuel]; [lia|]. rewrite copy_slots_eq. cbn.
      assert (u32 (arys_t.copy_chunck cg + 1) = arys_t.copy_chunck cg + 1) as ->
        by (unfold u32; apply Z.mod_small; lia).
      erewrite (IH (S fuel)); [| apply heap_lookup_store | done | | | lia ].
      * unfold set_mem at 1 2 3. cbn [mem root]. rewrite heap_store_store.
        unfold arys_t.set_copy_chunck. cbn.
        by rewrite !Z.max_r by lia.
      * cbn. lia.
      * cbn. lia.
Qed.

End HandleEquations.

(** C9: in a generation of fewer than 128 slots the chunk size
    [size >> 7] is zero, every chunk [get_chunck] returns is [0, 0), and
    [copy_over] of such a generation returns having changed nothing but
    the copy cursor of that generation: no slot is read and no key is
    added anywhere, whatever the generation holds. *)
Theorem C9_small_generation_copies_nothing
    sizeof_Key sizeof_Val alloc fuel s h carys cg :
  heap.lookup (mem s) carys = Done cg ->
  0 <= arys_t.size cg < 128 ->
  0 <= arys_t.copy_chunck cg ->
  Z.shiftr (arys_t.size cg) 7 = 0
  ∧ (∀ g' c, arys_t.get_chunck cg = (g', Some c) -> c = (0, 0))
  ∧ (root_resize_barrier (root s) = 1 -> (131 <= fuel)%nat ->
     thread_hash_counter.copy_over sizeof_Key sizeof_Val alloc fuel s h carys =
       Done (set_mem s (heap.store (mem s) carys
               (arys_t.set_copy_chunck cg
                  (u32 (Z.max (arys_t.copy_chunck cg) 128 + 1)))), h)).
Proof.
  intros Hcg Hsize Hc0. split; [by apply shiftr7_small|]. split.
  - intros g' c. rewrite get_chunck_small by done.
    destruct (_ >=? _); intros [= _ <-]. done.
  - intros Hbar Hfuel. destruct fuel as [|fuel]; [lia|].
    rewrite copy_over_eq.
    unfold thread_hash_counter.barrier_wait. rewrite Hbar. cbn.
    apply (copy_chuncks_small _ _ _ 128); [done..|lia|lia].
Qed.

Lemma C9_small_generation_copies_nothing_witness :
  thread_hash_counter.copy_over 8 4 (mmap_alloc 4) 131
    sample_state sample_handle 0 =
  Done (set_mem sample_state
          (heap.store (mem sample_state) 0
             (arys_t.set_copy_chunck sample_arys 129)), sample_handle).
Proof.
  destruct (C9_small_generation_copies_nothing 8 4 (mmap_alloc 4) 131
              sample_state sample_handle 0 sample_arys) as (_ & _ & H).
  - reflexivity.
  - cbn. lia.
  - cbn. lia.
  - apply H; [reflexivity | lia].
Defined.

(** ** The reprobe limit of a handle *)

Lemma same_limits_refl h : same_limits h h.
Proof. by repeat split. Qed.

Lemma same_limits_trans h1 h2 h3 :
  same_limits h1 h2 -> same_limits h2 h3 -> same_limits h1 h3.
Proof. unfold same_limits. intros (? & ? & ?) (? & ? & ?). repeat split; congruence. Qed.

Lemma same_limits_set_key_val_arys h a :
  same_limits h (thread_hash_counter.set_key_val_arys h a).
Proof. by repeat split. Qed.

Ltac split_bind H :=
  repeat first
    [ apply bind_Done in H as (? & ? & H); cbv beta in H
    | match type of H with
      | (if ?c then _ else _) = Done _ => destruct c eqn:?
      | (let '(_, _) := ?p in _) = Done _ => destruct p eqn:?
      | match ?x with _ => _ end = Done _ => destruct x eqn:?
      end ];
  try discriminate.

Section HandleFrame.

Variables sizeof_Key sizeof_Val : Z.
Variable alloc : Z -> option (list Z).

#[local] Abbreviation add_outer := (thread_hash_counter.add_outer sizeof_Key sizeof_Val alloc).
#[local] Abbreviation add_probe := (thread_hash_counter.add_probe sizeof_Key sizeof_Val alloc).
#[local] Abbreviation copy_chuncks := (thread_hash_counter.copy_chuncks sizeof_Key sizeof_Val alloc).
#[local] Abbreviation copy_slots := (thread_hash_counter.copy_slots sizeof_Key sizeof_Val alloc).
#[local] Abbreviation copy_over := (thread_hash_counter.copy_over sizeof_Key sizeof_Val alloc).

(** No loop of [add] or [copy_over] writes a limit of the handle. *)
Lemma handle_limits_frame (fuel : nat) :
  (∀ s h k v hash reprobe emax s' h',
      add_outer fuel s h k v hash reprobe emax = Done (s', h') -> same_limits h h')
  ∧ (∀ s h k v hash carys idx reprobe emax s' h',
      add_probe fuel s h k v hash carys idx reprobe emax = Done (s', h') ->
      same_limits h h')
  ∧ (∀ s h carys s' h',
      copy_chuncks fuel s h carys = Done (s', h') -> same_limits h h')
  ∧ (∀ s h carys i end_ s' h',
      copy_slots fuel s h carys i end_ = Done (s', h') -> same_limits h h')
  ∧ (∀ s h carys s' h',
      copy_over fuel s h carys = Done (s', h') -> same_limits h h').
Proof.
  induction fuel as [|fuel (IHouter & IHprobe & IHchuncks & IHslots & IHover)].
  { repeat split; intros; discriminate. }
  split; [|split; [|split; [|split]]].
  - intros s h k v hash reprobe emax s' h' H.
    rewrite add_outer_eq in H. cbv zeta in H. split_bind H.
    + eapply same_limits_trans; [apply same_limits_set_key_val_arys|].
      eapply same_limits_trans; [by eapply IHover|]. by eapply IHouter.
    + by eapply IHprobe.
  - intros s h k v hash carys idx reprobe emax s' h' H.
    rewrite add_probe_eq in H. cbv zeta in H. split_bind H;
      try (injection H as <- <-; apply same_limits_refl);
      first [ by eapply IHouter | by eapply IHprobe ].
  - intros s h carys s' h' H.
    rewrite copy_chuncks_eq in H. cbv zeta in H. split_bind H.
    + eapply same_limits_trans; [by eapply IHslots|]. by eapply IHchuncks.
    + injection H as <- <-. apply same_limits_refl.
  - intros s h carys i end_ s' h' H.
    rewrite copy_slots_eq in H. split_bind H.
    + eapply same_limits_trans; [by eapply IHouter|]. by eapply IHslots.
    + by eapply IHslots.
    + injection H as <- <-. apply same_limits_refl.
  - intros s h carys s' h' H.
    rewrite copy_over_eq in H. split_bind H. by eapply IHchuncks.
Qed.

End HandleFrame.

(** C10: [thread_hash_counter::add] does not write the member
    [emax_reprobe] (nor [max_reprobe]): whenever a call returns, the
    handle has the limits it had before.  The limit the probe loop
    compares with is the local of line 445, which every call starts from
    [max_reprobe]; so a second call on the handle starts from the same
    limit as the first, whatever escalation the first went through. *)
Theorem C10_add_keeps_emax_reprobe
    sizeof_Key sizeof_Val alloc fuel s h k v s' h' :
  thread_hash_counter.add sizeof_Key sizeof_Val alloc fuel s h k v = Done (s', h') ->
  thread_hash_counter.emax_reprobe h' = thread_hash_counter.emax_reprobe h
  ∧ thread_hash_counter.max_reprobe h' = thread_hash_counter.max_reprobe h
  ∧ (∀ fuel' k' v',
       thread_hash_counter.add sizeof_Key sizeof_Val alloc fuel' s' h' k' v' =
       thread_hash_counter.add_outer sizeof_Key sizeof_Val alloc fuel' s' h' k' v'
         (thread_hash_counter.hash_key sizeof_Key k') 0
         (thread_hash_counter.max_reprobe h)).
Proof.
  intros H. unfold thread_hash_counter.add in H.
  apply handle_limits_frame in H as (Hemax & Hmax & _).
  repeat split; [done..|].
  intros fuel' k' v'. unfold thread_hash_counter.add. by rewrite Hmax.
Qed.

Lemma C10_add_keeps_emax_reprobe_witness :
  thread_hash_counter.emax_reprobe (snd contended_table_after) = 1
  ∧ small_packed_array.get
      (arys_t.keys (done_or sample_arys
                      (heap.lookup (mem (fst contended_table_after)) 0))) 1
    = Some 8.
Proof.
  split; [|vm_compute; reflexivity].
  destruct (C10_add_keeps_emax_reprobe 8 4 (mmap_alloc 4) 64
              (fst contended_table) (snd contended_table) 8 1
              (fst contended_table_after) (snd contended_table_after))
    as (-> & _).
  - vm_compute. reflexivity.
  - vm_compute. reflexivity.
Defined.


(** C3: a resize of a generation of fewer than 128 slots loses every
    count it holds.  Scenario 2 of the spec: four slots, keys 1 to 4
    inserted once each fill the generation; [add(5, 1)] exhausts the
    reprobes, resizes to eight slots, runs the whole [copy_over] of the
    old generation and releases it.  The new generation then holds key
    5 alone: the sum of the counters went from 4 to 1. *)
Theorem C3_resize_of_small_generation_loses_counts :
  ∃ s h s' h',
    run_adds 4 400 64 4 4 [(1, 1); (2, 1); (3, 1); (4, 1)] = Done (s, h)
    ∧ table_pairs s = Done [(3, 1); (4, 1); (2, 1); (1, 1)]
    ∧ thread_hash_counter.add 8 4 (mmap_alloc 4) 400 s h 5 1 = Done (s', h')
    ∧ root_key_val_arys (root s) = 0%nat
    ∧ root_key_val_arys (root s') = 1%nat
    ∧ heap.freed (mem s') = [0%nat]
    ∧ concurrent_hash_counter.size s' = Done 8
    ∧ table_pairs s' = Done [(5, 1)]
    ∧ stored_value s' 1 = Done None.
Proof.
  eexists _, _, _, _.
  split; [vm_compute; reflexivity|].
  split; [vm_compute; reflexivity|].
  split; [vm_compute; reflexivity|].
  repeat split; vm_compute; reflexivity.
Qed.

(** With 128 slots the chunks cover the generation: twenty keys
    inserted once each with [max_reprobe = 0] force one resize, and the
    new generation of 256 slots holds all twenty counts. *)
Lemma resize_of_128_slots_keeps_counts :
  ∃ s h ps,
    run_adds 4 2000 64 128 0
      (map (λ i, (Z.of_nat (S i), 1)) (seq 0 20)) = Done (s, h)
    ∧ heap.freed (mem s) = [0%nat]
    ∧ concurrent_hash_counter.size s = Done 256
    ∧ table_pairs s = Done ps
    ∧ length ps = 20%nat
    ∧ Forall (λ i, stored_value s (Z.of_nat (S i)) = Done (Some 1)) (seq 0 20).
Proof.
  eexists _, _, _. split; [vm_compute; reflexivity|].
  split; [vm_compute; reflexivity|]. split; [vm_compute; reflexivity|].
  split; [vm_compute; reflexivity|]. split; [vm_compute; reflexivity|].
  repeat (constructor; [vm_compute; reflexivity|]). constructor.
Qed.

(** ** The size of a generation *)

Lemma is_pow2_pos n : is_pow2 n -> 0 < n.
Proof. intros (k & Hk & ->). by apply Z.pow_pos_nonneg. Qed.

Lemma shiftl1_pow2 j : 0 <= j < 63 -> u64 (Z.shiftl (2 ^ j) 1) = 2 ^ (j + 1).
Proof.
  intros Hj. rewrite Z.shiftl_mul_pow2 by lia.
  rewrite <- Z.pow_add_r by lia. unfold u64. apply Z.mod_small.
  split; [apply Z.pow_nonneg; lia|]. apply Z.pow_lt_mono_r; lia.
Qed.

Lemma shiftl1_pow2_63 : u64 (Z.shiftl (2 ^ 63) 1) = 0.
Proof. reflexivity. Qed.

(** Once [size] has been shifted out, the loop never leaves. *)
Lemma round_up_stuck fuel _size : 0 < _size -> arys_t.round_up fuel _size 0 = None.
Proof.
  intros Hpos. induction fuel as [|fuel IH]; [done|]. cbn.
  destruct (Z.gtb_spec _size 0); [|lia]. exact IH.
Qed.

Lemma round_up_diverges fuel : ∀ j _size,
  0 <= j <= 63 -> 2 ^ 63 < _size -> arys_t.round_up fuel _size (2 ^ j) = None.
Proof.
  induction fuel as [|fuel IH]; intros j _size Hj Hbig; [done|].
  cbn [arys_t.round_up].
  assert (2 ^ j <= 2 ^ 63) by (apply Z.pow_le_mono_r; lia).
  destruct (Z.gtb_spec _size (2 ^ j)); [|lia].
  destruct (decide (j = 63)) as [->|].
  - rewrite shiftl1_pow2_63. apply round_up_stuck. lia.
  - rewrite shiftl1_pow2 by lia. apply IH; lia.
Qed.

(** Up to [2 ^ 63] the loop leaves with the least power of two that is
    not below [_size]. *)
Lemma round_up_spec fuel : ∀ j _size,
  0 <= j <= 63 -> _size <= 2 ^ 63 -> (64 - j <= Z.of_nat fuel) ->
  ∃ k, j <= k <= 63
       ∧ arys_t.round_up fuel _size (2 ^ j) = Some (2 ^ k)
       ∧ _size <= 2 ^ k
       ∧ (j < k -> 2 ^ (k - 1) < _size).
Proof.
  induction fuel as [|fuel IH]; intros j _size Hj Hsize Hfuel; [lia|].
  cbn [arys_t.round_up].
  destruct (Z.gtb_spec _size (2 ^ j)) as [Hgt|Hle].
  - assert (j < 63) by (destruct (decide (j = 63)) as [->|]; lia).
    rewrite shiftl1_pow2 by lia.
    destruct (IH (j + 1) _size) as (k & Hk & Heq & Hle & Hmin); [lia..|].
    exists k. repeat split; [lia | lia | done | done |].
    intros _. destruct (decide (k = j + 1)) as [->|]; [|apply Hmin; lia].
    by replace (j + 1 - 1) with j by lia.
  - exists j. repeat split; lia.
Qed.

Lemma round_up_least _size :
  0 <= _size <= 2 ^ 63 ->
  ∃ S, arys_t.round_up arys_t.round_up_steps _size 1 = Some S
       ∧ is_pow2 S ∧ _size <= S ∧ S <= 2 ^ 63
       ∧ (∀ P, is_pow2 P -> _size <= P -> S <= P).
Proof.
  intros Hsize.
  destruct (round_up_spec arys_t.round_up_steps 0 _size)
    as (k & Hk & Heq & Hle & Hmin); [lia | lia | unfold arys_t.round_up_steps; lia |].
  exists (2 ^ k). split; [exact Heq|]. split; [exists k; split; [lia|done]|].
  split; [done|]. split; [apply Z.pow_le_mono_r; lia|].
  intros P (j & Hj & ->) HP.
  destruct (decide (k = 0)) as [->|].
  - change (2 ^ 0) with 1. pose proof (Z.pow_pos_nonneg 2 j). lia.
  - apply Z.pow_le_mono_r; [lia|].
    destruct (Z.le_gt_cases k j) as [|Hlt]; [done|].
    assert (2 ^ j <= 2 ^ (k - 1)) by (apply Z.pow_le_mono_r; lia).
    specialize (Hmin ltac:(lia)). lia.
Qed.

(** The fixed number of steps given to the loop loses nothing: when
    they run out, no number of steps is enough. *)
Lemma round_up_steps_enough fuel _size :
  arys_t.round_up arys_t.round_up_steps _size 1 = None ->
  arys_t.round_up fuel _size 1 = None.
Proof.
  intros Hnone. destruct (Z.le_gt_cases _size (2 ^ 63)) as [Hle|Hgt].
  - destruct (round_up_spec arys_t.round_up_steps 0 _size)
      as (k & _ & Heq & _); [lia | lia | unfold arys_t.round_up_steps; lia |].
    change (2 ^ 0) with 1 in Heq. congruence.
  - apply (round_up_diverges fuel 0); lia.
Qed.

(** C6, amended: for a requested size of at most [2 ^ 63], the
    owned-memory constructor rounds the size up to the least power of
    two not below it and sets [mod_mask = size - 1], unless the
    allocation fails; the constructor over a mapped buffer raises
    BadSize exactly when the size is not a power of two, and keeps the
    size as given otherwise. *)
Theorem C6_constructor_sizes sizeof_Val alloc _item_len _size map :
  0 <= _size <= 2 ^ 63 ->
  ∃ S, (is_pow2 S ∧ _size <= S ∧ (∀ P, is_pow2 P -> _size <= P -> S <= P))
    ∧ (∀ vals, alloc (u64 (sizeof_Val * S)) = Some vals ->
         ∃ g, arys_t.new sizeof_Val alloc _item_len _size = Done g
              ∧ arys_t.size g = S ∧ arys_t.mod_mask g = S - 1
              ∧ arys_t.allocated g = true)
    ∧ (alloc (u64 (sizeof_Val * S)) = None ->
         arys_t.new sizeof_Val alloc _item_len _size = Exit)
    ∧ (arys_t.of_map sizeof_Val _item_len _size map = BadSize <-> ¬ is_pow2 _size)
    ∧ (is_pow2 _size ->
         ∃ g, arys_t.of_map sizeof_Val _item_len _size map = Done g
              ∧ arys_t.size g = _size ∧ arys_t.mod_mask g = _size - 1
              ∧ arys_t.allocated g = false).
Proof.
  intros Hsize.
  destruct (round_up_least _size Hsize) as (S & Heq & Hpow & Hle & Hmax & Hleast).
  assert (u64 (S - 1) = S - 1) as Hmask.
  { apply is_pow2_pos in Hpow. unfold u64. apply Z.mod_small. lia. }
  exists S. split; [done|]. unfold arys_t.new, arys_t.of_map. rewrite Heq.
  split; [|split; [|split]].
  - intros vals ->. eexists. split; [done|]. cbn. done.
  - by intros ->.
  - destruct (Z.eqb_spec _size S) as [->|Hne]; cbn.
    + split; [done|]. by intros [].
    + split; [|done]. intros _ Hp. apply Hne.
      specialize (Hleast _ Hp ltac:(lia)). lia.
  - intros Hp. assert (_size = S) as -> by (specialize (Hleast _ Hp ltac:(lia)); lia).
    rewrite Z.eqb_refl. cbn. eexists. split; [done|]. cbn. done.
Qed.

Lemma C6_constructor_sizes_witness :
  ∃ g, arys_t.new 4 (mmap_alloc 4) 64 5 = Done g
       ∧ arys_t.size g = 8 ∧ arys_t.mod_mask g = 7.
Proof.
  destruct (C6_constructor_sizes 4 (mmap_alloc 4) 64 5 []) as (S & _ & Hnew & _).
  - lia.
  - destruct (Hnew (replicate (Z.to_nat (u64 (4 * S) / 4)) 0)) as (g & Hg & _).
    + reflexivity.
    + exists g. split; [exact Hg|].
      vm_compute in Hg. injection Hg as <-. split; reflexivity.
Defined.

(** C6 as stated fails above [2 ^ 63]: for the request [2 ^ 63 + 1],
    not a power of two, the rounding loop shifts [size] to zero and
    turns for ever, so the owned-memory constructor accepts nothing and
    the other raises no BadSize. *)
Lemma C6_size_above_2_63_never_constructed :
  ¬ is_pow2 (2 ^ 63 + 1)
  ∧ (∀ fuel, arys_t.round_up fuel (2 ^ 63 + 1) 1 = None)
  ∧ (∀ sizeof_Val alloc _item_len,
       arys_t.new sizeof_Val alloc _item_len (2 ^ 63 + 1) = OutOfFuel)
  ∧ (∀ sizeof_Val _item_len map,
       arys_t.of_map sizeof_Val _item_len (2 ^ 63 + 1) map ≠ BadSize).
Proof.
  split; [|split; [|split]].
  - intros (k & Hk & Heq). destruct (decide (k = 0)) as [->|]; [done|].
    replace k with (1 + (k - 1)) in Heq by lia.
    rewrite Z.pow_add_r in Heq by lia. lia.
  - intros fuel. apply (round_up_diverges fuel 0); lia.
  - intros. reflexivity.
  - intros. discriminate.
Qed.

(** ** Well-formed generations *)

Lemma add_loop_range sz intf : ∀ c v,
  0 <= sz -> 0 <= c < Val_modulus sz ->
  Forall (λ x, 0 <= x < Val_modulus sz) intf ->
  0 <= arys_t.add_loop sz intf c v < Val_modulus sz.
Proof.
  intros c v Hsz Hc Hintf. revert c Hc.
  pose proof (Val_modulus_pos sz Hsz) as Hpos.
  induction Hintf as [|seen intf Hseen _ IH]; intros c Hc; cbn.
  - destruct (_ =? 0); [done|]. destruct (_ <? v); [lia|].
    by apply Z.mod_pos_bound.
  - destruct (_ =? 0); [done|]. destruct (seen =? c).
    + destruct (_ <? v); [lia|]. by apply Z.mod_pos_bound.
    + by apply IH.
Qed.

Lemma packed_set_wf a i k :
  small_packed_array.wf a -> small_packed_array.wf (snd (small_packed_array.set a i k)).
Proof.
  intros (HK & Hsize & Hcells). unfold small_packed_array.set.
  destruct (_ && _); [|done]. destruct (mjoin _); [done|].
  cbn [snd]. unfold small_packed_array.wf.
  cbn [small_packed_array.item_len small_packed_array.size small_packed_array.cells].
  split; [done|]. split; [by rewrite length_insert|].
  apply Forall_insert; [done|]. intros p [= <-].
  apply Z.mod_pos_bound, Z.pow_pos_nonneg; lia.
Qed.

(** [add] keeps a generation well formed. *)
Lemma arys_wf_add sz intf g idx key val ok g' :
  arys_wf sz g -> Forall (λ x, 0 <= x < Val_modulus sz) intf ->
  arys_t.add sz intf g idx key val = Done (ok, g') -> arys_wf sz g'.
Proof.
  intros Hwf Hintf. unfold arys_t.add.
  destruct (small_packed_array.set _ _ _) as [[] keys'] eqn:Hset; cbn;
    [|by intros [= <- <-]].
  destruct (arys_t.vals g !! Z.to_nat idx) as [c|] eqn:Hc; [|done].
  intros [= <- <-].
  destruct Hwf as (Hsz & Hpow & Hmax & Hbytes & Hkeys & Hksize & Hlen & Hvals).
  assert (keys' = snd (small_packed_array.set (arys_t.keys g) idx key)) as ->
    by (by rewrite Hset).
  split_and!;
    cbn [arys_t.size arys_t.keys arys_t.vals arys_t.set_vals arys_t.set_keys];
    try done.
  - by apply packed_set_wf.
  - by rewrite small_packed_array_facts.set_size.
  - by rewrite length_insert.
  - apply Forall_insert; [done|]. apply add_loop_range; [lia| |done].
    by eapply Forall_lookup_1 in Hvals.
Qed.

(** The owned-memory constructor over zero-filled memory makes a
    well-formed generation. *)
Lemma arys_wf_new sz K n g :
  1 <= sz -> 1 <= K -> 0 <= n <= 2 ^ 63 ->
  arys_t.new sz (mmap_alloc sz) K n = Done g ->
  sz * arys_t.size g < 2 ^ 64 ->
  arys_wf sz g.
Proof.
  intros Hsz HK Hn. unfold arys_t.new.
  destruct (round_up_least n Hn) as (S & -> & Hpow & Hle & Hmax & _).
  cbn. intros [= <-]. cbn. intros Hbytes.
  pose proof (is_pow2_pos _ Hpow).
  assert (u64 (sz * S) / sz = S) as Hq.
  { unfold u64. rewrite Z.mod_small by lia. rewrite Z.mul_comm. apply Z.div_mul. lia. }
  rewrite Hq. unfold arys_wf. cbn [arys_t.size arys_t.keys arys_t.vals].
  split_and!; try done.
  - unfold small_packed_array.wf, small_packed_array.new.
    cbn [small_packed_array.item_len small_packed_array.size small_packed_array.cells].
    split_and!; [done| |].
    + rewrite length_replicate. lia.
    + apply Forall_replicate. by intros p [=].
  - rewrite length_replicate. lia.
  - apply Forall_replicate. pose proof (Val_modulus_pos sz). lia.
Qed.

(** ** Writing a generation and mapping it back *)

Lemma round_up_pow2 n :
  is_pow2 n -> n <= 2 ^ 63 ->
  arys_t.round_up arys_t.round_up_steps n 1 = Some n.
Proof.
  intros Hp Hle. pose proof (is_pow2_pos _ Hp).
  destruct (round_up_least n) as (S & -> & _ & HnS & _ & Hleast); [lia|].
  specialize (Hleast n Hp ltac:(lia)). f_equal. lia.
Qed.

Lemma Val_modulus_256 sz : 0 <= sz -> 256 ^ Z.of_nat (Z.to_nat sz) = Val_modulus sz.
Proof.
  intros. rewrite Z2Nat.id by done. unfold Val_modulus, Val_bits.
  change 256 with (2 ^ 8). by rewrite <- Z.pow_mul_r by lia.
Qed.

(** What the mapped constructor builds from the bytes [write] emits. *)
Lemma arys_of_map_write sz g :
  arys_wf sz g ->
  arys_t.of_map sz (small_packed_array.item_len (arys_t.keys g)) (arys_t.size g)
    (arys_t.write sz g) =
  Done (arys_t.mk (arys_t.keys g) (arys_t.vals g) (arys_t.size g)
          (u64 (arys_t.size g - 1)) 0 0 None false 0).
Proof.
  intros (Hsz & Hpow & Hmax & Hbytes & Hkeys & Hksize & Hlen & Hvals).
  pose proof (is_pow2_pos _ Hpow) as Hpos.
  unfold arys_t.of_map. rewrite round_up_pow2, Z.eqb_refl by done. cbn [negb].
  assert (∀ rest,
            small_packed_array.of_map
              (small_packed_array.write (arys_t.keys g) ++ rest)
              (small_packed_array.item_len (arys_t.keys g)) (arys_t.size g)
            = arys_t.keys g) as Hof.
  { intros rest. rewrite <- Hksize. by apply small_packed_array_facts.of_map_write. }
  unfold arys_t.write. rewrite !Hof.
  f_equal. f_equal.
  unfold arys_t.vals_of_map.
  rewrite drop_app_length' by (by rewrite small_packed_array_facts.length_write).
  assert (length (arys_t.vals_bytes sz (arys_t.vals g))
          = (Z.to_nat sz * length (arys_t.vals g))%nat) as Hvb
    by apply length_vals_bytes.
  rewrite take_ge.
  2:{ rewrite Hvb. unfold u64. rewrite Z.mod_small by lia. lia. }
  rewrite Hvb, Nat.mul_comm, Nat.div_mul by lia.
  rewrite <- (app_nil_r (arys_t.vals_bytes _ _)).
  apply le_cells_vals_bytes. by rewrite Val_modulus_256 by lia.
Qed.

(** ** Iteration *)

Lemma arys_get_ext g g' idx :
  arys_t.keys g = arys_t.keys g' -> arys_t.vals g = arys_t.vals g' ->
  arys_t.get g idx = arys_t.get g' idx.
Proof. intros Hk Hv. unfold arys_t.get. by rewrite Hk, Hv. Qed.

Lemma next_loop_ext g g' fuel : ∀ it,
  arys_t.keys g = arys_t.keys g' -> arys_t.vals g = arys_t.vals g' ->
  arys_t.size g = arys_t.size g' ->
  arys_iterator.next_loop fuel g it = arys_iterator.next_loop fuel g' it.
Proof.
  intros it Hk Hv Hs. revert it.
  induction fuel as [|fuel IH]; intros it; cbn; rewrite Hs; [done|].
  destruct (_ <? _); [|done].
  rewrite (arys_get_ext g g') by done.
  destruct (arys_t.get g' (arys_iterator.pos it)) as [[[]|]| | | | |]; cbn; [done|apply IH|done..].
Qed.

(** The iteration reads the keys, the counters and the size only. *)
Lemma iterate_ext g g' :
  arys_t.keys g = arys_t.keys g' -> arys_t.vals g = arys_t.vals g' ->
  arys_t.size g = arys_t.size g' ->
  arys_iterator.iterate g = arys_iterator.iterate g'.
Proof.
  intros Hk Hv Hs. unfold arys_iterator.iterate. rewrite Hs.
  generalize (S (Z.to_nat (arys_t.size g'))) arys_iterator.new.
  intros fuel. induction fuel as [|fuel IH]; intros it; cbn; [done|].
  unfold arys_iterator.next. rewrite Hs, (next_loop_ext g g') by done.
  destruct (arys_iterator.next_loop _ g' it) as [[[] it']| | | | |]; cbn; [|done..].
  by rewrite IH.
Qed.

Lemma arys_get_in_range g idx :
  small_packed_array.size (arys_t.keys g) = arys_t.size g ->
  Z.of_nat (length (arys_t.vals g)) = arys_t.size g ->
  ∃ r, arys_t.get g idx = Done r.
Proof.
  intros Hks Hlen. unfold arys_t.get, small_packed_array.get.
  destruct (_ && _) eqn:Hin; [|by eexists].
  destruct (mjoin _); [|by eexists].
  apply andb_true_iff in Hin as [?%Z.leb_le ?%Z.ltb_lt].
  destruct (lookup_lt_is_Some_2 (arys_t.vals g) (Z.to_nat idx)) as [v ->]; [lia|].
  by eexists.
Qed.

Lemma next_loop_total g fuel : ∀ it,
  small_packed_array.size (arys_t.keys g) = arys_t.size g ->
  Z.of_nat (length (arys_t.vals g)) = arys_t.size g ->
  arys_t.size g <= 2 ^ 63 ->
  0 <= arys_iterator.pos it ->
  arys_t.size g - arys_iterator.pos it <= Z.of_nat fuel ->
  ∃ b it', arys_iterator.next_loop fuel g it = Done (b, it')
           ∧ arys_iterator.pos it <= arys_iterator.pos it' <= Z.max (arys_t.size g) (arys_iterator.pos it)
           ∧ (b = true -> arys_iterator.pos it < arys_iterator.pos it').
Proof.
  intros it Hks Hlen Hmax. revert it.
  induction fuel as [|fuel IH]; intros it Hpos Hfuel; cbn.
  - destruct (Z.ltb_spec (arys_iterator.pos it) (arys_t.size g)); [lia|].
    eexists _, _. split; [done|]. split; [lia|done].
  - destruct (Z.ltb_spec (arys_iterator.pos it) (arys_t.size g)).
    2:{ eexists _, _. split; [done|]. split; [lia|done]. }
    destruct (arys_get_in_range g (arys_iterator.pos it) Hks Hlen) as [r ->]. cbn.
    assert (u64 (arys_iterator.pos it + 1) = arys_iterator.pos it + 1) as ->
      by (unfold u64; apply Z.mod_small; lia).
    destruct r as [[k v]|].
    + eexists _, _. split; [done|]. cbn. lia.
    + destruct (IH (arys_iterator.mk (arys_iterator.pos it + 1)
                      (arys_iterator.key it) (arys_iterator.val it)))
        as (b & it' & -> & Hrange & Hb); [cbn; lia..|].
      cbn in Hrange, Hb. eexists _, _. split; [done|]. lia.
Qed.

Lemma drain_total g fuel : ∀ it,
  small_packed_array.size (arys_t.keys g) = arys_t.size g ->
  Z.of_nat (length (arys_t.vals g)) = arys_t.size g ->
  arys_t.size g <= 2 ^ 63 ->
  0 <= arys_iterator.pos it <= arys_t.size g ->
  arys_t.size g - arys_iterator.pos it < Z.of_nat fuel ->
  ∃ ps, arys_iterator.drain fuel g it = Done ps.
Proof.
  intros it Hks Hlen Hmax. revert it.
  induction fuel as [|fuel IH]; intros it Hpos Hfuel; [lia|]. cbn.
  unfold arys_iterator.next.
  destruct (next_loop_total g (Z.to_nat (arys_t.size g - arys_iterator.pos it)) it)
    as (b & it' & -> & Hrange & Hb); [done.. | lia | lia |]. cbn.
  destruct b; [|by eexists].
  destruct (IH it') as [ps ->]; [lia | lia |]. by eexists.
Qed.

Lemma iterate_total sz g : arys_wf sz g -> ∃ ps, arys_iterator.iterate g = Done ps.
Proof.
  intros (_ & Hpow & Hmax & _ & _ & Hks & Hlen & _).
  pose proof (is_pow2_pos _ Hpow).
  apply drain_total; [done.. | cbn; lia | cbn; lia].
Qed.

(** C8: the bytes [write] emits for a generation, given to the mapped
    constructor with the same cell width and size, make a generation
    whose iteration produces the pairs of the original, in the same
    order and so as the same multiset. *)
Theorem C8_write_then_map_iterates_the_same sizeof_Val g :
  arys_wf sizeof_Val g ->
  ∃ g' ps,
    arys_t.of_map sizeof_Val (small_packed_array.item_len (arys_t.keys g))
      (arys_t.size g) (arys_t.write sizeof_Val g) = Done g'
    ∧ arys_iterator.iterate g = Done ps
    ∧ arys_iterator.iterate g' = Done ps
    ∧ (∀ ps', arys_iterator.iterate g' = Done ps' -> ps' ≡ₚ ps).
Proof.
  intros Hwf. destruct (iterate_total _ _ Hwf) as [ps Hps].
  eexists _, ps. split; [by apply arys_of_map_write|].
  assert (arys_iterator.iterate
            (arys_t.mk (arys_t.keys g) (arys_t.vals g) (arys_t.size g)
               (u64 (arys_t.size g - 1)) 0 0 None false 0) = Done ps) as Hps'.
  { rewrite <- Hps. by apply iterate_ext. }
  split; [done|]. split; [done|].
  intros ps'. rewrite Hps'. by intros [= <-].
Qed.

Lemma sample_arys_wf : arys_wf 4 sample_arys.
Proof.
  split; [lia|]. split; [by exists 2|]. split; [cbn; lia|]. split; [cbn; lia|].
  split.
  { split; [cbn; lia|]. split; [done|]. cbn.
    do 4 (constructor;
          [intros p Hp; try discriminate; injection Hp as <-; lia|]).
    constructor. }
  split; [done|]. split; [done|].
  cbn. do 4 (constructor; [cbv; split; congruence|]). constructor.
Defined.

Lemma C8_write_then_map_iterates_the_same_witness :
  ∃ g' ps,
    arys_t.of_map 4 64 4 (arys_t.write 4 sample_arys) = Done g'
    ∧ arys_iterator.iterate sample_arys = Done ps
    ∧ arys_iterator.iterate g' = Done ps
    ∧ (∀ ps', arys_iterator.iterate g' = Done ps' -> ps' ≡ₚ ps).
Proof. exact (C8_write_then_map_iterates_the_same 4 sample_arys sample_arys_wf). Defined.

(** ** Reference counts and the order of destruction *)




Lemma b2z_true P `{Decision P} : P -> b2z P = 1.
Proof. intros. unfold b2z. by rewrite decide_True. Qed.

Lemma b2z_false P `{Decision P} : ¬ P -> b2z P = 0.
Proof. intros. unfold b2z. by rewrite decide_False. Qed.

Lemma b2z_iff P Q `{Decision P, Decision Q} : (P <-> Q) -> b2z P = b2z Q.
Proof. intros. unfold b2z. repeat case_decide; tauto. Qed.

Lemma refs_range lo head cached pending owed a :
  0 <= refs lo head cached pending owed a <= 5.
Proof. unfold refs, b2z. destruct owed; repeat case_decide; lia. Qed.

Lemma u32_small x : 0 <= x < 2 ^ 32 -> u32 x = x.
Proof. apply Z.mod_small. Qed.

(** Writing keys, counters or the copy cursor of a live generation. *)
Lemma refcount_inv_store owed pending cached s a g g' :
  refcount_inv owed pending cached s ->
  heap.objs (mem s) !! a = Some g ->
  arys_t.next g' = arys_t.next g -> arys_t.count g' = arys_t.count g ->
  refcount_inv owed pending cached (set_mem s (heap.store (mem s) a g')).
Proof.
  intros (lo & Hlo & Hbrk & Hfreed & Hout & Hlive & Hnd & Hpend & Hc & Howed)
    Hg Hnext Hcount.
  exists lo. cbn. split_and!; try done.
  - intros a' Ha'. rewrite lookup_insert_ne; [by apply Hout|].
    intros <-. rewrite Hout in Hg by done. done.
  - intros a' Ha'. destruct (Hlive a' Ha') as (g0 & Hg0 & Hn0 & Hc0 & H1).
    destruct (decide (a = a')) as [<-|Hne].
    + exists g'. rewrite lookup_insert_eq. split; [done|].
      assert (g0 = g) as -> by congruence. by rewrite Hnext, Hcount.
    + exists g0. by rewrite lookup_insert_ne.
  - lia.
  - lia.
Qed.

Lemma release_eq fuel m cary :
  thread_hash_counter.release (S fuel) m cary =
    match cary with
    | None => Fault
    | Some a =>
        g ← heap.lookup m a;
        let '(c, g') := arys_t.ref_dec g in
        if c =? 0
        then thread_hash_counter.release fuel (heap.delete m a) (arys_t.next g')
        else Done (heap.store m a g')
    end.
Proof. reflexivity. Qed.

Lemma refs_owed lo head cached pending a :
  refs lo head cached pending (Some a) a = refs lo head cached pending None a + 1.
Proof. unfold refs, b2z. repeat case_decide; lia. Qed.

Lemma refs_not_owed lo head cached pending a a' :
  a ≠ a' ->
  refs lo head cached pending (Some a) a' = refs lo head cached pending None a'.
Proof.
  intros. unfold refs, b2z. repeat case_decide; lia.
Qed.

(** [release] drops the reference owed on [a] and, when that was the
    last one, deletes [a], the oldest live generation, and goes on with
    the link [a] held on its successor. *)
Lemma release_owed fuel : ∀ s a pending cached m',
  refcount_inv (Some a) pending cached s ->
  thread_hash_counter.release fuel (mem s) (Some a) = Done m' ->
  refcount_inv None pending cached (set_mem s m').
Proof.
  induction fuel as [|fuel IH]; intros s a pending cached m' Hinv H; [done|].
  rewrite release_eq in H.
  apply bind_Done in H as (g & Hg & H). apply heap_lookup_Done in Hg. cbn in H.
  destruct Hinv as (lo & Hlo & Hbrk & Hfreed & Hout & Hlive & Hnd & Hpend & Hc & Howed).
  specialize (Howed a eq_refl) as Ha.
  destruct (Hlive a Ha) as (g0 & Hg0 & Hnext & Hcount & _).
  assert (g0 = g) as -> by congruence.
  rewrite Hcount, refs_owed in H.
  replace (refs lo (root_key_val_arys (root s)) cached pending None a + 1 - 1)
    with (refs lo (root_key_val_arys (root s)) cached pending None a) in H by lia.
  pose proof (refs_range lo (root_key_val_arys (root s)) cached pending None a) as Hr.
  rewrite u32_small in H by lia.
  destruct (Z.eqb_spec (refs lo (root_key_val_arys (root s)) cached pending None a) 0)
    as [Hzero|Hnz].
  - (* the last reference: [a] is the oldest live generation *)
    assert (a = lo ∧ a ≠ root_key_val_arys (root s) ∧ (a ∉ pending) ∧ a ≠ cached)
      as (-> & Hnhead & Hnpend & Hncached).
    { unfold refs, b2z in Hzero. repeat case_decide; try lia. repeat split; try done; lia. }
    rewrite Hnext in H. rewrite decide_False in H by done.
    change (set_mem s m') with (set_mem (set_mem s (heap.delete (mem s) lo)) m').
    eapply IH; [|exact H].
    exists (S lo). cbn. split_and!.
    + lia.
    + done.
    + rewrite Hfreed. symmetry. exact (seq_S lo 0).
    + intros a' Ha'. destruct (decide (a' = lo)) as [->|].
      * apply lookup_delete_eq.
      * rewrite lookup_delete_ne by done. apply Hout. lia.
    + intros a' Ha'. destruct (Hlive a' ltac:(lia)) as (g' & Hg' & Hn' & Hc' & H1').
      exists g'. rewrite lookup_delete_ne by lia. split_and!; [done..| |].
      * rewrite Hc'. rewrite refs_not_owed by lia.
        unfold refs, b2z. repeat case_decide; lia.
      * destruct (decide (a' = S lo)) as [->|]; [by right|]. left.
        destruct H1' as [H1'|[=]]; [|lia].
        unfold refs, b2z in *. repeat case_decide; lia.
    + done.
    + intros a' Ha'. destruct (Hpend a' Ha').
      destruct (decide (a' = lo)) as [->|]; [done|lia].
    + lia.
    + lia.
    + intros a' [= <-]. lia.
  - injection H as <-.
    exists lo. cbn. split_and!; try done.
    + intros a' Ha'. rewrite lookup_insert_ne; [by apply Hout|].
      intros <-. rewrite Hout in Hg by done. done.
    + intros a' Ha'. destruct (decide (a = a')) as [<-|Hne].
      * eexists. rewrite lookup_insert_eq. split; [done|]. cbn.
        split_and!; [done|done|left; lia].
      * destruct (Hlive a' Ha') as (g' & Hg' & Hn' & Hc' & H1').
        exists g'. rewrite lookup_insert_ne by done.
        rewrite refs_not_owed in Hc' by done.
        split_and!; [done..|]. destruct H1' as [|]; [by left|congruence].
    + lia.
    + lia.
Qed.

Lemma arys_new_fresh sz alloc K n g :
  arys_t.new sz alloc K n = Done g -> arys_t.count g = 0 ∧ arys_t.next g = None.
Proof.
  unfold arys_t.new. destruct (arys_t.round_up _ _ _); [|done].
  destruct (alloc _); [|done]. by intros [= <-].
Qed.

(** [resize] keeps the counts right: the new generation starts with
    the link and the head reference, the old head loses the latter. *)
Lemma resize_inv sz alloc pending cached s h carys block r s' :
  refcount_inv None pending cached s ->
  thread_hash_counter.resize sz alloc s h carys block = Done (r, s') ->
  refcount_inv None pending cached s'.
Proof.
  intros Hinv H. unfold thread_hash_counter.resize in H.
  destruct (root_resize_lock (root s)).
  { destruct block; [done|]. by injection H as <- <-. }
  destruct (Nat.eqb_spec (root_key_val_arys (root s)) carys) as [<-|];
    cbn [negb] in H; [|by injection H as <- <-].
  unfold thread_hash_counter.new_arys in H.
  apply bind_Done in H as (cg & Hcg%heap_lookup_Done & H).
  apply bind_Done in H as ([narys m1] & H1 & H).
  apply bind_Done in H1 as (g & [Hg0 Hgn]%arys_new_fresh & H1).
  apply bind_Done in H1 as (pg & Hpg%heap_lookup_Done & H1).
  assert (pg = cg) as -> by congruence.
  cbn in H1. injection H1 as <- <-.
  destruct Hinv as (lo & Hlo & Hbrk & Hfreed & Hout & Hlive & Hnd & Hpend & Hc & Howed).
  set (head := root_key_val_arys (root s)) in *.
  destruct (Hlive head ltac:(lia)) as (g' & Hg' & Hnext & Hcount & _).
  assert (g' = cg) as -> by congruence.
  rewrite decide_True in Hnext by done.
  apply bind_Done in H as (ng & Hng%heap_lookup_Done & H).
  apply bind_Done in H as (cg' & Hcg'%heap_lookup_Done & H).
  injection H as <- <-.
  cbn in Hng, Hcg'. rewrite Hbrk in *.
  rewrite lookup_insert_ne, lookup_insert_eq in Hng by lia. injection Hng as <-.
  rewrite lookup_insert_ne, lookup_insert_eq in Hcg' by lia. injection Hcg' as <-.
  pose proof (refs_range lo head cached pending None head) as Hr.
  exists lo. cbn. fold head. split_and!; try done.
  - lia.
  - intros a Ha. rewrite !lookup_insert_ne by lia. apply Hout. lia.
  - intros a Ha. destruct (decide (a = S head)) as [->|Hn].
    + eexists. rewrite lookup_insert_ne, lookup_insert_eq by lia.
      split; [done|]. cbn. split; [done|].
      rewrite Hg0. change (u32 (u32 (0 + 1) + 1)) with 2.
      assert (S head ∈ pending -> False) by (intros ?%Hpend; lia).
      unfold refs, b2z. repeat case_decide; try done; lia.
    + destruct (decide (a = head)) as [->|Hh].
      * eexists. rewrite lookup_insert_eq. split; [done|]. cbn.
        split; [done|].
        assert (head ∈ pending -> False) by (intros ?%Hpend; lia).
        rewrite Hcount, u32_small by (unfold refs, b2z in *; repeat case_decide; lia).
        unfold refs, b2z. repeat case_decide; try done; try lia.
        all: split; [lia|]; left; lia.
      * destruct (Hlive a ltac:(lia)) as (ga & Hga & Hna & Hca & H1a).
        exists ga. rewrite !lookup_insert_ne by lia. split; [done|].
        rewrite decide_False in Hna by lia.
        split; [done|].
        destruct H1a as [H1a|]; [|done].
        unfold refs, b2z in *. repeat case_decide; try lia; (split; [lia|left; lia]).
  - lia.
  - lia.
Qed.

(** The handle moves to the new head and keeps the old generation
    for the [copy_over] to come. *)
Lemma switch_inv pending cached s cg :
  refcount_inv None pending cached s ->
  root_key_val_arys (root s) ≠ cached ->
  heap.objs (mem s) !! root_key_val_arys (root s) = Some cg ->
  refcount_inv None (cached :: pending) (root_key_val_arys (root s))
    (set_mem s (heap.store (mem s) (root_key_val_arys (root s))
                  (snd (arys_t.ref_inc cg)))).
Proof.
  intros (lo & Hlo & Hbrk & Hfreed & Hout & Hlive & Hnd & Hpend & Hc & Howed)
    Hne Hcg.
  set (head := root_key_val_arys (root s)) in *.
  assert (cached ∈ pending -> False) as Hnin by (intros ?%Hpend; lia).
  exists lo. cbn. fold head. split_and!; try done.
  - intros a Ha. rewrite lookup_insert_ne; [by apply Hout|].
    intros <-. rewrite Hout in Hcg by done. done.
  - intros a Ha. destruct (Hlive a Ha) as (g & Hg & Hn & Hcnt & H1).
    assert (a ∈ cached :: pending <-> a = cached ∨ a ∈ pending) as Hmem
      by apply elem_of_cons.
    assert (a ∈ pending -> a ≠ head) by (intros ?%Hpend; lia).
    assert (a ∈ pending -> a ≠ cached) by (intros ?%Hpend; lia).
    destruct (decide (a = head)) as [->|Hh].
    + eexists. rewrite lookup_insert_eq. split; [done|]. cbn.
      assert (g = cg) as -> by congruence.
      split; [done|]. rewrite Hcnt.
      pose proof (refs_range lo head cached pending None head).
      rewrite u32_small by lia.
      unfold refs, b2z. repeat case_decide; try lia; try tauto.
      all: split; [lia|left; lia].
    + exists g. rewrite lookup_insert_ne by done. split; [done|].
      split; [done|]. destruct H1 as [H1|]; [|done]. rewrite Hcnt.
      unfold refs, b2z in *. repeat case_decide; try lia; try tauto.
      all: split; [lia|left; lia].
  - apply NoDup_cons. split; [|done]. by intros ?%Hnin.
  - intros a [->|Ha]%elem_of_cons; [lia|]. apply Hpend in Ha. lia.
Qed.

(** The pending [copy_over] is over: its reference is now owed. *)
Lemma pending_owed pending cached a s :
  refcount_inv None (a :: pending) cached s ->
  refcount_inv (Some a) pending cached s.
Proof.
  intros (lo & Hlo & Hbrk & Hfreed & Hout & Hlive & Hnd & Hpend & Hc & Howed).
  apply NoDup_cons in Hnd as [Hnin Hnd].
  assert (∀ a', refs lo (root_key_val_arys (root s)) cached pending (Some a) a'
                = refs lo (root_key_val_arys (root s)) cached (a :: pending) None a')
    as Hrefs.
  { intros a'. unfold refs. destruct (decide (a' = a)) as [->|Hne].
    - rewrite (b2z_true (a ∈ a :: pending)) by (by left).
      rewrite (b2z_false (a ∈ pending)), (b2z_true (a = a)) by done. lia.
    - rewrite (b2z_iff (a' ∈ a :: pending) (a' ∈ pending)).
      + rewrite (b2z_false (a = a')) by done. lia.
      + rewrite elem_of_cons. tauto. }
  exists lo. split_and!; try done.
  - intros a' Ha'. destruct (Hlive a' Ha') as (g & Hg & Hn & Hcnt & H1).
    exists g. split_and!; [done..| |].
    + by rewrite Hrefs.
    + destruct (decide (a = a')) as [->|Hne]; [by right|]. left.
      destruct H1 as [H1|]; [|done]. revert H1. unfold refs.
      rewrite (b2z_iff (a' ∈ a :: pending) (a' ∈ pending)); [done|].
      rewrite elem_of_cons. split; [|tauto]. intros [->|]; done.
  - intros a' Ha'. apply Hpend. by right.
  - lia.
  - lia.
  - intros a' [= <-]. destruct (Hpend a ltac:(by left)). lia.
Qed.

Lemma release_pending fuel s a pending cached m' :
  refcount_inv None (a :: pending) cached s ->
  thread_hash_counter.release fuel (mem s) (Some a) = Done m' ->
  refcount_inv None pending cached (set_mem s m').
Proof. intros Hinv. apply release_owed. by apply pending_owed. Qed.

Lemma resize_false sz alloc s h carys block s' :
  thread_hash_counter.resize sz alloc s h carys block = Done (false, s') -> s' = s.
Proof.
  unfold thread_hash_counter.resize.
  destruct (root_resize_lock (root s)).
  { destruct block; [done|]. by intros [= <-]. }
  destruct (negb _); [done|].
  intros H. split_bind H.
Qed.

Lemma arys_add_links sz intf g idx key val ok g' :
  arys_t.add sz intf g idx key val = Done (ok, g') ->
  arys_t.next g' = arys_t.next g ∧ arys_t.count g' = arys_t.count g.
Proof.
  unfold arys_t.add. destruct (small_packed_array.set _ _ _) as [[] keys']; cbn.
  - destruct (arys_t.vals g !! Z.to_nat idx); [|done]. by intros [= <- <-].
  - by intros [= <- <-].
Qed.

Lemma get_chunck_links g g' c :
  arys_t.get_chunck g = (g', c) ->
  arys_t.next g' = arys_t.next g ∧ arys_t.count g' = arys_t.count g.
Proof.
  unfold arys_t.get_chunck. destruct (_ >=? _); by intros [= <- <-].
Qed.


Section HandleRefcount.

Variables sizeof_Key sizeof_Val : Z.
Variable alloc : Z -> option (list Z).

#[local] Abbreviation add_outer := (thread_hash_counter.add_outer sizeof_Key sizeof_Val alloc).
#[local] Abbreviation add_probe := (thread_hash_counter.add_probe sizeof_Key sizeof_Val alloc).
#[local] Abbreviation copy_chuncks := (thread_hash_counter.copy_chuncks sizeof_Key sizeof_Val alloc).
#[local] Abbreviation copy_slots := (thread_hash_counter.copy_slots sizeof_Key sizeof_Val alloc).
#[local] Abbreviation copy_over := (thread_hash_counter.copy_over sizeof_Key sizeof_Val alloc).
#[local] Abbreviation kva := thread_hash_counter.key_val_arys.

(** Every loop of [add] and [copy_over] keeps the counts right, and
    [add] returns with the handle on the current generation. *)
Lemma handle_refcount_frame (fuel : nat) :
  (∀ s h k v hash reprobe emax s' h' P,
      add_outer fuel s h k v hash reprobe emax = Done (s', h') ->
      refcount_inv None P (kva h) s ->
      refcount_inv None P (kva h') s' ∧ settled s' h')
  ∧ (∀ s h k v hash carys idx reprobe emax s' h' P,
      add_probe fuel s h k v hash carys idx reprobe emax = Done (s', h') ->
      refcount_inv None P (kva h) s ->
      carys = root_key_val_arys (root s) -> settled s h ->
      refcount_inv None P (kva h') s' ∧ settled s' h')
  ∧ (∀ s h carys s' h' P,
      copy_chuncks fuel s h carys = Done (s', h') ->
      refcount_inv None P (kva h) s -> settled s h ->
      refcount_inv None P (kva h') s' ∧ settled s' h')
  ∧ (∀ s h carys i end_ s' h' P,
      copy_slots fuel s h carys i end_ = Done (s', h') ->
      refcount_inv None P (kva h) s -> settled s h ->
      refcount_inv None P (kva h') s' ∧ settled s' h')
  ∧ (∀ s h carys s' h' P,
      copy_over fuel s h carys = Done (s', h') ->
      refcount_inv None P (kva h) s -> settled s h ->
      refcount_inv None P (kva h') s' ∧ settled s' h').
Proof.
  induction fuel as [|fuel (IHouter & IHprobe & IHchuncks & IHslots & IHover)].
  { repeat split; intros; discriminate. }
  split; [|split; [|split; [|split]]].
  - intros s h k v hash reprobe emax s' h' P H Hinv.
    rewrite add_outer_eq in H. cbv zeta in H.
    destruct (Nat.eqb_spec (root_key_val_arys (root s)) (kva h)) as [Heq|Hne];
      cbn [negb] in H.
    + apply bind_Done in H as (cg & Hcg & H).
      eapply IHprobe; [exact H | done | done | done].
    + apply bind_Done in H as (cg & Hcg & H). apply heap_lookup_Done in Hcg.
      apply bind_Done in H as ([s2 h2] & Hcopy & H).
      apply bind_Done in H as (m3 & Hrel & H).
      eapply IHover in Hcopy as [Hinv2 Hset2];
        [| by apply switch_inv | done].
      eapply IHouter; [exact H|]. by eapply release_pending.
  - intros s h k v hash carys idx reprobe emax s' h' P H Hinv -> Hset.
    rewrite add_probe_eq in H. cbv zeta in H.
    apply bind_Done in H as (cg & Hcg & H). apply heap_lookup_Done in Hcg.
    apply bind_Done in H as ([ok cg'] & Hadd & H).
    apply arys_add_links in Hadd as [Hnext Hcount].
    destruct ok.
    { injection H as <- <-. split; [|done]. by eapply refcount_inv_store. }
    destruct (_ >? emax).
    + apply bind_Done in H as ([resized s1] & Hres & H).
      destruct resized.
      { eapply IHouter; [exact H|]. by eapply resize_inv. }
      apply resize_false in Hres as ->.
      destruct (_ >? _).
      * apply bind_Done in H as ([r s2] & Hres & H).
        eapply IHouter; [exact H|]. by eapply resize_inv.
      * apply bind_Done in H as (cg1 & _ & H).
        eapply IHprobe; [exact H | done | done | done].
    + eapply IHprobe; [exact H | done | done | done].
  - intros s h carys s' h' P H Hinv Hset.
    rewrite copy_chuncks_eq in H.
    apply bind_Done in H as (cg & Hcg & H). apply heap_lookup_Done in Hcg.
    destruct (arys_t.get_chunck cg) as [cg' chunck] eqn:Hchunck.
    apply get_chunck_links in Hchunck as [Hnext Hcount]. cbv zeta in H.
    pose proof (refcount_inv_store _ _ _ _ _ _ _ Hinv Hcg Hnext Hcount) as Hinv1.
    destruct chunck as [[start end_]|].
    + apply bind_Done in H as ([s2 h2] & Hslots & H).
      eapply IHslots in Hslots as [Hinv2 Hset2]; [|exact Hinv1|done].
      eapply IHchuncks; [exact H|done|done].
    + by injection H as <- <-.
  - intros s h carys i end_ s' h' P H Hinv Hset.
    rewrite copy_slots_eq in H.
    destruct (i <? end_); [|by injection H as <- <-].
    apply bind_Done in H as (cg & Hcg & H).
    apply bind_Done in H as (r & Hget & H).
    destruct r as [[ckey cval]|].
    + apply bind_Done in H as ([s1 h1] & Hadd & H).
      eapply IHouter in Hadd as [Hinv1 Hset1]; [|exact Hinv].
      eapply IHslots; [exact H|done|done].
    + eapply IHslots; [exact H|done|done].
  - intros s h carys s' h' P H Hinv Hset.
    rewrite copy_over_eq in H.
    apply bind_Done in H as (? & _ & H).
    eapply IHchuncks; [exact H|done|done].
Qed.

End HandleRefcount.


Lemma add_refcount_inv sK sz alloc fuel s h k v s' h' P :
  thread_hash_counter.add sK sz alloc fuel s h k v = Done (s', h') ->
  refcount_inv None P (thread_hash_counter.key_val_arys h) s ->
  refcount_inv None P (thread_hash_counter.key_val_arys h') s' ∧ settled s' h'.
Proof.
  unfold thread_hash_counter.add.
  apply (proj1 (handle_refcount_frame sK sz alloc fuel)).
Qed.

Lemma add_all_inv sK sz alloc fuel ops : ∀ s h s' h',
  add_all sK sz alloc fuel s h ops = Done (s', h') ->
  refcount_inv None [] (thread_hash_counter.key_val_arys h) s -> settled s h ->
  refcount_inv None [] (thread_hash_counter.key_val_arys h') s' ∧ settled s' h'.
Proof.
  induction ops as [|[k v] ops IH]; intros s h s' h' H Hinv Hset; cbn in H.
  - by injection H as <- <-.
  - apply bind_Done in H as ([s1 h1] & Hadd & H).
    eapply add_refcount_inv in Hadd as [Hinv1 Hset1]; [|done].
    by eapply IH.
Qed.

(** A new root with its first handle. *)
Lemma new_table_inv sz alloc K size maxr nb s0 s1 h1 :
  concurrent_hash_counter.new sz alloc K size maxr nb = Done s0 ->
  thread_hash_counter.new s0 = Done (s1, h1) ->
  refcount_inv None [] (thread_hash_counter.key_val_arys h1) s1 ∧ settled s1 h1.
Proof.
  unfold concurrent_hash_counter.new, thread_hash_counter.new_arys,
    thread_hash_counter.new.
  intros H0 H1.
  apply bind_Done in H0 as ([a m] & Hnew & H0).
  apply bind_Done in Hnew as (g & [Hcount Hnext]%arys_new_fresh & Hnew).
  injection Hnew as <- <-.
  apply bind_Done in H0 as (g0 & Hg0 & H0). apply heap_lookup_Done in Hg0.
  cbn in Hg0. rewrite lookup_insert_eq in Hg0. injection Hg0 as <-.
  injection H0 as <-. cbn [mem root root_key_val_arys] in H1.
  rewrite heap_lookup_store in H1. cbn in H1.
  injection H1 as <- <-. split; [|done].
  exists 0%nat. cbn. split_and!; try done.
  - intros a Ha. rewrite !lookup_insert_ne by lia. apply lookup_empty.
  - intros a Ha. assert (a = 0%nat) as -> by lia.
    eexists. rewrite lookup_insert_eq. split; [done|]. cbn.
    rewrite Hcount. by split_and!; [|vm_compute|left; vm_compute].
  - constructor.
  - by intros a ?%elem_of_nil.
Qed.

(** With nothing pending and the handle on the head, one generation
    is live. *)
Lemma settled_one_live s h :
  refcount_inv None [] (thread_hash_counter.key_val_arys h) s -> settled s h ->
  heap.freed (mem s) = seq 0 (root_key_val_arys (root s))
  ∧ heap.brk (mem s) = S (root_key_val_arys (root s))
  ∧ (∀ a, a ≠ root_key_val_arys (root s) -> heap.objs (mem s) !! a = None)
  ∧ ∃ g, heap.objs (mem s) !! root_key_val_arys (root s) = Some g
         ∧ arys_t.count g = 2 ∧ arys_t.next g = None.
Proof.
  intros (lo & Hlo & Hbrk & Hfreed & Hout & Hlive & Hnd & Hpend & Hc & Howed) Hset.
  unfold settled in Hset. rewrite Hset in *.
  set (head := root_key_val_arys (root s)) in *.
  assert (lo = head) as ->.
  { destruct (Hlive lo ltac:(lia)) as (g & _ & _ & _ & [H1|]); [|done].
    assert (lo ∈ [] -> False) by (by intros ?%elem_of_nil).
    unfold refs, b2z in H1. repeat case_decide; try lia; tauto. }
  split; [done|]. split; [done|]. split.
  - intros a Ha. apply Hout. lia.
  - destruct (Hlive head ltac:(lia)) as (g & Hg & Hn & Hcnt & _).
    exists g. split; [done|]. rewrite decide_True in Hn by done. split; [|done].
    rewrite Hcnt.
    assert (head ∈ [] -> False) by (by intros ?%elem_of_nil).
    unfold refs, b2z. repeat case_decide; try lia; tauto.
Qed.

(** A whole life of the table: the root, one handle, any number of
    [add] through it, the handle destroyed, the root destroyed.  Every
    generation created on the way has been deleted, once, in the order of
    creation. *)
Lemma table_life_frees_all sK sz alloc K size maxr nb fuel fuel' ops
    s0 s1 h1 s h s' s'' :
  concurrent_hash_counter.new sz alloc K size maxr nb = Done s0 ->
  thread_hash_counter.new s0 = Done (s1, h1) ->
  add_all sK sz alloc fuel s1 h1 ops = Done (s, h) ->
  thread_hash_counter.destroy fuel' s h = Done s' ->
  concurrent_hash_counter.destroy s' = Done s'' ->
  heap.objs (mem s'') = ∅
  ∧ heap.freed (mem s'') = seq 0 (heap.brk (mem s'')).
Proof.
  intros Hnew Hhandle Hadds Hdh Hdr.
  destruct (new_table_inv _ _ _ _ _ _ _ _ _ Hnew Hhandle) as [Hinv1 Hset1].
  destruct (add_all_inv _ _ _ _ _ _ _ _ _ Hadds Hinv1 Hset1) as [Hinv Hset].
  destruct (settled_one_live _ _ Hinv Hset)
    as (Hfreed & Hbrk & Hout & g & Hg & Hcount & Hnext).
  unfold thread_hash_counter.destroy in Hdh.
  apply bind_Done in Hdh as (m & Hrel & Hdh). injection Hdh as <-.
  destruct fuel' as [|fuel']; [done|]. rewrite release_eq in Hrel.
  unfold settled in Hset. rewrite !Hset in Hrel. apply heap_lookup_Done in Hg as Hg'.
  rewrite Hg' in Hrel. cbn in Hrel. rewrite Hcount in Hrel. cbn in Hrel.
  injection Hrel as <-.
  unfold concurrent_hash_counter.destroy in Hdr.
  cbn [mem root set_mem] in Hdr. rewrite heap_lookup_store in Hdr.
  cbn in Hdr. injection Hdr as <-. cbn.
  split.
  - apply map_eq. intros a. rewrite lookup_empty.
    destruct (decide (a = root_key_val_arys (root s))) as [->|].
    + apply lookup_delete_eq.
    + rewrite lookup_delete_ne, lookup_insert_ne by done. by apply Hout.
  - rewrite Hfreed, Hbrk. symmetry. exact (seq_S _ 0).
Qed.

(** A [resize] that makes a generation links the old head to it. *)
Lemma resize_links sz alloc pending cached s h r s' :
  refcount_inv None pending cached s ->
  root_resize_lock (root s) = false ->
  thread_hash_counter.resize sz alloc s h (root_key_val_arys (root s)) false
    = Done (r, s') ->
  r = true
  ∧ root_key_val_arys (root s') = heap.brk (mem s)
  ∧ (root_key_val_arys (root s) < root_key_val_arys (root s'))%nat
  ∧ ∃ old new,
      heap.objs (mem s') !! root_key_val_arys (root s) = Some old
      ∧ arys_t.next old = Some (root_key_val_arys (root s'))
      ∧ heap.objs (mem s') !! root_key_val_arys (root s') = Some new
      ∧ arys_t.next new = None
      ∧ arys_t.count new = 2.
Proof.
  intros Hinv Hlock H. unfold thread_hash_counter.resize in H.
  rewrite Hlock, Nat.eqb_refl in H. cbn [negb] in H.
  unfold thread_hash_counter.new_arys in H.
  apply bind_Done in H as (cg & Hcg & H). apply heap_lookup_Done in Hcg.
  apply bind_Done in H as ([narys m1] & H1 & H).
  apply bind_Done in H1 as (g & [Hg0 Hgn]%arys_new_fresh & H1).
  apply bind_Done in H1 as (pg & Hpg & H1). apply heap_lookup_Done in Hpg.
  cbn in H1. injection H1 as <- <-.
  destruct Hinv as (lo & Hlo & Hbrk & _).
  apply bind_Done in H as (ng & Hng & H). apply heap_lookup_Done in Hng.
  apply bind_Done in H as (cg' & Hcg' & H). apply heap_lookup_Done in Hcg'.
  injection H as <- <-.
  cbn in Hng, Hcg'. rewrite Hbrk in *.
  rewrite lookup_insert_ne, lookup_insert_eq in Hng by lia. injection Hng as <-.
  rewrite lookup_insert_ne, lookup_insert_eq in Hcg' by lia. injection Hcg' as <-.
  cbn. split; [done|]. split; [done|]. split; [lia|].
  eexists _, _. rewrite lookup_insert_eq.
  rewrite lookup_insert_ne, lookup_insert_eq by lia.
  split; [done|]. split; [done|]. split; [done|]. split; [done|].
  cbn. by rewrite Hg0.
Qed.

(** ** Reference counts with several handles *)

Lemma occ_nonneg a held : 0 <= occ a held.
Proof. induction held as [|x held IH]; cbn; [lia|]. unfold b2z. case_decide; lia. Qed.

Lemma occ_le_length a held : occ a held <= Z.of_nat (length held).
Proof. induction held as [|x held IH]; cbn; [lia|]. unfold b2z. case_decide; lia. Qed.

Lemma occ_app a l1 l2 : occ a (l1 ++ l2) = occ a l1 + occ a l2.
Proof. induction l1 as [|x l1 IH]; cbn; lia. Qed.

Lemma occ_not_in a held : a ∉ held -> occ a held = 0.
Proof.
  induction held as [|x held IH]; [done|]. intros Hnin. cbn.
  apply not_elem_of_cons in Hnin as [Hne Hnin].
  rewrite b2z_false by done. rewrite IH by done. lia.
Qed.

Lemma occ_in a held : a ∈ held -> 1 <= occ a held.
Proof.
  induction held as [|x held IH]; [by intros ?%elem_of_nil|].
  intros [->|Hin]%elem_of_cons; cbn.
  - rewrite b2z_true by done. pose proof (occ_nonneg x held). lia.
  - specialize (IH Hin). unfold b2z. case_decide; lia.
Qed.

Lemma occ_NoDup a held : NoDup held -> occ a held <= 1.
Proof.
  induction 1 as [|x held Hnin Hnd IH]; cbn; [lia|].
  destruct (decide (x = a)) as [->|Hne].
  - rewrite b2z_true by done. rewrite occ_not_in by done. lia.
  - rewrite b2z_false by done. lia.
Qed.

Lemma occ_perm a l l' : l ≡ₚ l' -> occ a l = occ a l'.
Proof. induction 1; cbn; lia. Qed.

(** The references of the running handle, each on another generation,
    and those of the other handles. *)
Lemma occ_bound a L O :
  NoDup L -> occ a (L ++ O) <= 1 + Z.of_nat (length O).
Proof.
  intros Hnd. rewrite occ_app.
  pose proof (occ_NoDup a L Hnd). pose proof (occ_le_length a O). lia.
Qed.

Lemma links_range lo head a : 0 <= links lo head a <= 2.
Proof. unfold links, b2z. repeat case_decide; lia. Qed.

Lemma shared_inv_perm owed held held' s :
  held ≡ₚ held' -> shared_inv owed held s -> shared_inv owed held' s.
Proof.
  intros Hp (lo & Hlo & Hbrk & Hfreed & Hout & Hlive & Hheld & Howed).
  exists lo. split_and!; try done.
  - intros a Ha. destruct (Hlive a Ha) as (g & Hg & Hn & Hc & Hfit & H1).
    exists g. rewrite <- (occ_perm a _ _ Hp). done.
  - intros a Ha. apply Hheld. by rewrite Hp.
Qed.

(** Writing keys, counters or the copy cursor of a live generation. *)
Lemma shared_inv_store owed held s a g g' :
  shared_inv owed held s ->
  heap.objs (mem s) !! a = Some g ->
  arys_t.next g' = arys_t.next g -> arys_t.count g' = arys_t.count g ->
  shared_inv owed held (set_mem s (heap.store (mem s) a g')).
Proof.
  intros (lo & Hlo & Hbrk & Hfreed & Hout & Hlive & Hheld & Howed)
    Hg Hnext Hcount.
  exists lo. cbn. split_and!; try done.
  - intros a' Ha'. rewrite lookup_insert_ne; [by apply Hout|].
    intros <-. rewrite Hout in Hg by done. done.
  - intros a' Ha'. destruct (Hlive a' Ha') as (g0 & Hg0 & Hn0 & Hc0 & Hfit & H1).
    destruct (decide (a = a')) as [<-|Hne].
    + exists g'. rewrite lookup_insert_eq. split; [done|].
      assert (g0 = g) as -> by congruence. by rewrite Hnext, Hcount.
    + exists g0. by rewrite lookup_insert_ne.
Qed.

(** [release] drops the reference owed on [a] and, when that was the
    last one, deletes [a], the oldest live generation, and goes on with
    the link [a] held on its successor. *)
Lemma shared_release fuel : ∀ s a held m',
  shared_inv (Some a) held s ->
  thread_hash_counter.release fuel (mem s) (Some a) = Done m' ->
  shared_inv None held (set_mem s m').
Proof.
  induction fuel as [|fuel IH]; intros s a held m' Hinv H; [done|].
  rewrite release_eq in H.
  apply bind_Done in H as (g & Hg & H). apply heap_lookup_Done in Hg. cbn in H.
  destruct Hinv as (lo & Hlo & Hbrk & Hfreed & Hout & Hlive & Hheld & Howed).
  specialize (Howed a eq_refl) as Ha.
  destruct (Hlive a Ha) as (g0 & Hg0 & Hnext & Hcount & Hfit & _).
  assert (g0 = g) as -> by congruence.
  set (head := root_key_val_arys (root s)) in *.
  assert (owes (Some a) a = 1) as Hone by (cbn; by rewrite b2z_true).
  rewrite Hone in Hcount.
  pose proof (occ_nonneg a held) as Hocc.
  pose proof (links_range lo head a) as Hl.
  replace (arys_t.count g - 1) with (links lo head a + occ a held) in H by lia.
  rewrite u32_small in H by lia.
  destruct (Z.eqb_spec (links lo head a + occ a held) 0) as [Hzero|Hnz].
  - (* the last reference: [a] is the oldest live generation *)
    assert (a = lo ∧ a ≠ head ∧ a ∉ held) as (-> & Hnhead & Hnheld).
    { split_and!.
      - unfold links, b2z in Hzero. repeat case_decide; lia.
      - unfold links, b2z in Hzero. repeat case_decide; lia.
      - intros Hin%occ_in. lia. }
    rewrite Hnext in H. rewrite decide_False in H by done.
    change (set_mem s m') with (set_mem (set_mem s (heap.delete (mem s) lo)) m').
    eapply IH; [|exact H].
    exists (S lo). cbn. fold head. split_and!.
    + lia.
    + done.
    + rewrite Hfreed. symmetry. exact (seq_S lo 0).
    + intros a' Ha'. destruct (decide (a' = lo)) as [->|].
      * apply lookup_delete_eq.
      * rewrite lookup_delete_ne by done. apply Hout. lia.
    + intros a' Ha'.
      destruct (Hlive a' ltac:(lia)) as (g' & Hg' & Hn' & Hc' & Hfit' & H1').
      exists g'. rewrite lookup_delete_ne by lia. split_and!; [done..| | |].
      * rewrite Hc'. unfold links, b2z. cbn. unfold b2z. repeat case_decide; lia.
      * done.
      * destruct (decide (a' = S lo)) as [->|]; [by right|]. left.
        destruct H1' as [H1'|[=]]; [|lia].
        unfold links, b2z in *. repeat case_decide; lia.
    + intros a' Ha'. specialize (Hheld a' Ha').
      destruct (decide (a' = lo)) as [->|]; [done|lia].
    + intros a' [= <-]. lia.
  - injection H as <-.
    exists lo. cbn. fold head. split_and!; try done.
    + intros a' Ha'. rewrite lookup_insert_ne; [by apply Hout|].
      intros <-. rewrite Hout in Hg by done. done.
    + intros a' Ha'. destruct (decide (a = a')) as [<-|Hne].
      * eexists. rewrite lookup_insert_eq. split; [done|]. cbn.
        split_and!; [done|lia|lia|left; lia].
      * destruct (Hlive a' Ha') as (g' & Hg' & Hn' & Hc' & Hfit' & H1').
        exists g'. rewrite lookup_insert_ne by done.
        split_and!; [done..| | |].
        -- rewrite Hc'. cbn. rewrite b2z_false by done. lia.
        -- done.
        -- destruct H1' as [|]; [by left|congruence].
Qed.

(** A reference a handle held is now to be dropped. *)
Lemma shared_owed a held s :
  shared_inv None (a :: held) s -> shared_inv (Some a) held s.
Proof.
  intros (lo & Hlo & Hbrk & Hfreed & Hout & Hlive & Hheld & Howed).
  exists lo. split_and!; try done.
  - intros a' Ha'. destruct (Hlive a' Ha') as (g & Hg & Hn & Hcnt & Hfit & H1).
    exists g. split_and!; [done..| | |].
    + rewrite Hcnt. cbn. lia.
    + done.
    + destruct (decide (a = a')) as [->|Hne]; [by right|]. left.
      destruct H1 as [H1|]; [|done]. cbn in H1.
      rewrite b2z_false in H1 by done. lia.
  - intros a' Ha'. apply Hheld. by right.
  - intros a' [= <-]. apply Hheld. by left.
Qed.

(** A handle takes a reference on the head: a new handle, or one that
    moves on to the head. *)
Lemma shared_take held s cg :
  shared_inv None held s ->
  heap.objs (mem s) !! root_key_val_arys (root s) = Some cg ->
  occ (root_key_val_arys (root s)) held + 3 < 2 ^ 32 ->
  shared_inv None (root_key_val_arys (root s) :: held)
    (set_mem s (heap.store (mem s) (root_key_val_arys (root s))
                  (snd (arys_t.ref_inc cg)))).
Proof.
  intros (lo & Hlo & Hbrk & Hfreed & Hout & Hlive & Hheld & Howed) Hcg Hfit'.
  set (head := root_key_val_arys (root s)) in *.
  exists lo. cbn. fold head. split_and!; try done.
  - intros a Ha. rewrite lookup_insert_ne; [by apply Hout|].
    intros <-. rewrite Hout in Hcg by done. done.
  - intros a Ha. destruct (Hlive a Ha) as (g & Hg & Hn & Hcnt & Hfit & H1).
    destruct (decide (a = head)) as [->|Hh].
    + eexists. rewrite lookup_insert_eq. split; [done|]. cbn.
      assert (g = cg) as -> by congruence.
      split; [done|]. rewrite Hcnt. rewrite b2z_true by done.
      pose proof (occ_nonneg head held).
      pose proof (links_range lo head head).
      cbn [owes]. rewrite u32_small by lia.
      split; [lia|]. split; [lia|]. left. destruct H1 as [|]; [lia|done].
    + exists g. rewrite lookup_insert_ne by done. split; [done|].
      split; [done|]. rewrite b2z_false by done. split; [by rewrite Hcnt|].
      split; [done|]. destruct H1 as [|]; [left; lia|done].
  - intros a [->|Ha]%elem_of_cons; [lia|]. by apply Hheld.
Qed.

(** [resize] keeps the counts right: the new generation starts with
    the link and the head reference, the old head loses the latter. *)
Lemma shared_resize sz alloc held s h carys block r s' :
  shared_inv None held s -> carys ∈ held ->
  thread_hash_counter.resize sz alloc s h carys block = Done (r, s') ->
  shared_inv None held s'.
Proof.
  intros Hinv Hmine H. unfold thread_hash_counter.resize in H.
  destruct (root_resize_lock (root s)).
  { destruct block; [done|]. by injection H as <- <-. }
  destruct (Nat.eqb_spec (root_key_val_arys (root s)) carys) as [<-|];
    cbn [negb] in H; [|by injection H as <- <-].
  unfold thread_hash_counter.new_arys in H.
  apply bind_Done in H as (cg & Hcg%heap_lookup_Done & H).
  apply bind_Done in H as ([narys m1] & H1 & H).
  apply bind_Done in H1 as (g & [Hg0 Hgn]%arys_new_fresh & H1).
  apply bind_Done in H1 as (pg & Hpg%heap_lookup_Done & H1).
  assert (pg = cg) as -> by congruence.
  cbn in H1. injection H1 as <- <-.
  destruct Hinv as (lo & Hlo & Hbrk & Hfreed & Hout & Hlive & Hheld & Howed).
  set (head := root_key_val_arys (root s)) in *.
  destruct (Hlive head ltac:(lia)) as (g' & Hg' & Hnext & Hcount & Hfit & _).
  assert (g' = cg) as -> by congruence.
  rewrite decide_True in Hnext by done.
  apply bind_Done in H as (ng & Hng%heap_lookup_Done & H).
  apply bind_Done in H as (cg' & Hcg'%heap_lookup_Done & H).
  injection H as <- <-.
  cbn in Hng, Hcg'. rewrite Hbrk in *.
  rewrite lookup_insert_ne, lookup_insert_eq in Hng by lia. injection Hng as <-.
  rewrite lookup_insert_ne, lookup_insert_eq in Hcg' by lia. injection Hcg' as <-.
  assert (occ (S head) held = 0) as Hnew.
  { apply occ_not_in. intros ?%Hheld. lia. }
  exists lo. cbn. fold head. split_and!; try done.
  - lia.
  - intros a Ha. rewrite !lookup_insert_ne by lia. apply Hout. lia.
  - intros a Ha. destruct (decide (a = S head)) as [->|Hn].
    + eexists. rewrite lookup_insert_ne, lookup_insert_eq by lia.
      split; [done|]. cbn. split; [done|].
      rewrite Hg0. change (u32 (u32 (0 + 1) + 1)) with 2. rewrite Hnew.
      unfold links, b2z. repeat case_decide; try done; lia.
    + destruct (decide (a = head)) as [->|Hh].
      * eexists. rewrite lookup_insert_eq. split; [done|]. cbn.
        split; [done|].
        pose proof (occ_in head held Hmine).
        cbn in Hcount. rewrite Hcount in Hfit |- *.
        unfold links, b2z in *. repeat case_decide; try done; try lia.
        all: rewrite u32_small by lia; split; [lia|split; [lia|left; lia]].
      * destruct (Hlive a ltac:(lia)) as (ga & Hga & Hna & Hca & Hfita & H1a).
        exists ga. rewrite !lookup_insert_ne by lia. split; [done|].
        rewrite decide_False in Hna by lia.
        split; [done|].
        destruct H1a as [H1a|]; [|done]. cbn [owes] in *.
        unfold links, b2z in *.
        repeat case_decide; try lia; (split; [lia|split; [lia|left; lia]]).
  - intros a Ha%Hheld. lia.
Qed.

Section HandleShared.

Variables sizeof_Key sizeof_Val : Z.
Variable alloc : Z -> option (list Z).

(** The references the other handles hold. *)
Variable O : list nat.
Hypothesis O_fits : Z.of_nat (length O) + 3 < 2 ^ 32.

#[local] Abbreviation add_outer := (thread_hash_counter.add_outer sizeof_Key sizeof_Val alloc).
#[local] Abbreviation add_probe := (thread_hash_counter.add_probe sizeof_Key sizeof_Val alloc).
#[local] Abbreviation copy_chuncks := (thread_hash_counter.copy_chuncks sizeof_Key sizeof_Val alloc).
#[local] Abbreviation copy_slots := (thread_hash_counter.copy_slots sizeof_Key sizeof_Val alloc).
#[local] Abbreviation copy_over := (thread_hash_counter.copy_over sizeof_Key sizeof_Val alloc).
#[local] Abbreviation kva := thread_hash_counter.key_val_arys.

(** The handle moves to the new head and keeps the old generation for
    the [copy_over] to come. *)
Lemma shared_switch P s h cg :
  shared_inv None (kva h :: P ++ O) s ->
  NoDup P -> (∀ a, a ∈ P -> (a < kva h)%nat) ->
  root_key_val_arys (root s) ≠ kva h ->
  heap.objs (mem s) !! root_key_val_arys (root s) = Some cg ->
  shared_inv None (root_key_val_arys (root s) :: (kva h :: P) ++ O)
    (set_mem s (heap.store (mem s) (root_key_val_arys (root s))
                  (snd (arys_t.ref_inc cg))))
  ∧ NoDup (kva h :: P)
  ∧ (∀ a, a ∈ kva h :: P -> (a < root_key_val_arys (root s))%nat).
Proof.
  intros Hinv Hnd HP Hne Hcg.
  assert (kva h <= root_key_val_arys (root s))%nat as Hle.
  { destruct Hinv as (lo & _ & _ & _ & _ & _ & Hheld & _).
    apply Hheld. by left. }
  assert (NoDup (kva h :: P)) as Hnd'.
  { apply NoDup_cons. split; [|done]. intros ?%HP. lia. }
  assert (∀ a, a ∈ kva h :: P -> (a < root_key_val_arys (root s))%nat) as HP'.
  { intros a [->|Ha%HP]%elem_of_cons; lia. }
  split; [|done].
  apply shared_take; [done|done|].
  assert (occ (root_key_val_arys (root s)) (kva h :: P) = 0) as Hnone.
  { apply occ_not_in. intros ?%HP'. lia. }
  change (kva h :: P ++ O) with ((kva h :: P) ++ O). rewrite occ_app, Hnone.
  pose proof (occ_le_length (root_key_val_arys (root s)) O). lia.
Qed.

(** The [copy_over] of [a] is over: the handle releases [a]. *)
Lemma shared_release_old fuel P s a c m' :
  shared_inv None (c :: (a :: P) ++ O) s ->
  thread_hash_counter.release fuel (mem s) (Some a) = Done m' ->
  shared_inv None (c :: P ++ O) (set_mem s m').
Proof.
  intros Hinv. apply shared_release. apply shared_owed.
  eapply shared_inv_perm; [|exact Hinv]. cbn. apply Permutation_swap.
Qed.

(** Every loop of [add] and [copy_over] keeps the counts right with
    other handles around, and [add] returns with the handle on the
    current generation. *)
Lemma handle_shared_frame (fuel : nat) :
  (∀ s h k v hash reprobe emax s' h' P,
      add_outer fuel s h k v hash reprobe emax = Done (s', h') ->
      shared_inv None (kva h :: P ++ O) s ->
      NoDup P -> (∀ a, a ∈ P -> (a < kva h)%nat) ->
      shared_inv None (kva h' :: P ++ O) s' ∧ settled s' h'
      ∧ (kva h <= kva h')%nat)
  ∧ (∀ s h k v hash carys idx reprobe emax s' h' P,
      add_probe fuel s h k v hash carys idx reprobe emax = Done (s', h') ->
      shared_inv None (kva h :: P ++ O) s ->
      NoDup P -> (∀ a, a ∈ P -> (a < kva h)%nat) ->
      carys = root_key_val_arys (root s) -> settled s h ->
      shared_inv None (kva h' :: P ++ O) s' ∧ settled s' h'
      ∧ (kva h <= kva h')%nat)
  ∧ (∀ s h carys s' h' P,
      copy_chuncks fuel s h carys = Done (s', h') ->
      shared_inv None (kva h :: P ++ O) s ->
      NoDup P -> (∀ a, a ∈ P -> (a < kva h)%nat) -> settled s h ->
      shared_inv None (kva h' :: P ++ O) s' ∧ settled s' h'
      ∧ (kva h <= kva h')%nat)
  ∧ (∀ s h carys i end_ s' h' P,
      copy_slots fuel s h carys i end_ = Done (s', h') ->
      shared_inv None (kva h :: P ++ O) s ->
      NoDup P -> (∀ a, a ∈ P -> (a < kva h)%nat) -> settled s h ->
      shared_inv None (kva h' :: P ++ O) s' ∧ settled s' h'
      ∧ (kva h <= kva h')%nat)
  ∧ (∀ s h carys s' h' P,
      copy_over fuel s h carys = Done (s', h') ->
      shared_inv None (kva h :: P ++ O) s ->
      NoDup P -> (∀ a, a ∈ P -> (a < kva h)%nat) -> settled s h ->
      shared_inv None (kva h' :: P ++ O) s' ∧ settled s' h'
      ∧ (kva h <= kva h')%nat).
Proof.
  induction fuel as [|fuel (IHouter & IHprobe & IHchuncks & IHslots & IHover)].
  { repeat split; intros; discriminate. }
  split; [|split; [|split; [|split]]].
  - intros s h k v hash reprobe emax s' h' P H Hinv Hnd HP.
    rewrite add_outer_eq in H. cbv zeta in H.
    destruct (Nat.eqb_spec (root_key_val_arys (root s)) (kva h)) as [Heq|Hne];
      cbn [negb] in H.
    + apply bind_Done in H as (cg & Hcg & H).
      eapply IHprobe; [exact H | done | done | done | done | done].
    + apply bind_Done in H as (cg & Hcg & H). apply heap_lookup_Done in Hcg.
      apply bind_Done in H as ([s2 h2] & Hcopy & H).
      apply bind_Done in H as (m3 & Hrel & H).
      destruct (shared_switch P s h cg Hinv Hnd HP Hne Hcg) as (Hinv1 & Hnd1 & HP1).
      eapply IHover in Hcopy as (Hinv2 & Hset2 & Hle2);
        [| exact Hinv1 | exact Hnd1 | exact HP1 | done].
      cbn [kva thread_hash_counter.set_key_val_arys] in Hle2.
      pose proof (shared_release_old _ _ _ _ _ _ Hinv2 Hrel) as Hinv3.
      assert (kva h < root_key_val_arys (root s))%nat as Hlt
        by (apply HP1; by left).
      destruct (IHouter _ _ _ _ _ _ _ _ _ P H Hinv3 Hnd) as (Hinv' & Hset' & Hle').
      { intros a Ha%HP. lia. }
      split; [done|]. split; [done|]. lia.
  - intros s h k v hash carys idx reprobe emax s' h' P H Hinv Hnd HP -> Hset.
    rewrite add_probe_eq in H. cbv zeta in H.
    apply bind_Done in H as (cg & Hcg & H). apply heap_lookup_Done in Hcg.
    apply bind_Done in H as ([ok cg'] & Hadd & H).
    apply arys_add_links in Hadd as [Hnext Hcount].
    assert (root_key_val_arys (root s) ∈ kva h :: P ++ O) as Hmine
      by (rewrite <- Hset; by left).
    destruct ok.
    { injection H as <- <-. split; [|done]. by eapply shared_inv_store. }
    destruct (_ >? emax).
    + apply bind_Done in H as ([resized s1] & Hres & H).
      destruct resized.
      { eapply IHouter; [exact H| |done|done]. by eapply shared_resize. }
      apply resize_false in Hres as ->.
      destruct (_ >? _).
      * apply bind_Done in H as ([r s2] & Hres & H).
        eapply IHouter; [exact H| |done|done]. by eapply shared_resize.
      * apply bind_Done in H as (cg1 & _ & H).
        eapply IHprobe; [exact H | done | done | done | done | done].
    + eapply IHprobe; [exact H | done | done | done | done | done].
  - intros s h carys s' h' P H Hinv Hnd HP Hset.
    rewrite copy_chuncks_eq in H.
    apply bind_Done in H as (cg & Hcg & H). apply heap_lookup_Done in Hcg.
    destruct (arys_t.get_chunck cg) as [cg' chunck] eqn:Hchunck.
    apply get_chunck_links in Hchunck as [Hnext Hcount]. cbv zeta in H.
    pose proof (shared_inv_store _ _ _ _ _ _ Hinv Hcg Hnext Hcount) as Hinv1.
    destruct chunck as [[start end_]|].
    + apply bind_Done in H as ([s2 h2] & Hslots & H).
      eapply IHslots in Hslots as (Hinv2 & Hset2 & Hle2);
        [|exact Hinv1|done|done|done].
      destruct (IHchuncks _ _ _ _ _ P H Hinv2 Hnd) as (Hinv' & Hset' & Hle');
        [|done|].
      { intros a Ha%HP. lia. }
      split; [done|]. split; [done|]. lia.
    + by injection H as <- <-.
  - intros s h carys i end_ s' h' P H Hinv Hnd HP Hset.
    rewrite copy_slots_eq in H.
    destruct (i <? end_); [|by injection H as <- <-].
    apply bind_Done in H as (cg & Hcg & H).
    apply bind_Done in H as (r & Hget & H).
    destruct r as [[ckey cval]|].
    + apply bind_Done in H as ([s1 h1] & Hadd & H).
      eapply IHouter in Hadd as (Hinv1 & Hset1 & Hle1); [|exact Hinv|done|done].
      destruct (IHslots _ _ _ _ _ _ _ P H Hinv1 Hnd) as (Hinv' & Hset' & Hle');
        [|done|].
      { intros a Ha%HP. lia. }
      split; [done|]. split; [done|]. lia.
    + eapply IHslots; [exact H|done|done|done|done].
  - intros s h carys s' h' P H Hinv Hnd HP Hset.
    rewrite copy_over_eq in H.
    apply bind_Done in H as (? & _ & H).
    eapply IHchuncks; [exact H|done|done|done|done].
Qed.

End HandleShared.

(** A new root: one generation, with the head reference only. *)
Lemma shared_new_root sz alloc K size maxr nb s0 :
  concurrent_hash_counter.new sz alloc K size maxr nb = Done s0 ->
  shared_inv None [] s0.
Proof.
  unfold concurrent_hash_counter.new, thread_hash_counter.new_arys.
  intros H0.
  apply bind_Done in H0 as ([a m] & Hnew & H0).
  apply bind_Done in Hnew as (g & [Hcount Hnext]%arys_new_fresh & Hnew).
  injection Hnew as <- <-.
  apply bind_Done in H0 as (g0 & Hg0 & H0). apply heap_lookup_Done in Hg0.
  cbn in Hg0. rewrite lookup_insert_eq in Hg0. injection Hg0 as <-.
  injection H0 as <-.
  exists 0%nat. cbn. split_and!; try done.
  - intros a Ha. rewrite !lookup_insert_ne by lia. apply lookup_empty.
  - intros a Ha. assert (a = 0%nat) as -> by lia.
    eexists. rewrite lookup_insert_eq. split; [done|]. cbn.
    rewrite Hcount. by split_and!; [|vm_compute|vm_compute|left; vm_compute].
  - by intros a ?%elem_of_nil.
Qed.

(** A handle more. *)
Lemma shared_new_handle held s s' h :
  shared_inv None held s -> Z.of_nat (length held) + 3 < 2 ^ 32 ->
  thread_hash_counter.new s = Done (s', h) ->
  shared_inv None (thread_hash_counter.key_val_arys h :: held) s'.
Proof.
  intros Hinv Hfit H. unfold thread_hash_counter.new in H.
  apply bind_Done in H as (g & Hg%heap_lookup_Done & H).
  injection H as <- <-. cbn [thread_hash_counter.key_val_arys].
  apply shared_take; [done|done|].
  pose proof (occ_le_length (root_key_val_arys (root s)) held). lia.
Qed.

(** [add] through one of the handles. *)
Lemma shared_add sK sz alloc fuel s h k v s' h' O :
  thread_hash_counter.add sK sz alloc fuel s h k v = Done (s', h') ->
  shared_inv None (thread_hash_counter.key_val_arys h :: O) s ->
  Z.of_nat (length O) + 3 < 2 ^ 32 ->
  shared_inv None (thread_hash_counter.key_val_arys h' :: O) s'.
Proof.
  unfold thread_hash_counter.add. intros H Hinv HO.
  destruct (proj1 (handle_shared_frame sK sz alloc O HO fuel)
              _ _ _ _ _ _ _ _ _ [] H) as (Hinv' & _); [done|constructor| |done].
  by intros a ?%elem_of_nil.
Qed.

(** A handle less: its reference is released. *)
Lemma shared_destroy fuel s h s' O :
  thread_hash_counter.destroy fuel s h = Done s' ->
  shared_inv None (thread_hash_counter.key_val_arys h :: O) s ->
  shared_inv None O s'.
Proof.
  unfold thread_hash_counter.destroy. intros H Hinv.
  apply bind_Done in H as (m & Hrel & H). injection H as <-.
  eapply shared_release; [|exact Hrel]. by apply shared_owed.
Qed.

Lemma caches_app hs h :
  caches (hs ++ [Some h]) = caches hs ++ [thread_hash_counter.key_val_arys h].
Proof. unfold caches. by rewrite omap_app. Qed.

Lemma caches_length hs : (length (caches hs) <= length hs)%nat.
Proof.
  induction hs as [|[h|] hs IH]; cbn; [lia| |].
  - change (omap (fmap thread_hash_counter.key_val_arys) hs) with (caches hs). lia.
  - change (omap (fmap thread_hash_counter.key_val_arys) hs) with (caches hs). lia.
Qed.

(** The references of the handles but the [i]-th. *)
Lemma caches_take hs i h :
  hs !! i = Some (Some h) ->
  caches hs ≡ₚ thread_hash_counter.key_val_arys h :: caches (<[i := None]> hs).
Proof.
  revert i. induction hs as [|o hs IH]; intros [|i] Hi; try done.
  - cbn in Hi. injection Hi as ->. done.
  - cbn in Hi. specialize (IH i Hi). cbn [insert list_insert].
    change (<[i := None]> hs) with (list_insert i None hs) in IH.
    destruct o as [h0|]; cbn.
    + change (omap (fmap thread_hash_counter.key_val_arys) hs) with (caches hs).
      rewrite IH. apply Permutation_swap.
    + exact IH.
Qed.

Lemma caches_put hs i h h' :
  hs !! i = Some (Some h) ->
  caches (<[i := Some h']> hs)
  ≡ₚ thread_hash_counter.key_val_arys h' :: caches (<[i := None]> hs).
Proof.
  intros Hi.
  assert (<[i := Some h']> hs !! i = Some (Some h')) as Hi'
    by (apply list_lookup_insert_eq; by eapply lookup_lt_Some).
  apply caches_take in Hi'. by rewrite list_insert_insert_eq in Hi'.
Qed.

Lemma run_call_length sK sz alloc fuel s hs c s' hs' :
  run_call sK sz alloc fuel (s, hs) c = Done (s', hs') ->
  (length hs <= length hs')%nat.
Proof.
  destruct c as [|i k v|i]; cbn.
  - intros H. apply bind_Done in H as ([s1 h1] & _ & H). injection H as <- <-.
    rewrite length_app. lia.
  - destruct (hs !! i) as [[h|]|]; intros H; try (injection H as <- <-; lia).
    apply bind_Done in H as ([s1 h1] & _ & H). injection H as <- <-.
    by rewrite length_insert.
  - destruct (hs !! i) as [[h|]|]; intros H; try (injection H as <- <-; lia).
    apply bind_Done in H as (s1 & _ & H). injection H as <- <-.
    by rewrite length_insert.
Qed.

Lemma run_calls_length sK sz alloc fuel cs : ∀ s hs s' hs',
  run_calls sK sz alloc fuel (s, hs) cs = Done (s', hs') ->
  (length hs <= length hs')%nat.
Proof.
  induction cs as [|c cs IH]; intros s hs s' hs' H; cbn in H.
  - injection H as <- <-. lia.
  - apply bind_Done in H as ([s1 hs1] & Hc & H).
    apply run_call_length in Hc. apply IH in H. lia.
Qed.

(** Each call keeps the counts right. *)
Lemma run_call_shared sK sz alloc fuel s hs c s' hs' :
  run_call sK sz alloc fuel (s, hs) c = Done (s', hs') ->
  shared_inv None (caches hs) s -> Z.of_nat (length hs') + 2 < 2 ^ 32 ->
  shared_inv None (caches hs') s'.
Proof.
  intros H Hinv Hfit. pose proof (run_call_length _ _ _ _ _ _ _ _ _ H) as Hlen.
  pose proof (caches_length hs) as Hcl.
  destruct c as [|i k v|i]; cbn in H.
  - apply bind_Done in H as ([s1 h1] & Hnew & H). injection H as <- <-.
    rewrite length_app in Hfit. cbn in Hfit.
    eapply shared_inv_perm; [|eapply shared_new_handle; [exact Hinv| |exact Hnew]].
    + rewrite caches_app. apply Permutation_cons_append.
    + lia.
  - destruct (hs !! i) as [[h|]|] eqn:Hi; try (by injection H as <- <-).
    apply bind_Done in H as ([s1 h1] & Hadd & H). injection H as <- <-.
    pose proof (caches_take _ _ _ Hi) as Hp.
    eapply shared_inv_perm; [symmetry; by eapply caches_put|].
    eapply shared_add; [exact Hadd| |].
    + eapply shared_inv_perm; [exact Hp|exact Hinv].
    + apply Permutation_length in Hp. cbn in Hp. lia.
  - destruct (hs !! i) as [[h|]|] eqn:Hi; try (by injection H as <- <-).
    apply bind_Done in H as (s1 & Hd & H). injection H as <- <-.
    pose proof (caches_take _ _ _ Hi) as Hp.
    eapply shared_destroy; [exact Hd|].
    eapply shared_inv_perm; [exact Hp|exact Hinv].
Qed.

Lemma run_calls_shared sK sz alloc fuel cs : ∀ s hs s' hs',
  run_calls sK sz alloc fuel (s, hs) cs = Done (s', hs') ->
  shared_inv None (caches hs) s -> Z.of_nat (length hs') + 2 < 2 ^ 32 ->
  shared_inv None (caches hs') s'.
Proof.
  induction cs as [|c cs IH]; intros s hs s' hs' H Hinv Hfit; cbn in H.
  - by injection H as <- <-.
  - apply bind_Done in H as ([s1 hs1] & Hc & H).
    pose proof (run_calls_length _ _ _ _ _ _ _ _ _ H) as Hlen.
    eapply IH; [exact H| |done].
    eapply run_call_shared; [exact Hc|done|lia].
Qed.

(** With the counts right, the generations deleted are the oldest, in
    the order of creation, all the others are live, and among them
    the ones the handles hold. *)
Lemma shared_inv_freed held s :
  shared_inv None held s ->
  ∃ lo : nat,
    heap.freed (mem s) = seq 0 lo
    ∧ (∀ a, is_Some (heap.objs (mem s) !! a) <-> (lo <= a < heap.brk (mem s))%nat)
    ∧ (∀ a, a ∈ held -> (lo <= a < heap.brk (mem s))%nat).
Proof.
  intros (lo & Hlo & Hbrk & Hfreed & Hout & Hlive & Hheld & _).
  exists lo. split; [done|]. split.
  - intros a. split.
    + intros [g Hg]. destruct (decide (lo <= a < heap.brk (mem s))%nat); [done|].
      rewrite Hout in Hg by lia. done.
    + intros Ha. destruct (Hlive a ltac:(lia)) as (g & Hg & _). by exists g.
  - intros a Ha%Hheld. lia.
Qed.

(** With no handle left, the head is the one live generation, and
    the destructor of the root deletes it. *)
Lemma shared_destroy_root s :
  shared_inv None [] s ->
  ∃ s'', concurrent_hash_counter.destroy s = Done s''
         ∧ heap.objs (mem s'') = ∅
         ∧ heap.freed (mem s'') = seq 0 (heap.brk (mem s'')).
Proof.
  intros (lo & Hlo & Hbrk & Hfreed & Hout & Hlive & _).
  set (head := root_key_val_arys (root s)) in *.
  assert (lo = head) as ->.
  { destruct (Hlive lo ltac:(lia)) as (g & _ & _ & _ & _ & [H1|]); [|done].
    cbn in H1. unfold links, b2z in H1. repeat case_decide; lia. }
  destruct (Hlive head ltac:(lia)) as (g & Hg & _).
  unfold concurrent_hash_counter.destroy. fold head.
  apply heap_lookup_Done in Hg as Hg'. rewrite Hg'. cbn.
  eexists. split; [done|]. cbn. split.
  - apply map_eq. intros a. rewrite lookup_empty.
    destruct (decide (a = head)) as [->|].
    + apply lookup_delete_eq.
    + rewrite lookup_delete_ne by done. apply Hout. lia.
  - rewrite Hfreed, Hbrk. symmetry. exact (seq_S _ 0).
Qed.

(** A whole life of the table with any number of handles, made, used
    and destroyed in any order. *)
Lemma shared_life_frees_all sK sz alloc K size maxr nb fuel cs s0 s hs :
  concurrent_hash_counter.new sz alloc K size maxr nb = Done s0 ->
  run_calls sK sz alloc fuel (s0, []) cs = Done (s, hs) ->
  Z.of_nat (length hs) + 2 < 2 ^ 32 ->
  (∃ lo : nat,
      heap.freed (mem s) = seq 0 lo
      ∧ (∀ a, is_Some (heap.objs (mem s) !! a)
              <-> (lo <= a < heap.brk (mem s))%nat)
      ∧ (∀ h, Some h ∈ hs ->
              (lo <= thread_hash_counter.key_val_arys h < heap.brk (mem s))%nat))
  ∧ (Forall (λ o, o = None) hs ->
     ∃ s'', concurrent_hash_counter.destroy s = Done s''
            ∧ heap.objs (mem s'') = ∅
            ∧ heap.freed (mem s'') = seq 0 (heap.brk (mem s''))).
Proof.
  intros Hnew Hrun Hfit.
  pose proof (run_calls_shared _ _ _ _ _ _ _ _ _ Hrun
                (shared_new_root _ _ _ _ _ _ _ Hnew) Hfit) as Hinv.
  split.
  - destruct (shared_inv_freed _ _ Hinv) as (lo & Hfreed & Hlive & Hheld).
    exists lo. split; [done|]. split; [done|].
    intros h Hh. apply Hheld. unfold caches. apply list_elem_of_omap.
    exists (Some h). by split.
  - intros Hnone. apply shared_destroy_root.
    assert (caches hs = []) as <-; [|done].
    clear -Hnone. induction Hnone as [|o hs -> _ IH]; [done|]. exact IH.
Qed.

(** C5, amended: [next] leads from a generation to the one created
    after it, not to an older one.  (1) A [resize] that creates a
    generation makes it the [next] of the old head and counts that link
    and the head reference on it; its own [next] is null.  (2) When
    [release] drops the count of a generation to zero it deletes the
    generation and goes on to drop the reference held on its [next];
    otherwise it stops.  (3) Over the life of a table with one handle,
    whatever is added, every generation created is deleted exactly once,
    in the order of creation.  (4) The same with any number of handles,
    made, used for [add] and destroyed in any order, one call after the
    other, as long as the count, an [unsigned int], cannot wrap (fewer
    than [2 ^ 32 - 2] handles): at any time the generations deleted are
    the oldest ones, each deleted once, in the order of creation, all
    the others are live, and the generation of every handle is among
    the live ones; and once the handles are destroyed the destructor of
    the root returns and leaves no generation, each one created having
    been deleted once, oldest first. *)
Theorem C5_next_is_newer_and_all_freed_in_order
    sizeof_Key sizeof_Val alloc :
  (∀ pending cached s h r s',
      refcount_inv None pending cached s ->
      root_resize_lock (root s) = false ->
      thread_hash_counter.resize sizeof_Val alloc s h
        (root_key_val_arys (root s)) false = Done (r, s') ->
      r = true
      ∧ root_key_val_arys (root s') = heap.brk (mem s)
      ∧ (root_key_val_arys (root s) < root_key_val_arys (root s'))%nat
      ∧ ∃ old new,
          heap.objs (mem s') !! root_key_val_arys (root s) = Some old
          ∧ arys_t.next old = Some (root_key_val_arys (root s'))
          ∧ heap.objs (mem s') !! root_key_val_arys (root s') = Some new
          ∧ arys_t.next new = None
          ∧ arys_t.count new = 2)
  ∧ (∀ fuel m a g,
      heap.objs m !! a = Some g ->
      thread_hash_counter.release (S fuel) m (Some a) =
        if u32 (arys_t.count g - 1) =? 0
        then thread_hash_counter.release fuel (heap.delete m a) (arys_t.next g)
        else Done (heap.store m a (arys_t.set_count g (u32 (arys_t.count g - 1)))))
  ∧ (∀ K size maxr nb fuel fuel' ops s0 s1 h1 s h s' s'',
      concurrent_hash_counter.new sizeof_Val alloc K size maxr nb = Done s0 ->
      thread_hash_counter.new s0 = Done (s1, h1) ->
      add_all sizeof_Key sizeof_Val alloc fuel s1 h1 ops = Done (s, h) ->
      thread_hash_counter.destroy fuel' s h = Done s' ->
      concurrent_hash_counter.destroy s' = Done s'' ->
      heap.objs (mem s'') = ∅
      ∧ heap.freed (mem s'') = seq 0 (heap.brk (mem s'')))
  ∧ (∀ K size maxr nb fuel cs s0 s hs,
      concurrent_hash_counter.new sizeof_Val alloc K size maxr nb = Done s0 ->
      run_calls sizeof_Key sizeof_Val alloc fuel (s0, []) cs = Done (s, hs) ->
      Z.of_nat (length hs) + 2 < 2 ^ 32 ->
      (∃ lo : nat,
          heap.freed (mem s) = seq 0 lo
          ∧ (∀ a, is_Some (heap.objs (mem s) !! a)
                  <-> (lo <= a < heap.brk (mem s))%nat)
          ∧ (∀ h, Some h ∈ hs ->
                  (lo <= thread_hash_counter.key_val_arys h
                   < heap.brk (mem s))%nat))
      ∧ (Forall (λ o, o = None) hs ->
         ∃ s'', concurrent_hash_counter.destroy s = Done s''
                ∧ heap.objs (mem s'') = ∅
                ∧ heap.freed (mem s'') = seq 0 (heap.brk (mem s'')))).
Proof.
  split; [|split; [|split]].
  - intros. by eapply resize_links.
  - intros fuel m a g Hg. rewrite release_eq.
    apply heap_lookup_Done in Hg. by rewrite Hg.
  - intros. by eapply table_life_frees_all.
  - intros. by eapply shared_life_frees_all.
Qed.

Lemma C5_next_is_newer_and_all_freed_in_order_witness :
  (heap.objs (mem life_end) = ∅
   ∧ heap.freed (mem life_end) = [0; 1]%nat)
  ∧ (snd two_handles_filled
       = [Some (thread_hash_counter.mk 64 1 4 4); Some (thread_hash_counter.mk 64 0 4 4)]
     ∧ heap.freed (mem (fst two_handles_filled)) = []
     ∧ (∀ a, is_Some (heap.objs (mem (fst two_handles_filled)) !! a) <-> (a < 2)%nat))
  ∧ (heap.objs (mem two_handles_end) = ∅
     ∧ heap.freed (mem two_handles_end) = [0; 1]%nat).
Proof.
  destruct (C5_next_is_newer_and_all_freed_in_order 8 4 (mmap_alloc 4))
    as (_ & _ & Hlife & Hshared).
  split; [|split].
  - destruct (Hlife 64 4 4 1 400%nat 4%nat life_ops life_root
                (fst life_start) (snd life_start)
                (fst life_filled) (snd life_filled)
                life_handle_gone life_end) as [Hobjs Hfreed].
    + vm_compute. reflexivity.
    + vm_compute. reflexivity.
    + vm_compute. reflexivity.
    + vm_compute. reflexivity.
    + vm_compute. reflexivity.
    + split; [exact Hobjs|]. rewrite Hfreed. vm_compute. reflexivity.
  - destruct (Hshared 64 4 4 1 400%nat two_handles_adds life_root
                (fst two_handles_filled) (snd two_handles_filled))
      as [(lo & Hfreed & Hlive & _) _].
    + vm_compute. reflexivity.
    + vm_compute. reflexivity.
    + vm_compute. reflexivity.
    + split; [vm_compute; reflexivity|].
      assert (lo = 0%nat) as ->.
      { assert (is_Some (heap.objs (mem (fst two_handles_filled)) !! 0%nat)) as H0
          by (vm_compute; eexists; reflexivity).
        apply Hlive in H0. lia. }
      split; [exact Hfreed|].
      intros a. rewrite Hlive.
      replace (heap.brk (mem (fst two_handles_filled))) with 2%nat
        by (vm_compute; reflexivity).
      lia.
  - destruct (Hshared 64 4 4 1 400%nat
                (two_handles_adds ++ [drop_handle 0; drop_handle 1]) life_root
                (fst two_handles_gone) (snd two_handles_gone))
      as [_ Hend].
    + vm_compute. reflexivity.
    + vm_compute. reflexivity.
    + vm_compute. reflexivity.
    + destruct Hend as (s'' & Hd & Hobjs & Hfreed).
      { vm_compute. repeat constructor. }
      assert (s'' = two_handles_end) as ->.
      { unfold two_handles_end. rewrite Hd. reflexivity. }
      split; [exact Hobjs|]. rewrite Hfreed. vm_compute. reflexivity.
Defined.

(** C5 as stated fails: after the resize of the full four-slot table
    the old generation 0 has the new generation 1 as its [next], and
    the new one, the head, has none. *)
Lemma C5_next_is_not_older :
  (∃ old new,
      heap.objs (mem resized_table) !! 0%nat = Some old
      ∧ heap.objs (mem resized_table) !! 1%nat = Some new
      ∧ arys_t.next old = Some 1%nat ∧ arys_t.next new = None
      ∧ arys_t.size old = 4 ∧ arys_t.size new = 8
      ∧ root_key_val_arys (root resized_table) = 1%nat)
  ∧ ¬ next_is_older_or_null (mem resized_table).
Proof.
  assert (∃ old new,
      heap.objs (mem resized_table) !! 0%nat = Some old
      ∧ heap.objs (mem resized_table) !! 1%nat = Some new
      ∧ arys_t.next old = Some 1%nat ∧ arys_t.next new = None
      ∧ arys_t.size old = 4 ∧ arys_t.size new = 8
      ∧ root_key_val_arys (root resized_table) = 1%nat) as Hstate.
  { eexists _, _. split; [vm_compute; reflexivity|].
    split; [vm_compute; reflexivity|]. repeat split. }
  split; [exact Hstate|].
  destruct Hstate as (old & new & Hold & _ & Hnext & _).
  intros Hclaim. specialize (Hclaim 0%nat old Hold).
  rewrite Hnext in Hclaim. lia.
Qed.

(** ** The reprobe sequence *)

Lemma tri_double n : 2 * tri n = Z.of_nat n * (Z.of_nat n + 1).
Proof.
  unfold tri. 
  assert (Z.of_nat n * (Z.of_nat n + 1) mod 2 = 0) as Hev.
  { induction n as [|n IH]; [done|].
    replace (Z.of_nat (S n) * (Z.of_nat (S n) + 1))
      with (Z.of_nat n * (Z.of_nat n + 1) + (Z.of_nat n + 1) * 2) by lia.
    by rewrite Z.mod_add by lia. }
  pose proof (Z.div_mod (Z.of_nat n * (Z.of_nat n + 1)) 2 ltac:(lia)). lia.
Qed.

Lemma tri_S n : tri (S n) = tri n + (Z.of_nat n + 1).
Proof.
  pose proof (tri_double n). pose proof (tri_double (S n)). lia.
Qed.

Lemma land_mask x k : 0 <= k -> Z.land x (2 ^ k - 1) = x mod 2 ^ k.
Proof.
  intros. rewrite <- Z.land_ones by done. by rewrite Z.ones_equiv, <- Z.sub_1_r.
Qed.

(** While [reprobe] has not wrapped, probe [n] is at the home index
    plus the [n]-th triangular number, modulo the size. *)
Lemma probes_closed k idx0 (n : nat) :
  0 <= k <= 63 -> 0 <= idx0 < 2 ^ k -> Z.of_nat n < 2 ^ 32 ->
  thread_hash_counter.probes (2 ^ k - 1) idx0 n
  = ((idx0 + tri n) mod 2 ^ k, Z.of_nat n).
Proof.
  intros Hk Hidx. assert (0 < 2 ^ k) by (apply Z.pow_pos_nonneg; lia).
  assert (2 ^ k <= 2 ^ 63) by (apply Z.pow_le_mono_r; lia).
  induction n as [|n IH]; intros Hn.
  - cbn. f_equal. unfold tri. cbn. rewrite Z.add_0_r. by rewrite Z.mod_small.
  - cbn [thread_hash_counter.probes]. rewrite IH by lia.
    rewrite u32_small by lia.
    unfold thread_hash_counter.reprobe_idx.
    pose proof (Z.mod_pos_bound (idx0 + tri n) (2 ^ k) ltac:(lia)).
    unfold u64. rewrite (Z.mod_small _ (2 ^ 64)) by lia.
    rewrite land_mask by lia. rewrite Zplus_mod_idemp_l.
    rewrite tri_S. f_equal; [f_equal|]; lia.
Qed.

Lemma probe_slot_range k idx0 n :
  0 <= k -> 0 <= idx0 < 2 ^ k ->
  0 <= thread_hash_counter.probe_slot (2 ^ k - 1) idx0 n < 2 ^ k.
Proof.
  intros Hk Hidx. assert (0 < 2 ^ k) by (apply Z.pow_pos_nonneg; lia).
  unfold thread_hash_counter.probe_slot. destruct n as [|n]; [done|].
  cbn [thread_hash_counter.probes].
  destruct (thread_hash_counter.probes _ _ n) as [idx r]. cbn [fst].
  unfold thread_hash_counter.reprobe_idx. rewrite land_mask by lia.
  by apply Z.mod_pos_bound.
Qed.

(** A power of two that divides [x * y], [y] odd, divides [x]. *)
Lemma pow2_divide_odd (j : nat) : ∀ x y,
  Z.odd y = true -> (2 ^ Z.of_nat j | x * y) -> (2 ^ Z.of_nat j | x).
Proof.
  induction j as [|j IH]; intros x y Hodd [q Hq].
  - exists x. cbn. lia.
  - rewrite Nat2Z.inj_succ, Z.pow_succ_r in * by lia.
    assert (Z.even x = true) as [x' ->]%Z.even_spec.
    { assert (Z.even (x * y) = true) as Hev
        by (rewrite Hq; apply Z.even_spec; exists (q * 2 ^ Z.of_nat j); lia).
      assert (Z.even y = false) as Hy by (by rewrite <- Z.negb_odd, Hodd).
      by rewrite Z.even_mul, Hy, orb_false_r in Hev. }
    destruct (IH x' y Hodd) as [q' ->]; [exists q; lia|].
    exists q'. lia.
Qed.

(** Triangular numbers below [2 ^ k] differ modulo [2 ^ k]. *)
Lemma tri_mod_inj k (a b : nat) :
  0 <= k -> (a < b)%nat -> Z.of_nat b < 2 ^ k ->
  tri a mod 2 ^ k ≠ tri b mod 2 ^ k.
Proof.
  intros Hk Hab Hb Heq.
  assert (0 < 2 ^ k) by (apply Z.pow_pos_nonneg; lia).
  assert ((2 ^ k | tri b - tri a)) as [q Hq].
  { apply Z.mod_divide; [lia|]. rewrite Zminus_mod, Heq, Z.sub_diag. done. }
  assert (2 ^ (k + 1) = 2 * 2 ^ k) as Hpow by (rewrite Z.pow_add_r by lia; lia).
  assert ((2 ^ Z.of_nat (Z.to_nat (k + 1))
           | (Z.of_nat b - Z.of_nat a) * (Z.of_nat a + Z.of_nat b + 1)))
    as Hdiv.
  { exists q. rewrite Z2Nat.id, Hpow by lia.
    pose proof (tri_double a). pose proof (tri_double b). lia. }
  destruct (Z.odd (Z.of_nat b - Z.of_nat a)) eqn:Hodd.
  - rewrite Z.mul_comm in Hdiv. apply pow2_divide_odd in Hdiv; [|done].
    rewrite Z2Nat.id in Hdiv by lia.
    apply Z.divide_pos_le in Hdiv; lia.
  - apply pow2_divide_odd in Hdiv.
    + rewrite Z2Nat.id in Hdiv by lia.
      apply Z.divide_pos_le in Hdiv; lia.
    + replace (Z.of_nat a + Z.of_nat b + 1)
        with ((Z.of_nat b - Z.of_nat a) + 1 + 2 * Z.of_nat a) by lia.
      rewrite Z.odd_add_mul_2, Z.odd_add, Hodd. done.
Qed.

(** Pigeonhole, both ways, for a function on [0 .. N). *)
Lemma inj_surj_below (N : nat) (f : nat -> nat) :
  (∀ n, (n < N)%nat -> (f n < N)%nat) ->
  (∀ a b, (a < b < N)%nat -> f a ≠ f b) ->
  ∀ t, (t < N)%nat -> ∃ n, (n < N)%nat ∧ f n = t.
Proof.
  intros Hrange Hinj t Ht.
  assert (List.NoDup (List.map f (seq 0 N))) as Hnd.
  { apply List.NoDup_map_NoDup_ForallPairs; [|apply List.seq_NoDup].
    intros a b [_ Ha]%List.in_seq [_ Hb]%List.in_seq Heq.
    destruct (Nat.lt_trichotomy a b) as [Hlt|[->|Hlt]]; [|done|].
    - by destruct (Hinj a b ltac:(lia)).
    - by destruct (Hinj b a ltac:(lia)). }
  assert (List.incl (seq 0 N) (List.map f (seq 0 N))) as Hincl.
  { apply List.NoDup_length_incl; [done| |].
    - by rewrite List.length_map.
    - intros x (n & <- & Hn%List.in_seq)%List.in_map_iff.
      apply List.in_seq. specialize (Hrange n). lia. }
  destruct (proj1 (List.in_map_iff f _ t) (Hincl t ltac:(apply List.in_seq; lia)))
    as (n & Hn & Hin%List.in_seq).
  exists n. split; [lia|done].
Qed.

Lemma surj_inj_below (N : nat) (f : nat -> nat) :
  (∀ t, (t < N)%nat -> ∃ n, (n < N)%nat ∧ f n = t) ->
  ∀ a b, (a < b < N)%nat -> f a ≠ f b.
Proof.
  intros Hsurj a b Hab Heq.
  assert (List.NoDup (List.map f (seq 0 N))) as Hnd.
  { apply (@List.NoDup_incl_NoDup _ (seq 0 N)); [apply List.seq_NoDup| |].
    - by rewrite List.length_map.
    - intros t Ht%List.in_seq. destruct (Hsurj t ltac:(lia)) as (n & Hn & <-).
      apply List.in_map, List.in_seq. lia. }
  assert (a = b); [|lia].
  apply (proj1 (List.NoDup_nth _ (f 0%nat)) Hnd);
    rewrite ?List.length_map, ?List.length_seq; [lia..|].
  rewrite !List.map_nth, !List.seq_nth by lia. done.
Qed.

Lemma probes_reprobe mask idx0 (n : nat) :
  Z.of_nat n < 2 ^ 32 ->
  snd (thread_hash_counter.probes mask idx0 n) = Z.of_nat n.
Proof.
  induction n as [|n IH]; intros Hn; [done|].
  cbn [thread_hash_counter.probes].
  destruct (thread_hash_counter.probes mask idx0 n) as [idx r].
  cbn [snd] in *. rewrite IH by lia. rewrite u32_small by lia. lia.
Qed.

Lemma probe_slot_S mask idx0 (n : nat) :
  Z.of_nat n < 2 ^ 32 - 1 ->
  thread_hash_counter.probe_slot mask idx0 (S n)
  = thread_hash_counter.reprobe_idx (thread_hash_counter.probe_slot mask idx0 n)
      (Z.of_nat n + 1) mask.
Proof.
  intros Hn. unfold thread_hash_counter.probe_slot.
  cbn [thread_hash_counter.probes].
  pose proof (probes_reprobe mask idx0 n ltac:(lia)) as Hr.
  destruct (thread_hash_counter.probes mask idx0 n) as [idx r].
  cbn [fst snd] in *. subst r. by rewrite u32_small by lia.
Qed.

Section ProbeWalk.

Variables sizeof_Key sizeof_Val : Z.
Variable alloc : Z -> option (list Z).

#[local] Abbreviation add_probe := (thread_hash_counter.add_probe sizeof_Key sizeof_Val alloc).

(** The probe loop of [add] walks the reprobe sequence: when the first
    [n] slots of the sequence hold other keys and [n] is within the
    limit, the loop comes to probe [n] with [reprobe = n]. *)
Lemma add_probe_walk (n : nat) : ∀ fuel s h k v hash carys idx0 emax cg,
  heap.lookup (mem s) carys = Done cg ->
  (∀ j, (j < n)%nat ->
     fst (small_packed_array.set (arys_t.keys cg)
            (thread_hash_counter.probe_slot (arys_t.mod_mask cg) idx0 j) k) = false) ->
  Z.of_nat n <= emax -> emax < 2 ^ 32 ->
  add_probe (n + fuel) s h k v hash carys idx0 0 emax
  = add_probe fuel s h k v hash carys
      (thread_hash_counter.probe_slot (arys_t.mod_mask cg) idx0 n) (Z.of_nat n) emax.
Proof.
  induction n as [|n IH]; intros fuel s h k v hash carys idx0 emax cg Hcg Hfail Hn Hemax;
    [done|].
  rewrite Nat.add_succ_comm.
  rewrite (IH _ _ _ _ _ _ _ _ _ cg);
    [| done | intros; apply Hfail; lia | lia | done].
  rewrite add_probe_eq, Hcg. cbn [mbind result_bind rbind].
  rewrite arys_add_set_false by (apply Hfail; lia). cbn [mbind result_bind rbind].
  cbv zeta. rewrite u32_small by lia.
  destruct (Z.gtb_spec (Z.of_nat n + 1) emax); [lia|].
  rewrite probe_slot_S by lia. f_equal. lia.
Qed.

End ProbeWalk.

(** The triangular numbers cover the residues of any power of two:
    the sequence the spec describes does what it says, for tables of
    every size, as long as [reprobe] counts on. *)
Lemma triangular_covers k idx0 t :
  0 <= k -> 0 <= t < 2 ^ k ->
  ∃ n : nat, Z.of_nat n < 2 ^ k ∧ (idx0 + tri n) mod 2 ^ k = t.
Proof.
  intros Hk Ht.
  assert (0 < 2 ^ k) as Hpos by (apply Z.pow_pos_nonneg; lia).
  destruct (inj_surj_below (Z.to_nat (2 ^ k))
              (λ n, Z.to_nat ((idx0 + tri n) mod 2 ^ k))) with (t := Z.to_nat t)
    as (n & Hn & Heq).
  - intros n Hn. pose proof (Z.mod_pos_bound (idx0 + tri n) (2 ^ k) Hpos). lia.
  - intros a b Hab Heq. apply (tri_mod_inj k a b); [lia..|].
    apply Z2Nat.inj in Heq; [|by apply Z.mod_pos_bound..].
    rewrite <- (Z.add_simpl_l idx0 (tri a)), <- (Z.add_simpl_l idx0 (tri b)).
    by rewrite Zminus_mod, Heq, <- Zminus_mod.
  - lia.
  - exists n. split; [lia|].
    pose proof (Z.mod_pos_bound (idx0 + tri n) (2 ^ k) Hpos). lia.
Qed.

(** C4, amended: for a table of [2 ^ k] slots with [k <= 32], so that
    the 32-bit [reprobe] does not wrap within [2 ^ k] probes, the reprobe
    sequence from any home index visits every slot within the first
    [2 ^ k] probes; probe [n] is at the home index plus the [n]-th
    triangular number, modulo the size. *)
Theorem C4_reprobe_covers_up_to_2_32 k :
  0 <= k <= 32 ->
  reprobe_covers (2 ^ k)
  ∧ (∀ idx0 (n : nat), 0 <= idx0 < 2 ^ k -> Z.of_nat n < 2 ^ k ->
       thread_hash_counter.probe_slot (2 ^ k - 1) idx0 n
       = (idx0 + Z.of_nat n * (Z.of_nat n + 1) / 2) mod 2 ^ k).
Proof.
  intros Hk.
  assert (2 ^ k <= 2 ^ 32) as Hle by (apply Z.pow_le_mono_r; lia).
  assert (∀ idx0 (n : nat), 0 <= idx0 < 2 ^ k -> Z.of_nat n < 2 ^ k ->
            thread_hash_counter.probe_slot (2 ^ k - 1) idx0 n
            = (idx0 + tri n) mod 2 ^ k) as Hclosed.
  { intros idx0 n Hidx Hn. unfold thread_hash_counter.probe_slot.
    rewrite probes_closed by lia. done. }
  split; [|exact Hclosed].
  intros idx0 t Hidx Ht.
  destruct (triangular_covers k idx0 t) as (n & Hn & Heq); [lia | done |].
  exists n. split; [done|]. by rewrite Hclosed.
Qed.

(** Past [2 ^ 32] slots the sequence repeats itself: after [2 ^ 32 - 1]
    failed probes [++reprobe] wraps to 0 and the next probe is at the
    same slot, so the first [2 ^ k] probes miss a slot. *)
Lemma probe_repeats_at_wrap k idx0 (a : nat) :
  0 <= k <= 63 -> 0 <= idx0 < 2 ^ k -> Z.of_nat a = 2 ^ 32 - 1 ->
  thread_hash_counter.probe_slot (2 ^ k - 1) idx0 (S a)
  = thread_hash_counter.probe_slot (2 ^ k - 1) idx0 a.
Proof.
  intros Hk Hidx Ha. assert (0 < 2 ^ k) by (apply Z.pow_pos_nonneg; lia).
  assert (2 ^ k <= 2 ^ 63) by (apply Z.pow_le_mono_r; lia).
  unfold thread_hash_counter.probe_slot. cbn [thread_hash_counter.probes].
  rewrite probes_closed by lia. cbn [fst]. rewrite Ha.
  change (u32 (2 ^ 32 - 1 + 1)) with 0.
  unfold thread_hash_counter.reprobe_idx. rewrite Z.add_0_r.
  pose proof (Z.mod_pos_bound (idx0 + tri a) (2 ^ k) ltac:(lia)).
  unfold u64. rewrite (Z.mod_small _ (2 ^ 64)) by lia.
  rewrite land_mask by lia. by rewrite Z.mod_mod by lia.
Qed.

Lemma reprobe_wraps k : 32 < k <= 63 -> ¬ reprobe_covers (2 ^ k).
Proof.
  intros Hk Hcov.
  assert (0 < 2 ^ k) by (apply Z.pow_pos_nonneg; lia).
  assert (2 ^ 32 < 2 ^ k) by (apply Z.pow_lt_mono_r; lia).
  assert (∃ a : nat, Z.of_nat a = 2 ^ 32 - 1) as [a Ha]
    by (exists (Z.to_nat (2 ^ 32 - 1)); apply Z2Nat.id; lia).
  apply (surj_inj_below (Z.to_nat (2 ^ k))
           (λ n, Z.to_nat (thread_hash_counter.probe_slot (2 ^ k - 1) 0 n))
           ) with (a := a) (b := S a).
  - intros t Ht.
    destruct (Hcov 0 (Z.of_nat t)) as (n & Hn & Heq); [lia..|].
    exists n. split; [lia|]. rewrite Heq. lia.
  - lia.
  - by rewrite probe_repeats_at_wrap by lia.
Qed.

(** C4 as stated fails for a table of [2 ^ 33] slots. *)
Lemma C4_reprobe_misses_a_slot_of_2_33 : ¬ reprobe_covers (2 ^ 33).
Proof. apply (reprobe_wraps 33). lia. Qed.

Lemma C4_reprobe_covers_up_to_2_32_witness :
  reprobe_covers (2 ^ 3)
  ∧ thread_hash_counter.probe_slot (2 ^ 3 - 1) 5 4 = (5 + 4 * (4 + 1) / 2) mod 2 ^ 3.
Proof.
  destruct (C4_reprobe_covers_up_to_2_32 3) as [Hcov Hclosed]; [lia|].
  split; [exact Hcov|]. apply (Hclosed 5 4%nat); cbn; lia.
Defined.

(** * Further properties of the code *)
(** ** Iteration yields the occupied slots *)

Lemma omap_cons_eq {A B} (f : A -> option B) x l :
  omap f (x :: l) = match f x with Some y => y :: omap f l | None => omap f l end.
Proof. reflexivity. Qed.

Lemma arys_get_slot_pair g (i : nat) :
  counters_backed g -> arys_t.get g (Z.of_nat i) = Done (slot_pair g i).
Proof.
  intros Hb. unfold arys_t.get, slot_pair.
  destruct (small_packed_array.get _ _) as [k|] eqn:Hk; [|done].
  destruct (Hb _ _ Hk) as [v Hv]. rewrite Nat2Z.id in *. cbn. by rewrite Hv.
Qed.

Lemma drain_spec g (n : nat) : ∀ (p : nat) k v fuel,
  counters_backed g -> arys_t.size g <= 2 ^ 63 ->
  Z.of_nat p + Z.of_nat n = arys_t.size g -> (n < fuel)%nat ->
  arys_iterator.drain fuel g (arys_iterator.mk (Z.of_nat p) k v)
  = Done (omap (slot_pair g) (seq p n)).
Proof.
  induction n as [|n IH]; intros p k v fuel Hb Hmax Hp Hfuel;
    (destruct fuel as [|fuel]; [lia|]);
    cbn [arys_iterator.drain]; unfold arys_iterator.next;
    cbn [arys_iterator.pos].
  - replace (arys_t.size g - Z.of_nat p) with 0 by lia.
    change (Z.to_nat 0) with 0%nat.
    cbn [arys_iterator.next_loop arys_iterator.pos].
    destruct (Z.ltb_spec (Z.of_nat p) (arys_t.size g)); [lia|]. done.
  - replace (Z.to_nat (arys_t.size g - Z.of_nat p)) with (S n) by lia.
    cbn [arys_iterator.next_loop arys_iterator.pos].
    destruct (Z.ltb_spec (Z.of_nat p) (arys_t.size g)); [|lia].
    rewrite arys_get_slot_pair by done. cbn [mbind result_bind rbind].
    assert (u64 (Z.of_nat p + 1) = Z.of_nat (S p)) as ->
      by (unfold u64; rewrite Z.mod_small; lia).
    cbn [seq]. rewrite omap_cons_eq.
    destruct (slot_pair g p) as [[k' v']|].
    + cbn [mbind result_bind rbind arys_iterator.key arys_iterator.val].
      rewrite (IH (S p)) by (try done; lia). done.
    + specialize (IH (S p) k v (S fuel) Hb Hmax ltac:(lia) ltac:(lia)).
      cbn [arys_iterator.drain] in IH. unfold arys_iterator.next in IH.
      cbn [arys_iterator.pos arys_iterator.key arys_iterator.val] in *.
      replace (Z.to_nat (arys_t.size g - Z.of_nat (S p))) with n in IH by lia.
      exact IH.
Qed.

Lemma iterate_occupied g :
  counters_backed g -> 0 <= arys_t.size g <= 2 ^ 63 ->
  arys_iterator.iterate g = Done (occupied_pairs g).
Proof.
  intros Hb Hsize. apply (drain_spec g _ 0%nat); [done | lia | lia | lia].
Qed.

Lemma arys_wf_counters_backed sz g : arys_wf sz g -> counters_backed g.
Proof.
  intros (_ & _ & _ & _ & _ & Hks & Hlen & _) i k Hk.
  unfold small_packed_array.get in Hk.
  destruct (_ && _) eqn:Hin; [|done].
  apply andb_true_iff in Hin as [?%Z.leb_le ?%Z.ltb_lt].
  apply lookup_lt_is_Some_2. lia.
Qed.

Lemma omap_all_None {A B} (f : A -> option B) l :
  (∀ x, f x = None) -> omap f l = [].
Proof.
  intros Hf. induction l as [|x l IH]; [done|].
  by rewrite omap_cons_eq, Hf.
Qed.

Lemma packed_new_get K N i : small_packed_array.get (small_packed_array.new K N) i = None.
Proof.
  unfold small_packed_array.get, small_packed_array.new.
  cbn [small_packed_array.size small_packed_array.cells].
  destruct (_ && _); [|done].
  destruct (replicate (Z.to_nat N) None !! Z.to_nat i) as [c|] eqn:Hc; [|done].
  by apply lookup_replicate in Hc as [-> _].
Qed.

Lemma round_up_range _size S :
  arys_t.round_up arys_t.round_up_steps _size 1 = Some S -> 1 <= S <= 2 ^ 63.
Proof.
  intros HS. destruct (Z.le_gt_cases _size (2 ^ 63)) as [Hle|Hgt].
  - destruct (round_up_spec arys_t.round_up_steps 0 _size)
      as (k & Hk & Heq & _); [lia | lia | unfold arys_t.round_up_steps; lia |].
    change (2 ^ 0) with 1 in Heq. rewrite Heq in HS. injection HS as <-.
    split; [|apply Z.pow_le_mono_r; lia].
    pose proof (Z.pow_pos_nonneg 2 k). lia.
  - rewrite (round_up_diverges _ 0) in HS; [done | lia | lia].
Qed.

Lemma arys_new_shape sz alloc K n g :
  arys_t.new sz alloc K n = Done g ->
  ∃ S, arys_t.round_up arys_t.round_up_steps n 1 = Some S
       ∧ arys_t.keys g = small_packed_array.new K S ∧ arys_t.size g = S.
Proof.
  unfold arys_t.new. destruct (arys_t.round_up _ _ _) as [S|]; [|done].
  destruct (alloc _); [|done]. intros [= <-]. by exists S.
Qed.

Lemma fresh_generation_iterates_nothing g K S :
  arys_t.keys g = small_packed_array.new K S -> arys_t.size g = S ->
  0 <= S <= 2 ^ 63 ->
  arys_iterator.iterate g = Done [].
Proof.
  intros Hk Hs HS.
  rewrite iterate_occupied.
  2:{ intros i k. by rewrite Hk, packed_new_get. }
  2:{ lia. }
  1:{ unfold occupied_pairs. rewrite omap_all_None; [done|].
      intros i. unfold slot_pair. by rewrite Hk, packed_new_get. }
Qed.

(** ** A new table *)

(** X2: a table just constructed is empty: its iteration produces no pair
    and no key has a stored value, whatever memory the allocator
    returned for the counters; its size is a power of two, at least the
    size asked for. *)
Theorem new_table_is_empty sizeof_Val alloc _key_len _size _max_reprobe nb_threads s :
  concurrent_hash_counter.new sizeof_Val alloc _key_len _size _max_reprobe nb_threads
    = Done s ->
  table_pairs s = Done []
  ∧ (∀ k, stored_value s k = Done None)
  ∧ ∃ S, concurrent_hash_counter.size s = Done S ∧ is_pow2 S ∧ _size <= S.
Proof.
  unfold concurrent_hash_counter.new, thread_hash_counter.new_arys. intros H.
  apply bind_Done in H as ([a m] & Hnew & H).
  apply bind_Done in Hnew as (g & Hg & Hnew). injection Hnew as <- <-.
  apply bind_Done in H as (g0 & Hg0 & H). apply heap_lookup_Done in Hg0.
  cbn in Hg0. rewrite lookup_insert_eq in Hg0. injection Hg0 as <-.
  injection H as <-.
  destruct (arys_new_shape _ _ _ _ _ Hg) as (S & HS & Hk & Hsz).
  pose proof (round_up_range _ _ HS) as HSr.
  match goal with |- table_pairs ?st = _ ∧ _ => set (s := st) end.
  assert (table_pairs s = Done []) as Hpairs.
  { unfold table_pairs, s. cbn [mem root root_key_val_arys].
    rewrite heap_lookup_store. cbn [mbind result_bind rbind].
    apply (fresh_generation_iterates_nothing _ _key_len S); [exact Hk | exact Hsz | lia]. }
  split; [exact Hpairs|]. split.
  - intros k. unfold stored_value. by rewrite Hpairs.
  - exists S. split.
    + unfold concurrent_hash_counter.size, s. cbn [mem root root_key_val_arys].
      rewrite heap_lookup_store. cbn. by rewrite Hsz.
    + destruct (Z.le_gt_cases _size (2 ^ 63)) as [Hle|Hgt].
      * destruct (round_up_spec arys_t.round_up_steps 0 _size)
          as (k & Hk' & Heq & Hle' & _); [lia | lia | unfold arys_t.round_up_steps; lia |].
        change (2 ^ 0) with 1 in Heq. rewrite Heq in HS. injection HS as <-.
        split; [exists k; split; [lia|done]|done].
      * rewrite (round_up_diverges _ 0) in HS; [done | lia | lia].
Qed.

Lemma life_root_new :
  concurrent_hash_counter.new 4 (mmap_alloc 4) 64 4 4 1 = Done life_root.
Proof. vm_compute. reflexivity. Qed.

Lemma new_table_is_empty_witness :
  table_pairs life_root = Done []
  ∧ (∀ k, stored_value life_root k = Done None)
  ∧ ∃ S, concurrent_hash_counter.size life_root = Done S ∧ is_pow2 S ∧ 4 <= S.
Proof. exact (new_table_is_empty 4 (mmap_alloc 4) 64 4 4 1 life_root life_root_new). Defined.

(** ** [add] and [get] on a generation *)

Lemma packed_set_true_get a i k a' :
  small_packed_array.size a = Z.of_nat (length (small_packed_array.cells a)) ->
  small_packed_array.set a i k = (true, a') ->
  0 <= i < small_packed_array.size a
  ∧ small_packed_array.get a' i
      = Some (small_packed_array.payload (small_packed_array.item_len a) k)
  ∧ (∀ j, j ≠ i -> small_packed_array.get a' j = small_packed_array.get a j)
  ∧ (∀ j p, small_packed_array.get a j = Some p -> small_packed_array.get a' j = Some p).
Proof.
  intros Hlen. unfold small_packed_array.set, small_packed_array.get.
  destruct ((0 <=? i) && (i <? small_packed_array.size a)) eqn:Hin; [|done].
  pose proof Hin as Hin'.
  apply andb_true_iff in Hin' as [?%Z.leb_le ?%Z.ltb_lt].
  destruct (mjoin (small_packed_array.cells a !! Z.to_nat i)) as [p'|] eqn:Hc.
  - intros [= ->%Z.eqb_eq <-]. rewrite Hin, Hc. done.
  - intros [= <-]. cbn [small_packed_array.size small_packed_array.cells].
    rewrite Hin. split; [lia|].
    assert (∀ j, j ≠ i -> 0 <= j -> 0 <= i ->
              <[Z.to_nat i:=Some (small_packed_array.payload
                                    (small_packed_array.item_len a) k)]>
                (small_packed_array.cells a) !! Z.to_nat j
              = small_packed_array.cells a !! Z.to_nat j) as Hne.
    { intros j Hj ? ?. apply list_lookup_insert_ne. lia. }
    split_and!.
    + rewrite list_lookup_insert_eq by lia. done.
    + intros j Hj. destruct ((0 <=? j) && _) eqn:Hjin; [|done].
      apply andb_true_iff in Hjin as [?%Z.leb_le _]. by rewrite Hne.
    + intros j p. destruct (decide (j = i)) as [->|Hj].
      * by rewrite Hin, Hc.
      * destruct ((0 <=? j) && _) eqn:Hjin; [|done].
        apply andb_true_iff in Hjin as [?%Z.leb_le _]. by rewrite Hne.
Qed.

(** X3: on a well-formed generation, for a slot index [idx] within it,
    [add(idx, key, val)] returns.  When it returns true, [get(idx)] then
    yields the key and the counter the compare-and-swap loop left, and
    [get] of every other slot yields what it did before.  Whatever it
    returns, the generation stays well-formed and no slot that held a
    key loses or changes it. *)
Theorem add_then_get sz intf g idx key val :
  arys_wf sz g -> 0 <= idx < arys_t.size g ->
  Forall (λ x, 0 <= x < Val_modulus sz) intf ->
  ∃ ok g',
    arys_t.add sz intf g idx key val = Done (ok, g')
    ∧ arys_wf sz g'
    ∧ arys_t.size g' = arys_t.size g
    ∧ (∀ j k, small_packed_array.get (arys_t.keys g) j = Some k ->
              small_packed_array.get (arys_t.keys g') j = Some k)
    ∧ (∀ j, j ≠ idx -> arys_t.get g' j = arys_t.get g j)
    ∧ (ok = true ->
       ∃ c, arys_t.vals g !! Z.to_nat idx = Some c
            ∧ arys_t.get g' idx =
                Done (Some (small_packed_array.payload
                              (small_packed_array.item_len (arys_t.keys g)) key,
                            arys_t.add_loop sz intf c val))).
Proof.
  intros Hwf _ Hintf.
  pose proof Hwf as (Hsz & Hpow & Hmax & Hbytes & Hkeys & Hksize & Hlen & Hvals).
  pose proof Hkeys as (_ & Hcells & _).
  destruct (small_packed_array.set (arys_t.keys g) idx key) as [[] keys'] eqn:Hset.
  - destruct (packed_set_true_get _ _ _ _ Hcells Hset) as (Hidx & Hget & Hframe & Hkeep).
    destruct (lookup_lt_is_Some_2 (arys_t.vals g) (Z.to_nat idx)) as [c Hc]; [lia|].
    exists true, (arys_t.set_vals (arys_t.set_keys g keys')
                    (<[Z.to_nat idx := arys_t.add_loop sz intf c val]> (arys_t.vals g))).
    pose proof (arys_add_true sz intf _ _ _ val _ _ Hset Hc) as Hadd.
    split_and!;
      [done | exact (arys_wf_add _ _ _ _ _ _ _ _ Hwf Hintf Hadd) | done | exact Hkeep | |].
    + intros j Hj. unfold arys_t.get.
      cbn [arys_t.keys arys_t.vals arys_t.set_vals arys_t.set_keys].
      rewrite Hframe by done.
      destruct (small_packed_array.get (arys_t.keys g) j) as [kj|] eqn:Hkj; [|done].
      unfold small_packed_array.get in Hkj.
      destruct ((0 <=? j) && _) eqn:Hjin; [|done].
      apply andb_true_iff in Hjin as [?%Z.leb_le _].
      rewrite list_lookup_insert_ne by lia. done.
    + intros _. exists c. split; [done|]. unfold arys_t.get.
      cbn [arys_t.keys arys_t.vals arys_t.set_vals arys_t.set_keys].
      rewrite Hget, list_lookup_insert_eq by lia. done.
  - exists false, g. split_and!; try done.
    apply arys_add_set_false. by rewrite Hset.
Qed.

Lemma add_then_get_witness :
  ∃ ok g',
    arys_t.add 4 [7] sample_arys 0 5 2 = Done (ok, g')
    ∧ arys_wf 4 g'
    ∧ arys_t.size g' = arys_t.size sample_arys
    ∧ (∀ j k, small_packed_array.get (arys_t.keys sample_arys) j = Some k ->
              small_packed_array.get (arys_t.keys g') j = Some k)
    ∧ (∀ j, j ≠ 0 -> arys_t.get g' j = arys_t.get sample_arys j)
    ∧ (ok = true ->
       ∃ c, arys_t.vals sample_arys !! Z.to_nat 0 = Some c
            ∧ arys_t.get g' 0 =
                Done (Some (small_packed_array.payload
                              (small_packed_array.item_len (arys_t.keys sample_arys)) 5,
                            arys_t.add_loop 4 [7] c 2))).
Proof.
  apply (add_then_get 4 [7] sample_arys 0 5 2 sample_arys_wf).
  - cbn. lia.
  - repeat constructor; vm_compute; congruence.
Defined.

(** X4: the compare-and-swap loop of [arys_t::add] counts on the content
    the swap found.  Let the counter hold [c] when [add] first reads it
    and then, at each compare-and-swap, the contents [intf] in turn.
    The loop goes through these contents while the content read is not
    all-ones and the swap finds another content than the one read; it
    ends at the first content [c'] that is all-ones, or that the swap
    finds unchanged (or that nothing follows), and what it leaves is
    what one pass makes of [c'], not of an earlier content.  So a
    value another thread stored between the read and the swap is
    counted on, not overwritten. *)
Theorem add_loop_counts_on_the_content_swapped sz intf c v :
  ∃ pre c' post,
    c :: intf = pre ++ c' :: post
    ∧ (∀ i x y, (pre ++ [c']) !! i = Some x -> (pre ++ [c']) !! S i = Some y ->
         Val_not sz x ≠ 0 ∧ y ≠ x)
    ∧ (Val_not sz c' = 0 ∨ post = [] ∨ ∃ post', post = c' :: post')
    ∧ arys_t.add_loop sz intf c v = arys_t.add_loop sz [] c' v.
Proof.
  revert c. induction intf as [|seen intf IH]; intros c.
  - exists [], c, []. split; [done|]. split; [|split; [by right; left|done]].
    intros [|i] x y; [|done]. intros _. done.
  - cbn [arys_t.add_loop].
    destruct (Z.eqb_spec (Val_not sz c) 0) as [Hfull|Hfull].
    + exists [], c, (seen :: intf). split; [done|].
      split; [|split; [by left|]].
      * intros [|i] x y; [|done]. intros _. done.
      * rewrite Hfull. done.
    + destruct (Z.eqb_spec seen c) as [->|Hseen].
      * exists [], c, (c :: intf). split; [done|].
        split; [|split; [right; right; by eexists|]].
        -- intros [|i] x y; [|done]. intros _. done.
        -- destruct (Z.eqb_spec (Val_not sz c) 0); [done|]. done.
      * destruct (IH seen) as (pre & c' & post & Hsplit & Hfail & Hlands & Heq).
        exists (c :: pre), c', post. split; [by rewrite Hsplit|].
        split; [|split; [done|done]].
        intros [|i] x y.
        -- intros [= <-] Hy.
           change ((pre ++ [c']) !! 0%nat = Some y) in Hy.
           assert ((pre ++ [c']) !! 0%nat = Some seen) as H0.
           { destruct pre as [|p pre]; cbn in Hsplit |- *; by injection Hsplit as ->. }
           rewrite H0 in Hy. by injection Hy as <-.
        -- intros Hx Hy. exact (Hfail i x y Hx Hy).
Qed.

Lemma add_loop_counts_on_the_content_swapped_witness :
  arys_t.add_loop 4 [5] 3 1 = 6.
Proof.
  destruct (add_loop_counts_on_the_content_swapped 4 [5] 3 1)
    as (pre & c' & post & Hsplit & Hfail & Hlands & ->).
  destruct pre as [|p [|q pre]].
  - injection Hsplit as <- <-.
    destruct Hlands as [Hfull|[Hnil|[post' Hpost]]];
      [vm_compute in Hfull; discriminate Hfull | discriminate Hnil | discriminate Hpost].
  - injection Hsplit as <- <- <-. vm_compute. reflexivity.
  - apply (f_equal length) in Hsplit. cbn in Hsplit.
    rewrite length_app in Hsplit. cbn in Hsplit. lia.
Defined.

(** ** Iteration *)

(** X1: an iterator yields the occupied slots of its generation, each
    with its key and counter, by increasing index and once each; after
    [rewind] it yields them all again. *)
Theorem iterate_is_occupied_pairs g :
  counters_backed g -> 0 <= arys_t.size g <= 2 ^ 63 ->
  arys_iterator.iterate g = Done (occupied_pairs g)
  ∧ (∀ it fuel, (Z.to_nat (arys_t.size g) < fuel)%nat ->
       arys_iterator.drain fuel g (arys_iterator.rewind it) = Done (occupied_pairs g)).
Proof.
  intros Hb Hsize. split.
  - apply (drain_spec g _ 0%nat); [done | lia | lia | lia].
  - intros it fuel Hfuel. unfold arys_iterator.rewind.
    apply (drain_spec g _ 0%nat); [done | lia | lia | lia].
Qed.

Lemma iterate_is_occupied_pairs_witness :
  arys_iterator.iterate sample_arys = Done (occupied_pairs sample_arys)
  ∧ (∀ it fuel, (Z.to_nat (arys_t.size sample_arys) < fuel)%nat ->
       arys_iterator.drain fuel sample_arys (arys_iterator.rewind it)
       = Done (occupied_pairs sample_arys)).
Proof.
  apply (iterate_is_occupied_pairs sample_arys).
  - exact (arys_wf_counters_backed 4 sample_arys sample_arys_wf).
  - vm_compute. split; congruence.
Defined.

(** ** The bytes of [write] *)

Lemma le_bytes_range n : ∀ x, Forall (λ b, 0 <= b < 256) (le_bytes n x).
Proof.
  induction n as [|n IH]; intros x; cbn [le_bytes]; constructor.
  - apply Z.mod_pos_bound. lia.
  - apply IH.
Qed.

(** X5: [write] of a well-formed generation emits the key buffer and
    then [sizeof(Val)] bytes for every slot, [get_data_len() +
    sizeof(Val) * size] bytes in all, each a byte. *)
Theorem write_length sizeof_Val g :
  arys_wf sizeof_Val g ->
  Z.of_nat (length (arys_t.write sizeof_Val g))
  = small_packed_array.get_data_len (arys_t.keys g) + sizeof_Val * arys_t.size g
  ∧ Forall (λ b, 0 <= b < 256) (arys_t.write sizeof_Val g)
  ∧ take (Z.to_nat (small_packed_array.get_data_len (arys_t.keys g)))
      (arys_t.write sizeof_Val g)
    = small_packed_array.write (arys_t.keys g).
Proof.
  intros (Hsz & Hpow & Hmax & Hbytes & Hkeys & Hksize & Hlen & Hvals).
  pose proof (is_pow2_pos _ Hpow) as Hpos.
  assert (0 <= small_packed_array.get_data_len (arys_t.keys g)) as Hdl.
  { unfold small_packed_array.get_data_len, small_packed_array.data_len.
    destruct Hkeys as (HK & _). rewrite Hksize.
    assert (0 <= (small_packed_array.item_len (arys_t.keys g) * arys_t.size g + 63) / 64)
      by (apply Z.div_pos; nia).
    lia. }
  unfold arys_t.write. split_and!.
  - unfold arys_t.vals_bytes.
    rewrite length_app, small_packed_array_facts.length_write, length_take,
      length_vals_bytes.
    unfold u64. rewrite Z.mod_small by nia. nia.
  - apply Forall_app. split; [apply le_bytes_range|].
    apply Forall_take. unfold arys_t.vals_bytes. clear.
    induction (arys_t.vals g) as [|v vs IH]; cbn [flat_map]; [constructor|].
    apply Forall_app. split; [apply le_bytes_range|apply IH].
  - rewrite take_app_length'; [done|].
    by rewrite small_packed_array_facts.length_write.
Qed.

Lemma write_length_witness :
  Z.of_nat (length (arys_t.write 4 sample_arys))
  = small_packed_array.get_data_len (arys_t.keys sample_arys) + 4 * arys_t.size sample_arys
  ∧ Forall (λ b, 0 <= b < 256) (arys_t.write 4 sample_arys)
  ∧ take (Z.to_nat (small_packed_array.get_data_len (arys_t.keys sample_arys)))
      (arys_t.write 4 sample_arys)
    = small_packed_array.write (arys_t.keys sample_arys).
Proof. exact (write_length 4 sample_arys sample_arys_wf). Defined.

(** ** The chunks of [copy_over] *)

Lemma get_chunck_pow2 g k (i : nat) :
  arys_t.size g = 2 ^ k -> 7 <= k <= 63 ->
  arys_t.copy_chunck g = Z.of_nat i -> Z.of_nat i < 2 ^ 32 - 1 ->
  arys_t.get_chunck g =
    (arys_t.set_copy_chunck g (Z.of_nat (S i)),
     if (128 <=? i)%nat then None
     else Some (Z.of_nat i * 2 ^ (k - 7), Z.of_nat i * 2 ^ (k - 7) + 2 ^ (k - 7))).
Proof.
  intros Hsize Hk Hi Hlt. unfold arys_t.get_chunck. rewrite Hi, Hsize.
  rewrite u32_small by lia.
  replace (Z.of_nat i + 1) with (Z.of_nat (S i)) by lia.
  destruct (Z.geb_spec (Z.of_nat i) 128) as [Hge|Hlt128].
  { destruct (Nat.leb_spec 128 i); [done|lia]. }
  destruct (Nat.leb_spec 128 i); [lia|].
  rewrite Z.shiftr_div_pow2 by lia.
  assert (2 ^ k = 2 ^ 7 * 2 ^ (k - 7)) as Hsplit
    by (rewrite <- Z.pow_add_r by lia; f_equal; lia).
  assert (0 < 2 ^ (k - 7)) as Hc by (apply Z.pow_pos_nonneg; lia).
  assert (2 ^ k <= 2 ^ 63) as Hmax by (apply Z.pow_le_mono_r; lia).
  assert (2 ^ k / 2 ^ 7 = 2 ^ (k - 7)) as ->
    by (rewrite Hsplit, Z.mul_comm; apply Z.div_mul; lia).
  change (2 ^ 7) with 128 in Hsplit. change (2 ^ 63) with 9223372036854775808 in Hmax.
  unfold u64. rewrite (Z.mod_small (Z.of_nat i * _)) by nia.
  rewrite Z.mod_small by nia.
  destruct (Z.gtb_spec (Z.of_nat i * 2 ^ (k - 7) + 2 ^ (k - 7)) (2 ^ k)); [nia|done].
Qed.

Lemma chuncks_from k (n : nat) : ∀ g (i : nat),
  arys_t.size g = 2 ^ k -> 7 <= k <= 63 ->
  arys_t.copy_chunck g = Z.of_nat i -> Z.of_nat (i + n) < 2 ^ 32 ->
  chuncks n g =
    (λ j : nat, (Z.of_nat j * 2 ^ (k - 7), Z.of_nat j * 2 ^ (k - 7) + 2 ^ (k - 7)))
      <$> seq i (Nat.min n (128 - i)).
Proof.
  induction n as [|n IH]; intros g i Hsize Hk Hi Hn; [done|].
  cbn [chuncks]. rewrite (get_chunck_pow2 g k i) by (try done; lia).
  rewrite (IH _ (S i)); [|done|done|done|lia].
  destruct (Nat.leb_spec 128 i) as [Hge|Hlt].
  - by replace (128 - i)%nat with 0%nat by lia; replace (128 - S i)%nat with 0%nat by lia;
      rewrite !Nat.min_0_r.
  - replace (128 - i)%nat with (S (128 - S i)) by lia.
    rewrite <- Nat.succ_min_distr. done.
Qed.

(** X6: after [rewind_chunck], the calls of [get_chunck] on a generation
    of [2 ^ k >= 128] slots hand out 128 ranges of [2 ^ (k - 7)] slots,
    one after the other from slot 0, and then nothing more; every slot
    of the generation lies in exactly one of them. *)
Theorem chuncks_tile_the_generation g k (n : nat) :
  arys_t.size g = 2 ^ k -> 7 <= k <= 63 ->
  (128 <= n)%nat -> Z.of_nat n < 2 ^ 32 ->
  chuncks n (arys_t.rewind_chunck g) =
    (λ j : nat, (Z.of_nat j * 2 ^ (k - 7), Z.of_nat j * 2 ^ (k - 7) + 2 ^ (k - 7)))
      <$> seq 0 128
  ∧ ∀ slot, 0 <= slot < arys_t.size g ->
      ∃ j r, chuncks n (arys_t.rewind_chunck g) !! j = Some r
             ∧ r.1 <= slot < r.2
             ∧ ∀ j' r', chuncks n (arys_t.rewind_chunck g) !! j' = Some r' ->
                        r'.1 <= slot < r'.2 -> j' = j.
Proof.
  intros Hsize Hk Hn Hn32.
  assert (chuncks n (arys_t.rewind_chunck g) =
    (λ j : nat, (Z.of_nat j * 2 ^ (k - 7), Z.of_nat j * 2 ^ (k - 7) + 2 ^ (k - 7)))
      <$> seq 0 128) as Hlist.
  { rewrite (chuncks_from k n _ 0%nat); [|done|done|done|lia].
    by replace (Nat.min n (128 - 0)) with 128%nat by lia. }
  split; [exact Hlist|]. intros slot Hslot. rewrite Hlist, Hsize in *.
  assert (2 ^ k = 128 * 2 ^ (k - 7)) as Hsplit.
  { change 128 with (2 ^ 7). rewrite <- Z.pow_add_r by lia. f_equal. lia. }
  assert (0 < 2 ^ (k - 7)) as Hc by (apply Z.pow_pos_nonneg; lia).
  set (c := 2 ^ (k - 7)) in *.
  assert (0 <= slot / c < 128) as Hq.
  { split; [apply Z.div_pos; lia|]. apply Z.div_lt_upper_bound; lia. }
  pose proof (Z.mul_div_le slot c Hc) as Hlo.
  pose proof (Z.mul_succ_div_gt slot c Hc) as Hhi.
  exists (Z.to_nat (slot / c)), (slot / c * c, slot / c * c + c).
  split_and!.
  - rewrite list_lookup_fmap, lookup_seq_lt by lia. cbn.
    by rewrite Z2Nat.id by lia.
  - cbn. lia.
  - cbn. lia.
  - intros j' r' Hr' Hin.
    rewrite list_lookup_fmap in Hr'.
    destruct (seq 0 128 !! j') as [x|] eqn:Hx; [|done].
    apply lookup_seq in Hx as [-> Hj']. injection Hr' as <-. cbn in Hin.
    assert (Z.of_nat j' = slot / c) by nia. lia.
Qed.

Lemma chuncks_tile_the_generation_witness :
  chuncks 130 (arys_t.rewind_chunck wide_arys) =
    (λ j : nat, (Z.of_nat j * 2 ^ (8 - 7), Z.of_nat j * 2 ^ (8 - 7) + 2 ^ (8 - 7)))
      <$> seq 0 128
  ∧ ∀ slot, 0 <= slot < 256 ->
      ∃ j r, chuncks 130 (arys_t.rewind_chunck wide_arys) !! j = Some r
             ∧ r.1 <= slot < r.2
             ∧ ∀ j' r', chuncks 130 (arys_t.rewind_chunck wide_arys) !! j' = Some r' ->
                        r'.1 <= slot < r'.2 -> j' = j.
Proof.
  apply (chuncks_tile_the_generation wide_arys 8 130).
  - reflexivity.
  - lia.
  - lia.
  - lia.
Defined.

(** ** [resize] *)

Lemma heap_lookup_fresh objs brk freed g :
  heap.lookup (heap.mk (<[brk:=g]> objs) (S brk) freed) brk = Done g.
Proof. unfold heap.lookup. cbn [heap.objs]. by rewrite lookup_insert_eq. Qed.

(** X7: a [resize] of the head generation that finds the mutex free
    makes a generation of twice the slots the new head; the new
    generation is empty, and the old one keeps its keys and counters.
    At [2 ^ 63] slots the doubled size wraps to 0 and the new
    generation has one slot. *)
Theorem resize_doubles_and_starts_empty sizeof_Val alloc s h block cg r s' :
  root_resize_lock (root s) = false ->
  heap.lookup (mem s) (root_key_val_arys (root s)) = Done cg ->
  (root_key_val_arys (root s) < heap.brk (mem s))%nat ->
  is_pow2 (arys_t.size cg) -> arys_t.size cg <= 2 ^ 63 ->
  thread_hash_counter.resize sizeof_Val alloc s h (root_key_val_arys (root s)) block
    = Done (r, s') ->
  r = true
  ∧ root_key_val_arys (root s') = heap.brk (mem s)
  ∧ (∃ ng, heap.lookup (mem s') (root_key_val_arys (root s')) = Done ng
           ∧ arys_t.size ng
             = (if arys_t.size cg =? 2 ^ 63 then 1 else 2 * arys_t.size cg)
           ∧ arys_iterator.iterate ng = Done []
           ∧ table_pairs s' = Done [])
  ∧ (∃ cg', heap.lookup (mem s') (root_key_val_arys (root s)) = Done cg'
            ∧ arys_t.keys cg' = arys_t.keys cg
            ∧ arys_t.vals cg' = arys_t.vals cg
            ∧ arys_t.size cg' = arys_t.size cg).
Proof.
  intros Hlock Hcg Hbrk Hpow Hmax H.
  unfold thread_hash_counter.resize in H. rewrite Hlock in H.
  rewrite Nat.eqb_refl in H. cbn [negb] in H. rewrite Hcg in H.
  cbn [mbind result_bind rbind] in H.
  apply bind_Done in H as ([narys m1] & Hnew & H).
  unfold thread_hash_counter.new_arys in Hnew.
  apply bind_Done in Hnew as (g & Hg & Hnew).
  rewrite Hcg in Hnew. cbn in Hnew. injection Hnew as <- <-.
  apply heap_lookup_Done in Hcg as Hcg'.
  set (head := root_key_val_arys (root s)) in *.
  rewrite heap_lookup_store_ne in H by lia.
  rewrite heap_lookup_fresh in H. cbn [mbind result_bind rbind] in H.
  rewrite heap_lookup_store_ne in H by lia.
  rewrite heap_lookup_store in H. cbn [mbind result_bind rbind] in H.
  injection H as <- <-.
  destruct (arys_new_shape _ _ _ _ _ Hg) as (S & HS & Hk & Hsz).
  pose proof (is_pow2_pos _ Hpow) as Hpos.
  assert (S = if arys_t.size cg =? 2 ^ 63 then 1 else 2 * arys_t.size cg) as HSval.
  { rewrite Z.shiftl_mul_pow2 in HS by lia. change (2 ^ 1) with 2 in HS.
    destruct (Z.eqb_spec (arys_t.size cg) (2 ^ 63)) as [Heq|Hne].
    - rewrite Heq in HS. vm_compute in HS. by injection HS.
    - destruct Hpow as (e & He & Heq).
      assert (e < 63).
      { destruct (Z.le_gt_cases 63 e) as [Hge|]; [|done].
        apply (Z.pow_le_mono_r 2) in Hge; lia. }
      unfold u64 in HS. rewrite Z.mod_small in HS by lia.
      rewrite round_up_pow2 in HS.
      + injection HS as <-. lia.
      + exists (e + 1). split; [lia|]. rewrite Z.pow_add_r, Heq by lia. lia.
      + rewrite Heq, Z.mul_comm, <- Z.pow_succ_r by lia.
        apply Z.pow_le_mono_r; lia. }
  pose proof (round_up_range _ _ HS) as HSr.
  cbn [set_head set_mem root mem root_key_val_arys].
  assert (arys_iterator.iterate
            (arys_t.ref_inc (arys_t.ref_inc g).2).2 = Done []) as Hempty.
  { apply (fresh_generation_iterates_nothing _ (thread_hash_counter.key_len h) S);
      [exact Hk | exact Hsz | lia]. }
  split_and!; [done | done | |].
  - eexists. rewrite heap_lookup_store_ne by lia.
    rewrite heap_lookup_store. split; [done|].
    split; [by rewrite <- HSval|]. split; [exact Hempty|].
    unfold table_pairs, set_head, set_mem. cbn [mem root root_key_val_arys].
    rewrite heap_lookup_store_ne by lia. rewrite heap_lookup_store. exact Hempty.
  - eexists. rewrite heap_lookup_store. by split.
Qed.

Lemma resize_doubles_and_starts_empty_witness :
  root_key_val_arys (root resized_table) = 1%nat
  ∧ concurrent_hash_counter.size resized_table = Done 8
  ∧ table_pairs resized_table = Done [].
Proof.
  destruct (resize_doubles_and_starts_empty 4 (mmap_alloc 4)
              (fst full_small_table) (snd full_small_table) false
              (done_or sample_arys (heap.lookup (mem (fst full_small_table)) 0))
              true resized_table)
    as (_ & Hhead & (ng & Hng & Hsize & _ & Hpairs) & _).
  - vm_compute. reflexivity.
  - vm_compute. reflexivity.
  - vm_compute. lia.
  - exists 2. split; [lia|]. vm_compute. reflexivity.
  - vm_compute. congruence.
  - vm_compute. reflexivity.
  - split; [exact Hhead|]. split; [|exact Hpairs].
    unfold concurrent_hash_counter.size. rewrite Hng. cbn [mbind result_bind rbind].
    rewrite Hsize. vm_compute. reflexivity.
Defined.

(** ** Between two calls *)

(** X8: on a table with one handle, whenever the [add] calls made so far
    have returned, exactly one generation is live, the head, which the
    handle is on; it carries two references, the root's and the
    handle's, and no [next]; every generation created before it has
    been deleted, in the order of creation. *)
Theorem one_generation_live_between_adds
    sizeof_Key sizeof_Val alloc _key_len _size _max_reprobe nb_threads
    fuel ops s0 s1 h1 s h :
  concurrent_hash_counter.new sizeof_Val alloc _key_len _size _max_reprobe nb_threads
    = Done s0 ->
  thread_hash_counter.new s0 = Done (s1, h1) ->
  add_all sizeof_Key sizeof_Val alloc fuel s1 h1 ops = Done (s, h) ->
  thread_hash_counter.key_val_arys h = root_key_val_arys (root s)
  ∧ heap.freed (mem s) = seq 0 (root_key_val_arys (root s))
  ∧ heap.brk (mem s) = S (root_key_val_arys (root s))
  ∧ (∀ a, a ≠ root_key_val_arys (root s) -> heap.lookup (mem s) a = Fault)
  ∧ ∃ g, heap.lookup (mem s) (root_key_val_arys (root s)) = Done g
         ∧ arys_t.count g = 2 ∧ arys_t.next g = None.
Proof.
  intros Hnew Hhandle Hadds.
  destruct (new_table_inv _ _ _ _ _ _ _ _ _ Hnew Hhandle) as [Hinv1 Hset1].
  destruct (add_all_inv _ _ _ _ _ _ _ _ _ Hadds Hinv1 Hset1) as [Hinv Hset].
  destruct (settled_one_live _ _ Hinv Hset)
    as (Hfreed & Hbrk & Hout & g & Hg & Hcount & Hnext).
  split_and!; [exact Hset | exact Hfreed | exact Hbrk | |].
  - intros a Ha. unfold heap.lookup. by rewrite Hout.
  - exists g. unfold heap.lookup. by rewrite Hg.
Qed.

Lemma one_generation_live_between_adds_witness :
  heap.freed (mem (fst life_filled)) = [0%nat]
  ∧ root_key_val_arys (root (fst life_filled)) = 1%nat.
Proof.
  destruct (one_generation_live_between_adds 8 4 (mmap_alloc 4) 64 4 4 1
              400%nat life_ops life_root (fst life_start) (snd life_start)
              (fst life_filled) (snd life_filled))
    as (_ & Hfreed & _).
  - vm_compute. reflexivity.
  - vm_compute. reflexivity.
  - vm_compute. reflexivity.
  - split; [|vm_compute; reflexivity]. rewrite Hfreed. vm_compute. reflexivity.
Defined.

(** ** [add] on the table *)

(** X9: [add(k, v)] through a handle that is on the head counts at the
    first slot of the reprobe sequence of [k] that is empty or holds
    [k]: when the [n] slots before it hold other keys and [n] is within
    [max_reprobe], the call returns with that one slot of the head
    updated by [arys_t::add] and everything else as it was, the handle
    included. *)
Theorem add_counts_at_first_fitting_probe
    sizeof_Key sizeof_Val alloc fuel s h k v cg (n : nat) cg' :
  settled s h ->
  heap.lookup (mem s) (root_key_val_arys (root s)) = Done cg ->
  Z.of_nat n <= thread_hash_counter.max_reprobe h < 2 ^ 32 ->
  (∀ j, (j < n)%nat ->
     fst (small_packed_array.set (arys_t.keys cg)
            (thread_hash_counter.probe_slot (arys_t.mod_mask cg)
               (Z.land (thread_hash_counter.hash_key sizeof_Key k) (arys_t.mod_mask cg)) j)
            k) = false) ->
  arys_t.add sizeof_Val [] cg
    (thread_hash_counter.probe_slot (arys_t.mod_mask cg)
       (Z.land (thread_hash_counter.hash_key sizeof_Key k) (arys_t.mod_mask cg)) n)
    k v = Done (true, cg') ->
  thread_hash_counter.add sizeof_Key sizeof_Val alloc (S (n + S fuel)) s h k v
  = Done (set_mem s (heap.store (mem s) (root_key_val_arys (root s)) cg'), h).
Proof.
  intros Hset Hcg Hn Hfail Hadd. unfold settled in Hset.
  unfold thread_hash_counter.add. rewrite add_outer_eq. cbv zeta.
  rewrite <- Hset, Nat.eqb_refl. cbn [negb]. rewrite Hset, Hcg.
  cbn [mbind result_bind rbind].
  rewrite (add_probe_walk _ _ _ n _ _ _ _ _ _ _ _ _ cg) by (try done; lia).
  rewrite add_probe_eq, Hcg. cbn [mbind result_bind rbind].
  rewrite Hadd. done.
Qed.

Lemma add_counts_at_first_fitting_probe_witness :
  ∃ cg',
    thread_hash_counter.add 8 4 (mmap_alloc 4) 3 sample_state sample_handle 9 1
    = Done (set_mem sample_state (heap.store (mem sample_state) 0 cg'), sample_handle)
    ∧ arys_t.get cg' 1 = Done (Some (9, 1)).
Proof.
  eexists. split.
  - apply (add_counts_at_first_fitting_probe 8 4 (mmap_alloc 4) 0
             sample_state sample_handle 9 1 sample_arys 1).
    + reflexivity.
    + vm_compute. reflexivity.
    + vm_compute. split; congruence.
    + intros j Hj. assert (j = 0%nat) as -> by lia. vm_compute. reflexivity.
    + vm_compute. reflexivity.
  - vm_compute. reflexivity.
Defined.

(** ** Memory safety of [add] *)

Lemma no_fault_bind {A B} (Q1 : A -> Prop) (Q2 : B -> Prop)
    (r : result A) (k : A -> result B) :
  no_fault Q1 r -> (∀ a, r = Done a -> Q1 a -> no_fault Q2 (k a)) ->
  no_fault Q2 (r ≫= k).
Proof. destruct r; cbn; try done. intros H1 H2. by apply H2. Qed.

Lemma arys_wf_ext sz g g' :
  arys_t.keys g' = arys_t.keys g -> arys_t.vals g' = arys_t.vals g ->
  arys_t.size g' = arys_t.size g -> arys_wf sz g -> arys_wf sz g'.
Proof. unfold arys_wf. by intros -> -> ->. Qed.

Lemma heap_ok_store sz L m a g :
  heap_ok sz L m -> arys_wf sz g -> sz * arys_t.size g <= L ->
  heap_ok sz L (heap.store m a g).
Proof.
  intros Hok Hwf HL a' g'. cbn. destruct (decide (a = a')) as [<-|Hne].
  - rewrite lookup_insert_eq. by intros [= <-].
  - rewrite lookup_insert_ne by done. apply Hok.
Qed.

Lemma heap_ok_store_ext sz L m a g g' :
  heap_ok sz L m -> heap.objs m !! a = Some g ->
  arys_t.keys g' = arys_t.keys g -> arys_t.vals g' = arys_t.vals g ->
  arys_t.size g' = arys_t.size g ->
  heap_ok sz L (heap.store m a g').
Proof.
  intros Hok Hg Hk Hv Hs. destruct (Hok _ _ Hg) as [Hwf HL].
  apply heap_ok_store; [done | by eapply arys_wf_ext | by rewrite Hs].
Qed.

Lemma heap_ok_delete sz L m a : heap_ok sz L m -> heap_ok sz L (heap.delete m a).
Proof.
  intros Hok a' g'. cbn. destruct (decide (a = a')) as [<-|Hne].
  - by rewrite lookup_delete_eq.
  - rewrite lookup_delete_ne by done. apply Hok.
Qed.

Lemma refcount_inv_live owed P c s a :
  refcount_inv owed P c s ->
  a = root_key_val_arys (root s) ∨ a = c ∨ a ∈ P ->
  ∃ g, heap.objs (mem s) !! a = Some g.
Proof.
  intros (lo & Hlo & Hbrk & Hfreed & Hout & Hlive & Hnd & Hpend & Hc & Howed) Ha.
  destruct (Hlive a) as (g & Hg & _); [|by exists g].
  destruct Ha as [->|[->|Ha%Hpend]]; lia.
Qed.

(** One step of [release]: the generation is live, and when its count
    comes to zero it is the oldest one, its [next] is the generation
    created after it, and that one is owed the reference in turn. *)
Lemma release_step s a P c :
  refcount_inv (Some a) P c s ->
  ∃ g, heap.objs (mem s) !! a = Some g
       ∧ ((u32 (arys_t.count g - 1) =? 0) = true ->
          arys_t.next g = Some (S a)
          ∧ refcount_inv (Some (S a)) P c (set_mem s (heap.delete (mem s) a))).
Proof.
  intros (lo & Hlo & Hbrk & Hfreed & Hout & Hlive & Hnd & Hpend & Hc & Howed).
  specialize (Howed a eq_refl) as Ha.
  destruct (Hlive a Ha) as (g & Hg & Hnext & Hcount & _).
  exists g. split; [done|]. rewrite Hcount, refs_owed.
  replace (refs lo (root_key_val_arys (root s)) c P None a + 1 - 1)
    with (refs lo (root_key_val_arys (root s)) c P None a) by lia.
  pose proof (refs_range lo (root_key_val_arys (root s)) c P None a) as Hr.
  rewrite u32_small by lia. intros Hzero%Z.eqb_eq.
  assert (a = lo ∧ a ≠ root_key_val_arys (root s) ∧ (a ∉ P) ∧ a ≠ c)
    as (-> & Hnhead & Hnpend & Hncached).
  { unfold refs, b2z in Hzero. repeat case_decide; try lia. repeat split; try done; lia. }
  rewrite decide_False in Hnext by done. split; [done|].
  exists (S lo). cbn. split_and!.
  - lia.
  - done.
  - rewrite Hfreed. symmetry. exact (seq_S lo 0).
  - intros a' Ha'. destruct (decide (a' = lo)) as [->|].
    + apply lookup_delete_eq.
    + rewrite lookup_delete_ne by done. apply Hout. lia.
  - intros a' Ha'. destruct (Hlive a' ltac:(lia)) as (g' & Hg' & Hn' & Hc' & H1').
    exists g'. rewrite lookup_delete_ne by lia. split_and!; [done..| |].
    + rewrite Hc'. rewrite refs_not_owed by lia.
      unfold refs, b2z. repeat case_decide; lia.
    + destruct (decide (a' = S lo)) as [->|]; [by right|]. left.
      destruct H1' as [H1'|[=]]; [|lia].
      unfold refs, b2z in *. repeat case_decide; lia.
  - done.
  - intros a' Ha'. destruct (Hpend a' Ha').
    destruct (decide (a' = lo)) as [->|]; [done|lia].
  - lia.
  - lia.
  - intros a' [= <-]. lia.
Qed.

(** [release] of a reference that is owed touches live generations
    only. *)
Lemma release_no_fault sz L fuel : ∀ s a P c,
  refcount_inv (Some a) P c s -> heap_ok sz L (mem s) ->
  no_fault (heap_ok sz L) (thread_hash_counter.release fuel (mem s) (Some a)).
Proof.
  induction fuel as [|fuel IH]; intros s a P c Hinv Hok; [done|].
  rewrite release_eq.
  destruct (release_step _ _ _ _ Hinv) as (g & Hg & Hzero).
  assert (heap.lookup (mem s) a = Done g) as -> by (by apply heap_lookup_Done).
  cbn. destruct (u32 (arys_t.count g - 1) =? 0).
  - destruct (Hzero eq_refl) as [-> Hinv'].
    apply (IH (set_mem s (heap.delete (mem s) a)) _ P c); [done|].
    by apply heap_ok_delete.
  - cbn. by eapply heap_ok_store_ext.
Qed.

Lemma arys_add_total sz intf g idx key val :
  arys_wf sz g -> ∃ ok g', arys_t.add sz intf g idx key val = Done (ok, g').
Proof.
  intros (_ & _ & _ & _ & (_ & Hcells & _) & Hksize & Hlen & _).
  destruct (small_packed_array.set (arys_t.keys g) idx key) as [[] keys'] eqn:Hset.
  - destruct (packed_set_true_get _ _ _ _ Hcells Hset) as (Hidx & _).
    destruct (lookup_lt_is_Some_2 (arys_t.vals g) (Z.to_nat idx)) as [c Hc]; [lia|].
    eexists _, _. by apply arys_add_true.
  - exists false, g. apply arys_add_set_false. by rewrite Hset.
Qed.

Lemma arys_add_true_get sz intf g idx key val g' :
  arys_wf sz g -> arys_t.add sz intf g idx key val = Done (true, g') ->
  ∃ c, arys_t.get g' idx =
         Done (Some (small_packed_array.payload
                       (small_packed_array.item_len (arys_t.keys g')) key, c)).
Proof.
  intros (_ & _ & _ & _ & (_ & Hcells & _) & Hksize & Hlen & _) Hadd.
  destruct (small_packed_array.set (arys_t.keys g) idx key) as [[] keys'] eqn:Hset.
  - destruct (packed_set_true_get _ _ _ _ Hcells Hset) as (Hidx & Hget & _).
    destruct (lookup_lt_is_Some_2 (arys_t.vals g) (Z.to_nat idx)) as [c Hc]; [lia|].
    rewrite (arys_add_true sz intf _ _ _ val _ _ Hset Hc) in Hadd.
    injection Hadd as <-. eexists. unfold arys_t.get.
    cbn [arys_t.keys arys_t.vals arys_t.set_vals arys_t.set_keys].
    assert (keys' = snd (small_packed_array.set (arys_t.keys g) idx key)) as Hk'
      by (by rewrite Hset).
    rewrite Hget, list_lookup_insert_eq by lia.
    rewrite Hk', small_packed_array_facts.set_item_len. done.
  - rewrite arys_add_set_false in Hadd by (by rewrite Hset). done.
Qed.

Lemma arys_add_size sz intf g idx key val ok g' :
  arys_t.add sz intf g idx key val = Done (ok, g') -> arys_t.size g' = arys_t.size g.
Proof.
  unfold arys_t.add. destruct (small_packed_array.set _ _ _) as [[] keys']; cbn.
  - destruct (arys_t.vals g !! Z.to_nat idx); [|done]. by intros [= <- <-].
  - by intros [= <- <-].
Qed.

Section HandleSafe.

Variables sizeof_Key sizeof_Val : Z.
Variable alloc : Z -> option (list Z).
Variable limit : Z.

Hypothesis sizeof_Val_pos : 1 <= sizeof_Val.
Hypothesis limit_small : limit < 2 ^ 63.
Hypothesis alloc_honest : alloc_ok sizeof_Val limit alloc.

#[local] Abbreviation add_outer := (thread_hash_counter.add_outer sizeof_Key sizeof_Val alloc).
#[local] Abbreviation add_probe := (thread_hash_counter.add_probe sizeof_Key sizeof_Val alloc).
#[local] Abbreviation copy_chuncks := (thread_hash_counter.copy_chuncks sizeof_Key sizeof_Val alloc).
#[local] Abbreviation copy_slots := (thread_hash_counter.copy_slots sizeof_Key sizeof_Val alloc).
#[local] Abbreviation copy_over := (thread_hash_counter.copy_over sizeof_Key sizeof_Val alloc).
#[local] Abbreviation kva := thread_hash_counter.key_val_arys.
#[local] Abbreviation ok_heap := (heap_ok sizeof_Val limit).

(** The generation [resize] makes is well-formed: twice a size within
    the limit does not wrap, and the allocator gave what was asked. *)
Lemma new_arys_doubled K cg g :
  1 <= K -> arys_wf sizeof_Val cg -> sizeof_Val * arys_t.size cg <= limit ->
  arys_t.new sizeof_Val alloc K (u64 (Z.shiftl (arys_t.size cg) 1)) = Done g ->
  arys_wf sizeof_Val g ∧ sizeof_Val * arys_t.size g <= limit.
Proof.
  intros HK (_ & Hpow & _ & _) HL. unfold arys_t.new.
  pose proof (is_pow2_pos _ Hpow) as Hpos.
  assert (arys_t.size cg <= sizeof_Val * arys_t.size cg) as Hsz1 by nia.
  assert (arys_t.size cg < 2 ^ 63) as Hlt by lia.
  rewrite Z.shiftl_mul_pow2 by lia. change (2 ^ 1) with 2.
  unfold u64 at 1. rewrite Z.mod_small by lia.
  assert (is_pow2 (arys_t.size cg * 2)) as Hpow2.
  { destruct Hpow as (e & He & Heq). exists (e + 1). split; [lia|].
    rewrite Z.pow_add_r, Heq by lia. lia. }
  assert (arys_t.size cg * 2 <= 2 ^ 63) as Hdouble.
  { destruct Hpow as (e & He & Heq).
    assert (e < 63).
    { destruct (Z.le_gt_cases 63 e) as [Hge|]; [|done].
      apply (Z.pow_le_mono_r 2) in Hge; lia. }
    rewrite Heq, Z.mul_comm, <- Z.pow_succ_r by lia.
    apply Z.pow_le_mono_r; lia. }
  rewrite round_up_pow2 by done.
  destruct (alloc _) as [vals|] eqn:Halloc; [|done].
  intros [= <-]. cbn [arys_t.size].
  destruct (alloc_honest _ _ (proj1 (Z.mod_pos_bound _ (2 ^ 64) eq_refl)) Halloc)
    as (Hn & Hlen & Hrange).
  unfold u64 in Hn, Hlen. rewrite Z.mod_small in Hn, Hlen by nia.
  split; [|lia].
  assert (sizeof_Val * (arys_t.size cg * 2) / sizeof_Val = arys_t.size cg * 2) as Hq
    by (rewrite Z.mul_comm; apply Z.div_mul; lia).
  unfold arys_wf. cbn [arys_t.size arys_t.keys arys_t.vals].
  split_and!; try done; try lia.
  - unfold small_packed_array.wf, small_packed_array.new.
    cbn [small_packed_array.item_len small_packed_array.size small_packed_array.cells].
    split_and!; [done| |].
    + rewrite length_replicate. lia.
    + apply Forall_replicate. by intros p [=].
Qed.

(** [resize] of the head touches live generations only and leaves
    well-formed ones. *)
Lemma resize_no_fault P c s h block :
  refcount_inv None P c s -> ok_heap (mem s) ->
  1 <= thread_hash_counter.key_len h ->
  no_fault (λ r, ok_heap (mem r.2))
    (thread_hash_counter.resize sizeof_Val alloc s h (root_key_val_arys (root s)) block).
Proof.
  intros Hinv Hok HK.
  destruct (refcount_inv_live _ _ _ _ (root_key_val_arys (root s)) Hinv)
    as (cg & Hcg); [by left|].
  assert (heap.lookup (mem s) (root_key_val_arys (root s)) = Done cg) as Hl
    by (by apply heap_lookup_Done).
  destruct Hinv as (lo & Hlo & Hbrk & _).
  unfold thread_hash_counter.resize.
  destruct (root_resize_lock (root s)).
  { by destruct block. }
  rewrite Nat.eqb_refl. cbn [negb]. rewrite Hl. cbn [mbind result_bind rbind].
  unfold thread_hash_counter.new_arys.
  destruct (arys_t.new _ _ _ _) as [g| | | | |] eqn:Hg; try done.
  - destruct (Hok _ _ Hcg) as [Hwf HL].
    destruct (new_arys_doubled _ _ _ HK Hwf HL Hg) as [Hgwf HgL].
    cbn [mbind result_bind rbind]. rewrite Hl. cbn [mbind result_bind rbind].
    unfold heap.alloc. cbv beta iota zeta.
    cbn [mbind result_bind rbind mret result_ret].
    set (head := root_key_val_arys (root s)) in *.
    rewrite heap_lookup_store_ne by lia.
    rewrite heap_lookup_fresh. cbn [mbind result_bind rbind].
    rewrite heap_lookup_store_ne by lia.
    rewrite heap_lookup_store. cbn [mbind result_bind rbind no_fault snd].
    cbn [set_head set_mem mem].
    apply heap_ok_store; [|by eapply arys_wf_ext|done].
    apply heap_ok_store; [|by eapply arys_wf_ext|done].
    apply heap_ok_store; [|by eapply arys_wf_ext|done].
    intros a g'. cbn [heap.objs].
    destruct (decide (heap.brk (mem s) = a)) as [<-|Hne].
    + rewrite lookup_insert_eq. intros [= <-].
      split; [by eapply arys_wf_ext|done].
    + rewrite lookup_insert_ne by done. apply Hok.
  - unfold arys_t.new in Hg.
    destruct (arys_t.round_up _ _ _); [|done]. by destruct (alloc _).
Qed.

(** Every loop of [add] and [copy_over] touches live generations only
    and leaves them well-formed; when [add] returns, the head holds the
    key. *)
Lemma handle_safe_frame (fuel : nat) :
  (∀ s h k v hash reprobe emax P,
      refcount_inv None P (kva h) s -> ok_heap (mem s) ->
      1 <= thread_hash_counter.key_len h ->
      no_fault (λ r, ok_heap (mem r.1) ∧ holds_key r.1 k)
        (add_outer fuel s h k v hash reprobe emax))
  ∧ (∀ s h k v hash carys idx reprobe emax P,
      refcount_inv None P (kva h) s -> ok_heap (mem s) ->
      1 <= thread_hash_counter.key_len h ->
      carys = root_key_val_arys (root s) -> settled s h ->
      no_fault (λ r, ok_heap (mem r.1) ∧ holds_key r.1 k)
        (add_probe fuel s h k v hash carys idx reprobe emax))
  ∧ (∀ s h carys P,
      refcount_inv None P (kva h) s -> ok_heap (mem s) ->
      1 <= thread_hash_counter.key_len h ->
      carys ∈ P -> settled s h ->
      no_fault (λ r, ok_heap (mem r.1)) (copy_chuncks fuel s h carys))
  ∧ (∀ s h carys i end_ P,
      refcount_inv None P (kva h) s -> ok_heap (mem s) ->
      1 <= thread_hash_counter.key_len h ->
      carys ∈ P -> settled s h ->
      no_fault (λ r, ok_heap (mem r.1)) (copy_slots fuel s h carys i end_))
  ∧ (∀ s h carys P,
      refcount_inv None P (kva h) s -> ok_heap (mem s) ->
      1 <= thread_hash_counter.key_len h ->
      carys ∈ P -> settled s h ->
      no_fault (λ r, ok_heap (mem r.1)) (copy_over fuel s h carys)).
Proof.
  induction fuel as [|fuel (IHouter & IHprobe & IHchuncks & IHslots & IHover)].
  { repeat split; intros; exact I. }
  pose proof (handle_refcount_frame sizeof_Key sizeof_Val alloc fuel)
    as (RCouter & RCprobe & RCchuncks & RCslots & RCover).
  pose proof (handle_limits_frame sizeof_Key sizeof_Val alloc fuel)
    as (LMouter & LMprobe & LMchuncks & LMslots & LMover).
  split; [|split; [|split; [|split]]].
  - intros s h k v hash reprobe emax P Hinv Hok HK.
    rewrite add_outer_eq. cbv zeta.
    destruct (refcount_inv_live _ _ _ _ (root_key_val_arys (root s)) Hinv)
      as (cg & Hcg); [by left|].
    assert (heap.lookup (mem s) (root_key_val_arys (root s)) = Done cg) as Hl
      by (by apply heap_lookup_Done).
    rewrite Hl. cbn [mbind result_bind rbind].
    destruct (Nat.eqb_spec (root_key_val_arys (root s)) (kva h)) as [Heq|Hne];
      cbn [negb].
    + by eapply IHprobe.
    + pose proof (switch_inv _ _ _ _ Hinv Hne Hcg) as Hinv1.
      assert (ok_heap (mem (set_mem s (heap.store (mem s) (root_key_val_arys (root s))
                                         (arys_t.ref_inc cg).2)))) as Hok1
        by (by eapply heap_ok_store_ext).
      eapply no_fault_bind.
      { eapply IHover; [exact Hinv1 | exact Hok1 | done | by left | done]. }
      intros [s2 h2] Hcopy Hok2. cbn [fst] in Hok2.
      destruct (RCover _ _ _ _ _ _ Hcopy Hinv1 eq_refl) as [Hinv2 Hset2].
      destruct (LMover _ _ _ _ _ Hcopy) as (_ & _ & HK2). cbn in HK2.
      eapply no_fault_bind.
      { eapply release_no_fault; [by apply pending_owed|exact Hok2]. }
      intros m3 Hrel Hok3.
      eapply IHouter; [by eapply release_pending | exact Hok3 | lia].
  - intros s h k v hash carys idx reprobe emax P Hinv Hok HK -> Hset.
    rewrite add_probe_eq. cbv zeta.
    destruct (refcount_inv_live _ _ _ _ (root_key_val_arys (root s)) Hinv)
      as (cg & Hcg); [by left|].
    assert (heap.lookup (mem s) (root_key_val_arys (root s)) = Done cg) as Hl
      by (by apply heap_lookup_Done).
    rewrite Hl. cbn [mbind result_bind rbind].
    destruct (Hok _ _ Hcg) as [Hwf HL].
    destruct (arys_add_total sizeof_Val [] cg idx k v Hwf) as (ok & cg' & Hadd).
    rewrite Hadd. cbn [mbind result_bind rbind].
    destruct ok.
    { cbn [no_fault fst set_mem mem]. split.
      - apply heap_ok_store; [done | by eapply arys_wf_add |].
        by rewrite (arys_add_size _ _ _ _ _ _ _ _ Hadd).
      - destruct (arys_add_true_get _ _ _ _ _ _ _ Hwf Hadd) as (c & Hget).
        exists cg', idx, c. split; [|done]. cbn [root mem]. apply heap_lookup_store. }
    destruct (_ >? emax).
    + eapply no_fault_bind.
      { by eapply resize_no_fault. }
      intros [resized s1] Hres Hok1. cbn [snd] in Hok1.
      pose proof (resize_inv _ _ _ _ _ _ _ _ _ _ Hinv Hres) as Hinv1.
      destruct resized.
      { by eapply IHouter. }
      apply resize_false in Hres as ->.
      destruct (_ >? _).
      * eapply no_fault_bind.
        { by eapply resize_no_fault. }
        intros [r s2] Hres2 Hok2. cbn [snd] in Hok2.
        eapply IHouter; [by eapply resize_inv | done | done].
      * rewrite Hl. cbn [mbind result_bind rbind]. by eapply IHprobe.
    + by eapply IHprobe.
  - intros s h carys P Hinv Hok HK Hin Hset.
    rewrite copy_chuncks_eq.
    destruct (refcount_inv_live _ _ _ _ carys Hinv) as (cg & Hcg); [by right; right|].
    assert (heap.lookup (mem s) carys = Done cg) as -> by (by apply heap_lookup_Done).
    cbn [mbind result_bind rbind].
    destruct (arys_t.get_chunck cg) as [cg' chunck] eqn:Hchunck. cbv zeta.
    pose proof (get_chunck_links _ _ _ Hchunck) as [Hnext Hcount].
    pose proof (refcount_inv_store _ _ _ _ _ _ _ Hinv Hcg Hnext Hcount) as Hinv1.
    assert (ok_heap (heap.store (mem s) carys cg')) as Hok1.
    { eapply heap_ok_store_ext; [done..| | |];
        unfold arys_t.get_chunck in Hchunck;
        destruct (_ >=? _); by injection Hchunck as <- <-. }
    destruct chunck as [[start end_]|]; [|done].
    eapply no_fault_bind.
    { by eapply IHslots. }
    intros [s2 h2] Hslots Hok2. cbn [fst] in Hok2.
    destruct (RCslots _ _ _ _ _ _ _ _ Hslots Hinv1 Hset) as [Hinv2 Hset2].
    destruct (LMslots _ _ _ _ _ _ _ Hslots) as (_ & _ & HK2).
    eapply IHchuncks; [exact Hinv2 | done | lia | done | done].
  - intros s h carys i end_ P Hinv Hok HK Hin Hset.
    rewrite copy_slots_eq.
    destruct (i <? end_); [|done].
    destruct (refcount_inv_live _ _ _ _ carys Hinv) as (cg & Hcg); [by right; right|].
    assert (heap.lookup (mem s) carys = Done cg) as -> by (by apply heap_lookup_Done).
    cbn [mbind result_bind rbind].
    destruct (Hok _ _ Hcg) as [Hwf HL].
    destruct (arys_get_in_range cg i) as (r & ->);
      [apply Hwf | apply Hwf |].
    cbn [mbind result_bind rbind].
    destruct r as [[ckey cval]|]; [|by eapply IHslots].
    eapply no_fault_bind.
    { by eapply IHouter. }
    intros [s1 h1] Hadd [Hok1 _]. cbn [fst] in Hok1.
    destruct (RCouter _ _ _ _ _ _ _ _ _ _ Hadd Hinv) as [Hinv1 Hset1].
    destruct (LMouter _ _ _ _ _ _ _ _ _ Hadd) as (_ & _ & HK1).
    eapply IHslots; [exact Hinv1 | done | lia | done | done].
  - intros s h carys P Hinv Hok HK Hin Hset.
    rewrite copy_over_eq. unfold thread_hash_counter.barrier_wait.
    destruct (_ =? 1); [|done]. cbn [mbind result_bind rbind].
    by eapply IHchuncks.
Qed.

End HandleSafe.

Lemma bounded_alloc_ok sz L : 1 <= sz -> alloc_ok sz L (bounded_alloc sz L).
Proof.
  intros Hsz n mem Hn. unfold bounded_alloc, mmap_alloc.
  destruct (Z.leb_spec n L); [|done]. intros [= <-].
  assert (0 <= n / sz) by (apply Z.div_pos; lia).
  split_and!; [done | rewrite length_replicate; lia |].
  apply Forall_replicate. pose proof (Val_modulus_pos sz). lia.
Qed.

(** The constructors make a table that meets the invariants of [add]. *)
Lemma new_table_ok sz alloc L K _size maxr nb s0 s1 h1 :
  1 <= sz < 2 ^ 62 -> alloc_ok sz L alloc -> 1 <= K -> sz * _size < 2 ^ 62 ->
  concurrent_hash_counter.new sz alloc K _size maxr nb = Done s0 ->
  thread_hash_counter.new s0 = Done (s1, h1) ->
  heap_ok sz L (mem s1) ∧ thread_hash_counter.key_len h1 = K.
Proof.
  intros Hsz Halloc HK Hsize H0 H1.
  unfold concurrent_hash_counter.new, thread_hash_counter.new_arys in H0.
  apply bind_Done in H0 as ([a m] & Hnew & H0).
  apply bind_Done in Hnew as (g & Hg & Hnew). injection Hnew as <- <-.
  apply bind_Done in H0 as (g0 & Hg0 & H0). apply heap_lookup_Done in Hg0.
  cbn in Hg0. rewrite lookup_insert_eq in Hg0. injection Hg0 as <-.
  injection H0 as <-.
  unfold thread_hash_counter.new in H1. cbn [mem root root_key_val_arys] in H1.
  rewrite heap_lookup_store in H1. cbn [mbind result_bind rbind] in H1.
  injection H1 as <- <-. split; [|done].
  assert (arys_wf sz g ∧ sz * arys_t.size g <= L) as [Hwf HL].
  { unfold arys_t.new in Hg.
    assert (_size <= 2 ^ 63) as Hle by nia.
    destruct (round_up_spec arys_t.round_up_steps 0 _size)
      as (e & He & Heq & HleS & Hmin); [lia | lia | unfold arys_t.round_up_steps; lia |].
    change (2 ^ 0) with 1 in Heq. rewrite Heq in Hg.
    assert (0 < 2 ^ e) as Hpos by (apply Z.pow_pos_nonneg; lia).
    assert (sz * 2 ^ e < 2 ^ 63) as Hfit.
    { destruct (decide (e = 0)) as [->|Hne]; [change (2 ^ 0) with 1; lia|].
      specialize (Hmin ltac:(lia)).
      assert (2 ^ e = 2 * 2 ^ (e - 1)) as ->
        by (rewrite <- Z.pow_succ_r by lia; f_equal; lia).
      nia. }
    destruct (alloc _) as [vals|] eqn:Hvals; [|done]. injection Hg as <-.
    destruct (Halloc _ _ (proj1 (Z.mod_pos_bound _ (2 ^ 64) eq_refl)) Hvals)
      as (Hn & Hlen & Hrange).
    unfold u64 in Hn, Hlen. rewrite Z.mod_small in Hn, Hlen by nia.
    assert (sz * 2 ^ e / sz = 2 ^ e) as Hq
      by (rewrite Z.mul_comm; apply Z.div_mul; lia).
    cbn [arys_t.size]. split; [|lia].
    unfold arys_wf. cbn [arys_t.size arys_t.keys arys_t.vals].
    split_and!; try done; try lia.
    - exists e. split; [lia|done].
    - unfold small_packed_array.wf, small_packed_array.new.
      cbn [small_packed_array.item_len small_packed_array.size small_packed_array.cells].
      split_and!; [done| |].
      + rewrite length_replicate. lia.
      + apply Forall_replicate. by intros p [=]. }
  cbn [set_mem mem].
  apply heap_ok_store; [|by eapply arys_wf_ext|done].
  apply heap_ok_store; [|by eapply arys_wf_ext|done].
  intros a g'. cbn. destruct (decide (a = 0%nat)) as [->|Hne].
  - rewrite lookup_insert_eq. by intros [= <-].
  - rewrite lookup_insert_ne by done. by rewrite lookup_empty.
Qed.


Lemma life_start_new :
  concurrent_hash_counter.new 4 (bounded_alloc 4 1024) 64 4 4 1 = Done life_root
  ∧ thread_hash_counter.new life_root = Done (fst life_start, snd life_start).
Proof. split; vm_compute; reflexivity. Qed.


(** X11: a table made by the constructor for a size within reach of the
    allocator and used through one handle uses no deleted generation in
    its whole life: no sequence of [add] calls looks into a deleted
    generation or through a null pointer, and every generation it leaves
    is well-formed. *)
Theorem table_uses_no_deleted_generation
    sizeof_Key sizeof_Val alloc limit _key_len _size _max_reprobe nb_threads
    s0 s1 h1 fuel ops :
  1 <= sizeof_Val < 2 ^ 62 -> limit < 2 ^ 63 -> alloc_ok sizeof_Val limit alloc ->
  1 <= _key_len -> sizeof_Val * _size < 2 ^ 62 ->
  concurrent_hash_counter.new sizeof_Val alloc _key_len _size _max_reprobe nb_threads
    = Done s0 ->
  thread_hash_counter.new s0 = Done (s1, h1) ->
  no_fault (λ r, heap_ok sizeof_Val limit (mem r.1))
    (add_all sizeof_Key sizeof_Val alloc fuel s1 h1 ops).
Proof.
  intros Hsz HL Halloc HK Hsize Hnew Hhandle.
  destruct (new_table_inv _ _ _ _ _ _ _ _ _ Hnew Hhandle) as [Hinv1 _].
  destruct (new_table_ok _ _ _ _ _ _ _ _ _ _ Hsz Halloc HK Hsize Hnew Hhandle)
    as [Hok1 HK1].
  assert (1 <= thread_hash_counter.key_len h1) as HKh by lia.
  clear Hnew Hhandle HK1. revert s1 h1 Hinv1 Hok1 HKh.
  induction ops as [|[k v] ops IH]; intros s h Hinv Hok HKh; [done|].
  cbn [add_all].
  pose proof (proj1 (handle_safe_frame sizeof_Key sizeof_Val alloc limit
                       ltac:(lia) HL Halloc fuel)
                s h k v (thread_hash_counter.hash_key sizeof_Key k) 0
                (thread_hash_counter.max_reprobe h) [] Hinv Hok HKh) as Hsafe.
  fold (thread_hash_counter.add sizeof_Key sizeof_Val alloc fuel s h k v) in Hsafe.
  eapply no_fault_bind; [exact Hsafe|].
  intros [s' h'] Hadd [Hok' _]. cbn [fst] in Hok'.
  destruct (add_refcount_inv _ _ _ _ _ _ _ _ _ _ _ Hadd Hinv) as [Hinv' _].
  destruct (proj1 (handle_limits_frame sizeof_Key sizeof_Val alloc fuel)
              _ _ _ _ _ _ _ _ _ Hadd) as (_ & _ & HK').
  apply IH; [done | done | lia].
Qed.

Lemma table_uses_no_deleted_generation_witness :
  no_fault (λ r, heap_ok 4 1024 (mem r.1))
    (add_all 8 4 (bounded_alloc 4 1024) 400 (fst life_start) (snd life_start) life_ops).
Proof.
  destruct life_start_new as [Hroot Hhandle].
  apply (table_uses_no_deleted_generation 8 4 (bounded_alloc 4 1024) 1024 64 4 4 1
           life_root (fst life_start) (snd life_start) 400 life_ops);
    [lia | lia | apply bounded_alloc_ok; lia | lia | lia | exact Hroot | exact Hhandle].
Defined.

(** ** What [add] leaves in the table *)

Lemma get_occupied g idx pc :
  small_packed_array.size (arys_t.keys g) = arys_t.size g ->
  arys_t.get g idx = Done (Some pc) -> pc ∈ occupied_pairs g.
Proof.
  intros Hksize. unfold arys_t.get.
  destruct (small_packed_array.get (arys_t.keys g) idx) as [key|] eqn:Hkey; [|done].
  destruct (arys_t.vals g !! Z.to_nat idx) as [val|] eqn:Hval; [|done].
  intros [= <-]. unfold occupied_pairs. apply list_elem_of_omap.
  assert (0 <= idx < arys_t.size g) as Hidx.
  { unfold small_packed_array.get in Hkey.
    destruct ((0 <=? idx) && _) eqn:Hin; [|done].
    apply andb_true_iff in Hin as [?%Z.leb_le ?%Z.ltb_lt]. lia. }
  exists (Z.to_nat idx). split.
  - apply elem_of_seq. lia.
  - unfold slot_pair. rewrite Z2Nat.id by lia. rewrite Hkey, Hval. done.
Qed.

Lemma occupied_get g pc :
  pc ∈ occupied_pairs g ->
  ∃ idx, 0 <= idx < arys_t.size g ∧ arys_t.get g idx = Done (Some pc).
Proof.
  unfold occupied_pairs. intros (i & Hi & Hpair)%list_elem_of_omap.
  apply elem_of_seq in Hi. exists (Z.of_nat i). split; [lia|].
  unfold slot_pair in Hpair. unfold arys_t.get.
  destruct (small_packed_array.get _ _) as [key|]; [|done]. cbn in Hpair.
  rewrite Nat2Z.id. destruct (arys_t.vals g !! i) as [val|]; [|done].
  cbn in Hpair. by injection Hpair as <-.
Qed.



(** ** [add] without a resize *)

Lemma release_brk fuel : ∀ m c m',
  thread_hash_counter.release fuel m c = Done m' -> heap.brk m' = heap.brk m.
Proof.
  induction fuel as [|fuel IH]; intros m c m' H; [done|].
  destruct c as [a|]; [|done]. rewrite release_eq in H.
  apply bind_Done in H as (g & _ & H). cbn in H.
  destruct (_ =? 0).
  - by rewrite (IH _ _ _ H).
  - by injection H as <-.
Qed.

Lemma resize_brk sz alloc s h carys block r s' :
  thread_hash_counter.resize sz alloc s h carys block = Done (r, s') ->
  (heap.brk (mem s) <= heap.brk (mem s'))%nat.
Proof.
  unfold thread_hash_counter.resize, thread_hash_counter.new_arys. intros H.
  destruct (root_resize_lock (root s)).
  { destruct block; [done|]. by injection H as <- <-. }
  destruct (negb _); [by injection H as <- <-|].
  apply bind_Done in H as (cg & _ & H).
  apply bind_Done in H as ([narys m1] & H1 & H).
  apply bind_Done in H1 as (g & _ & H1).
  apply bind_Done in H1 as (pg & _ & H1). cbn in H1. injection H1 as <- <-.
  apply bind_Done in H as (ng & _ & H).
  apply bind_Done in H as (cg' & _ & H).
  injection H as <- <-. cbn. lia.
Qed.

Section HandleBrk.

Variables sizeof_Key sizeof_Val : Z.
Variable alloc : Z -> option (list Z).

#[local] Abbreviation add_outer := (thread_hash_counter.add_outer sizeof_Key sizeof_Val alloc).
#[local] Abbreviation add_probe := (thread_hash_counter.add_probe sizeof_Key sizeof_Val alloc).
#[local] Abbreviation copy_chuncks := (thread_hash_counter.copy_chuncks sizeof_Key sizeof_Val alloc).
#[local] Abbreviation copy_slots := (thread_hash_counter.copy_slots sizeof_Key sizeof_Val alloc).
#[local] Abbreviation copy_over := (thread_hash_counter.copy_over sizeof_Key sizeof_Val alloc).
#[local] Abbreviation kva := thread_hash_counter.key_val_arys.

(** No loop of [add] or [copy_over] gives an address back: the next
    address to hand out never decreases. *)
Lemma handle_brk_frame (fuel : nat) :
  (∀ s h k v hash reprobe emax s' h',
      add_outer fuel s h k v hash reprobe emax = Done (s', h') ->
      (heap.brk (mem s) <= heap.brk (mem s'))%nat)
  ∧ (∀ s h k v hash carys idx reprobe emax s' h',
      add_probe fuel s h k v hash carys idx reprobe emax = Done (s', h') ->
      (heap.brk (mem s) <= heap.brk (mem s'))%nat)
  ∧ (∀ s h carys s' h',
      copy_chuncks fuel s h carys = Done (s', h') ->
      (heap.brk (mem s) <= heap.brk (mem s'))%nat)
  ∧ (∀ s h carys i end_ s' h',
      copy_slots fuel s h carys i end_ = Done (s', h') ->
      (heap.brk (mem s) <= heap.brk (mem s'))%nat)
  ∧ (∀ s h carys s' h',
      copy_over fuel s h carys = Done (s', h') ->
      (heap.brk (mem s) <= heap.brk (mem s'))%nat).
Proof.
  induction fuel as [|fuel (IHouter & IHprobe & IHchuncks & IHslots & IHover)].
  { repeat split; intros; discriminate. }
  split; [|split; [|split; [|split]]].
  - intros s h k v hash reprobe emax s' h' H.
    rewrite add_outer_eq in H. cbv zeta in H.
    destruct (negb _).
    + apply bind_Done in H as (cg & _ & H).
      apply bind_Done in H as ([s2 h2] & Hcopy%IHover & H).
      apply bind_Done in H as (m3 & Hrel%release_brk & H).
      apply IHouter in H. cbn in *. lia.
    + apply bind_Done in H as (cg & _ & H). by apply IHprobe in H.
  - intros s h k v hash carys idx reprobe emax s' h' H.
    rewrite add_probe_eq in H. cbv zeta in H.
    apply bind_Done in H as (cg & _ & H).
    apply bind_Done in H as ([ok cg'] & _ & H).
    destruct ok; [by injection H as <- <-|].
    destruct (_ >? emax); [|by apply IHprobe in H].
    apply bind_Done in H as ([resized s1] & Hres & H).
    pose proof (resize_brk _ _ _ _ _ _ _ _ Hres) as Hle.
    destruct resized; [apply IHouter in H; lia|].
    destruct (_ >? _).
    + apply bind_Done in H as ([r s2] & Hres2%resize_brk & H).
      apply IHouter in H. lia.
    + apply bind_Done in H as (cg1 & _ & H). apply IHprobe in H. lia.
  - intros s h carys s' h' H.
    rewrite copy_chuncks_eq in H.
    apply bind_Done in H as (cg & _ & H).
    destruct (arys_t.get_chunck cg) as [cg' chunck]. cbv zeta in H.
    destruct chunck as [[start end_]|]; [|by injection H as <- <-].
    apply bind_Done in H as ([s2 h2] & Hslots%IHslots & H).
    apply IHchuncks in H. cbn in *. lia.
  - intros s h carys i end_ s' h' H.
    rewrite copy_slots_eq in H.
    destruct (i <? end_); [|by injection H as <- <-].
    apply bind_Done in H as (cg & _ & H).
    apply bind_Done in H as (r & _ & H).
    destruct r as [[ckey cval]|]; [|by apply IHslots in H].
    apply bind_Done in H as ([s1 h1] & Hadd%IHouter & H).
    apply IHslots in H. lia.
  - intros s h carys s' h' H.
    rewrite copy_over_eq in H.
    apply bind_Done in H as (? & _ & H). by apply IHchuncks in H.
Qed.

(** The probe loop, when the call ends on the head it started on: it
    walked on along the reprobe sequence and counted at the first slot
    that took the key. *)
Lemma add_probe_no_resize (fuel : nat) : ∀ s h k v hash idx0 (n : nat) emax P cg s' h',
  refcount_inv None P (kva h) s -> settled s h ->
  root_resize_lock (root s) = false ->
  emax < 2 ^ 32 - 1 -> Z.of_nat n <= emax ->
  heap.lookup (mem s) (root_key_val_arys (root s)) = Done cg ->
  (∀ j, (j < n)%nat ->
     fst (small_packed_array.set (arys_t.keys cg)
            (thread_hash_counter.probe_slot (arys_t.mod_mask cg) idx0 j) k) = false) ->
  add_probe fuel s h k v hash (root_key_val_arys (root s))
    (thread_hash_counter.probe_slot (arys_t.mod_mask cg) idx0 n) (Z.of_nat n) emax
    = Done (s', h') ->
  root_key_val_arys (root s') = root_key_val_arys (root s) ->
  ∃ (n' : nat) cg',
    Z.of_nat n' <= emax
    ∧ (∀ j, (j < n')%nat ->
         fst (small_packed_array.set (arys_t.keys cg)
                (thread_hash_counter.probe_slot (arys_t.mod_mask cg) idx0 j) k) = false)
    ∧ arys_t.add sizeof_Val [] cg
        (thread_hash_counter.probe_slot (arys_t.mod_mask cg) idx0 n') k v
      = Done (true, cg')
    ∧ s' = set_mem s (heap.store (mem s) (root_key_val_arys (root s)) cg')
    ∧ h' = h.
Proof.
  induction fuel as [|fuel IH];
    intros s h k v hash idx0 n emax P cg s' h' Hinv Hset Hlock Hemax Hn Hcg Hfail H Hhead;
    [done|].
  rewrite add_probe_eq in H. cbv zeta in H. rewrite Hcg in H.
  cbn [mbind result_bind rbind] in H.
  apply bind_Done in H as ([ok cg'] & Hadd & H).
  destruct ok.
  { injection H as <- <-. by exists n, cg'. }
  apply arys_add_false in Hadd as [Hfalse ->].
  rewrite u32_small in H by lia.
  destruct (Z.gtb_spec (Z.of_nat n + 1) emax) as [Hgt|Hle].
  - apply bind_Done in H as ([resized s1] & Hres & H).
    pose proof (resize_inv _ _ _ _ _ _ _ _ _ _ Hinv Hres) as Hinv1.
    destruct (resize_links _ _ _ _ _ _ _ _ Hinv Hlock Hres) as (-> & Hh1 & Hlt & _).
    destruct (proj1 (handle_refcount_frame sizeof_Key sizeof_Val alloc fuel)
                _ _ _ _ _ _ _ _ _ _ H Hinv1) as [Hinv' _].
    apply (proj1 (handle_brk_frame fuel)) in H.
    destruct Hinv1 as (? & _ & Hb1 & _). destruct Hinv' as (? & _ & Hb' & _).
    lia.
  - rewrite <- probe_slot_S in H by lia.
    replace (Z.of_nat n + 1) with (Z.of_nat (S n)) in H by lia.
    eapply (IH _ _ _ _ _ _ (S n));
      [exact Hinv | done | done | done | lia | exact Hcg | | exact H | done].
    intros j Hj. destruct (decide (j = n)) as [->|]; [done|]. apply Hfail. lia.
Qed.

End HandleBrk.

Lemma add_without_resize_step
    sizeof_Key sizeof_Val alloc fuel s h k v P s' h' :
  refcount_inv None P (thread_hash_counter.key_val_arys h) s -> settled s h ->
  root_resize_lock (root s) = false ->
  0 <= thread_hash_counter.max_reprobe h < 2 ^ 32 - 1 ->
  thread_hash_counter.add sizeof_Key sizeof_Val alloc fuel s h k v = Done (s', h') ->
  root_key_val_arys (root s') = root_key_val_arys (root s) ->
  ∃ cg (n : nat) cg',
    heap.lookup (mem s) (root_key_val_arys (root s)) = Done cg
    ∧ Z.of_nat n <= thread_hash_counter.max_reprobe h
    ∧ (∀ j, (j < n)%nat ->
         fst (small_packed_array.set (arys_t.keys cg)
                (thread_hash_counter.probe_slot (arys_t.mod_mask cg)
                   (Z.land (thread_hash_counter.hash_key sizeof_Key k) (arys_t.mod_mask cg))
                   j) k) = false)
    ∧ arys_t.add sizeof_Val [] cg
        (thread_hash_counter.probe_slot (arys_t.mod_mask cg)
           (Z.land (thread_hash_counter.hash_key sizeof_Key k) (arys_t.mod_mask cg)) n)
        k v = Done (true, cg')
    ∧ s' = set_mem s (heap.store (mem s) (root_key_val_arys (root s)) cg')
    ∧ h' = h.
Proof.
  intros Hinv Hset Hlock Hmax H Hhead.
  unfold thread_hash_counter.add in H.
  destruct fuel as [|fuel]; [done|].
  rewrite add_outer_eq in H. cbv zeta in H.
  pose proof Hset as Hset'. unfold settled in Hset'.
  rewrite <- Hset', Nat.eqb_refl in H. cbn [negb] in H. rewrite Hset' in H.
  apply bind_Done in H as (cg & Hcg & H).
  destruct (add_probe_no_resize sizeof_Key sizeof_Val alloc fuel s h k v
              (thread_hash_counter.hash_key sizeof_Key k)
              (Z.land (thread_hash_counter.hash_key sizeof_Key k) (arys_t.mod_mask cg))
              0%nat (thread_hash_counter.max_reprobe h) P cg s' h')
    as (n & cg' & Hn & Hfail & Hadd & -> & ->);
    [done | done | done | lia | lia | done | intros; lia | exact H | done |].
  by exists cg, n, cg'.
Qed.


(** ** Counting *)

Lemma arys_add_true_spec sz intf g idx key val g' :
  arys_wf sz g -> arys_t.add sz intf g idx key val = Done (true, g') ->
  0 <= idx < arys_t.size g
  ∧ (small_packed_array.get (arys_t.keys g) idx = None
     ∨ small_packed_array.get (arys_t.keys g) idx
       = Some (small_packed_array.payload
                 (small_packed_array.item_len (arys_t.keys g)) key))
  ∧ (∃ c, arys_t.vals g !! Z.to_nat idx = Some c
          ∧ arys_t.vals g' = <[Z.to_nat idx := arys_t.add_loop sz intf c val]> (arys_t.vals g)
          ∧ arys_t.get g' idx =
              Done (Some (small_packed_array.payload
                            (small_packed_array.item_len (arys_t.keys g)) key,
                          arys_t.add_loop sz intf c val)))
  ∧ (∀ j, j ≠ idx ->
       small_packed_array.get (arys_t.keys g') j = small_packed_array.get (arys_t.keys g) j
       ∧ arys_t.get g' j = arys_t.get g j)
  ∧ (∀ j p, small_packed_array.get (arys_t.keys g) j = Some p ->
            small_packed_array.get (arys_t.keys g') j = Some p)
  ∧ arys_t.mod_mask g' = arys_t.mod_mask g.
Proof.
  intros (_ & _ & _ & _ & (_ & Hcells & _) & Hksize & Hlen & _) Hadd.
  destruct (small_packed_array.set (arys_t.keys g) idx key) as [[] keys'] eqn:Hset.
  2:{ rewrite arys_add_set_false in Hadd by (by rewrite Hset). done. }
  destruct (packed_set_true_get _ _ _ _ Hcells Hset) as (Hidx & Hget & Hframe & Hkeep).
  destruct (lookup_lt_is_Some_2 (arys_t.vals g) (Z.to_nat idx)) as [c Hc]; [lia|].
  rewrite (arys_add_true sz intf _ _ _ val _ _ Hset Hc) in Hadd.
  injection Hadd as <-.
  cbn [arys_t.keys arys_t.vals arys_t.mod_mask arys_t.set_vals arys_t.set_keys].
  split_and!; [lia | lia | | | | exact Hkeep | done].
  - unfold small_packed_array.set in Hset.
    destruct ((0 <=? idx) && _) eqn:Hin; [|done].
    unfold small_packed_array.get. rewrite Hin.
    destruct (mjoin _) as [p'|]; [|by left].
    injection Hset as ->%Z.eqb_eq _. by right.
  - exists c. split; [done|]. split; [done|]. unfold arys_t.get.
    cbn [arys_t.keys arys_t.vals arys_t.set_vals arys_t.set_keys].
    rewrite Hget, list_lookup_insert_eq by lia. done.
  - intros j Hj. split; [by apply Hframe|]. unfold arys_t.get.
    cbn [arys_t.keys arys_t.vals arys_t.set_vals arys_t.set_keys].
    rewrite Hframe by done.
    destruct (small_packed_array.get (arys_t.keys g) j) as [kj|] eqn:Hkj; [|done].
    unfold small_packed_array.get in Hkj.
    destruct ((0 <=? j) && _) eqn:Hjin; [|done].
    apply andb_true_iff in Hjin as [?%Z.leb_le _].
    rewrite list_lookup_insert_ne by lia. done.
Qed.

(** A key sits in one slot only. *)
Lemma path_inv_unique sK g j1 j2 p :
  path_inv sK g ->
  small_packed_array.get (arys_t.keys g) j1 = Some p ->
  small_packed_array.get (arys_t.keys g) j2 = Some p ->
  j1 = j2.
Proof.
  intros Hpath H1 H2.
  destruct (Hpath _ _ H1) as (n1 & -> & Hb1).
  destruct (Hpath _ _ H2) as (n2 & -> & Hb2).
  destruct (lt_eq_lt_dec n1 n2) as [[Hlt| ->]|Hlt]; [|done|].
  - destruct (Hb2 n1 Hlt) as (q & Hq & Hne). congruence.
  - destruct (Hb1 n2 Hlt) as (q & Hq & Hne). congruence.
Qed.

Lemma arys_get_key g idx k c :
  arys_t.get g idx = Done (Some (k, c)) ->
  small_packed_array.get (arys_t.keys g) idx = Some k
  ∧ arys_t.vals g !! Z.to_nat idx = Some c.
Proof.
  unfold arys_t.get. destruct (small_packed_array.get _ _) as [k'|]; [|done].
  destruct (_ !! _) as [c'|]; [|done]. by intros [= -> ->].
Qed.

(** With one slot for a key, the value an iteration shows for it is
    the counter of that slot. *)
Lemma value_of_spec sK sz g k c :
  arys_wf sz g -> path_inv sK g ->
  value_of g k = Some c <-> ∃ idx, arys_t.get g idx = Done (Some (k, c)).
Proof.
  intros Hwf Hpath.
  pose proof Hwf as (_ & _ & _ & _ & _ & Hksize & _).
  unfold value_of. split.
  - destruct (list_find _ _) as [[i [k' c']]|] eqn:Hfind; [|done].
    cbn. intros [= ->].
    apply list_find_Some in Hfind as (Hi & Hk & _). cbn in Hk. subst k'.
    apply list_elem_of_lookup_2 in Hi.
    destruct (occupied_get _ _ Hi) as (idx & _ & Hget). by exists idx.
  - intros (idx & Hget).
    pose proof (get_occupied _ _ _ Hksize Hget) as Hin.
    destruct (list_find_elem_of (λ p : Z * Z, p.1 = k) (occupied_pairs g) _ Hin eq_refl)
      as [[i [k' c']] Hfind].
    rewrite Hfind. cbn. f_equal.
    apply list_find_Some in Hfind as (Hi & Hk & _). cbn in Hk. subst k'.
    apply list_elem_of_lookup_2 in Hi.
    destruct (occupied_get _ _ Hi) as (idx' & _ & Hget').
    apply arys_get_key in Hget as [Hk1 Hc1]. apply arys_get_key in Hget' as [Hk2 Hc2].
    assert (idx' = idx) as -> by (by eapply path_inv_unique). congruence.
Qed.

Lemma value_of_None sK sz g k :
  arys_wf sz g -> path_inv sK g ->
  value_of g k = None <-> ∀ idx c, arys_t.get g idx ≠ Done (Some (k, c)).
Proof.
  intros Hwf Hpath. split.
  - intros Hnone idx c Hget.
    assert (value_of g k = Some c) as Hsome
      by (apply (value_of_spec sK sz); [done..|by exists idx]).
    congruence.
  - intros Hno. destruct (value_of g k) as [c|] eqn:Hv; [|done].
    apply (value_of_spec sK sz) in Hv as (idx & Hget); [|done..].
    by destruct (Hno idx c).
Qed.

Lemma home_range sK g p e :
  0 <= e -> arys_t.mod_mask g = 2 ^ e - 1 -> 0 <= home sK g p < 2 ^ e.
Proof.
  intros He Hmask. unfold home. rewrite Hmask, land_mask by done.
  apply Z.mod_pos_bound. by apply Z.pow_pos_nonneg.
Qed.

Lemma probe_in_range sK sz g p n :
  arys_wf sz g -> arys_t.mod_mask g = arys_t.size g - 1 ->
  0 <= thread_hash_counter.probe_slot (arys_t.mod_mask g) (home sK g p) n
    < small_packed_array.size (arys_t.keys g).
Proof.
  intros (_ & (e & He & Hsize) & _ & _ & _ & Hksize & _) Hmask.
  rewrite Hksize. rewrite Hsize in Hmask. rewrite Hmask, Hsize.
  apply probe_slot_range; [done|]. apply home_range; [done|]. by rewrite <- Hmask.
Qed.

(** One [arys_t::add] at the end of the walk of a key keeps the
    generation fit for counting, adds to the count of the key and
    leaves the other counts. *)
Lemma counting_add_step sK sz g (n : nat) k v g' :
  counting_gen sK sz g ->
  0 <= k < 2 ^ (small_packed_array.item_len (arys_t.keys g) - 1) ->
  (∀ j, (j < n)%nat ->
     fst (small_packed_array.set (arys_t.keys g)
            (thread_hash_counter.probe_slot (arys_t.mod_mask g) (home sK g k) j) k)
     = false) ->
  arys_t.add sz [] g
    (thread_hash_counter.probe_slot (arys_t.mod_mask g) (home sK g k) n) k v
    = Done (true, g') ->
  counting_gen sK sz g'
  ∧ small_packed_array.item_len (arys_t.keys g') = small_packed_array.item_len (arys_t.keys g)
  ∧ arys_t.size g' = arys_t.size g
  ∧ value_of g' k = Some (arys_t.add_loop sz [] (default 0 (value_of g k)) v)
  ∧ ∀ k', k' ≠ k -> value_of g' k' = value_of g k'.
Proof.
  intros (Hwf & Hmask & Hpath & Hzero) Hk Hfail Hadd.
  set (idx := thread_hash_counter.probe_slot (arys_t.mod_mask g) (home sK g k) n) in *.
  destruct (arys_add_true_spec _ _ _ _ _ _ _ Hwf Hadd)
    as (Hidx & Hwas & (c & Hc & Hvals & Hget) & Hframe & Hkeep & Hmask').
  rewrite small_packed_array_facts.payload_small in * by done.
  pose proof (arys_wf_add _ _ _ _ _ _ _ _ Hwf (Forall_nil_2 _) Hadd) as Hwf'.
  pose proof (arys_add_size _ _ _ _ _ _ _ _ Hadd) as Hsize'.
  assert (∀ m, (m < n)%nat ->
            ∃ q, small_packed_array.get (arys_t.keys g)
                   (thread_hash_counter.probe_slot (arys_t.mod_mask g) (home sK g k) m)
                 = Some q ∧ q ≠ k) as Hothers.
  { intros m Hm. specialize (Hfail m Hm).
    apply small_packed_array_facts.set_false_iff in Hfail as (q & Hq & Hne);
      [|by eapply probe_in_range].
    rewrite small_packed_array_facts.payload_small in Hne by done. by exists q. }
  assert (home sK g' k = home sK g k) as Hhome by (unfold home; by rewrite Hmask').
  assert (path_inv sK g') as Hpath'.
  { intros j p Hj. destruct (decide (j = idx)) as [->|Hne].
    - apply arys_get_key in Hget as [Hkey _].
      assert (p = k) as -> by congruence.
      exists n. unfold home. rewrite Hmask'. split; [done|].
      intros m Hm. destruct (Hothers m Hm) as (q & Hq & Hqk).
      exists q. split; [by apply Hkeep|done].
    - rewrite (proj1 (Hframe j Hne)) in Hj.
      destruct (Hpath _ _ Hj) as (np & -> & Hb).
      exists np. unfold home. rewrite Hmask'. split; [done|].
      intros m Hm. destruct (Hb m Hm) as (q & Hq & Hqp).
      exists q. split; [by apply Hkeep|done]. }
  assert (zero_init g') as Hzero'.
  { intros j c' Hj0 Hj Hc'. destruct (decide (j = idx)) as [->|Hne].
    - apply arys_get_key in Hget as [Hkey _]. congruence.
    - rewrite (proj1 (Hframe j Hne)) in Hj.
      rewrite Hvals, list_lookup_insert_ne in Hc' by lia.
      by eapply Hzero. }
  assert (default 0 (value_of g k) = c) as Hbefore.
  { destruct Hwas as [Hnone|Hsome].
    - assert (value_of g k = None) as ->.
      { apply (value_of_None sK sz); [done..|]. intros i c' Hi.
        apply arys_get_key in Hi as [Hikey _].
        destruct (Hpath _ _ Hikey) as (ni & -> & Hb).
        destruct (lt_eq_lt_dec ni n) as [[Hlt| ->]|Hlt].
        + destruct (Hothers ni Hlt) as (q & Hq & Hqk). congruence.
        + fold idx in Hikey. congruence.
        + destruct (Hb n Hlt) as (q & Hq & _). fold idx in Hq. congruence. }
      cbn. symmetry. by eapply (Hzero idx); [lia|..].
    - assert (value_of g k = Some c) as ->; [|done].
      apply (value_of_spec sK sz); [done..|]. exists idx.
      unfold arys_t.get. by rewrite Hsome, Hc. }
  split_and!; [by split_and!; [|rewrite Hmask', Hsize'|..] | | done | |].
  - assert (snd (small_packed_array.set (arys_t.keys g) idx k) = arys_t.keys g') as <-.
    { unfold arys_t.add in Hadd.
      destruct (small_packed_array.set (arys_t.keys g) idx k) as [[] keys']; cbn in Hadd.
      - destruct (arys_t.vals g !! Z.to_nat idx); [|done]. by injection Hadd as <-.
      - done. }
    apply small_packed_array_facts.set_item_len.
  - rewrite Hbefore. apply (value_of_spec sK sz); [done..|]. by exists idx.
  - intros k' Hk'. apply option_eq. intros c'.
    rewrite !(value_of_spec sK sz) by done.
    split; intros (i & Hi); exists i.
    + destruct (decide (i = idx)) as [->|Hne]; [congruence|].
      by rewrite <- (proj2 (Hframe i Hne)).
    + destruct (decide (i = idx)) as [->|Hne].
      * apply arys_get_key in Hi as [Hikey _].
        destruct Hwas; congruence.
      * by rewrite (proj2 (Hframe i Hne)).
Qed.

Lemma stored_value_head sz s g k :
  heap.lookup (mem s) (root_key_val_arys (root s)) = Done g -> arys_wf sz g ->
  stored_value s k = Done (value_of g k).
Proof.
  intros Hg Hwf. unfold stored_value, table_pairs. rewrite Hg.
  cbn [mbind result_bind rbind].
  pose proof Hwf as (_ & Hpow & Hmax & _).
  pose proof (is_pow2_pos _ Hpow).
  rewrite iterate_occupied; [done | by eapply arys_wf_counters_backed | lia].
Qed.

Lemma add_head_mono sK sz alloc fuel s h k v P s' h' :
  refcount_inv None P (thread_hash_counter.key_val_arys h) s ->
  thread_hash_counter.add sK sz alloc fuel s h k v = Done (s', h') ->
  (root_key_val_arys (root s) <= root_key_val_arys (root s'))%nat.
Proof.
  intros Hinv Hadd.
  destruct (add_refcount_inv _ _ _ _ _ _ _ _ _ _ _ Hadd Hinv) as [Hinv' _].
  apply (proj1 (handle_brk_frame sK sz alloc fuel)) in Hadd.
  destruct Hinv as (? & _ & Hb & _). destruct Hinv' as (? & _ & Hb' & _). lia.
Qed.

Lemma add_all_head_mono sK sz alloc fuel ops : ∀ s h s' h',
  refcount_inv None [] (thread_hash_counter.key_val_arys h) s ->
  add_all sK sz alloc fuel s h ops = Done (s', h') ->
  (root_key_val_arys (root s) <= root_key_val_arys (root s'))%nat.
Proof.
  induction ops as [|[k v] ops IH]; intros s h s' h' Hinv H; cbn [add_all] in H.
  - by injection H as <- <-.
  - apply bind_Done in H as ([s1 h1] & Hadd & H).
    pose proof (add_head_mono _ _ _ _ _ _ _ _ _ _ _ Hinv Hadd).
    destruct (add_refcount_inv _ _ _ _ _ _ _ _ _ _ _ Hadd Hinv) as [Hinv1 _].
    specialize (IH _ _ _ _ Hinv1 H). lia.
Qed.


Lemma tally_nonneg ops k :
  Forall (λ op : Z * Z, 0 <= op.2) ops -> 0 <= default 0 (tally ops k).
Proof.
  induction 1 as [|[k' v] ops Hv _ IH]; cbn [tally]; [done|].
  case_decide; [|done]. cbn [from_option id snd] in *. lia.
Qed.

Lemma value_of_range sK sz g k :
  arys_wf sz g -> path_inv sK g -> 0 <= default 0 (value_of g k) < Val_modulus sz.
Proof.
  intros Hwf Hpath. pose proof Hwf as (Hsz & _ & _ & _ & _ & _ & _ & Hvals).
  destruct (value_of g k) as [c|] eqn:Hv; cbn.
  - apply (value_of_spec sK sz) in Hv as (idx & [_ Hc]%arys_get_key); [|done..].
    by eapply Forall_lookup_1 in Hvals.
  - pose proof (Val_modulus_pos sz). lia.
Qed.

(** A run of [add] calls that stays on one head counts exactly. *)
Lemma add_all_counts sK sz alloc fuel ops : ∀ s h g s' h',
  refcount_inv None [] (thread_hash_counter.key_val_arys h) s -> settled s h ->
  root_resize_lock (root s) = false ->
  0 <= thread_hash_counter.max_reprobe h < 2 ^ 32 - 1 ->
  heap.lookup (mem s) (root_key_val_arys (root s)) = Done g ->
  counting_gen sK sz g ->
  Forall (λ op : Z * Z,
            0 <= op.1 < 2 ^ (small_packed_array.item_len (arys_t.keys g) - 1)
            ∧ 0 <= op.2) ops ->
  (∀ k, default 0 (value_of g k) + default 0 (tally ops k) <= ALL_ONES sz) ->
  add_all sK sz alloc fuel s h ops = Done (s', h') ->
  root_key_val_arys (root s') = root_key_val_arys (root s) ->
  ∃ g', heap.lookup (mem s') (root_key_val_arys (root s')) = Done g'
        ∧ counting_gen sK sz g'
        ∧ ∀ k, value_of g' k = counted (value_of g k) (tally ops k).
Proof.
  induction ops as [|[k v] ops IH];
    intros s h g s' h' Hinv Hset Hlock Hmax Hg Hcount Hops Hfit H Hhead;
    cbn [add_all] in H.
  { injection H as <- <-. by exists g. }
  apply bind_Done in H as ([s1 h1] & Hadd & H).
  destruct (add_refcount_inv _ _ _ _ _ _ _ _ _ _ _ Hadd Hinv) as [Hinv1 Hset1].
  pose proof (add_head_mono _ _ _ _ _ _ _ _ _ _ _ Hinv Hadd) as Hle1.
  pose proof (add_all_head_mono _ _ _ _ _ _ _ _ _ Hinv1 H) as Hle2.
  assert (root_key_val_arys (root s1) = root_key_val_arys (root s)) as Hhead1 by lia.
  apply Forall_cons in Hops as [[Hk Hv] Hops]. cbn [fst snd] in Hk, Hv.
  assert (Forall (λ op : Z * Z, 0 <= op.2) ops) as Hvs
    by (eapply Forall_impl; [exact Hops|]; by intros ? [_ ?]).
  destruct (add_without_resize_step sK sz alloc fuel s h k v [] s1 h1
              Hinv Hset Hlock Hmax Hadd Hhead1)
    as (cg & n & g1 & Hcg & Hn & Hfail & Hadd1 & -> & ->).
  assert (cg = g) as -> by congruence.
  destruct (counting_add_step _ _ _ _ _ _ _ Hcount Hk Hfail Hadd1)
    as (Hcount1 & Hlen1 & Hsize1 & Hvk & Hothers).
  pose proof Hcount as (Hwf & _ & Hpath & _).
  pose proof (value_of_range sK sz g k Hwf Hpath) as Hc.
  pose proof (tally_nonneg ops k Hvs) as Ht.
  pose proof (Hfit k) as Hfitk. cbn [tally] in Hfitk.
  rewrite decide_True in Hfitk by done. cbn [from_option id] in Hfitk.
  assert (arys_t.add_loop sz [] (default 0 (value_of g k)) v
          = default 0 (value_of g k) + v) as Hsum.
  { destruct Hwf as (Hsz & _).
    rewrite add_loop_nil by (unfold ALL_ONES in *; lia).
    destruct (Z.eqb_spec (default 0 (value_of g k)) (ALL_ONES sz)); [lia|].
    destruct (Z.ltb_spec (ALL_ONES sz - default 0 (value_of g k)) v); [lia|done]. }
  rewrite Hsum in Hvk.
  destruct (IH (set_mem s (heap.store (mem s) (root_key_val_arys (root s)) g1))
              h g1 s' h') as (g' & Hg' & Hcount' & Hvals');
    [done | done | done | done | apply heap_lookup_store | done
    | by rewrite Hlen1 | | done | done |].
  { intros k'. destruct (decide (k' = k)) as [->|Hne].
    - rewrite Hvk. cbn [from_option id]. lia.
    - rewrite Hothers by done. specialize (Hfit k'). cbn [tally] in Hfit.
      by rewrite decide_False in Hfit by done. }
  exists g'. split_and!; [done..|].
  intros k'. rewrite Hvals'. cbn [tally].
  destruct (decide (k = k')) as [<-|Hne].
  - rewrite Hvk. unfold counted. destruct (tally ops k) as [t|]; cbn [from_option id].
    + f_equal. lia.
    + f_equal. lia.
  - by rewrite Hothers by done.
Qed.

(** The table the constructors make over zero-filled memory is fit
    for counting and holds no key. *)
Lemma new_table_counting sK sz K _size maxr nb s0 s1 h1 :
  1 <= sz < 2 ^ 62 -> 1 <= K -> 0 <= _size -> sz * _size < 2 ^ 62 ->
  concurrent_hash_counter.new sz (mmap_alloc sz) K _size maxr nb = Done s0 ->
  thread_hash_counter.new s0 = Done (s1, h1) ->
  root_resize_lock (root s1) = false
  ∧ thread_hash_counter.max_reprobe h1 = maxr
  ∧ ∃ g, heap.lookup (mem s1) (root_key_val_arys (root s1)) = Done g
         ∧ counting_gen sK sz g
         ∧ small_packed_array.item_len (arys_t.keys g) = K
         ∧ ∀ k, value_of g k = None.
Proof.
  intros Hsz HK Hsize0 Hsize H0 H1.
  unfold concurrent_hash_counter.new, thread_hash_counter.new_arys in H0.
  apply bind_Done in H0 as ([a m] & Hnew & H0).
  apply bind_Done in Hnew as (g & Hg & Hnew). injection Hnew as <- <-.
  apply bind_Done in H0 as (g0 & Hg0 & H0). apply heap_lookup_Done in Hg0.
  cbn in Hg0. rewrite lookup_insert_eq in Hg0. injection Hg0 as <-.
  injection H0 as <-.
  unfold thread_hash_counter.new in H1. cbn [mem root root_key_val_arys] in H1.
  rewrite heap_lookup_store in H1. cbn [mbind result_bind rbind] in H1.
  injection H1 as <- <-. split; [done|]. split; [done|].
  eexists. split; [apply heap_lookup_store|].
  assert (_size <= 2 ^ 63) as Hle by nia.
  destruct (round_up_spec arys_t.round_up_steps 0 _size)
    as (e & He & Heq & HleS & Hmin); [lia | lia | unfold arys_t.round_up_steps; lia |].
  change (2 ^ 0) with 1 in Heq.
  assert (0 < 2 ^ e) as Hpos by (apply Z.pow_pos_nonneg; lia).
  assert (sz * 2 ^ e < 2 ^ 63) as Hfit.
  { destruct (decide (e = 0)) as [->|Hne]; [change (2 ^ 0) with 1; lia|].
    specialize (Hmin ltac:(lia)).
    assert (2 ^ e = 2 * 2 ^ (e - 1)) as ->
      by (rewrite <- Z.pow_succ_r by lia; f_equal; lia).
    nia. }
  assert (arys_t.size g = 2 ^ e ∧ arys_t.mod_mask g = 2 ^ e - 1
          ∧ arys_t.keys g = small_packed_array.new K (2 ^ e)
          ∧ ∃ n, arys_t.vals g = replicate n 0) as (Hgsize & Hgmask & Hgkeys & n & Hgvals).
  { unfold arys_t.new in Hg. rewrite Heq in Hg. cbn in Hg. injection Hg as <-.
    cbn [arys_t.size arys_t.mod_mask arys_t.keys arys_t.vals].
    split_and!; [done | unfold u64; rewrite Z.mod_small; lia | done | by eexists]. }
  assert (arys_wf sz g) as Hwf.
  { eapply arys_wf_new; [| |split; [exact Hsize0|exact Hle]|exact Hg|]; [lia|done|].
    rewrite Hgsize. lia. }
  assert (∀ i, small_packed_array.get
                 (arys_t.keys (arys_t.ref_inc (arys_t.ref_inc g).2).2) i = None) as Hempty.
  { intros i. cbn. by rewrite Hgkeys, packed_new_get. }
  split_and!.
  - split_and!.
    + by eapply arys_wf_ext.
    + cbn. by rewrite Hgmask, Hgsize.
    + intros j p Hj. by rewrite Hempty in Hj.
    + intros j c _ _ Hc. cbn in Hc. rewrite Hgvals in Hc.
      by apply lookup_replicate in Hc as [-> _].
  - cbn. by rewrite Hgkeys.
  - intros k. unfold value_of, occupied_pairs.
    rewrite omap_all_None; [done|]. intros i. unfold slot_pair. by rewrite Hempty.
Qed.

(** X15: as long as it is not resized, a table counts exactly.  For a
    table made by the constructors over zero-filled memory and a run of
    [add] calls through one handle that ends on the generation it
    started on, with keys of at most [K - 1] bits and values whose sum
    for a key fits a counter, the value looked up for a key is the sum
    of the values added for it, and a key never added is not found. *)
Theorem counts_are_exact
    sizeof_Key sizeof_Val alloc _key_len _size _max_reprobe nb_threads
    fuel ops s0 s1 h1 s h :
  1 <= sizeof_Val < 2 ^ 62 -> 1 <= _key_len ->
  0 <= _size -> sizeof_Val * _size < 2 ^ 62 ->
  0 <= _max_reprobe < 2 ^ 32 - 1 ->
  concurrent_hash_counter.new sizeof_Val (mmap_alloc sizeof_Val)
    _key_len _size _max_reprobe nb_threads = Done s0 ->
  thread_hash_counter.new s0 = Done (s1, h1) ->
  add_all sizeof_Key sizeof_Val alloc fuel s1 h1 ops = Done (s, h) ->
  root_key_val_arys (root s) = root_key_val_arys (root s1) ->
  Forall (λ op : Z * Z, 0 <= op.1 < 2 ^ (_key_len - 1) ∧ 0 <= op.2) ops ->
  (∀ k t, tally ops k = Some t -> t <= ALL_ONES sizeof_Val) ->
  ∀ k, stored_value s k = Done (tally ops k).
Proof.
  intros Hsz HK Hsize0 Hsize Hmaxr Hnew Hhandle Hadds Hhead Hops Hfit k.
  destruct (new_table_inv _ _ _ _ _ _ _ _ _ Hnew Hhandle) as [Hinv1 Hset1].
  destruct (new_table_counting sizeof_Key _ _ _ _ _ _ _ _ Hsz HK Hsize0 Hsize Hnew Hhandle)
    as (Hlock & Hmax & g & Hg & Hcount & Hlen & Hnone).
  destruct (add_all_counts sizeof_Key sizeof_Val alloc fuel ops s1 h1 g s h)
    as (g' & Hg' & Hcount' & Hvals);
    [done | done | done | lia | done | done | by rewrite Hlen | | done | done |].
  { intros k'. rewrite Hnone. cbn [from_option id].
    destruct (tally ops k') as [t|] eqn:Ht; cbn [from_option id].
    - specialize (Hfit _ _ Ht). lia.
    - unfold ALL_ONES. pose proof (Val_modulus_pos sizeof_Val). lia. }
  rewrite (stored_value_head sizeof_Val _ g') by (done || apply Hcount').
  f_equal. rewrite Hvals, Hnone. unfold counted.
  by destruct (tally ops k) as [t|].
Qed.

Lemma counts_are_exact_witness :
  stored_value (fst tallied_table) 1 = Done (Some 6)
  ∧ stored_value (fst tallied_table) 2 = Done (Some 1)
  ∧ stored_value (fst tallied_table) 3 = Done None.
Proof.
  assert (∀ k, stored_value (fst tallied_table) k = Done (tally tally_ops k)) as H.
  { apply (counts_are_exact 8 4 (mmap_alloc 4) 64 4 4 1 64 tally_ops
             life_root (fst life_start) (snd life_start)
             (fst tallied_table) (snd tallied_table)).
    - lia.
    - lia.
    - lia.
    - lia.
    - lia.
    - vm_compute. reflexivity.
    - vm_compute. reflexivity.
    - vm_compute. reflexivity.
    - vm_compute. reflexivity.
    - repeat constructor; vm_compute; congruence.
    - intros k t. unfold tally_ops. cbn [tally].
      repeat case_decide; intros [= <-]; vm_compute; congruence. }
  split_and!; rewrite H; vm_compute; reflexivity.
Defined.




(** ** [copy_over] of a generation of at least 128 slots *)

Lemma same_content_refl g : same_content g g.
Proof. by repeat split. Qed.

Lemma same_content_trans g1 g2 g3 :
  same_content g1 g2 -> same_content g2 g3 -> same_content g1 g3.
Proof. intros (? & ? & ? & ?) (? & ? & ? & ?). repeat split; congruence. Qed.

Lemma occupied_pairs_ext g g' : same_content g g' -> occupied_pairs g' = occupied_pairs g.
Proof.
  intros (Hk & Hv & Hs & _). unfold occupied_pairs. rewrite Hs.
  induction (seq 0 (Z.to_nat (arys_t.size g))) as [|i l IH]; [done|].
  rewrite !omap_cons_eq, IH. unfold slot_pair. by rewrite Hk, Hv.
Qed.

Lemma value_of_ext g g' k : same_content g g' -> value_of g' k = value_of g k.
Proof. intros H. unfold value_of. by rewrite (occupied_pairs_ext g g'). Qed.

Lemma counting_gen_ext sK sz g g' :
  same_content g g' -> counting_gen sK sz g -> counting_gen sK sz g'.
Proof.
  intros (Hk & Hv & Hs & Hm) (Hwf & Hmask & Hpath & Hzero).
  split; [|split; [|split]].
  - by eapply arys_wf_ext.
  - by rewrite Hm, Hs.
  - intros j p. unfold on_path, home. rewrite Hk, Hm. apply Hpath.
  - intros j c. rewrite Hk, Hv. apply Hzero.
Qed.

Lemma value_upto_all g k : value_upto g (Z.to_nat (arys_t.size g)) k = value_of g k.
Proof. reflexivity. Qed.


Lemma pairs_upto_S g i :
  pairs_upto g (S i) = pairs_upto g i ++ option_list (slot_pair g i).
Proof.
  unfold pairs_upto. rewrite seq_S, omap_app. cbn [Nat.add].
  rewrite omap_cons_eq. by destruct (slot_pair g i).
Qed.

(** One more slot: an empty one changes nothing, an occupied one adds
    its key unless a slot below holds it already. *)
Lemma value_upto_S g i k :
  value_upto g (S i) k =
    match value_upto g i k with
    | Some c => Some c
    | None =>
        match slot_pair g i with
        | Some (q, c) => if decide (q = k) then Some c else None
        | None => None
        end
    end.
Proof.
  unfold value_upto. rewrite pairs_upto_S.
  destruct (list_find _ (pairs_upto g i)) as [[j [q c]]|] eqn:Hfind.
  { by erewrite list_find_app_l. }
  rewrite list_find_app_r by done.
  destruct (slot_pair g i) as [[q c]|]; [|done].
  cbn. by case_decide.
Qed.

Lemma value_upto_unique sK g (i : nat) k c :
  path_inv sK g -> slot_pair g i = Some (k, c) -> value_upto g i k = None.
Proof.
  intros Hpath Hslot. unfold value_upto.
  destruct (list_find _ _) as [[j [q c']]|] eqn:Hfind; [|done]. exfalso.
  apply list_find_Some in Hfind as (Hj & Hq & _). cbn in Hq. subst q.
  apply list_elem_of_lookup_2 in Hj. unfold pairs_upto in Hj.
  apply list_elem_of_omap in Hj as (i' & Hi'%elem_of_seq & Hslot').
  unfold slot_pair in Hslot, Hslot'.
  destruct (small_packed_array.get (arys_t.keys g) (Z.of_nat i)) as [q|] eqn:Hq; [|done].
  destruct (small_packed_array.get (arys_t.keys g) (Z.of_nat i')) as [q'|] eqn:Hq'; [|done].
  cbn in Hslot, Hslot'.
  destruct (arys_t.vals g !! i); [|done]. destruct (arys_t.vals g !! i'); [|done].
  cbn in Hslot, Hslot'. injection Hslot as -> _. injection Hslot' as -> _.
  pose proof (path_inv_unique _ _ _ _ _ Hpath Hq Hq'). lia.
Qed.

Lemma packed_get_valid a i p :
  small_packed_array.wf a -> small_packed_array.get a i = Some p ->
  0 <= p < 2 ^ (small_packed_array.item_len a - 1).
Proof.
  intros (_ & _ & Hcells). unfold small_packed_array.get.
  destruct (_ && _); [|done].
  destruct (small_packed_array.cells a !! Z.to_nat i) as [c|] eqn:Hc; [|done].
  cbn. intros ->. eapply Forall_lookup_1 in Hcells; [|done]. by apply Hcells.
Qed.

Lemma add_loop_from_zero sz c :
  1 <= sz -> 0 <= c < Val_modulus sz -> arys_t.add_loop sz [] 0 c = c.
Proof.
  intros Hsz Hc. pose proof (Val_modulus_pos sz ltac:(lia)).
  rewrite add_loop_nil by lia.
  assert (2 ^ 8 <= Val_modulus sz)
    by (unfold Val_modulus, Val_bits; apply Z.pow_le_mono_r; lia).
  unfold ALL_ONES.
  destruct (Z.eqb_spec 0 (Val_modulus sz - 1)); [lia|].
  destruct (Z.ltb_spec (Val_modulus sz - 1 - 0) c); [lia|done].
Qed.

Lemma arys_add_cursor sz intf g idx key val ok g' :
  arys_t.add sz intf g idx key val = Done (ok, g') ->
  arys_t.copy_chunck g' = arys_t.copy_chunck g.
Proof.
  unfold arys_t.add. destruct (small_packed_array.set _ _ _) as [[] keys']; cbn.
  - destruct (arys_t.vals g !! Z.to_nat idx); [|done]. by intros [= <- <-].
  - by intros [= <- <-].
Qed.

Section CopyOver.

Variables sizeof_Key sizeof_Val : Z.
Variable alloc : Z -> option (list Z).

#[local] Abbreviation copy_chuncks := (thread_hash_counter.copy_chuncks sizeof_Key sizeof_Val alloc).
#[local] Abbreviation copy_slots := (thread_hash_counter.copy_slots sizeof_Key sizeof_Val alloc).
#[local] Abbreviation copy_over := (thread_hash_counter.copy_over sizeof_Key sizeof_Val alloc).
#[local] Abbreviation kva := thread_hash_counter.key_val_arys.



Variable og : arys_t.t.
Variable carys : nat.
Variable hsize : Z.
Hypothesis og_counting : counting_gen sizeof_Key sizeof_Val og.





End CopyOver.

(** ** [add] through a resize *)

Lemma calloc_like_ok sz L alloc : 1 <= sz -> calloc_like sz L alloc -> alloc_ok sz L alloc.
Proof.
  intros Hsz Hc n mem Hn Hmem. destruct (Hc n mem Hn Hmem) as [HL ->].
  assert (0 <= n / sz) by (apply Z.div_pos; lia).
  split_and!; [done | rewrite length_replicate; lia |].
  apply Forall_replicate. pose proof (Val_modulus_pos sz). lia.
Qed.

Lemma release_content fuel : ∀ m c m',
  thread_hash_counter.release fuel m c = Done m' ->
  ∀ b g', heap.objs m' !! b = Some g' ->
    ∃ g, heap.objs m !! b = Some g ∧ same_content g g'
         ∧ arys_t.copy_chunck g' = arys_t.copy_chunck g.
Proof.
  induction fuel as [|fuel IH]; intros m c m' H b g' Hb; [done|].
  destruct c as [a|]; [|done]. rewrite release_eq in H.
  apply bind_Done in H as (g & Hg%heap_lookup_Done & H). cbn in H.
  destruct (_ =? 0).
  - destruct (IH _ _ _ H _ _ Hb) as (g0 & Hg0 & Hsame). exists g0. split; [|done].
    cbn in Hg0. destruct (decide (a = b)) as [->|Hne].
    + by rewrite lookup_delete_eq in Hg0.
    + by rewrite lookup_delete_ne in Hg0.
  - injection H as <-. cbn in Hb. destruct (decide (a = b)) as [->|Hne].
    + rewrite lookup_insert_eq in Hb. injection Hb as <-. exists g.
      split; [done|]. by repeat split.
    + rewrite lookup_insert_ne in Hb by done. exists g'.
      split; [done|]. by repeat split.
Qed.

Section ThroughResize.

Variables sizeof_Key sizeof_Val : Z.
Variable alloc : Z -> option (list Z).
Variable limit : Z.

Hypothesis sizeof_Val_pos : 1 <= sizeof_Val.
Hypothesis limit_small : limit < 2 ^ 63.
Hypothesis alloc_zero : calloc_like sizeof_Val limit alloc.

#[local] Abbreviation add_outer := (thread_hash_counter.add_outer sizeof_Key sizeof_Val alloc).
#[local] Abbreviation add_probe := (thread_hash_counter.add_probe sizeof_Key sizeof_Val alloc).
#[local] Abbreviation copy_over := (thread_hash_counter.copy_over sizeof_Key sizeof_Val alloc).
#[local] Abbreviation kva := thread_hash_counter.key_val_arys.




(** What a [resize] of the head leaves: the old generation with its
    content, and a head of twice the size, fit for counting and
    empty. *)
Lemma resize_fresh_head P c s h og s1 :
  refcount_inv None P c s ->
  root_resize_lock (root s) = false ->
  heap.lookup (mem s) (root_key_val_arys (root s)) = Done og ->
  arys_wf sizeof_Val og -> sizeof_Val * arys_t.size og <= limit ->
  1 <= thread_hash_counter.key_len h ->
  thread_hash_counter.resize sizeof_Val alloc s h (root_key_val_arys (root s)) false
    = Done (true, s1) ->
  root_key_val_arys (root s1) = S (root_key_val_arys (root s))
  ∧ root_resize_lock (root s1) = false
  ∧ (∃ og1, heap.lookup (mem s1) (root_key_val_arys (root s)) = Done og1
            ∧ same_content og og1
            ∧ arys_t.copy_chunck og1 = arys_t.copy_chunck og)
  ∧ ∃ ng, heap.lookup (mem s1) (root_key_val_arys (root s1)) = Done ng
          ∧ counting_gen sizeof_Key sizeof_Val ng
          ∧ small_packed_array.item_len (arys_t.keys ng) = thread_hash_counter.key_len h
          ∧ arys_t.copy_chunck ng = 0
          ∧ arys_t.size ng = 2 * arys_t.size og
          ∧ sizeof_Val * arys_t.size ng <= limit
          ∧ ∀ p, value_of ng p = None.
Proof.
  intros Hinv Hlock Hog Hwf HL HK H.
  pose proof Hinv as (lo & Hlo & Hbrk & _).
  unfold thread_hash_counter.resize in H. rewrite Hlock in H.
  rewrite Nat.eqb_refl in H. cbn [negb] in H. rewrite Hog in H.
  cbn [mbind result_bind rbind] in H.
  apply bind_Done in H as ([narys m1] & Hnew & H).
  unfold thread_hash_counter.new_arys in Hnew.
  apply bind_Done in Hnew as (g & Hg & Hnew).
  rewrite Hog in Hnew. cbn in Hnew. injection Hnew as <- <-.
  set (head := root_key_val_arys (root s)) in *.
  rewrite heap_lookup_store_ne in H by lia.
  rewrite heap_lookup_fresh in H. cbn [mbind result_bind rbind] in H.
  rewrite heap_lookup_store_ne in H by lia.
  rewrite heap_lookup_store in H. cbn [mbind result_bind rbind] in H.
  injection H as <-.
  cbn [set_head set_mem root mem root_key_val_arys root_resize_lock].
  destruct (new_arys_doubled _ _ _ sizeof_Val_pos limit_small
              (calloc_like_ok _ _ _ sizeof_Val_pos alloc_zero) _ _ _ HK Hwf HL Hg)
    as [Hgwf HgL].
  pose proof Hwf as (_ & Hpow & _).
  pose proof (is_pow2_pos _ Hpow) as Hpos.
  assert (arys_t.size og <= sizeof_Val * arys_t.size og) as Hsz1 by nia.
  assert (arys_t.size g = 2 * arys_t.size og
          ∧ arys_t.mod_mask g = arys_t.size g - 1
          ∧ arys_t.keys g = small_packed_array.new (thread_hash_counter.key_len h)
                              (arys_t.size g)
          ∧ arys_t.copy_chunck g = 0
          ∧ ∃ n, arys_t.vals g = replicate n 0)
    as (Hgsize & Hgmask & Hgkeys & Hgcursor & n & Hgvals).
  { unfold arys_t.new in Hg.
    rewrite Z.shiftl_mul_pow2 in Hg by lia. change (2 ^ 1) with 2 in Hg.
    unfold u64 at 1 in Hg. rewrite Z.mod_small in Hg by lia.
    destruct (arys_t.round_up _ _ _) as [S|] eqn:HS; [|done].
    pose proof (round_up_range _ _ HS) as HSr.
    destruct (alloc _) as [vals|] eqn:Hvals; [|done]. injection Hg as <-.
    cbn [arys_t.size arys_t.mod_mask arys_t.keys arys_t.vals arys_t.copy_chunck].
    destruct (alloc_zero _ _ (proj1 (Z.mod_pos_bound _ (2 ^ 64) eq_refl)) Hvals)
      as [_ ->].
    cbn [arys_t.size] in *.
    split_and!; [| unfold u64; rewrite Z.mod_small; lia | done | done | by eexists].
    assert (is_pow2 (arys_t.size og * 2)) as Hpow2.
    { destruct Hpow as (e & He & Heq). exists (e + 1). split; [lia|].
      rewrite Z.pow_add_r, Heq by lia. lia. }
    assert (arys_t.size og * 2 <= 2 ^ 63) as Hdouble.
    { destruct Hpow as (e & He & Heq).
      assert (e < 63).
      { destruct (Z.le_gt_cases 63 e) as [Hge|]; [|done].
        apply (Z.pow_le_mono_r 2) in Hge; lia. }
      rewrite Heq, Z.mul_comm, <- Z.pow_succ_r by lia.
      apply Z.pow_le_mono_r; lia. }
    rewrite round_up_pow2 in HS by done. injection HS as <-. lia. }
  split_and!; [lia | done | |].
  - eexists. rewrite heap_lookup_store. split; [done|]. by repeat split.
  - eexists. rewrite heap_lookup_store_ne by lia. rewrite heap_lookup_store.
    split; [done|].
    assert (∀ i, small_packed_array.get
                   (arys_t.keys (arys_t.ref_inc (arys_t.ref_inc g).2).2) i = None)
      as Hempty.
    { intros i. cbn. by rewrite Hgkeys, packed_new_get. }
    split_and!.
    + split; [|split; [|split]].
      * by eapply arys_wf_ext.
      * done.
      * intros j p Hj. by rewrite Hempty in Hj.
      * intros j c' _ _ Hc. cbn in Hc. rewrite Hgvals in Hc.
        by apply lookup_replicate in Hc as [-> _].
    + cbn. by rewrite Hgkeys.
    + done.
    + done.
    + done.
    + intros p. unfold value_of, occupied_pairs.
      rewrite omap_all_None; [done|]. intros i. unfold slot_pair. by rewrite Hempty.
Qed.

End ThroughResize.


Lemma bounded_alloc_calloc sz L : calloc_like sz L (bounded_alloc sz L).
Proof.
  intros n mem Hn. unfold bounded_alloc, mmap_alloc.
  destruct (Z.leb_spec n L); [|done]. by intros [= <-].
Qed.




(** ** The slots [add] probes *)

(** X18: the slot indices [add] computes are within the arrays: with
    [mod_mask = size - 1] and [size] a power of two, both the home slot
    [hash & mod_mask] and each reprobe [(idx + reprobe) & mod_mask] lie
    in [0, size), whatever the hash, the index before and the value of
    [reprobe], wrapped or not. *)
Theorem probed_slots_in_bounds sizeof_Key g :
  is_pow2 (arys_t.size g) -> arys_t.mod_mask g = arys_t.size g - 1 ->
  (∀ k, 0 <= home sizeof_Key g k < arys_t.size g)
  ∧ (∀ idx reprobe,
       0 <= thread_hash_counter.reprobe_idx idx reprobe (arys_t.mod_mask g)
         < arys_t.size g)
  ∧ (∀ idx0 n, 0 <= idx0 < arys_t.size g ->
       0 <= thread_hash_counter.probe_slot (arys_t.mod_mask g) idx0 n < arys_t.size g).
Proof.
  intros (e & He & Hsize) Hmask. rewrite Hsize in *. rewrite Hmask.
  assert (0 < 2 ^ e) as Hpos by (by apply Z.pow_pos_nonneg).
  split_and!.
  - intros k. apply (home_range sizeof_Key g k e); [done|]. by rewrite Hmask.
  - intros idx reprobe. unfold thread_hash_counter.reprobe_idx.
    rewrite land_mask by done. by apply Z.mod_pos_bound.
  - intros idx0 n Hidx. by apply probe_slot_range.
Qed.

Lemma probed_slots_in_bounds_witness :
  (∀ k, 0 <= home 8 sample_arys k < arys_t.size sample_arys)
  ∧ (∀ idx reprobe,
       0 <= thread_hash_counter.reprobe_idx idx reprobe (arys_t.mod_mask sample_arys)
         < arys_t.size sample_arys)
  ∧ (∀ idx0 n, 0 <= idx0 < arys_t.size sample_arys ->
       0 <= thread_hash_counter.probe_slot (arys_t.mod_mask sample_arys) idx0 n
         < arys_t.size sample_arys).
Proof.
  apply (probed_slots_in_bounds 8 sample_arys).
  - exists 2. split; [lia|reflexivity].
  - reflexivity.
Defined.

(** ** The table written out *)

(** X19: the bytes [write_keys_vals] emits for a table, given to the
    mapped constructor with the key length and the size of the head,
    make a generation whose iteration yields the pairs an iteration of
    the table yields, in the same order. *)
Theorem write_keys_vals_maps_back sizeof_Val s g bytes :
  heap.lookup (mem s) (root_key_val_arys (root s)) = Done g ->
  arys_wf sizeof_Val g ->
  concurrent_hash_counter.write_keys_vals sizeof_Val s = Done bytes ->
  ∃ g', arys_t.of_map sizeof_Val (small_packed_array.item_len (arys_t.keys g))
          (arys_t.size g) bytes = Done g'
        ∧ arys_iterator.iterate g' = table_pairs s
        ∧ arys_t.allocated g' = false.
Proof.
  intros Hg Hwf H. unfold concurrent_hash_counter.write_keys_vals in H.
  rewrite Hg in H. cbn [mbind result_bind rbind] in H. injection H as <-.
  rewrite (arys_of_map_write sizeof_Val g Hwf). eexists. split; [done|].
  split; [|done]. unfold table_pairs. rewrite Hg. cbn [mbind result_bind rbind].
  by apply iterate_ext.
Qed.

Lemma write_keys_vals_maps_back_witness :
  ∃ g', arys_t.of_map 4 64 4
          (done_or [] (concurrent_hash_counter.write_keys_vals 4 sample_state)) = Done g'
        ∧ arys_iterator.iterate g' = table_pairs sample_state.
Proof.
  destruct (write_keys_vals_maps_back 4 sample_state sample_arys
              (done_or [] (concurrent_hash_counter.write_keys_vals 4 sample_state)))
    as (g' & Hg' & Hit & _).
  - reflexivity.
  - exact sample_arys_wf.
  - reflexivity.
  - exists g'. split; [exact Hg'|exact Hit].
Defined.

(** ** Handles and the root *)

(** X20: making a handle and destroying it leaves the table as it was:
    the constructor takes a reference on the head and the destructor
    gives it back, as long as the head is referenced (by the root) and
    its 32-bit count does not wrap. *)
Theorem handle_made_and_destroyed fuel s g :
  heap.lookup (mem s) (root_key_val_arys (root s)) = Done g ->
  1 <= arys_t.count g < 2 ^ 32 - 1 ->
  ∃ s1 h,
    thread_hash_counter.new s = Done (s1, h)
    ∧ settled s1 h
    ∧ heap.lookup (mem s1) (root_key_val_arys (root s1))
      = Done (arys_t.set_count g (arys_t.count g + 1))
    ∧ thread_hash_counter.destroy (S fuel) s1 h = Done s.
Proof.
  intros Hg Hcount. unfold thread_hash_counter.new. rewrite Hg.
  cbn [mbind result_bind rbind]. eexists _, _. split; [done|].
  split; [done|]. cbn [set_mem mem root arys_t.ref_inc snd].
  rewrite heap_lookup_store, u32_small by lia. split; [done|].
  unfold thread_hash_counter.destroy.
  cbn [thread_hash_counter.key_val_arys set_mem mem].
  rewrite release_eq, heap_lookup_store. cbn [mbind result_bind rbind].
  cbn [arys_t.ref_dec arys_t.count arys_t.set_count].
  replace (arys_t.count g + 1 - 1) with (arys_t.count g) by lia.
  rewrite u32_small by lia.
  destruct (Z.eqb_spec (arys_t.count g) 0); [lia|].
  cbn [mbind result_bind rbind]. f_equal.
  rewrite heap_store_store. destruct s as [[objs brk freed] r]. unfold set_mem, heap.store.
  cbn [mem root heap.objs heap.brk heap.freed] in *. f_equal. f_equal.
  apply heap_lookup_Done in Hg. cbn in Hg.
  destruct g. cbn in *. by apply insert_id.
Qed.

Lemma handle_made_and_destroyed_witness :
  ∃ s1 h,
    thread_hash_counter.new life_root = Done (s1, h)
    ∧ thread_hash_counter.destroy 1 s1 h = Done life_root.
Proof.
  destruct (handle_made_and_destroyed 0 life_root
              (done_or sample_arys (heap.lookup (mem life_root) 0)))
    as (s1 & h & Hnew & _ & _ & Hdestroy).
  - reflexivity.
  - vm_compute. split; [congruence|reflexivity].
  - exists s1, h. split; [exact Hnew|exact Hdestroy].
Defined.

(** X21: the destructor of the root deletes the head whatever its
    reference count: a handle still alive is left with a freed
    generation, and every [add] through any handle after it, and any
    look at the table, is a use after free. *)
Theorem root_destroyed_under_a_handle sizeof_Key sizeof_Val alloc s s' :
  concurrent_hash_counter.destroy s = Done s' ->
  heap.freed (mem s') = heap.freed (mem s) ++ [root_key_val_arys (root s)]
  ∧ heap.lookup (mem s') (root_key_val_arys (root s')) = Fault
  ∧ table_pairs s' = Fault
  ∧ ∀ fuel h k v,
      thread_hash_counter.add sizeof_Key sizeof_Val alloc (S fuel) s' h k v = Fault.
Proof.
  unfold concurrent_hash_counter.destroy. intros H.
  apply bind_Done in H as (g & Hg & H). injection H as <-.
  assert (heap.lookup (heap.delete (mem s) (root_key_val_arys (root s)))
            (root_key_val_arys (root s)) = Fault) as Hgone.
  { unfold heap.lookup, heap.delete. cbn. by rewrite lookup_delete_eq. }
  cbn [set_mem mem root]. split_and!; [done | done | |].
  - unfold table_pairs. cbn [set_mem mem root]. by rewrite Hgone.
  - intros fuel h k v. unfold thread_hash_counter.add. rewrite add_outer_eq.
    cbv zeta. cbn [set_mem mem root]. rewrite Hgone. by destruct (negb _).
Qed.

Lemma root_destroyed_under_a_handle_witness :
  thread_hash_counter.add 8 4 (mmap_alloc 4) 1
    (done_or sample_state (concurrent_hash_counter.destroy (fst life_start)))
    (snd life_start) 5 1 = Fault.
Proof.
  destruct (root_destroyed_under_a_handle 8 4 (mmap_alloc 4) (fst life_start)
              (done_or sample_state (concurrent_hash_counter.destroy (fst life_start))))
    as (_ & _ & _ & Hadd).
  - reflexivity.
  - apply Hadd.
Defined.


(** ** Counting through any number of resizes *)

Lemma kept_refl s a : kept s s a.
Proof. intros g Hg. exists g. split; [done|]. split; [apply same_content_refl|done]. Qed.

Lemma kept_trans s1 s2 s3 a : kept s1 s2 a -> kept s2 s3 a -> kept s1 s3 a.
Proof.
  intros H12 H23 g Hg. destruct (H12 g Hg) as (g2 & Hg2 & Hsame2 & Hc2).
  destruct (H23 g2 Hg2) as (g3 & Hg3 & Hsame3 & Hc3).
  exists g3. split; [done|]. split; [by eapply same_content_trans|congruence].
Qed.

Lemma kept_store_other s a b g : a ≠ b -> kept s (set_mem s (heap.store (mem s) b g)) a.
Proof.
  intros Hne g0 Hg0. exists g0. cbn [set_mem mem].
  rewrite heap_lookup_store_ne by done. split; [done|].
  split; [apply same_content_refl|done].
Qed.

Lemma fit_gen_ext sK sz L K g g' :
  same_content g g' -> arys_t.copy_chunck g' = arys_t.copy_chunck g ->
  fit_gen sK sz L K g -> fit_gen sK sz L K g'.
Proof.
  intros Hsame Hc (Hcount & Hbig & Hfit & Hlen & Hcursor).
  pose proof Hsame as (Hk & _ & Hs & _).
  split_and!; [by eapply counting_gen_ext | by rewrite Hs | by rewrite Hs
               | by rewrite Hk | congruence].
Qed.

Lemma fit_gen_exp sK sz L K g :
  fit_gen sK sz L K g -> ∃ e, arys_t.size g = 2 ^ e ∧ 7 <= e <= 63.
Proof.
  intros ((Hwf & _) & Hbig & _).
  destruct Hwf as (_ & (e & He & Hsize) & Hmax & _).
  exists e. split; [done|]. rewrite Hsize in *. split.
  - destruct (Z.lt_ge_cases e 7) as [Hlt|]; [|done].
    assert (2 ^ e <= 2 ^ 6) by (apply Z.pow_le_mono_r; lia). lia.
  - destruct (Z.le_gt_cases e 63) as [|Hgt]; [done|].
    assert (2 ^ 64 <= 2 ^ e) by (apply Z.pow_le_mono_r; lia). lia.
Qed.

Lemma head_shows_ext sK sz L K s F F' :
  (∀ p, F p = F' p) -> head_shows sK sz L K s F -> head_shows sK sz L K s F'.
Proof.
  intros HF (g & Hg & Hfit & Hvals). exists g. split; [done|]. split; [done|].
  intros p. by rewrite Hvals.
Qed.

(** [resize] of the head leaves every other generation alone. *)
Lemma resize_others sz alloc s h r s1 a :
  root_resize_lock (root s) = false ->
  thread_hash_counter.resize sz alloc s h (root_key_val_arys (root s)) false
    = Done (r, s1) ->
  a ≠ root_key_val_arys (root s) -> (a < heap.brk (mem s))%nat ->
  heap.lookup (mem s1) a = heap.lookup (mem s) a.
Proof.
  intros Hlock H Hne Hlt. unfold thread_hash_counter.resize in H. rewrite Hlock in H.
  rewrite Nat.eqb_refl in H. cbn [negb] in H.
  apply bind_Done in H as (cg & Hcg & H).
  apply bind_Done in H as ([narys m1] & Hnew & H).
  unfold thread_hash_counter.new_arys in Hnew.
  apply bind_Done in Hnew as (g & Hg & Hnew).
  apply bind_Done in Hnew as (pg & Hpg & Hnew). cbn in Hnew. injection Hnew as <- <-.
  apply bind_Done in H as (ng & Hng & H).
  apply bind_Done in H as (cg' & Hcg' & H). injection H as <- <-.
  cbn [set_head set_mem mem].
  rewrite !heap_lookup_store_ne by lia.
  unfold heap.lookup. cbn [heap.objs]. by rewrite lookup_insert_ne by lia.
Qed.

(** Copying slot [i] of a generation with one slot for a key is
    counting its pair on top of the slots below. *)
Lemma counted_in_value_upto sK sz og (i : nat) p c q :
  counting_gen sK sz og -> slot_pair og i = Some (p, c) ->
  counted_in sz (value_upto og i) p c q = value_upto og (S i) q.
Proof.
  intros (Hwf & _ & Hpath & _) Hslot.
  pose proof Hwf as (Hsz & _ & _ & _ & _ & _ & _ & Hvals).
  assert (0 <= c < Val_modulus sz) as Hc.
  { unfold slot_pair in Hslot.
    destruct (small_packed_array.get _ _); [|done]. cbn in Hslot.
    destruct (arys_t.vals og !! i) as [c'|] eqn:Hc'; [|done]. cbn in Hslot.
    injection Hslot as _ <-. by eapply Forall_lookup_1 in Hvals. }
  unfold counted_in. rewrite value_upto_S, Hslot.
  rewrite (value_upto_unique sK og i p c) by done. cbn [from_option id].
  rewrite add_loop_from_zero by done.
  destruct (decide (q = p)) as [->|Hne].
  - rewrite (value_upto_unique sK og i p c) by done. by rewrite decide_True.
  - destruct (value_upto og i q); [done|]. by rewrite decide_False by done.
Qed.

Lemma head_shows_store_other sK sz L K s F a g :
  a ≠ root_key_val_arys (root s) -> head_shows sK sz L K s F ->
  head_shows sK sz L K (set_mem s (heap.store (mem s) a g)) F.
Proof.
  intros Hne (g0 & Hg0 & Hrest). exists g0. split; [|done].
  cbn [set_mem mem root]. by rewrite heap_lookup_store_ne.
Qed.

Lemma counted_in_ext sz B B' k v p :
  (∀ q, B q = B' q) -> counted_in sz B k v p = counted_in sz B' k v p.
Proof. intros HB. unfold counted_in. by rewrite !HB. Qed.

Lemma refcount_inv_pending_below owed P c s a :
  refcount_inv owed P c s -> a ∈ P -> (a < c)%nat ∧ (c <= root_key_val_arys (root s))%nat.
Proof.
  intros (lo & Hlo & Hbrk & Hfreed & Hout & Hlive & Hnd & Hpend & Hc & Howed) Ha.
  destruct (Hpend a Ha). lia.
Qed.

Section CountsFrame.

Variables sizeof_Key sizeof_Val : Z.
Variable alloc : Z -> option (list Z).
Variables limit K : Z.

Hypothesis sizeof_Val_pos : 1 <= sizeof_Val.
Hypothesis limit_small : limit < 2 ^ 63.
Hypothesis alloc_zero : calloc_like sizeof_Val limit alloc.

#[local] Abbreviation add_outer := (thread_hash_counter.add_outer sizeof_Key sizeof_Val alloc).
#[local] Abbreviation add_probe := (thread_hash_counter.add_probe sizeof_Key sizeof_Val alloc).
#[local] Abbreviation copy_chuncks := (thread_hash_counter.copy_chuncks sizeof_Key sizeof_Val alloc).
#[local] Abbreviation copy_slots := (thread_hash_counter.copy_slots sizeof_Key sizeof_Val alloc).
#[local] Abbreviation copy_over := (thread_hash_counter.copy_over sizeof_Key sizeof_Val alloc).
#[local] Abbreviation kva := thread_hash_counter.key_val_arys.
#[local] Abbreviation fit := (fit_gen sizeof_Key sizeof_Val limit K).
#[local] Abbreviation shows := (head_shows sizeof_Key sizeof_Val limit K).
#[local] Abbreviation hash_of := (thread_hash_counter.hash_key sizeof_Key).

(** The state [add] returns in. *)
#[local] Abbreviation counted_post s P F s' h' :=
  (settled s' h' ∧ handle_ok K s' h' ∧ shows s' F ∧ ∀ a, a ∈ P -> kept s s' a).

(** Every loop of [add] and [copy_over] counts: whatever resizes come
    in between, [add] leaves a head that shows the counts it found with
    the pair added, and the copy loops leave a head that shows the
    counts of the slots copied so far. *)
Lemma handle_counts_frame (fuel : nat) :
  (∀ s h k v reprobe emax P B s' h',
      refcount_inv None P (kva h) s -> handle_ok K s h ->
      0 <= emax < 2 ^ 32 - 1 ->
      ready sizeof_Key sizeof_Val limit K s h B -> (settled s h -> reprobe = 0) ->
      0 <= k < 2 ^ (K - 1) ->
      add_outer fuel s h k v (hash_of k) reprobe emax = Done (s', h') ->
      counted_post s P (counted_in sizeof_Val B k v) s' h')
  ∧ (∀ s h k v (n : nat) emax P og s' h',
      refcount_inv None P (kva h) s -> handle_ok K s h -> settled s h ->
      heap.lookup (mem s) (root_key_val_arys (root s)) = Done og -> fit og ->
      Z.of_nat n <= emax < 2 ^ 32 - 1 ->
      (∀ j, (j < n)%nat ->
         fst (small_packed_array.set (arys_t.keys og)
                (thread_hash_counter.probe_slot (arys_t.mod_mask og)
                   (home sizeof_Key og k) j) k) = false) ->
      0 <= k < 2 ^ (K - 1) ->
      add_probe fuel s h k v (hash_of k) (root_key_val_arys (root s))
        (thread_hash_counter.probe_slot (arys_t.mod_mask og) (home sizeof_Key og k) n)
        (Z.of_nat n) emax = Done (s', h') ->
      counted_post s P (counted_in sizeof_Val (value_of og) k v) s' h')
  ∧ (∀ s h carys (j : nat) P og cg e s' h',
      refcount_inv None P (kva h) s -> handle_ok K s h -> settled s h ->
      carys ∈ P -> fit og -> arys_t.size og = 2 ^ e -> 7 <= e <= 63 ->
      heap.lookup (mem s) carys = Done cg -> same_content og cg ->
      arys_t.copy_chunck cg = Z.of_nat j -> (j <= 128)%nat ->
      shows s (value_upto og (Z.to_nat (Z.of_nat j * 2 ^ (e - 7)))) ->
      copy_chuncks fuel s h carys = Done (s', h') ->
      settled s' h' ∧ handle_ok K s' h' ∧ shows s' (value_of og)
      ∧ ∀ a, a ∈ P -> a ≠ carys -> kept s s' a)
  ∧ (∀ s h carys i end_ P og cg s' h',
      refcount_inv None P (kva h) s -> handle_ok K s h -> settled s h ->
      carys ∈ P -> fit og ->
      heap.lookup (mem s) carys = Done cg -> same_content og cg ->
      0 <= i <= end_ -> end_ <= arys_t.size og ->
      shows s (value_upto og (Z.to_nat i)) ->
      copy_slots fuel s h carys i end_ = Done (s', h') ->
      counted_post s P (value_upto og (Z.to_nat end_)) s' h')
  ∧ (∀ s h carys P og cg s' h',
      refcount_inv None P (kva h) s -> handle_ok K s h -> settled s h ->
      carys ∈ P -> fit og ->
      heap.lookup (mem s) carys = Done cg -> same_content og cg ->
      arys_t.copy_chunck cg = 0 ->
      shows s (λ _, None) ->
      copy_over fuel s h carys = Done (s', h') ->
      settled s' h' ∧ handle_ok K s' h' ∧ shows s' (value_of og)
      ∧ ∀ a, a ∈ P -> a ≠ carys -> kept s s' a).
Proof.
  induction fuel as [|fuel (IHouter & IHprobe & IHchuncks & IHslots & IHover)].
  { repeat split; intros; discriminate. }
  pose proof (handle_refcount_frame sizeof_Key sizeof_Val alloc fuel)
    as (RCouter & RCprobe & RCchuncks & RCslots & RCover).
  pose proof (handle_limits_frame sizeof_Key sizeof_Val alloc fuel)
    as (LMouter & LMprobe & LMchuncks & LMslots & LMover).
  split; [|split; [|split; [|split]]].
  - (* add_outer *)
    intros s h k v reprobe emax P B s' h' Hinv Hok Hemax Hready Hfresh Hk H.
    rewrite add_outer_eq in H. cbv zeta in H.
    destruct Hready as [[Hset (og & Hog & Hfit & Hvals)]
                       |(Hne & (og & Hog & Hfit & Hvals) & ng & Hng & Hngfit & Hngnone)].
    + (* the handle is on the head *)
      pose proof Hset as Hkva. unfold settled in Hkva.
      rewrite <- Hkva, Nat.eqb_refl in H. cbn [negb] in H.
      rewrite Hkva, Hog in H. cbn [mbind result_bind rbind] in H.
      rewrite (Hfresh Hset) in H.
      destruct (IHprobe s h k v 0%nat emax P og s' h')
        as (Hset' & Hok' & Hshows' & Hkept');
        [done | done | done | done | done | lia | intros; lia | done | exact H |].
      split_and!; [done | done | | done].
      eapply head_shows_ext; [|exact Hshows']. intros p. by apply counted_in_ext.
    + (* the head is new: copy the old generation, release it, add *)
      destruct (Nat.eqb_spec (root_key_val_arys (root s)) (kva h)) as [Heq|_];
        [by destruct Hne|]. cbn [negb] in H.
      rewrite Hng in H. cbn [mbind result_bind rbind] in H.
      apply bind_Done in H as ([s2 h2] & Hcopy & H).
      apply bind_Done in H as (m3 & Hrel & H).
      assert (heap.objs (mem s) !! root_key_val_arys (root s) = Some ng) as Hngobj
        by (by apply heap_lookup_Done).
      assert (root_key_val_arys (root s) ≠ kva h) as Hne' by done.
      pose proof (switch_inv _ _ _ _ Hinv Hne' Hngobj) as Hinv1.
      set (s1 := set_mem s (heap.store (mem s) (root_key_val_arys (root s))
                              (arys_t.ref_inc ng).2)) in *.
      set (h1 := thread_hash_counter.set_key_val_arys h (root_key_val_arys (root s))) in *.
      assert (settled s1 h1) as Hset1 by done.
      destruct Hok as (HK & Hmax & Hlock).
      assert (handle_ok K s1 h1) as Hok1 by done.
      destruct (fit_gen_exp _ _ _ _ _ Hfit) as (e & Hsize & He).
      destruct (IHover s1 h1 (kva h) (kva h :: P) og og s2 h2)
        as (Hset2 & Hok2 & Hshows2 & Hkept2);
        [exact Hinv1 | done | done | by left | done | | apply same_content_refl
        | apply Hfit | | exact Hcopy |].
      { subst s1. cbn [set_mem mem]. by rewrite heap_lookup_store_ne. }
      { exists (arys_t.ref_inc ng).2. split; [apply heap_lookup_store|].
        split; [|done]. eapply fit_gen_ext; [| |exact Hngfit]; by repeat split. }
      destruct (RCover _ _ _ _ _ _ Hcopy Hinv1 Hset1) as [Hinv2 _].
      pose proof (release_pending _ _ _ _ _ _ Hinv2 Hrel) as Hinv3.
      assert (∀ a, a ∈ P -> kept s2 (set_mem s2 m3) a) as Hkept3.
      { intros a Ha g Hg.
        destruct (refcount_inv_live _ _ _ _ a Hinv3) as (g' & Hg'); [by right; right|].
        cbn [set_mem mem] in Hg'.
        destruct (release_content _ _ _ _ Hrel _ _ Hg') as (g0 & Hg0 & Hsame & Hcur).
        apply heap_lookup_Done in Hg. assert (g0 = g) as -> by congruence.
        exists g'. split; [by apply heap_lookup_Done|done]. }
      assert (shows (set_mem s2 m3) B) as Hshows3.
      { destruct Hshows2 as (g2 & Hg2 & Hfit2 & Hvals2).
        destruct (refcount_inv_live _ _ _ _ (root_key_val_arys (root s2)) Hinv3)
          as (g3 & Hg3); [by left|].
        cbn [set_mem mem] in Hg3.
        destruct (release_content _ _ _ _ Hrel _ _ Hg3) as (g0 & Hg0 & Hsame & Hcur).
        apply heap_lookup_Done in Hg2. assert (g0 = g2) as -> by congruence.
        exists g3. split; [by apply heap_lookup_Done|].
        split; [by eapply fit_gen_ext|].
        intros p. by rewrite (value_of_ext g2 g3), Hvals2, Hvals. }
      destruct Hok2 as (HK2 & Hmax2 & Hlock2).
      destruct (IHouter (set_mem s2 m3) h2 k v 0 emax P B s' h')
        as (Hset' & Hok' & Hshows' & Hkept');
        [exact Hinv3 | done | done | by left | done | done | exact H |].
      split_and!; [done | done | done |].
      intros a Ha.
      destruct (refcount_inv_pending_below _ _ _ _ a Hinv Ha) as [Hlt Hle].
      assert (NoDup (kva h :: P)) as Hnd by (destruct Hinv1 as (? & _ & _ & _ & _ & _ & ? & _); done).
      apply NoDup_cons in Hnd as [Hnotin _].
      apply (kept_trans s s1); [apply kept_store_other; lia|].
      apply (kept_trans s1 s2); [apply Hkept2; [by right|]; by intros ->|].
      apply (kept_trans s2 (set_mem s2 m3)); [by apply Hkept3|]. by apply Hkept'.
  - (* add_probe *)
    intros s h k v n emax P og s' h' Hinv Hok Hset Hog Hfit Hn Hfail Hk H.
    rewrite add_probe_eq in H. cbv zeta in H. rewrite Hog in H.
    cbn [mbind result_bind rbind] in H.
    apply bind_Done in H as ([ok cg'] & Hadd & H).
    pose proof Hfit as (Hcount & Hbig & HL & Hlen & Hcursor).
    destruct ok.
    { injection H as <- <-.
      destruct (counting_add_step _ _ _ _ _ _ _ Hcount ltac:(by rewrite Hlen) Hfail Hadd)
        as (Hcount' & Hlen' & Hsize' & Hv & Hothers).
      split_and!; [done | done | |].
      - exists cg'. split; [apply heap_lookup_store|]. split.
        + split_and!; [done | lia | by rewrite Hsize' | congruence |].
          by rewrite (arys_add_cursor _ _ _ _ _ _ _ _ Hadd).
        + intros p. unfold counted_in. destruct (decide (p = k)) as [->|Hne]; [done|].
          by apply Hothers.
      - intros a Ha. destruct (refcount_inv_pending_below _ _ _ _ a Hinv Ha).
        unfold settled in Hset. apply kept_store_other. lia. }
    apply arys_add_false in Hadd as [Hfalse ->].
    rewrite u32_small in H by lia.
    destruct Hok as (HK & Hmax & Hlock).
    destruct (Z.gtb_spec (Z.of_nat n + 1) emax) as [Hgt|Hle].
    + apply bind_Done in H as ([resized s1] & Hres & H).
      pose proof (resize_inv _ _ _ _ _ _ _ _ _ _ Hinv Hres) as Hinv1.
      destruct (resize_links _ _ _ _ _ _ _ _ Hinv Hlock Hres) as (-> & _).
      pose proof Hcount as (Hwf & _). pose proof Hwf as (_ & _ & _ & _ & (HK1 & _) & _).
      assert (1 <= thread_hash_counter.key_len h) as HKh by lia.
      destruct (resize_fresh_head sizeof_Key sizeof_Val alloc limit sizeof_Val_pos
                  limit_small alloc_zero _ _ _ _ _ _ Hinv Hlock Hog Hwf HL HKh Hres)
        as (Hhead1 & Hlock1 & (og1 & Hog1 & Hsame1 & Hcursor1)
            & ng & Hng & Hngcount & Hnglen & Hngcursor & Hngsize & HngL & Hngnone).
      unfold settled in Hset.
      destruct (IHouter s1 h k v (Z.of_nat n + 1) emax P (value_of og) s' h')
        as (Hset' & Hok' & Hshows' & Hkept');
        [exact Hinv1 | done | lia | | | done | exact H |].
      { right. split; [lia|]. split.
        - exists og1. rewrite Hset. split; [done|].
          split; [by eapply fit_gen_ext|]. intros p. by apply value_of_ext.
        - exists ng. split; [done|]. split; [|done].
          split_and!; [done | lia | done | congruence | done]. }
      { intros Hs. unfold settled in Hs. lia. }
      split_and!; [done..|].
      intros a Ha. destruct (refcount_inv_pending_below _ _ _ _ a Hinv Ha).
      eapply kept_trans; [|by apply Hkept'].
      intros g Hg. exists g. split; [|split; [apply same_content_refl|done]].
      rewrite (resize_others _ _ _ _ _ _ a Hlock Hres); [done | lia |].
      destruct Hinv as (? & _ & Hb & _). lia.
    + rewrite <- probe_slot_S in H by lia.
      replace (Z.of_nat n + 1) with (Z.of_nat (S n)) in H by lia.
      eapply (IHprobe s h k v (S n) emax P og);
        [done | done | done | done | done | lia | | done | exact H].
      intros j Hj. destruct (decide (j = n)) as [->|]; [done|]. apply Hfail. lia.
  - (* copy_chuncks *)
    intros s h carys j P og cg e s' h' Hinv Hok Hset Hin Hfit Hsize He Hcg Hsame
      Hcursor Hj Hshows H.
    assert (2 ^ e = 128 * 2 ^ (e - 7)) as Hsplit.
    { change 128 with (2 ^ 7). rewrite <- Z.pow_add_r by lia. f_equal. lia. }
    assert (0 < 2 ^ (e - 7)) as Hc by (apply Z.pow_pos_nonneg; lia).
    rewrite copy_chuncks_eq in H. rewrite Hcg in H. cbn [mbind result_bind rbind] in H.
    assert (arys_t.size cg = 2 ^ e) as Hcgsize
      by (destruct Hsame as (_ & _ & -> & _); done).
    rewrite (get_chunck_pow2 cg e j Hcgsize He Hcursor ltac:(lia)) in H.
    cbv zeta in H.
    destruct (refcount_inv_pending_below _ _ _ _ carys Hinv Hin) as [Hlt Hle].
    unfold settled in Hset.
    assert (heap.objs (mem s) !! carys = Some cg) as Hobj by (by apply heap_lookup_Done).
    pose proof (refcount_inv_store _ _ _ _ _ _ (arys_t.set_copy_chunck cg (Z.of_nat (S j)))
                  Hinv Hobj eq_refl eq_refl) as Hinv1.
    set (s1 := set_mem s (heap.store (mem s) carys
                            (arys_t.set_copy_chunck cg (Z.of_nat (S j))))) in *.
    assert (shows s1 (value_upto og (Z.to_nat (Z.of_nat j * 2 ^ (e - 7))))) as Hshows1
      by (apply head_shows_store_other; [lia|done]).
    assert (∀ a, a ≠ carys -> kept s s1 a) as Hkept1
      by (intros a Ha; by apply kept_store_other).
    destruct (Nat.leb_spec 128 j) as [Hge|Hlt128].
    + injection H as <- <-. split_and!; [done | done | | by intros; apply Hkept1].
      eapply head_shows_ext; [|exact Hshows1]. intros p.
      assert (j = 128%nat) as -> by lia.
      replace (Z.of_nat 128 * 2 ^ (e - 7)) with (arys_t.size og) by lia.
      apply value_upto_all.
    + apply bind_Done in H as ([s2 h2] & Hslots & H).
      assert (same_content og (arys_t.set_copy_chunck cg (Z.of_nat (S j)))) as Hsame1
        by (destruct Hsame as (? & ? & ? & ?); by repeat split).
      destruct (IHslots s1 h carys (Z.of_nat j * 2 ^ (e - 7))
                  (Z.of_nat j * 2 ^ (e - 7) + 2 ^ (e - 7)) P og
                  (arys_t.set_copy_chunck cg (Z.of_nat (S j))) s2 h2)
        as (Hset2 & Hok2 & Hshows2 & Hkept2);
        [exact Hinv1 | done | done | done | done | apply heap_lookup_store | exact Hsame1
        | nia | nia | done | exact Hslots |].
      destruct (RCslots _ _ _ _ _ _ _ _ Hslots Hinv1 Hset) as [Hinv2 _].
      destruct (Hkept2 carys Hin _ (heap_lookup_store _ _ _))
        as (cg2 & Hcg2 & Hsame2 & Hcursor2).
      destruct (IHchuncks s2 h2 carys (S j) P og cg2 e s' h')
        as (Hset' & Hok' & Hshows' & Hkept');
        [exact Hinv2 | done | done | done | done | done | done | done
        | by eapply same_content_trans | by rewrite Hcursor2 | lia | | exact H |].
      { by replace (Z.of_nat (S j) * 2 ^ (e - 7))
          with (Z.of_nat j * 2 ^ (e - 7) + 2 ^ (e - 7)) by lia. }
      split_and!; [done..|].
      intros a Ha Hne.
      eapply kept_trans; [by apply Hkept1|].
      eapply kept_trans; [by apply Hkept2|]. by apply Hkept'.
  - (* copy_slots *)
    intros s h carys i end_ P og cg s' h' Hinv Hok Hset Hin Hfit Hcg Hsame Hi Hend
      Hshows H.
    pose proof Hfit as (Hcount & Hbig & HL & Hlen & Hcursor).
    pose proof Hcount as (Hogwf & _).
    pose proof Hogwf as (Hsz & Hogpow & Hogmax & _ & Hogkeys & _).
    rewrite copy_slots_eq in H.
    destruct (Z.ltb_spec i end_) as [Hlt|Hge].
    2:{ injection H as <- <-. replace end_ with i by lia.
        split_and!; [done..|]. intros a _. apply kept_refl. }
    rewrite Hcg in H. cbn [mbind result_bind rbind] in H.
    rewrite <- (arys_get_ext og cg) in H
      by (destruct Hsame as (? & ? & _); done).
    rewrite <- (Z2Nat.id i) in H at 1 by lia.
    rewrite arys_get_slot_pair in H by (by eapply arys_wf_counters_backed).
    cbn [mbind result_bind rbind] in H.
    assert (u64 (i + 1) = i + 1) as Hnext by (unfold u64; apply Z.mod_small; lia).
    rewrite Hnext in H.
    assert (Z.to_nat (i + 1) = S (Z.to_nat i)) as HS by lia.
    destruct (slot_pair og (Z.to_nat i)) as [[p c]|] eqn:Hslot.
    + apply bind_Done in H as ([s1 h1] & Hadd & H).
      assert (small_packed_array.get (arys_t.keys og) i = Some p) as Hkey.
      { unfold slot_pair in Hslot. rewrite Z2Nat.id in Hslot by lia.
        destruct (small_packed_array.get _ _) as [q|]; [|done]. cbn in Hslot.
        destruct (_ !! _) as [c'|]; [|done]. cbn in Hslot. by injection Hslot as -> _. }
      assert (0 <= p < 2 ^ (K - 1)) as Hp
        by (rewrite <- Hlen; by eapply packed_get_valid).
      destruct (IHouter s h p c 0 (thread_hash_counter.max_reprobe h) P
                  (value_upto og (Z.to_nat i)) s1 h1)
        as (Hset1 & Hok1 & Hshows1 & Hkept1);
        [exact Hinv | done | apply Hok | by left | done | done | exact Hadd |].
      destruct (RCouter _ _ _ _ _ _ _ _ _ _ Hadd Hinv) as [Hinv1 _].
      destruct (Hkept1 carys Hin _ Hcg) as (cg1 & Hcg1 & Hsame1 & Hcursor1).
      destruct (IHslots s1 h1 carys (i + 1) end_ P og cg1 s' h')
        as (Hset' & Hok' & Hshows' & Hkept');
        [exact Hinv1 | done | done | done | done | done | by eapply same_content_trans
        | lia | done | | exact H |].
      { rewrite HS. eapply head_shows_ext; [|exact Hshows1].
        intros q. by eapply counted_in_value_upto. }
      split_and!; [done..|].
      intros a Ha. eapply kept_trans; [by apply Hkept1|by apply Hkept'].
    + eapply IHslots; [exact Hinv | done | done | done | done | exact Hcg | done
                      | | done | | exact H]; [lia|].
      rewrite HS. eapply head_shows_ext; [|exact Hshows].
      intros q. rewrite value_upto_S, Hslot. by destruct (value_upto og (Z.to_nat i) q).
  - (* copy_over *)
    intros s h carys P og cg s' h' Hinv Hok Hset Hin Hfit Hcg Hsame Hcursor Hshows H.
    rewrite copy_over_eq in H.
    apply bind_Done in H as (? & _ & H).
    destruct (fit_gen_exp _ _ _ _ _ Hfit) as (e & Hsize & He).
    eapply (IHchuncks s h carys 0%nat P og cg e);
      [done | done | done | done | done | done | done | done | done | done | lia
      | | exact H].
    by replace (Z.to_nat (Z.of_nat 0 * 2 ^ (e - 7))) with 0%nat by lia.
Qed.

End CountsFrame.

(** The table the constructors make over zero-filled memory, for at
    least 128 slots, is ready for counting through resizes. *)
Lemma new_table_fit sK sz alloc L K _size maxr nb s0 s1 h1 :
  1 <= sz < 2 ^ 62 -> calloc_like sz L alloc -> 1 <= K ->
  128 <= _size -> sz * _size < 2 ^ 62 -> 0 <= maxr < 2 ^ 32 - 1 ->
  concurrent_hash_counter.new sz alloc K _size maxr nb = Done s0 ->
  thread_hash_counter.new s0 = Done (s1, h1) ->
  handle_ok K s1 h1 ∧ head_shows sK sz L K s1 (λ _, None).
Proof.
  intros Hsz Halloc HK Hsize0 Hsize Hmaxr H0 H1.
  unfold concurrent_hash_counter.new, thread_hash_counter.new_arys in H0.
  apply bind_Done in H0 as ([a m] & Hnew & H0).
  apply bind_Done in Hnew as (g & Hg & Hnew). injection Hnew as <- <-.
  apply bind_Done in H0 as (g0 & Hg0 & H0). apply heap_lookup_Done in Hg0.
  cbn in Hg0. rewrite lookup_insert_eq in Hg0. injection Hg0 as <-.
  injection H0 as <-.
  unfold thread_hash_counter.new in H1. cbn [mem root root_key_val_arys] in H1.
  rewrite heap_lookup_store in H1. cbn [mbind result_bind rbind] in H1.
  injection H1 as <- <-. split; [done|].
  eexists. split; [apply heap_lookup_store|].
  assert (_size <= 2 ^ 63) as Hle by nia.
  destruct (round_up_spec arys_t.round_up_steps 0 _size)
    as (e & He & Heq & HleS & Hmin); [lia | lia | unfold arys_t.round_up_steps; lia |].
  change (2 ^ 0) with 1 in Heq.
  assert (0 < 2 ^ e) as Hpos by (apply Z.pow_pos_nonneg; lia).
  assert (sz * 2 ^ e < 2 ^ 63) as Hfit.
  { destruct (decide (e = 0)) as [->|Hne]; [change (2 ^ 0) with 1; lia|].
    specialize (Hmin ltac:(lia)).
    assert (2 ^ e = 2 * 2 ^ (e - 1)) as ->
      by (rewrite <- Z.pow_succ_r by lia; f_equal; lia).
    nia. }
  assert (sz * 2 ^ e / sz = 2 ^ e) as Hq
    by (rewrite Z.mul_comm; apply Z.div_mul; lia).
  assert (arys_t.size g = 2 ^ e ∧ arys_t.mod_mask g = 2 ^ e - 1
          ∧ arys_t.keys g = small_packed_array.new K (2 ^ e)
          ∧ arys_t.copy_chunck g = 0
          ∧ arys_t.vals g = replicate (Z.to_nat (2 ^ e)) 0
          ∧ sz * 2 ^ e <= L)
    as (Hgsize & Hgmask & Hgkeys & Hgcursor & Hgvals & HgL).
  { unfold arys_t.new in Hg. rewrite Heq in Hg.
    destruct (alloc _) as [vals|] eqn:Hvals; [|done]. injection Hg as <-.
    destruct (Halloc _ _ (proj1 (Z.mod_pos_bound _ (2 ^ 64) eq_refl)) Hvals)
      as [Hn ->].
    unfold u64 in Hn |- *. rewrite (Z.mod_small (sz * 2 ^ e)) in * by nia.
    cbn [arys_t.size arys_t.mod_mask arys_t.keys arys_t.vals arys_t.copy_chunck].
    rewrite Hq. split_and!; [done | rewrite Z.mod_small; lia | done..]. }
  assert (∀ i, small_packed_array.get
                 (arys_t.keys (arys_t.ref_inc (arys_t.ref_inc g).2).2) i = None) as Hempty.
  { intros i. cbn. by rewrite Hgkeys, packed_new_get. }
  split; [|intros k; unfold value_of, occupied_pairs; rewrite omap_all_None; [done|];
           intros i; unfold slot_pair; by rewrite Hempty].
  split_and!.
  - split; [|split; [|split]].
    + unfold arys_wf. cbn [arys_t.ref_inc snd arys_t.set_count arys_t.size arys_t.keys
                            arys_t.vals].
      rewrite Hgsize, Hgkeys, Hgvals.
      split_and!; try done; try lia.
      * exists e. split; [lia|done].
      * unfold small_packed_array.wf, small_packed_array.new.
        cbn [small_packed_array.item_len small_packed_array.size small_packed_array.cells].
        split_and!; [done| |].
        -- rewrite length_replicate. lia.
        -- apply Forall_replicate. by intros p [=].
      * rewrite length_replicate. lia.
      * apply Forall_replicate. pose proof (Val_modulus_pos sz). lia.
    + cbn. by rewrite Hgmask, Hgsize.
    + intros j p Hj. by rewrite Hempty in Hj.
    + intros j c _ _ Hc. cbn in Hc. rewrite Hgvals in Hc.
      by apply lookup_replicate in Hc as [-> _].
  - cbn. rewrite Hgsize. lia.
  - cbn. by rewrite Hgsize.
  - cbn. by rewrite Hgkeys.
  - done.
Qed.


Lemma head_shows_range sK sz L K s F k :
  head_shows sK sz L K s F -> 0 <= default 0 (F k) < Val_modulus sz.
Proof.
  intros (g & _ & ((Hwf & _ & Hpath & _) & _) & Hvals). rewrite <- Hvals.
  by eapply value_of_range.
Qed.

(** A run of [add] calls counts exactly, resizes or not. *)
Lemma add_all_counts_always sK sz alloc L K fuel :
  1 <= sz -> L < 2 ^ 63 -> calloc_like sz L alloc ->
  ∀ ops s h F s' h',
  refcount_inv None [] (thread_hash_counter.key_val_arys h) s -> settled s h ->
  handle_ok K s h -> head_shows sK sz L K s F ->
  Forall (λ op : Z * Z, 0 <= op.1 < 2 ^ (K - 1) ∧ 0 <= op.2) ops ->
  (∀ k, default 0 (F k) + default 0 (tally ops k) <= ALL_ONES sz) ->
  add_all sK sz alloc fuel s h ops = Done (s', h') ->
  head_shows sK sz L K s' (λ p, counted (F p) (tally ops p)).
Proof.
  intros Hsz HL Halloc.
  induction ops as [|[k v] ops IH]; intros s h F s' h' Hinv Hset Hok Hshows Hops Hfit H;
    cbn [add_all] in H.
  { by injection H as <- <-. }
  apply bind_Done in H as ([s1 h1] & Hadd & H).
  apply Forall_cons in Hops as [[Hk Hv] Hops]. cbn [fst snd] in Hk, Hv.
  assert (Forall (λ op : Z * Z, 0 <= op.2) ops) as Hvs
    by (eapply Forall_impl; [exact Hops|]; by intros ? [_ ?]).
  destruct (proj1 (handle_counts_frame sK sz alloc L K Hsz HL Halloc fuel)
              s h k v 0 (thread_hash_counter.max_reprobe h) [] F s1 h1)
    as (Hset1 & Hok1 & Hshows1 & _);
    [done | done | apply Hok | by left | done | done | exact Hadd |].
  destruct (add_refcount_inv _ _ _ _ _ _ _ _ _ _ _ Hadd Hinv) as [Hinv1 _].
  pose proof (head_shows_range _ _ _ _ _ _ k Hshows) as Hc.
  pose proof (tally_nonneg ops k Hvs) as Ht.
  pose proof (Hfit k) as Hfitk. cbn [tally] in Hfitk.
  rewrite decide_True in Hfitk by done. cbn [from_option id] in Hfitk.
  assert (arys_t.add_loop sz [] (default 0 (F k)) v = default 0 (F k) + v) as Hsum.
  { rewrite add_loop_nil by (unfold ALL_ONES in *; lia).
    destruct (Z.eqb_spec (default 0 (F k)) (ALL_ONES sz)); [lia|].
    destruct (Z.ltb_spec (ALL_ONES sz - default 0 (F k)) v); [lia|done]. }
  specialize (IH s1 h1 (counted_in sz F k v) s' h' Hinv1 Hset1 Hok1 Hshows1 Hops).
  eapply head_shows_ext; [|apply IH; [|exact H]].
  - intros p. cbn [tally]. unfold counted_in.
    destruct (decide (p = k)) as [->|Hne].
    + rewrite decide_True by done. rewrite Hsum. unfold counted.
      destruct (tally ops k) as [t|]; cbn [from_option id]; f_equal; lia.
    + by rewrite decide_False by done.
  - intros p. unfold counted_in. destruct (decide (p = k)) as [->|Hne].
    + rewrite Hsum. cbn [from_option id]. lia.
    + specialize (Hfit p). cbn [tally] in Hfit.
      by rewrite decide_False in Hfit by done.
Qed.

(** X23: a table of at least 128 slots counts exactly.  For a table made
    by the constructors with a zero-filling allocator that refuses more
    than [limit < 2 ^ 63] bytes, after any run of [add] calls through
    one handle that returns, resizes or not, with keys of at most
    [K - 1] bits and values whose sum for a key fits a counter, the value
    looked up for a key is the sum of the values added for it, and a key
    never added is not found. *)
Theorem table_counts_exactly
    sizeof_Key sizeof_Val alloc limit _key_len _size _max_reprobe nb_threads
    fuel ops s0 s1 h1 s h :
  1 <= sizeof_Val < 2 ^ 62 -> limit < 2 ^ 63 -> calloc_like sizeof_Val limit alloc ->
  1 <= _key_len -> 128 <= _size -> sizeof_Val * _size < 2 ^ 62 ->
  0 <= _max_reprobe < 2 ^ 32 - 1 ->
  concurrent_hash_counter.new sizeof_Val alloc _key_len _size _max_reprobe nb_threads
    = Done s0 ->
  thread_hash_counter.new s0 = Done (s1, h1) ->
  add_all sizeof_Key sizeof_Val alloc fuel s1 h1 ops = Done (s, h) ->
  Forall (λ op : Z * Z, 0 <= op.1 < 2 ^ (_key_len - 1) ∧ 0 <= op.2) ops ->
  (∀ k t, tally ops k = Some t -> t <= ALL_ONES sizeof_Val) ->
  ∀ k, stored_value s k = Done (tally ops k).
Proof.
  intros Hsz HL Halloc HK Hsize0 Hsize Hmaxr Hnew Hhandle Hadds Hops Hfit k.
  destruct (new_table_inv _ _ _ _ _ _ _ _ _ Hnew Hhandle) as [Hinv1 Hset1].
  destruct (new_table_fit sizeof_Key _ _ limit _ _ _ _ _ _ _ Hsz Halloc HK Hsize0 Hsize
              Hmaxr Hnew Hhandle) as [Hok1 Hshows1].
  destruct (add_all_counts_always sizeof_Key sizeof_Val alloc limit _key_len fuel
              ltac:(lia) HL Halloc ops s1 h1 (λ _, None) s h)
    as (g & Hg & Hgfit & Hvals); [done | done | done | done | done | | done |].
  { intros k'. cbn [from_option id].
    destruct (tally ops k') as [t|] eqn:Ht; cbn [from_option id].
    - specialize (Hfit _ _ Ht). lia.
    - unfold ALL_ONES. pose proof (Val_modulus_pos sizeof_Val). lia. }
  rewrite (stored_value_head sizeof_Val _ g) by (done || apply Hgfit).
  f_equal. rewrite Hvals. unfold counted. by destruct (tally ops k).
Qed.

Lemma table_counts_exactly_witness :
  root_key_val_arys (root (fst wide_run)) = 1%nat
  ∧ stored_value (fst wide_run) 4 = Done (Some 8)
  ∧ stored_value (fst wide_run) 11 = Done (Some 1)
  ∧ stored_value (fst wide_run) 5 = Done None.
Proof.
  assert (∀ k, stored_value (fst wide_run) k = Done (tally wide_ops k)) as H.
  { apply (table_counts_exactly 8 4 (bounded_alloc 4 4096) 4096 64 128 0 1 2000 wide_ops
             wide_root (fst wide_start) (snd wide_start) (fst wide_run) (snd wide_run)).
    - lia.
    - lia.
    - apply bounded_alloc_calloc.
    - lia.
    - lia.
    - lia.
    - lia.
    - vm_compute. reflexivity.
    - vm_compute. reflexivity.
    - vm_compute. reflexivity.
    - repeat constructor; vm_compute; congruence.
    - intros k t. unfold wide_ops. cbn [tally].
      repeat case_decide; intros [= <-]; vm_compute; congruence. }
  split; [vm_compute; reflexivity|].
  split_and!; rewrite H; vm_compute; reflexivity.
Defined.


(** ** The slots [add] and [copy_over] index *)

Lemma checked_add_outer_eq sK sz alloc fuel s h k v hash reprobe emax :
  checked.add_outer sK sz alloc (S fuel) s h k v hash reprobe emax =
    let carys := root_key_val_arys (root s) in
    if negb (Nat.eqb carys (thread_hash_counter.key_val_arys h)) then
      let oarys := thread_hash_counter.key_val_arys h in
      cg ← heap.lookup (mem s) carys;
      let s1 := set_mem s (heap.store (mem s) carys (snd (arys_t.ref_inc cg))) in
      let h1 := thread_hash_counter.set_key_val_arys h carys in
      '(s2, h2) ← checked.copy_over sK sz alloc fuel s1 h1 oarys;
      m3 ← thread_hash_counter.release fuel (mem s2) (Some oarys);
      checked.add_outer sK sz alloc fuel (set_mem s2 m3) h2 k v hash 0 emax
    else
      cg ← heap.lookup (mem s) carys;
      checked.add_probe sK sz alloc fuel s h k v hash carys
        (Z.land hash (arys_t.mod_mask cg)) reprobe emax.
Proof. reflexivity. Qed.

Lemma checked_add_probe_eq sK sz alloc fuel s h k v hash carys idx reprobe emax :
  checked.add_probe sK sz alloc (S fuel) s h k v hash carys idx reprobe emax =
    cg ← heap.lookup (mem s) carys;
    '(ok, cg') ← checked.arys_add sz cg idx k v;
    if (ok : bool) then Done (set_mem s (heap.store (mem s) carys cg'), h)
    else
      let reprobe := u32 (reprobe + 1) in
      if reprobe >? emax then
        '(resized, s1) ← thread_hash_counter.resize sz alloc s h carys false;
        if (resized : bool)
        then checked.add_outer sK sz alloc fuel s1 h k v hash reprobe emax
        else if emax >? thread_hash_counter.max_reprobe h then
          '(_, s2) ← thread_hash_counter.resize sz alloc s1 h carys true;
          checked.add_outer sK sz alloc fuel s2 h k v hash reprobe emax
        else
          let emax := u32 (4 * thread_hash_counter.max_reprobe h) in
          cg1 ← heap.lookup (mem s1) carys;
          checked.add_probe sK sz alloc fuel s1 h k v hash carys
            (thread_hash_counter.reprobe_idx idx reprobe (arys_t.mod_mask cg1))
            reprobe emax
      else
        checked.add_probe sK sz alloc fuel s h k v hash carys
          (thread_hash_counter.reprobe_idx idx reprobe (arys_t.mod_mask cg))
          reprobe emax.
Proof. reflexivity. Qed.

Lemma checked_copy_chuncks_eq sK sz alloc fuel s h carys :
  checked.copy_chuncks sK sz alloc (S fuel) s h carys =
    cg ← heap.lookup (mem s) carys;
    let '(cg', chunck) := arys_t.get_chunck cg in
    let s1 := set_mem s (heap.store (mem s) carys cg') in
    match chunck with
    | None => Done (s1, h)
    | Some (start, end_) =>
        '(s2, h2) ← checked.copy_slots sK sz alloc fuel s1 h carys start end_;
        checked.copy_chuncks sK sz alloc fuel s2 h2 carys
    end.
Proof. reflexivity. Qed.

Lemma checked_copy_slots_eq sK sz alloc fuel s h carys i end_ :
  checked.copy_slots sK sz alloc (S fuel) s h carys i end_ =
    if i <? end_ then
      cg ← heap.lookup (mem s) carys;
      r ← checked.arys_get cg i;
      match r with
      | Some (ckey, cval) =>
          '(s1, h1) ← checked.add_outer sK sz alloc fuel s h ckey cval
                         (thread_hash_counter.hash_key sK ckey) 0
                         (thread_hash_counter.max_reprobe h);
          checked.copy_slots sK sz alloc fuel s1 h1 carys (u64 (i + 1)) end_
      | None => checked.copy_slots sK sz alloc fuel s h carys (u64 (i + 1)) end_
      end
    else Done (s, h).
Proof. reflexivity. Qed.

Lemma checked_copy_over_eq sK sz alloc fuel s h carys :
  checked.copy_over sK sz alloc (S fuel) s h carys =
    _ ← thread_hash_counter.barrier_wait s;
    checked.copy_chuncks sK sz alloc fuel s h carys.
Proof. reflexivity. Qed.

(** Two runs that go the same way, step by step. *)
Lemma agree_bind {A B} (Q : A -> Prop) (R : B -> Prop)
    (r1 r2 : result A) (f1 f2 : A -> result B) :
  r1 = r2 ∧ (∀ a, r2 = Done a -> Q a) ->
  (∀ a, r2 = Done a -> Q a -> f1 a = f2 a ∧ ∀ b, f2 a = Done b -> R b) ->
  (r1 ≫= f1) = (r2 ≫= f2) ∧ ∀ b, r2 ≫= f2 = Done b -> R b.
Proof.
  intros [-> HQ] Hf. destruct r2 as [a| | | | |]; cbn; try (split; [done|]; done).
  apply Hf; [done|]. by apply HQ.
Qed.

Lemma sized_store F m a g g' :
  sized F m -> heap.objs m !! a = Some g ->
  arys_t.size g' = arys_t.size g -> arys_t.mod_mask g' = arys_t.mod_mask g ->
  sized F (heap.store m a g').
Proof.
  intros Hs Hg Hsize Hmask a' g0. cbn.
  destruct (decide (a = a')) as [<-|Hne].
  - rewrite lookup_insert_eq. intros [= <-]. rewrite Hsize, Hmask. by apply Hs.
  - rewrite lookup_insert_ne by done. apply Hs.
Qed.

Lemma sized_delete F m a : sized F m -> sized F (heap.delete m a).
Proof.
  intros Hs a' g. cbn. destruct (decide (a = a')) as [<-|Hne].
  - by rewrite lookup_delete_eq.
  - rewrite lookup_delete_ne by done. apply Hs.
Qed.

Lemma release_sized F fuel : ∀ m cary m',
  sized F m -> thread_hash_counter.release fuel m cary = Done m' -> sized F m'.
Proof.
  induction fuel as [|fuel IH]; intros m cary m' Hs H; [done|].
  rewrite release_eq in H. destruct cary as [a|]; [|done].
  apply bind_Done in H as (g & Hg%heap_lookup_Done & H). cbn in H.
  destruct (_ =? 0).
  - eapply IH; [|exact H]. by apply sized_delete.
  - injection H as <-. by eapply sized_store.
Qed.

Lemma arys_add_mod_mask sz intf g idx key val ok g' :
  arys_t.add sz intf g idx key val = Done (ok, g') ->
  arys_t.mod_mask g' = arys_t.mod_mask g.
Proof.
  unfold arys_t.add. destruct (small_packed_array.set _ _ _) as [[] keys']; cbn.
  - destruct (arys_t.vals g !! Z.to_nat idx); [|done]. by intros [= <- <-].
  - by intros [= <- <-].
Qed.

(** The chunks [get_chunck] hands out lie within the generation. *)
Lemma get_chunck_within g g' start end_ :
  0 <= arys_t.size g ->
  arys_t.get_chunck g = (g', Some (start, end_)) ->
  0 <= start ∧ end_ <= arys_t.size g.
Proof.
  intros Hsize. unfold arys_t.get_chunck.
  destruct (_ >=? 128); [done|]. intros [= <- <- <-]. split.
  - unfold u64. apply Z.mod_pos_bound. done.
  - destruct (Z.gtb_spec (u64 (u64 (arys_t.copy_chunck g * Z.shiftr (arys_t.size g) 7)
                                 + Z.shiftr (arys_t.size g) 7)) (arys_t.size g)); lia.
Qed.

Lemma get_chunck_geometry g g' c :
  arys_t.get_chunck g = (g', c) ->
  arys_t.size g' = arys_t.size g ∧ arys_t.mod_mask g' = arys_t.mod_mask g
  ∧ arys_t.keys g' = arys_t.keys g ∧ arys_t.vals g' = arys_t.vals g.
Proof. unfold arys_t.get_chunck. destruct (_ >=? _); by intros [= <- <-]. Qed.

Section Bounds.

Variables sizeof_Key sizeof_Val : Z.
Variable alloc : Z -> option (list Z).
Variable limit : Z.

(** The number of slots of each generation: twice that of the
    generation before. *)
Variable F : nat -> Z.

Hypothesis sizeof_Val_pos : 1 <= sizeof_Val.
Hypothesis limit_small : limit < 2 ^ 63.
Hypothesis alloc_honest : alloc_ok sizeof_Val limit alloc.
Hypothesis F_doubles : ∀ a, F (S a) = 2 * F a.

#[local] Abbreviation add_outer := (thread_hash_counter.add_outer sizeof_Key sizeof_Val alloc).
#[local] Abbreviation add_probe := (thread_hash_counter.add_probe sizeof_Key sizeof_Val alloc).
#[local] Abbreviation copy_chuncks := (thread_hash_counter.copy_chuncks sizeof_Key sizeof_Val alloc).
#[local] Abbreviation copy_slots := (thread_hash_counter.copy_slots sizeof_Key sizeof_Val alloc).
#[local] Abbreviation copy_over := (thread_hash_counter.copy_over sizeof_Key sizeof_Val alloc).
#[local] Abbreviation cadd_outer := (checked.add_outer sizeof_Key sizeof_Val alloc).
#[local] Abbreviation cadd_probe := (checked.add_probe sizeof_Key sizeof_Val alloc).
#[local] Abbreviation ccopy_chuncks := (checked.copy_chuncks sizeof_Key sizeof_Val alloc).
#[local] Abbreviation ccopy_slots := (checked.copy_slots sizeof_Key sizeof_Val alloc).
#[local] Abbreviation ccopy_over := (checked.copy_over sizeof_Key sizeof_Val alloc).
#[local] Abbreviation kva := thread_hash_counter.key_val_arys.
#[local] Abbreviation ok_heap := (heap_ok sizeof_Val limit).

(** The generation [resize] makes has twice the slots of the head, and
    the mask of that size. *)
Lemma new_arys_geometry K cg g :
  arys_wf sizeof_Val cg -> sizeof_Val * arys_t.size cg <= limit ->
  arys_t.new sizeof_Val alloc K (u64 (Z.shiftl (arys_t.size cg) 1)) = Done g ->
  arys_t.size g = 2 * arys_t.size cg ∧ arys_t.mod_mask g = 2 * arys_t.size cg - 1.
Proof.
  intros (_ & Hpow & _ & _) HL. unfold arys_t.new.
  pose proof (is_pow2_pos _ Hpow) as Hpos.
  assert (arys_t.size cg <= sizeof_Val * arys_t.size cg) as Hsz1 by nia.
  assert (arys_t.size cg < 2 ^ 63) as Hlt by lia.
  rewrite Z.shiftl_mul_pow2 by lia. change (2 ^ 1) with 2.
  unfold u64 at 1. rewrite Z.mod_small by lia.
  assert (is_pow2 (arys_t.size cg * 2)) as Hpow2.
  { destruct Hpow as (e & He & Heq). exists (e + 1). split; [lia|].
    rewrite Z.pow_add_r, Heq by lia. lia. }
  assert (arys_t.size cg * 2 <= 2 ^ 63) as Hdouble.
  { destruct Hpow as (e & He & Heq).
    assert (e < 63).
    { destruct (Z.le_gt_cases 63 e) as [Hge|]; [|done].
      apply (Z.pow_le_mono_r 2) in Hge; lia. }
    rewrite Heq, Z.mul_comm, <- Z.pow_succ_r by lia.
    apply Z.pow_le_mono_r; lia. }
  rewrite round_up_pow2 by done.
  destruct (alloc _) as [vals|]; [|done].
  intros [= <-]. cbn [arys_t.size arys_t.mod_mask].
  split; [lia|]. unfold u64. rewrite Z.mod_small by lia. lia.
Qed.

Lemma resize_sized P c s h block r s' :
  refcount_inv None P c s -> ok_heap (mem s) -> sized F (mem s) ->
  thread_hash_counter.resize sizeof_Val alloc s h (root_key_val_arys (root s)) block
    = Done (r, s') ->
  sized F (mem s').
Proof.
  intros Hinv Hok Hs H. unfold thread_hash_counter.resize in H.
  destruct (root_resize_lock (root s)).
  { destruct block; [done|]. by injection H as <- <-. }
  rewrite Nat.eqb_refl in H. cbn [negb] in H.
  unfold thread_hash_counter.new_arys in H.
  apply bind_Done in H as (cg & Hcg%heap_lookup_Done & H).
  apply bind_Done in H as ([narys m1] & H1 & H).
  apply bind_Done in H1 as (g & Hg & H1).
  apply bind_Done in H1 as (pg & Hpg%heap_lookup_Done & H1).
  assert (pg = cg) as -> by congruence.
  cbn in H1. injection H1 as <- <-.
  apply bind_Done in H as (ng & Hng%heap_lookup_Done & H).
  apply bind_Done in H as (cg' & Hcg'%heap_lookup_Done & H).
  injection H as <- <-. cbn [mem set_head set_mem].
  destruct Hinv as (lo & Hlo & Hbrk & _).
  destruct (Hok _ _ Hcg) as [Hwf HL].
  destruct (new_arys_geometry _ _ _ Hwf HL Hg) as [Hgsize Hgmask].
  destruct (Hs _ _ Hcg) as [Hcsize Hcmask].
  eapply sized_store; [|exact Hcg'|done|done].
  eapply sized_store; [|exact Hng|done|done].
  eapply (sized_store _ _ _ cg); [| |done|done].
  - intros a' g0. cbn [heap.objs].
    destruct (decide (heap.brk (mem s) = a')) as [<-|Hne].
    + rewrite lookup_insert_eq. intros [= <-]. cbn.
      rewrite Hbrk, F_doubles, <- Hcsize. lia.
    + rewrite lookup_insert_ne by done. apply Hs.
  - cbn [heap.objs]. rewrite lookup_insert_ne by lia. done.
Qed.

(** With the counts right, every generation well-formed and of its
    size, the checks never fail: the checked run goes the way of the
    unchecked one, and leaves every generation of its size. *)
Lemma handle_bounds_frame (fuel : nat) :
  (∀ s h k v hash reprobe emax P,
      refcount_inv None P (kva h) s -> ok_heap (mem s) -> sized F (mem s) ->
      1 <= thread_hash_counter.key_len h ->
      cadd_outer fuel s h k v hash reprobe emax
        = add_outer fuel s h k v hash reprobe emax
      ∧ ∀ r, add_outer fuel s h k v hash reprobe emax = Done r -> sized F (mem r.1))
  ∧ (∀ s h k v hash carys idx reprobe emax P,
      refcount_inv None P (kva h) s -> ok_heap (mem s) -> sized F (mem s) ->
      1 <= thread_hash_counter.key_len h ->
      carys = root_key_val_arys (root s) -> settled s h ->
      0 <= idx < F carys ->
      cadd_probe fuel s h k v hash carys idx reprobe emax
        = add_probe fuel s h k v hash carys idx reprobe emax
      ∧ ∀ r, add_probe fuel s h k v hash carys idx reprobe emax = Done r ->
             sized F (mem r.1))
  ∧ (∀ s h carys P,
      refcount_inv None P (kva h) s -> ok_heap (mem s) -> sized F (mem s) ->
      1 <= thread_hash_counter.key_len h ->
      carys ∈ P -> settled s h ->
      ccopy_chuncks fuel s h carys = copy_chuncks fuel s h carys
      ∧ ∀ r, copy_chuncks fuel s h carys = Done r -> sized F (mem r.1))
  ∧ (∀ s h carys i end_ P,
      refcount_inv None P (kva h) s -> ok_heap (mem s) -> sized F (mem s) ->
      1 <= thread_hash_counter.key_len h ->
      carys ∈ P -> settled s h ->
      0 <= i -> end_ <= F carys ->
      ccopy_slots fuel s h carys i end_ = copy_slots fuel s h carys i end_
      ∧ ∀ r, copy_slots fuel s h carys i end_ = Done r -> sized F (mem r.1))
  ∧ (∀ s h carys P,
      refcount_inv None P (kva h) s -> ok_heap (mem s) -> sized F (mem s) ->
      1 <= thread_hash_counter.key_len h ->
      carys ∈ P -> settled s h ->
      ccopy_over fuel s h carys = copy_over fuel s h carys
      ∧ ∀ r, copy_over fuel s h carys = Done r -> sized F (mem r.1)).
Proof.
  induction fuel as [|fuel (IHouter & IHprobe & IHchuncks & IHslots & IHover)].
  { repeat split; intros; discriminate. }
  pose proof (handle_refcount_frame sizeof_Key sizeof_Val alloc fuel)
    as (RCouter & RCprobe & RCchuncks & RCslots & RCover).
  pose proof (handle_limits_frame sizeof_Key sizeof_Val alloc fuel)
    as (LMouter & LMprobe & LMchuncks & LMslots & LMover).
  pose proof (handle_safe_frame sizeof_Key sizeof_Val alloc limit
                sizeof_Val_pos limit_small alloc_honest fuel)
    as (SFouter & SFprobe & SFchuncks & SFslots & SFover).
  split; [|split; [|split; [|split]]].
  - intros s h k v hash reprobe emax P Hinv Hok Hs HK.
    rewrite add_outer_eq, checked_add_outer_eq. cbv zeta.
    destruct (refcount_inv_live _ _ _ _ (root_key_val_arys (root s)) Hinv)
      as (cg & Hcg); [by left|].
    assert (heap.lookup (mem s) (root_key_val_arys (root s)) = Done cg) as Hl
      by (by apply heap_lookup_Done).
    rewrite Hl. cbn [mbind result_bind rbind].
    destruct (Nat.eqb_spec (root_key_val_arys (root s)) (kva h)) as [Heq|Hne];
      cbn [negb].
    + eapply IHprobe; [exact Hinv|done|done|done|done|done|].
      destruct (Hok _ _ Hcg) as [(_ & (e & He & Hsize) & _) _].
      destruct (Hs _ _ Hcg) as [HF Hmask].
      rewrite Hmask, <- HF, Hsize, land_mask by done.
      apply Z.mod_pos_bound. by apply Z.pow_pos_nonneg.
    + pose proof (switch_inv _ _ _ _ Hinv Hne Hcg) as Hinv1.
      assert (ok_heap (mem (set_mem s (heap.store (mem s) (root_key_val_arys (root s))
                                         (arys_t.ref_inc cg).2)))) as Hok1
        by (by eapply heap_ok_store_ext).
      assert (sized F (mem (set_mem s (heap.store (mem s) (root_key_val_arys (root s))
                                         (arys_t.ref_inc cg).2)))) as Hs1
        by (by eapply sized_store).
      eapply (agree_bind (λ r, sized F (mem r.1))).
      { eapply IHover; [exact Hinv1 | exact Hok1 | exact Hs1 | done | by left | done]. }
      intros [s2 h2] Hcopy Hs2. cbn [fst] in Hs2.
      destruct (RCover _ _ _ _ _ _ Hcopy Hinv1 eq_refl) as [Hinv2 Hset2].
      destruct (LMover _ _ _ _ _ Hcopy) as (_ & _ & HK2). cbn in HK2.
      pose proof (SFover _ (thread_hash_counter.set_key_val_arys h
                               (root_key_val_arys (root s))) _ _
                    Hinv1 Hok1 HK (list_elem_of_here _ _) eq_refl) as Hok2.
      rewrite Hcopy in Hok2. cbn [no_fault fst] in Hok2.
      eapply (agree_bind (λ m, sized F m ∧ ok_heap m)).
      { split; [done|]. intros m3 Hrel. split; [by eapply release_sized|].
        pose proof (release_no_fault sizeof_Val limit fuel _ _ _ _
                      (pending_owed _ _ _ _ Hinv2) Hok2) as Hrok.
        by rewrite Hrel in Hrok. }
      intros m3 Hrel [Hs3 Hok3].
      eapply IHouter; [by eapply release_pending | exact Hok3 | exact Hs3 | lia].
  - intros s h k v hash carys idx reprobe emax P Hinv Hok Hs HK -> Hset Hidx.
    rewrite add_probe_eq, checked_add_probe_eq. cbv zeta.
    destruct (refcount_inv_live _ _ _ _ (root_key_val_arys (root s)) Hinv)
      as (cg & Hcg); [by left|].
    assert (heap.lookup (mem s) (root_key_val_arys (root s)) = Done cg) as Hl
      by (by apply heap_lookup_Done).
    rewrite Hl. cbn [mbind result_bind rbind].
    destruct (Hok _ _ Hcg) as [Hwf HL].
    destruct (Hs _ _ Hcg) as [HF Hmask].
    assert (checked.arys_add sizeof_Val cg idx k v
            = arys_t.add sizeof_Val [] cg idx k v) as ->.
    { unfold checked.arys_add, checked.in_arys. rewrite HF.
      destruct (Z.leb_spec 0 idx); [|lia]. destruct (Z.ltb_spec idx (F (root_key_val_arys (root s)))); [|lia].
      done. }
    destruct (arys_add_total sizeof_Val [] cg idx k v Hwf) as (ok & cg' & Hadd).
    rewrite Hadd. cbn [mbind result_bind rbind].
    assert (∀ reprobe',
              0 <= thread_hash_counter.reprobe_idx idx reprobe' (arys_t.mod_mask cg)
                < F (root_key_val_arys (root s))) as Hnext.
    { intros reprobe'. destruct Hwf as (_ & (e & He & Hsize) & _).
      unfold thread_hash_counter.reprobe_idx.
      rewrite Hmask, <- HF, Hsize, land_mask by done.
      apply Z.mod_pos_bound. by apply Z.pow_pos_nonneg. }
    destruct ok.
    { split; [done|]. intros r [= <-]. cbn [fst set_mem mem].
      eapply sized_store; [done|done| |].
      - by rewrite (arys_add_size _ _ _ _ _ _ _ _ Hadd).
      - by rewrite (arys_add_mod_mask _ _ _ _ _ _ _ _ Hadd). }
    destruct (_ >? emax).
    + eapply (agree_bind (λ r, sized F (mem r.2) ∧ ok_heap (mem r.2)
                               ∧ refcount_inv None P (kva h) r.2)).
      { split; [done|]. intros [resized s1] Hres. cbn [snd].
        split; [by eapply resize_sized|]. split; [|by eapply resize_inv].
        pose proof (resize_no_fault sizeof_Val alloc limit sizeof_Val_pos limit_small
                      alloc_honest P (kva h) s h false Hinv Hok HK) as Hrok.
        by rewrite Hres in Hrok. }
      intros [resized s1] Hres (Hs1 & Hok1 & Hinv1). cbn [snd] in Hs1, Hok1, Hinv1.
      destruct resized.
      { by eapply IHouter. }
      apply resize_false in Hres as ->.
      destruct (_ >? _).
      * eapply (agree_bind (λ r, sized F (mem r.2) ∧ ok_heap (mem r.2)
                                 ∧ refcount_inv None P (kva h) r.2)).
        { split; [done|]. intros [r s2] Hres. cbn [snd].
          split; [by eapply resize_sized|]. split; [|by eapply resize_inv].
          pose proof (resize_no_fault sizeof_Val alloc limit sizeof_Val_pos limit_small
                        alloc_honest P (kva h) s h true Hinv Hok HK) as Hrok.
          by rewrite Hres in Hrok. }
        intros [r s2] Hres (Hs2 & Hok2 & Hinv2). cbn [snd] in Hs2, Hok2, Hinv2.
        by eapply IHouter.
      * rewrite Hl. cbn [mbind result_bind rbind].
        eapply IHprobe; [exact Hinv|done|done|done|done|done|apply Hnext].
    + eapply IHprobe; [exact Hinv|done|done|done|done|done|apply Hnext].
  - intros s h carys P Hinv Hok Hs HK Hin Hset.
    rewrite copy_chuncks_eq, checked_copy_chuncks_eq.
    destruct (refcount_inv_live _ _ _ _ carys Hinv) as (cg & Hcg); [by right; right|].
    assert (heap.lookup (mem s) carys = Done cg) as -> by (by apply heap_lookup_Done).
    cbn [mbind result_bind rbind].
    destruct (arys_t.get_chunck cg) as [cg' chunck] eqn:Hchunck. cbv zeta.
    pose proof (get_chunck_links _ _ _ Hchunck) as [Hnext Hcount].
    pose proof (get_chunck_geometry _ _ _ Hchunck) as (Hgsize & Hgmask & Hgkeys & Hgvals).
    pose proof (refcount_inv_store _ _ _ _ _ _ _ Hinv Hcg Hnext Hcount) as Hinv1.
    assert (ok_heap (heap.store (mem s) carys cg')) as Hok1
      by (by eapply heap_ok_store_ext).
    assert (sized F (heap.store (mem s) carys cg')) as Hs1
      by (by eapply sized_store).
    destruct chunck as [[start end_]|].
    2:{ split; [done|]. by intros r [= <-]. }
    destruct (Hok _ _ Hcg) as [Hwf _].
    assert (0 <= arys_t.size cg) as Hsz0
      by (pose proof (is_pow2_pos _ (proj1 (proj2 Hwf))); lia).
    destruct (get_chunck_within _ _ _ _ Hsz0 Hchunck) as [Hstart Hend].
    destruct (Hs _ _ Hcg) as [HF _].
    eapply (agree_bind (λ r, sized F (mem r.1))).
    { eapply IHslots; [exact Hinv1|done|done|done|done|done|done|lia]. }
    intros [s2 h2] Hslots Hs2. cbn [fst] in Hs2.
    destruct (RCslots _ _ _ _ _ _ _ _ Hslots Hinv1 Hset) as [Hinv2 Hset2].
    destruct (LMslots _ _ _ _ _ _ _ Hslots) as (_ & _ & HK2).
    pose proof (SFslots _ _ carys start end_ _ Hinv1 Hok1 HK Hin Hset) as Hok2.
    rewrite Hslots in Hok2. cbn [no_fault fst] in Hok2.
    eapply IHchuncks; [exact Hinv2 | done | done | lia | done | done].
  - intros s h carys i end_ P Hinv Hok Hs HK Hin Hset Hi Hend.
    rewrite copy_slots_eq, checked_copy_slots_eq.
    destruct (Z.ltb_spec i end_) as [Hlt|]; [|split; [done|]; by intros r [= <-]].
    destruct (refcount_inv_live _ _ _ _ carys Hinv) as (cg & Hcg); [by right; right|].
    assert (heap.lookup (mem s) carys = Done cg) as -> by (by apply heap_lookup_Done).
    cbn [mbind result_bind rbind].
    destruct (Hok _ _ Hcg) as [Hwf HL].
    destruct (Hs _ _ Hcg) as [HF _].
    assert (checked.arys_get cg i = arys_t.get cg i) as ->.
    { unfold checked.arys_get, checked.in_arys. rewrite HF.
      destruct (Z.leb_spec 0 i); [|lia]. destruct (Z.ltb_spec i (F carys)); [|lia].
      done. }
    destruct (arys_get_in_range cg i) as (r & ->);
      [apply Hwf | apply Hwf |].
    cbn [mbind result_bind rbind].
    assert (0 <= u64 (i + 1)) as Hi'
      by (unfold u64; apply Z.mod_pos_bound; done).
    destruct r as [[ckey cval]|];
      [|eapply IHslots; [exact Hinv|done|done|done|done|done|done|done]].
    eapply (agree_bind (λ r, sized F (mem r.1))).
    { by eapply IHouter. }
    intros [s1 h1] Hadd Hs1. cbn [fst] in Hs1.
    destruct (RCouter _ _ _ _ _ _ _ _ _ _ Hadd Hinv) as [Hinv1 Hset1].
    destruct (LMouter _ _ _ _ _ _ _ _ _ Hadd) as (_ & _ & HK1).
    pose proof (SFouter s h ckey cval (thread_hash_counter.hash_key sizeof_Key ckey) 0
                  (thread_hash_counter.max_reprobe h) _ Hinv Hok HK) as Hok1.
    rewrite Hadd in Hok1. cbn [no_fault fst] in Hok1. destruct Hok1 as [Hok1 _].
    eapply IHslots; [exact Hinv1 | done | done | lia | done | done | done | done].
  - intros s h carys P Hinv Hok Hs HK Hin Hset.
    rewrite copy_over_eq, checked_copy_over_eq.
    unfold thread_hash_counter.barrier_wait.
    destruct (_ =? 1); [|done]. cbn [mbind result_bind rbind].
    by eapply IHchuncks.
Qed.

End Bounds.


Lemma arys_new_mask sz alloc K n g :
  arys_t.new sz alloc K n = Done g -> arys_t.mod_mask g = u64 (arys_t.size g - 1).
Proof.
  unfold arys_t.new. destruct (arys_t.round_up _ _ _) as [S|]; [|done].
  destruct (alloc _); [|done]. by intros [= <-].
Qed.

(** A new table has one generation, at address 0; each generation
    made later has twice the slots of the one before. *)
Lemma new_table_sized sz alloc L K _size maxr nb s0 s1 h1 :
  1 <= sz < 2 ^ 62 -> alloc_ok sz L alloc -> 1 <= K -> sz * _size < 2 ^ 62 ->
  concurrent_hash_counter.new sz alloc K _size maxr nb = Done s0 ->
  thread_hash_counter.new s0 = Done (s1, h1) ->
  ∃ g, heap.objs (mem s1) !! 0%nat = Some g
       ∧ sized (λ a, arys_t.size g * 2 ^ Z.of_nat a) (mem s1).
Proof.
  intros Hsz Halloc HK Hsize H0 H1.
  destruct (new_table_ok _ _ _ _ _ _ _ _ _ _ Hsz Halloc HK Hsize H0 H1) as [Hok _].
  destruct (new_table_inv _ _ _ _ _ _ _ _ _ H0 H1) as [Hinv Hset].
  destruct (settled_one_live _ _ Hinv Hset) as (_ & Hbrk & Hout & g & Hg & _).
  assert (root_key_val_arys (root s1) = 0%nat) as Hhead.
  { unfold concurrent_hash_counter.new, thread_hash_counter.new_arys in H0.
    apply bind_Done in H0 as ([a m] & Hnew & H0).
    apply bind_Done in Hnew as (g1 & _ & Hnew). injection Hnew as <- <-.
    apply bind_Done in H0 as (g0 & _ & H0). injection H0 as <-.
    unfold thread_hash_counter.new in H1.
    apply bind_Done in H1 as (g2 & _ & H1). by injection H1 as <- <-. }
  rewrite Hhead in *.
  assert (arys_t.mod_mask g = arys_t.size g - 1) as Hmask.
  { destruct (Hok _ _ Hg) as [(_ & Hpow & Hle & _) _].
    pose proof (is_pow2_pos _ Hpow).
    unfold concurrent_hash_counter.new, thread_hash_counter.new_arys in H0.
    apply bind_Done in H0 as ([a m] & Hnew & H0).
    apply bind_Done in Hnew as (g1 & Hg1%arys_new_mask & Hnew). injection Hnew as <- <-.
    apply bind_Done in H0 as (g0 & Hg0%heap_lookup_Done & H0). injection H0 as <-.
    cbn in Hg0. rewrite lookup_insert_eq in Hg0. injection Hg0 as <-.
    unfold thread_hash_counter.new in H1. cbn [mem root root_key_val_arys] in H1.
    rewrite heap_lookup_store in H1. cbn [mbind result_bind rbind] in H1.
    injection H1 as <- <-. cbn in Hg. rewrite lookup_insert_eq in Hg.
    injection Hg as <-. cbn. cbn in Hle, H. rewrite Hg1.
    unfold u64. apply Z.mod_small. lia. }
  exists g. split; [done|].
  intros a g' Hg'. destruct (decide (a = 0%nat)) as [->|Hne].
  - assert (g' = g) as -> by congruence. cbn. lia.
  - rewrite Hout in Hg' by done. done.
Qed.

(** ** [add] stays within the arrays *)




(** X25: a table made by the constructors and used through one handle
    indexes no slot outside its arrays: for a size within reach of the
    allocator, whatever [add] calls are made, the run in which each slot
    index is checked against the size of the generation it indexes is
    the run of [add_all] itself, and it never faults. *)
Theorem table_stays_in_bounds
    sizeof_Key sizeof_Val alloc limit _key_len _size _max_reprobe nb_threads
    s0 s1 h1 fuel ops :
  1 <= sizeof_Val < 2 ^ 62 -> limit < 2 ^ 63 -> alloc_ok sizeof_Val limit alloc ->
  1 <= _key_len -> sizeof_Val * _size < 2 ^ 62 ->
  concurrent_hash_counter.new sizeof_Val alloc _key_len _size _max_reprobe nb_threads
    = Done s0 ->
  thread_hash_counter.new s0 = Done (s1, h1) ->
  checked.add_all sizeof_Key sizeof_Val alloc fuel s1 h1 ops
    = add_all sizeof_Key sizeof_Val alloc fuel s1 h1 ops
  ∧ checked.add_all sizeof_Key sizeof_Val alloc fuel s1 h1 ops ≠ Fault.
Proof.
  intros Hsz HL Halloc HK Hsize Hnew Hhandle.
  destruct (new_table_inv _ _ _ _ _ _ _ _ _ Hnew Hhandle) as [Hinv1 _].
  destruct (new_table_ok _ _ _ _ _ _ _ _ _ _ Hsz Halloc HK Hsize Hnew Hhandle)
    as [Hok1 HK1].
  destruct (new_table_sized _ _ _ _ _ _ _ _ _ _ Hsz Halloc HK Hsize Hnew Hhandle)
    as (g & _ & Hs1).
  assert (1 <= thread_hash_counter.key_len h1) as HKh by lia.
  assert (∀ a : nat, arys_t.size g * 2 ^ Z.of_nat (S a)
                     = 2 * (arys_t.size g * 2 ^ Z.of_nat a)) as HF.
  { intros a. rewrite Nat2Z.inj_succ, Z.pow_succ_r by lia. lia. }
  clear Hnew Hhandle HK1. revert s1 h1 Hinv1 Hok1 Hs1 HKh.
  induction ops as [|[k v] ops IH]; intros s h Hinv Hok Hs HKh; [done|].
  cbn [add_all checked.add_all].
  pose proof (proj1 (handle_bounds_frame sizeof_Key sizeof_Val alloc limit _
                       ltac:(lia) HL Halloc HF fuel)
                s h k v (thread_hash_counter.hash_key sizeof_Key k) 0
                (thread_hash_counter.max_reprobe h) [] Hinv Hok Hs HKh) as [Heq Hsized].
  pose proof (proj1 (handle_safe_frame sizeof_Key sizeof_Val alloc limit
                       ltac:(lia) HL Halloc fuel)
                s h k v (thread_hash_counter.hash_key sizeof_Key k) 0
                (thread_hash_counter.max_reprobe h) [] Hinv Hok HKh) as Hsafe.
  fold (thread_hash_counter.add sizeof_Key sizeof_Val alloc fuel s h k v)
    in Heq, Hsized, Hsafe.
  fold (checked.add sizeof_Key sizeof_Val alloc fuel s h k v) in Heq.
  rewrite Heq.
  destruct (thread_hash_counter.add sizeof_Key sizeof_Val alloc fuel s h k v)
    as [[s' h']| | | | |] eqn:Hadd; cbn [mbind result_bind rbind]; try done.
  destruct Hsafe as [Hok' _]. cbn [fst] in Hok'.
  destruct (add_refcount_inv _ _ _ _ _ _ _ _ _ _ _ Hadd Hinv) as [Hinv' _].
  destruct (proj1 (handle_limits_frame sizeof_Key sizeof_Val alloc fuel)
              _ _ _ _ _ _ _ _ _ Hadd) as (_ & _ & HK').
  apply IH; [done | done | exact (Hsized _ eq_refl) | lia].
Qed.

Lemma table_stays_in_bounds_witness :
  checked.add_all 8 4 (bounded_alloc 4 1024) 400 (fst life_start) (snd life_start) life_ops
    = Done life_filled
  ∧ (∃ g, heap.objs (mem (fst life_filled)) !! 1%nat = Some g ∧ arys_t.size g = 8).
Proof.
  destruct life_start_new as [Hroot Hhandle].
  destruct (table_stays_in_bounds 8 4 (bounded_alloc 4 1024) 1024 64 4 4 1
              life_root (fst life_start) (snd life_start) 400 life_ops)
    as [Heq _];
    [lia | lia | apply bounded_alloc_ok; lia | lia | lia | exact Hroot | exact Hhandle|].
  split.
  - rewrite Heq. vm_compute. reflexivity.
  - eexists. split; vm_compute; reflexivity.
Defined.
